(** * Three-way structural merge of generated JSX components

    A shallow embedding of [@plasmicapp/code-merger/src/index.ts]: the
    identity matcher ([findMatch]), the attribute merger ([mergeAttributes]),
    the children merger ([mergedChildren]), the visibility reconciler
    ([mergeShowFunc]), the node serializer, the import merger, the file
    assembler ([mergeFiles]) and the caching provider.

    Layout: Part I holds the definitions, Part II the theorems, Part III
    further properties of the code. *)

From stdpp Require Import strings list gmap.
From Stdlib Require Import String Ascii ZArith Lia Sorted DecimalString.
From Stdlib Require OrderedTypeEx DecimalN.

Open Scope string_scope.
Open Scope list_scope.

Set Warnings "-register-all".

(* ===================================================================== *)
(** * Part I. Definitions                                                 *)
(* ===================================================================== *)

(** ** Exceptions

    [assert], [ensure] and [assertEq] of [./common] throw when their argument
    is falsy.  A computation that may throw returns [Exc A]; the JavaScript
    value [undefined] is an ordinary result and is written with [option]
    inside [Ok].  [OutOfFuel] is produced only by the recursion bound of the
    node serializer and stands for no outcome of the program. *)

Inductive Exc (A : Type) : Type :=
| Ok (a : A)
| Throw
| OutOfFuel.
Arguments Ok {A} a.
Arguments Throw {A}.
Arguments OutOfFuel {A}.

Definition exc_bind {A B : Type} (m : Exc A) (k : A -> Exc B) : Exc B :=
  match m with
  | Ok a => k a
  | Throw => Throw
  | OutOfFuel => OutOfFuel
  end.

Notation "x <-! m ; k" := (exc_bind m (fun x => k))
  (at level 100, m at next level, right associativity).

Definition assert (b : bool) : Exc unit := if b then Ok tt else Throw.

Definition ensure {A : Type} (x : option A) : Exc A :=
  match x with
  | Some a => Ok a
  | None => Throw
  end.

Fixpoint exc_mapM {A B : Type} (f : A -> Exc B) (l : list A) : Exc (list B) :=
  match l with
  | [] => Ok []
  | a :: rest =>
      b <-! f a;
      bs <-! exc_mapM f rest;
      Ok (b :: bs)
  end.

(** ** Babel syntax trees

    The node kinds the merger inspects, and [Other] for every other kind (its
    sub-nodes in traversal order).  [JSXElement] flattens the opening element
    ([name], [attributes], [selfClosing]) into the element and keeps the
    source offset [start], which the visibility reconciler compares. *)

Inductive Node : Type :=
| Identifier (name : string)
| StringLiteral (value : string)
| BooleanLiteral (value : bool)
| NullLiteral
| MemberExpression (object property : Node)
| CallExpression (callee : Node) (arguments : list Node)
| LogicalExpression (operator : string) (left right : Node)
| JSXIdentifier (name : string)
| JSXNamespacedName (namespace name : string)
| JSXText (value : string)
| JSXExpressionContainer (expression : Node)
| JSXAttribute (name : Node) (value : option Node)
| JSXSpreadAttribute (argument : Node)
| JSXElement (start : option nat) (name : Node) (attributes : list Node)
    (selfClosing : bool) (closingElement : option Node) (children : list Node)
| JSXClosingElement (name : Node)
| JSXFragment (children : list Node)
| Other (type : string) (expression : bool) (parts : list Node).

(** [babel.types.isExpression]. *)
Definition isExpression (n : Node) : bool :=
  match n with
  | Identifier _ | StringLiteral _ | BooleanLiteral _ | NullLiteral
  | MemberExpression _ _ | CallExpression _ _ | LogicalExpression _ _ _
  | JSXElement _ _ _ _ _ _ | JSXFragment _ => true
  | Other _ e _ => e
  | _ => false
  end.

Definition isJSXElement (n : Node) : bool :=
  match n with JSXElement _ _ _ _ _ _ => true | _ => false end.

Definition isJSXFragment (n : Node) : bool :=
  match n with JSXFragment _ => true | _ => false end.

Definition isJSXExpressionContainer (n : Node) : bool :=
  match n with JSXExpressionContainer _ => true | _ => false end.

Definition node_start (n : Node) : option nat :=
  match n with JSXElement s _ _ _ _ _ => s | _ => None end.

(** Structural equality of trees.  Within one parsed file two JSX elements
    never share a [start], so on the nodes the merger compares with [===]
    (a JSX element of a version, or a wrapper that contains it) structural
    equality and object identity coincide. *)

Definition option_eqb {A : Type} (eqb : A -> A -> bool) (x y : option A) : bool :=
  match x, y with
  | Some a, Some b => eqb a b
  | None, None => true
  | _, _ => false
  end.

Fixpoint list_eqb {A : Type} (eqb : A -> A -> bool) (l1 l2 : list A) : bool :=
  match l1, l2 with
  | [], [] => true
  | a :: r1, b :: r2 => eqb a b && list_eqb eqb r1 r2
  | _, _ => false
  end.

(** [positions] tells whether source offsets take part in the comparison. *)
Fixpoint node_eqb_gen (positions : bool) (a b : Node) {struct a} : bool :=
  match a, b with
  | Identifier x, Identifier y => String.eqb x y
  | StringLiteral x, StringLiteral y => String.eqb x y
  | BooleanLiteral x, BooleanLiteral y => Bool.eqb x y
  | NullLiteral, NullLiteral => true
  | MemberExpression o1 p1, MemberExpression o2 p2 =>
      node_eqb_gen positions o1 o2 && node_eqb_gen positions p1 p2
  | CallExpression c1 a1, CallExpression c2 a2 =>
      node_eqb_gen positions c1 c2 && list_eqb (node_eqb_gen positions) a1 a2
  | LogicalExpression op1 l1 r1, LogicalExpression op2 l2 r2 =>
      String.eqb op1 op2 && node_eqb_gen positions l1 l2
      && node_eqb_gen positions r1 r2
  | JSXIdentifier x, JSXIdentifier y => String.eqb x y
  | JSXNamespacedName n1 x1, JSXNamespacedName n2 x2 =>
      String.eqb n1 n2 && String.eqb x1 x2
  | JSXText x, JSXText y => String.eqb x y
  | JSXExpressionContainer e1, JSXExpressionContainer e2 =>
      node_eqb_gen positions e1 e2
  | JSXAttribute n1 v1, JSXAttribute n2 v2 =>
      node_eqb_gen positions n1 n2 && option_eqb (node_eqb_gen positions) v1 v2
  | JSXSpreadAttribute a1, JSXSpreadAttribute a2 => node_eqb_gen positions a1 a2
  | JSXElement s1 n1 at1 sc1 ce1 ch1, JSXElement s2 n2 at2 sc2 ce2 ch2 =>
      (negb positions || option_eqb Nat.eqb s1 s2)
      && node_eqb_gen positions n1 n2
      && list_eqb (node_eqb_gen positions) at1 at2
      && Bool.eqb sc1 sc2 && option_eqb (node_eqb_gen positions) ce1 ce2
      && list_eqb (node_eqb_gen positions) ch1 ch2
  | JSXClosingElement n1, JSXClosingElement n2 => node_eqb_gen positions n1 n2
  | JSXFragment c1, JSXFragment c2 => list_eqb (node_eqb_gen positions) c1 c2
  | Other t1 e1 p1, Other t2 e2 p2 =>
      String.eqb t1 t2 && Bool.eqb e1 e2 && list_eqb (node_eqb_gen positions) p1 p2
  | _, _ => false
  end.

Definition node_eqb : Node -> Node -> bool := node_eqb_gen true.

(** Modelled from the spec: [nodesDeepEqualIgnoreComments] of [./utils],
    "deep equal ignoring comments".  The trees of this development carry no
    comments; source offsets are left out of the comparison, as the same
    attribute sits at different offsets in different versions. *)
Definition deepEqualIgnoreComments : Node -> Node -> bool := node_eqb_gen false.

(** ** The classified tree ([./plasmic-ast])

    [oid] is the identity of the JavaScript object: [Array.prototype.includes]
    in the children merger compares classified nodes by identity. *)

Inductive PlasmicASTNode : Type :=
| PlasmicText (oid : nat) (rawNode : Node) (value : string)
| PlasmicStringLit (oid : nat) (rawNode : Node) (value : string)
| PlasmicArg (oid : nat) (rawNode : Node) (argName : string)
    (jsxNodes : list PlasmicTagOrComponent)
| PlasmicCondStrCall (oid : nat) (rawNode : Node)
| PlasmicTag (oid : nat) (node : PlasmicTagOrComponent)
| PlasmicOpaque (oid : nat) (rawNode : Node)
with PlasmicTagOrComponent : Type :=
| TagOrComponent (rawNode : Node) (jsxElement : PlasmicJsxElement)
with PlasmicJsxElement : Type :=
| JsxElement (nameInId : string) (rawNode : Node)
    (attrs : list (string + string * PlasmicASTNode))
    (children : list PlasmicASTNode).

(** The [type] tag of a classified node. *)
Inductive Variant : Type :=
| Vtext | Vstring_lit | Varg | Vcond_str_call | Vtag_or_component | Vopaque.

#[global] Instance Variant_eq_dec : EqDecision Variant.
Proof. solve_decision. Defined.

Definition node_type (n : PlasmicASTNode) : Variant :=
  match n with
  | PlasmicText _ _ _ => Vtext
  | PlasmicStringLit _ _ _ => Vstring_lit
  | PlasmicArg _ _ _ _ => Varg
  | PlasmicCondStrCall _ _ => Vcond_str_call
  | PlasmicTag _ _ => Vtag_or_component
  | PlasmicOpaque _ _ => Vopaque
  end.

Definition node_oid (n : PlasmicASTNode) : nat :=
  match n with
  | PlasmicText o _ _ | PlasmicStringLit o _ _ | PlasmicArg o _ _ _
  | PlasmicCondStrCall o _ | PlasmicTag o _ | PlasmicOpaque o _ => o
  end.

Definition tag_rawNode (t : PlasmicTagOrComponent) : Node :=
  match t with TagOrComponent r _ => r end.

Definition tag_jsxElement (t : PlasmicTagOrComponent) : PlasmicJsxElement :=
  match t with TagOrComponent _ j => j end.

Definition jsx_nameInId (j : PlasmicJsxElement) : string :=
  match j with JsxElement n _ _ _ => n end.

Definition jsx_rawNode (j : PlasmicJsxElement) : Node :=
  match j with JsxElement _ r _ _ => r end.

Definition jsx_attrs (j : PlasmicJsxElement)
  : list (string + string * PlasmicASTNode) :=
  match j with JsxElement _ _ a _ => a end.

Definition jsx_children (j : PlasmicJsxElement) : list PlasmicASTNode :=
  match j with JsxElement _ _ _ c => c end.

Definition node_rawNode (n : PlasmicASTNode) : Node :=
  match n with
  | PlasmicText _ r _ | PlasmicStringLit _ r _ | PlasmicArg _ r _ _
  | PlasmicCondStrCall _ r | PlasmicOpaque _ r => r
  | PlasmicTag _ t => tag_rawNode t
  end.

(** [value] of a [text] or [string-lit] node. *)
Definition text_value (n : PlasmicASTNode) : option string :=
  match n with
  | PlasmicText _ _ v | PlasmicStringLit _ _ v => Some v
  | _ => None
  end.

(** ** Identity matcher: [findMatch] *)

Inductive MatchResult : Type :=
| perfect (index : nat)
| type_match (index : nat)
| none.

#[global] Instance MatchResult_eq_dec : EqDecision MatchResult.
Proof. solve_decision. Defined.

(** What one iteration of a [findMatch] loop does with [nodes[i]]. *)
Inductive Iteration : Type :=
| ReturnPerfect      (* return { type: "perfect", index: i } *)
| RecordType         (* if (matchingTypeAt === -1) matchingTypeAt = i *)
| NextIndex.

(** [for (let i = start; i < nodes.length; i++) { body }] followed by the
    final [return]; [l] is [nodes] from index [i] on, and [matchingTypeAt]
    is [None] for the sentinel [-1]. *)
Fixpoint findMatch_loop (body : PlasmicASTNode -> Iteration)
    (l : list PlasmicASTNode) (i : nat) (matchingTypeAt : option nat)
  : MatchResult :=
  match l with
  | [] =>
      match matchingTypeAt with
      | Some j => type_match j
      | None => none
      end
  | ni :: rest =>
      match body ni with
      | ReturnPerfect => perfect i
      | RecordType =>
          findMatch_loop body rest (S i)
            (match matchingTypeAt with None => Some i | Some j => Some j end)
      | NextIndex => findMatch_loop body rest (S i) matchingTypeAt
      end
  end.

Definition findMatch (nodes : list PlasmicASTNode) (start : nat)
    (idMatchChecker : string -> string -> bool) (n : PlasmicASTNode)
  : MatchResult :=
  match n with
  | PlasmicText _ _ value | PlasmicStringLit _ _ value =>
      findMatch_loop
        (fun ni =>
           match ni with
           | PlasmicText _ _ v | PlasmicStringLit _ _ v =>
               if String.eqb v value then ReturnPerfect else RecordType
           | _ => NextIndex
           end)
        (drop start nodes) start None
  | PlasmicArg _ _ argName _ =>
      findMatch_loop
        (fun ni =>
           match ni with
           | PlasmicArg _ _ a _ =>
               if String.eqb argName a then ReturnPerfect else RecordType
           | _ => NextIndex
           end)
        (drop start nodes) start None
  | PlasmicCondStrCall _ _ =>
      findMatch_loop
        (fun ni =>
           match ni with
           | PlasmicCondStrCall _ _ => ReturnPerfect
           | _ => RecordType
           end)
        (drop start nodes) start None
  | PlasmicTag _ t =>
      findMatch_loop
        (fun ni =>
           match ni with
           | PlasmicTag _ ti =>
               if idMatchChecker (jsx_nameInId (tag_jsxElement ti))
                    (jsx_nameInId (tag_jsxElement t))
               then ReturnPerfect else RecordType
           | _ => RecordType
           end)
        (drop start nodes) start None
  | PlasmicOpaque _ _ => none
  end.

(** Vocabulary for stating where a match is found: [i] is the first index at
    or after [start] whose node satisfies [P]; no node at or after [start]
    satisfies [P]. *)
Definition first_from (P : PlasmicASTNode -> Prop) (nodes : list PlasmicASTNode)
    (start i : nat) : Prop :=
  start <= i /\ (exists n, nodes !! i = Some n /\ P n) /\
  forall j n, start <= j < i -> nodes !! j = Some n -> ~ P n.

Definition none_from (P : PlasmicASTNode -> Prop) (nodes : list PlasmicASTNode)
    (start : nat) : Prop :=
  forall j n, start <= j -> nodes !! j = Some n -> ~ P n.

(** A [string-lit] child holding ["a"], and a [text] probe holding ["a"]. *)
Definition ex_strlit_a : PlasmicASTNode :=
  PlasmicStringLit 1 (JSXExpressionContainer (StringLiteral "a")) "a".
Definition ex_text_a : PlasmicASTNode := PlasmicText 2 (JSXText "a") "a".
Definition ex_cond_call : PlasmicASTNode :=
  PlasmicCondStrCall 3 (CallExpression (MemberExpression (Identifier "rh") (Identifier "condStr")) []).

(** ** Helpers of the modules outside [index.ts] *)

(** Modelled from the spec: [helperObject] of [./plasmic-parser], the helper
    object under which the managed members live ("here named [rh]"). *)
Definition helperObject : string := "rh".

(** Modelled from the spec: [memberExpressionMatch] of [./plasmic-parser],
    "member expression under the helper object": the node is the member
    expression [object.member]. *)
Definition memberExpressionMatch (n : Node) (object member : string) : bool :=
  match n with
  | MemberExpression (Identifier o) (Identifier p) =>
      String.eqb o object && String.eqb p member
  | _ => false
  end.

(** Modelled from the spec: [calleeMatch] of [./plasmic-parser], the callee
    of a managed call [rh.clsX()], [rh.propsX(...)], [rh.showX()]. *)
Definition calleeMatch (callee : Node) (object member : string) : bool :=
  memberExpressionMatch callee object member.

(** Modelled from the spec: [makeMemberExpression] of [./plasmic-parser],
    the reference [object.member]. *)
Definition makeMemberExpression (object member : string) : Node :=
  MemberExpression (Identifier object) (Identifier member).

(** Modelled from the spec: [makeCallExpression] of [./plasmic-ast], the call
    [object.member()] without arguments, as in [className={rh.clsX()}]. *)
Definition makeCallExpression (object member : string) : Node :=
  CallExpression (makeMemberExpression object member) [].

(** Modelled from the spec: [wrapInJsxExprContainer] of [./plasmic-ast],
    "wrap in a JSX expression container". *)
Definition wrapInJsxExprContainer (expr : Node) : Node :=
  JSXExpressionContainer expr.

(** Modelled from the spec: [cloneDeepWithHook] of [./cloneDeepWithHook],
    "deep clone this subtree, but if the hook returns a replacement for a
    node, use that replacement and do not descend into it". *)
Fixpoint cloneDeepWithHook (hook : Node -> option Node) (n : Node) : Node :=
  match hook n with
  | Some replacement => replacement
  | None =>
      match n with
      | MemberExpression o p =>
          MemberExpression (cloneDeepWithHook hook o) (cloneDeepWithHook hook p)
      | CallExpression c args =>
          CallExpression (cloneDeepWithHook hook c)
            (List.map (cloneDeepWithHook hook) args)
      | LogicalExpression op l r =>
          LogicalExpression op (cloneDeepWithHook hook l) (cloneDeepWithHook hook r)
      | JSXExpressionContainer e =>
          JSXExpressionContainer (cloneDeepWithHook hook e)
      | JSXAttribute name value =>
          JSXAttribute (cloneDeepWithHook hook name)
            (option_map (cloneDeepWithHook hook) value)
      | JSXSpreadAttribute a => JSXSpreadAttribute (cloneDeepWithHook hook a)
      | JSXElement s name attributes sc ce children =>
          JSXElement s (cloneDeepWithHook hook name)
            (List.map (cloneDeepWithHook hook) attributes) sc
            (option_map (cloneDeepWithHook hook) ce)
            (List.map (cloneDeepWithHook hook) children)
      | JSXClosingElement name => JSXClosingElement (cloneDeepWithHook hook name)
      | JSXFragment children =>
          JSXFragment (List.map (cloneDeepWithHook hook) children)
      | Other t e parts => Other t e (List.map (cloneDeepWithHook hook) parts)
      | Identifier _ | StringLiteral _ | BooleanLiteral _ | NullLiteral
      | JSXIdentifier _ | JSXNamespacedName _ _ | JSXText _ => n
      end
  end.

(** The hook [n => n === target ? replacement : undefined]. *)
Definition replaceNode (target replacement : Node) : Node -> option Node :=
  fun n => if node_eqb n target then Some replacement else None.

(** ** JavaScript [Map] with string keys

    Iteration follows insertion order and [set] on a present key keeps the
    key's position, so a [Map] is an association list updated in place. *)
Fixpoint map_set {V : Type} (k : string) (v : V) (m : list (string * V))
  : list (string * V) :=
  match m with
  | [] => [(k, v)]
  | (k', v') :: rest =>
      if String.eqb k' k then (k', v) :: rest else (k', v') :: map_set k v rest
  end.

Fixpoint map_get {V : Type} (k : string) (m : list (string * V)) : option V :=
  match m with
  | [] => None
  | (k', v') :: rest => if String.eqb k' k then Some v' else map_get k rest
  end.

(** ** Versions

    Modelled from the spec: [CodeVersion] of [./plasmic-parser], the record of
    a version: its classified root, the index by identifier ([getId],
    [findNode]), the entity identifier [getUuid] and the three predicates. *)
Record CodeVersion : Type := {
  root : PlasmicASTNode;
  getId : PlasmicTagOrComponent -> string;
  findNode : string -> option PlasmicTagOrComponent;
  getUuid : string -> string;
  hasClassNameIdAttr : PlasmicTagOrComponent -> bool;
  hasPropsIdSpreador : PlasmicTagOrComponent -> bool;
  hasShowFuncCall : PlasmicTagOrComponent -> bool
}.

(** The [idMatchChecker] closures: equal names, or equal entity identifiers
    ([idInNodes] is looked up in [nodesVersion], [idInN] in the edited
    version). *)
Definition idMatchChecker (nodesVersion editedVersion : CodeVersion)
    (idInNodes idInN : string) : bool :=
  String.eqb idInNodes idInN
  || String.eqb (getUuid editedVersion idInN) (getUuid nodesVersion idInNodes).

(** ** Attribute merger *)

(** [jsxElement.openingElement.attributes] and [jsxElement.children]. *)
Definition jsx_attributes (jsxElement : Node) : list Node :=
  match jsxElement with
  | JSXElement _ _ attributes _ _ _ => attributes
  | _ => []
  end.

Definition jsx_element_children (jsxElement : Node) : list Node :=
  match jsxElement with
  | JSXElement _ _ _ _ _ children => children
  | _ => []
  end.

Fixpoint getNamedAttrs_loop (attributes : list Node) (attrs : list (string * Node))
  : Exc (list (string * Node)) :=
  match attributes with
  | [] => Ok attrs
  | attr :: rest =>
      match attr with
      | JSXAttribute (JSXIdentifier name) _ =>
          getNamedAttrs_loop rest (map_set name attr attrs)
      | JSXAttribute _ _ => Throw   (* assert(L.isString(attr.name.name)) *)
      | _ => getNamedAttrs_loop rest attrs
      end
  end.

Definition getNamedAttrs (jsxElement : Node) : Exc (list (string * Node)) :=
  getNamedAttrs_loop (jsx_attributes jsxElement) [].

Fixpoint findAttrValueNode (name : string)
    (attrs : list (string + string * PlasmicASTNode)) : option PlasmicASTNode :=
  match attrs with
  | [] => None
  | inl _ :: rest => findAttrValueNode name rest
  | inr (n, v) :: rest =>
      if String.eqb n name then Some v else findAttrValueNode name rest
  end.

Inductive Resolution : Type :=
| emit_edited
| emit_both
| emit_new.

#[global] Instance Resolution_eq_dec : EqDecision Resolution.
Proof. solve_decision. Defined.

(** [name.startsWith(prefix)] and [name.substring(n)]. *)
Definition startsWith (s prefix : string) : bool := String.prefix prefix s.
Definition substring_from (n : nat) (s : string) : string :=
  substring n (String.length s - n) s.

Definition isMemberExpression (n : Node) : bool :=
  match n with MemberExpression _ _ => true | _ => false end.

(** [attr.name] of a JSX attribute. *)
Definition attr_name (attr : Node) : Node :=
  match attr with
  | JSXAttribute name _ => name
  | _ => attr
  end.

(** [cloned.property.name = name] on a member expression. *)
Definition set_property_name (callee : Node) (name : string) : Node :=
  match callee with
  | MemberExpression o (Identifier _) => MemberExpression o (Identifier name)
  | _ => callee
  end.

(** [className={rh.cls<nodeId>()}] and [{...rh.props<nodeId>()}]. *)
Definition classNameAttr (nodeId : string) : Node :=
  JSXAttribute (JSXIdentifier "className")
    (Some (JSXExpressionContainer (makeCallExpression helperObject ("cls" +:+ nodeId)))).

Definition propsSpreadAttr (nodeId : string) : Node :=
  JSXSpreadAttribute (makeCallExpression helperObject ("props" +:+ nodeId)).

(** The hook of [emitAttrInEditedNode]: the reference
    [rh.on<editedNodeId><event>] becomes [rh.on<newNodeId><event>]. *)
Definition renameHandlerHook (editedNodeId newNodeId eventNameInId : string)
  : Node -> option Node :=
  fun n =>
    if memberExpressionMatch n helperObject ("on" +:+ editedNodeId +:+ eventNameInId)
    then Some (makeMemberExpression helperObject ("on" +:+ newNodeId +:+ eventNameInId))
    else None.

Section AttributeMerger.
(** [nodesDeepEqualIgnoreComments] of [./utils], and the recursive call
    [serializePlasmicASTNode(_, newVersion, editedVersion, baseVersion)]. *)
Variable nodesDeepEqualIgnoreComments : Node -> Node -> bool.
Variable serializePlasmicASTNode : PlasmicASTNode -> Exc (option Node).

Definition conflictResolution (name : string) (baseAttr : option Node)
    (editedAttr newAttr : Node) : Resolution :=
  if nodesDeepEqualIgnoreComments editedAttr newAttr then emit_edited
  else match baseAttr with
       | None => emit_both
       | Some baseAttr =>
           if nodesDeepEqualIgnoreComments baseAttr editedAttr then emit_new
           else if startsWith name "on"
                   || nodesDeepEqualIgnoreComments baseAttr newAttr
                then emit_edited
                else emit_both
       end.

Variables newNode editedNode baseNode : PlasmicTagOrComponent.
Variables newVersion editedVersion baseVersion : CodeVersion.

Let editedNodeId : string := jsx_nameInId (tag_jsxElement editedNode).
Let newNodeId : string := jsx_nameInId (tag_jsxElement newNode).

Section WithNamedAttrs.
Variables newNamedAttrs editedNamedAttrs baseNamedAttrs : list (string * Node).

(** The callback of [newNamedAttrs.forEach] in [newAttrsBeforeIdNode]:
    what one named attribute of the new node pushes. *)
Definition newAttrsBeforeIdNode_step (entry : string * Node) : Exc (list Node) :=
  let '(name, attr) := entry in
  if String.eqb name "className" then Ok []
  else
    let editedAttr := map_get name editedNamedAttrs in
    let baseAttr := map_get name baseNamedAttrs in
    match editedAttr with
    | Some editedAttr =>
        match conflictResolution name baseAttr editedAttr attr with
        | emit_both | emit_new => Ok [attr]
        | emit_edited => Ok []
        end
    | None =>
        match baseAttr with
        | None =>
            attrValueNode <-!
              ensure (findAttrValueNode name (jsx_attrs (tag_jsxElement newNode)));
            _ <-! assert (isJSXExpressionContainer (node_rawNode attrValueNode));
            serialized <-! serializePlasmicASTNode attrValueNode;
            mergedNewValue <-! ensure serialized;
            _ <-! assert (isJSXExpressionContainer mergedNewValue);
            Ok [JSXAttribute (attr_name attr) (Some mergedNewValue)]
        | Some _ => Ok []
        end
    end.

Definition newAttrsBeforeIdNode : Exc (list Node) :=
  pushed <-! exc_mapM newAttrsBeforeIdNode_step newNamedAttrs;
  Ok (List.concat pushed).

Definition emitAttrInEditedNode (name : string) (editedAttr : Node)
  : option Node :=
  let newAttr := map_get name newNamedAttrs in
  let baseAttr := map_get name baseNamedAttrs in
  match newAttr with
  | Some newAttr =>
      match conflictResolution name baseAttr editedAttr newAttr with
      | emit_new => None
      | emit_both | emit_edited =>
          if startsWith name "on" && negb (String.eqb editedNodeId newNodeId)
          then
            let eventNameInId := substring_from 2 name in
            Some (cloneDeepWithHook
                    (renameHandlerHook editedNodeId newNodeId eventNameInId)
                    editedAttr)
          else Some editedAttr
      end
  | None =>
      match baseAttr with
      | None => Some editedAttr
      | Some _ => None
      end
  end.

(** The body of the loop over the attributes of the edited element: what
    one attribute pushes onto [mergedAttrs]. *)
Definition mergeAttributes_step (attrInEditedNode : Node) : Exc (list Node) :=
  let newNodeHasPropsWithIdSpreador := hasPropsIdSpreador newVersion newNode in
  match attrInEditedNode with
  | JSXSpreadAttribute arg =>
      match arg with
      | CallExpression callee arguments =>
          if calleeMatch callee helperObject ("props" +:+ editedNodeId) then
            _ <-! assert (isMemberExpression callee);
            if newNodeHasPropsWithIdSpreador then
              (* the hook fires at [arg.callee], the rest is cloned *)
              Ok [JSXSpreadAttribute
                    (CallExpression
                       (set_property_name callee ("props" +:+ newNodeId))
                       arguments)]
            else
              match arguments with
              | [] => Ok [classNameAttr newNodeId]
              | _ :: _ => Ok [classNameAttr newNodeId; attrInEditedNode]
              end
          else Ok [attrInEditedNode]
      | _ => Ok [attrInEditedNode]
      end
  | JSXAttribute nameNode value =>
      attrName <-!
        match nameNode with
        | JSXIdentifier name => Ok name
        | JSXNamespacedName _ name => Ok name
        | _ => Throw
        end;
      let managedClassName :=
        String.eqb attrName "className"
        && match value with
           | Some (JSXExpressionContainer (CallExpression callee _)) =>
               calleeMatch callee helperObject ("cls" +:+ editedNodeId)
           | _ => false
           end in
      if managedClassName then
        if newNodeHasPropsWithIdSpreador
        then Ok [propsSpreadAttr newNodeId]
        else Ok [classNameAttr newNodeId]
      else
        match emitAttrInEditedNode attrName attrInEditedNode with
        | Some toEmit => Ok [toEmit]
        | None => Ok []
        end
  | _ => Throw
  end.
End WithNamedAttrs.

Definition mergeAttributes : Exc (list Node) :=
  let newNodeHasClassNameAttr := hasClassNameIdAttr newVersion newNode in
  let newNodeHasPropsWithIdSpreador := hasPropsIdSpreador newVersion newNode in
  _ <-! assert (xorb newNodeHasPropsWithIdSpreador newNodeHasClassNameAttr);
  newNamedAttrs <-! getNamedAttrs (jsx_rawNode (tag_jsxElement newNode));
  editedNamedAttrs <-! getNamedAttrs (jsx_rawNode (tag_jsxElement editedNode));
  baseNamedAttrs <-! getNamedAttrs (jsx_rawNode (tag_jsxElement baseNode));
  mergedAttrs <-!
    newAttrsBeforeIdNode newNamedAttrs editedNamedAttrs baseNamedAttrs;
  pushed <-!
    exc_mapM (mergeAttributes_step newNamedAttrs baseNamedAttrs)
      (jsx_attributes (jsx_rawNode (tag_jsxElement editedNode)));
  Ok (mergedAttrs ++ List.concat pushed).
End AttributeMerger.

(** ** Children merger *)

(** [array.splice(index, 0, x)]. *)
Definition splice {A : Type} (l : list A) (index : nat) (x : A) : list A :=
  take index l ++ x :: drop index l.

(** [array.includes(c)] on classified nodes: object identity. *)
Definition includes (l : list PlasmicASTNode) (c : PlasmicASTNode) : bool :=
  existsb (fun c' => Nat.eqb (node_oid c') (node_oid c)) l.

(** [withoutNils] of [./common]. *)
Definition withoutNils {A : Type} (l : list (option A)) : list A :=
  omap id l.

(** [for each (x, i) of l] threading a state, as [l.forEach((x, i) => ...)]
    with the closure's variables as the state; [i] is the index of the head
    of [l]. *)
Fixpoint forEach_indexed {A St : Type} (f : St -> A -> nat -> St) (l : list A)
    (i : nat) (s : St) : St :=
  match l with
  | [] => s
  | x :: rest => forEach_indexed f rest (S i) (f s x i)
  end.

Section ChildrenMerger.
(** The recursive call
    [serializeNonOpaquePlasmicASTNode(_, newVersion, editedVersion, baseVersion)]. *)
Variable serializeNonOpaquePlasmicASTNode : PlasmicASTNode -> Exc (option Node).
Variables newNode editedNode baseNode : PlasmicTagOrComponent.
Variables newVersion editedVersion baseVersion : CodeVersion.

(** The state of the loop: [merged] and [nextInsertStartAt]. *)
Definition insertEditedNodeIntoNew (st : list PlasmicASTNode * nat)
    (editedChild : PlasmicASTNode) (prevEditedChild : option PlasmicASTNode)
  : list PlasmicASTNode * nat :=
  let '(merged, nextInsertStartAt) := st in
  match prevEditedChild with
  | None => (splice merged 0 editedChild, 1)
  | Some prevEditedChild =>
      match findMatch merged nextInsertStartAt
              (idMatchChecker newVersion editedVersion) prevEditedChild with
      | perfect index | type_match index =>
          (splice merged (index + 1) editedChild, index + 2)
      | none =>
          (splice merged nextInsertStartAt editedChild, nextInsertStartAt + 1)
      end
  end.

(** [editedChildren[i - 1]]. *)
Definition previousChild (editedChildren : list PlasmicASTNode) (i : nat)
  : option PlasmicASTNode :=
  match i with
  | 0 => None
  | S j => editedChildren !! j
  end.

(** The callback of [editedChildren.forEach]. *)
Definition mergedChildren_step (editedChildren : list PlasmicASTNode)
    (st : list PlasmicASTNode * nat) (editedChild : PlasmicASTNode) (i : nat)
  : list PlasmicASTNode * nat :=
  let '(merged, nextInsertStartAt) := st in
  match node_type editedChild with
  | Vtext | Vstring_lit =>
      match findMatch merged nextInsertStartAt
              (idMatchChecker newVersion editedVersion) editedChild with
      | perfect index => (merged, index + 1)
      | _ =>
          match findMatch (jsx_children (tag_jsxElement baseNode)) 0
                  (idMatchChecker baseVersion editedVersion) editedChild with
          | perfect _ => st
          | _ =>
              insertEditedNodeIntoNew st editedChild
                (previousChild editedChildren i)
          end
      end
  | Vopaque =>
      insertEditedNodeIntoNew st editedChild (previousChild editedChildren i)
  | _ => st
  end.

(** [merged] and [nextInsertStartAt] once the first [k] edited children
    have been visited; all of them for [k] beyond the length. *)
Definition mergedChildren_state (k : nat) : list PlasmicASTNode * nat :=
  let editedChildren := jsx_children (tag_jsxElement editedNode) in
  forEach_indexed (mergedChildren_step editedChildren)
    (take k editedChildren) 0
    (jsx_children (tag_jsxElement newNode), 0).

Definition mergedChildren_list : list PlasmicASTNode :=
  fst (mergedChildren_state
         (List.length (jsx_children (tag_jsxElement editedNode)))).

(** The callback of [merged.map]. *)
Definition mergedChildren_emit (c : PlasmicASTNode) : Exc (option Node) :=
  let newChildren := jsx_children (tag_jsxElement newNode) in
  if negb (includes newChildren c) then Ok (Some (node_rawNode c))
  else
    match c with
    | PlasmicOpaque _ rawNode => Ok (Some rawNode)
    | _ =>
        n <-! serializeNonOpaquePlasmicASTNode c;
        match n with
        | None => Ok None
        | Some n =>
            if isExpression n then
              if negb (isJSXElement n) && negb (isJSXFragment n)
              then Ok (Some (JSXExpressionContainer n))
              else Ok (Some n)
            else Ok (Some n)
        end
    end.

Definition mergedChildren : Exc (list Node) :=
  emitted <-! exc_mapM mergedChildren_emit mergedChildren_list;
  Ok (withoutNils emitted).
End ChildrenMerger.

(** ** Visibility reconciler *)

(** [traverse(node, visitors)] of [@babel/traverse] visits the descendants of
    [node] in source order, parents before children, and not [node] itself.
    [visit] receives whether the visited node is a child of a JSX element or
    fragment, and the traversal state. *)
Section Traverse.
Context {St : Type}.
Variable visit : bool -> St -> Node -> St * Node.

Fixpoint traverse_list (inHtml : bool) (s : St) (l : list Node)
  : St * list Node :=
  match l with
  | [] => (s, [])
  | n :: rest =>
      let '(s1, n') := visit inHtml s n in
      let '(s2, rest') := traverse_list inHtml s1 rest in
      (s2, n' :: rest')
  end.

Definition traverse_option (s : St) (o : option Node) : St * option Node :=
  match o with
  | None => (s, None)
  | Some n => let '(s1, n') := visit false s n in (s1, Some n')
  end.

Definition traverse (s : St) (n : Node) : St * Node :=
  match n with
  | MemberExpression o p =>
      let '(s1, o') := visit false s o in
      let '(s2, p') := visit false s1 p in
      (s2, MemberExpression o' p')
  | CallExpression c args =>
      let '(s1, c') := visit false s c in
      let '(s2, args') := traverse_list false s1 args in
      (s2, CallExpression c' args')
  | LogicalExpression op l r =>
      let '(s1, l') := visit false s l in
      let '(s2, r') := visit false s1 r in
      (s2, LogicalExpression op l' r')
  | JSXExpressionContainer e =>
      let '(s1, e') := visit false s e in (s1, JSXExpressionContainer e')
  | JSXAttribute name value =>
      let '(s1, name') := visit false s name in
      let '(s2, value') := traverse_option s1 value in
      (s2, JSXAttribute name' value')
  | JSXSpreadAttribute a =>
      let '(s1, a') := visit false s a in (s1, JSXSpreadAttribute a')
  | JSXElement st name attributes sc ce children =>
      let '(s1, name') := visit false s name in
      let '(s2, attributes') := traverse_list false s1 attributes in
      let '(s3, children') := traverse_list true s2 children in
      let '(s4, ce') := traverse_option s3 ce in
      (s4, JSXElement st name' attributes' sc ce' children')
  | JSXClosingElement name =>
      let '(s1, name') := visit false s name in (s1, JSXClosingElement name')
  | JSXFragment children =>
      let '(s1, children') := traverse_list true s children in
      (s1, JSXFragment children')
  | Other t e parts =>
      let '(s1, parts') := traverse_list false s parts in (s1, Other t e parts')
  | Identifier _ | StringLiteral _ | BooleanLiteral _ | NullLiteral
  | JSXIdentifier _ | JSXNamespacedName _ _ | JSXText _ => (s, n)
  end.
End Traverse.

(** [call.callee.property = property]. *)
Definition set_property (callee property : Node) : Node :=
  match callee with
  | MemberExpression o _ => MemberExpression o property
  | _ => callee
  end.

Definition makeJsxElementWithShowCall (jsxElement : Node) (nodeId : string) : Node :=
  LogicalExpression "&&" (makeCallExpression helperObject ("show" +:+ nodeId))
    jsxElement.

(** The [CallExpression] visitor of [mergeShowFunc]; the state is
    [replacedShowCall].  A matching call is renamed or replaced by [true] and
    its sub-nodes are skipped. *)
Fixpoint showCallVisitor (editedNodeId newNodeId : string)
    (newNodeCallShowFunc : bool) (inHtml : bool) (replacedShowCall : bool)
    (n : Node) {struct n} : bool * Node :=
  match n with
  | CallExpression callee arguments =>
      if calleeMatch callee helperObject ("show" +:+ editedNodeId) then
        (true,
         if newNodeCallShowFunc
         then CallExpression
                (set_property callee (Identifier ("show" +:+ newNodeId))) arguments
         else BooleanLiteral true)
      else
        traverse (showCallVisitor editedNodeId newNodeId newNodeCallShowFunc)
          replacedShowCall n
  | _ =>
      traverse (showCallVisitor editedNodeId newNodeId newNodeCallShowFunc)
        replacedShowCall n
  end.

(** Modelled from the spec: [isInHtmlContext] of [./plasmic-parser], "in HTML
    context": the visited node is a child of a JSX element or fragment.

    The [JSXElement] visitor of [mergeShowFunc]; the state tells whether the
    traversal has been stopped. *)
Fixpoint showWrapVisitor (start : option nat) (newNodeId : string)
    (inHtmlContext : bool) (stopped : bool) (n : Node) {struct n} : bool * Node :=
  if stopped then (true, n)
  else
    match n with
    | JSXElement s _ _ _ _ _ =>
        if option_eqb Nat.eqb s start then
          let expr := makeJsxElementWithShowCall n newNodeId in
          (true, if inHtmlContext then wrapInJsxExprContainer expr else expr)
        else traverse (showWrapVisitor start newNodeId) stopped n
    | _ => traverse (showWrapVisitor start newNodeId) stopped n
    end.

Definition mergeShowFunc (newNode editedNode : PlasmicTagOrComponent)
    (newVersion editedVersion : CodeVersion) (editedNodeClone : Node) : Exc Node :=
  let editedNodeId := jsx_nameInId (tag_jsxElement editedNode) in
  let newNodeId := jsx_nameInId (tag_jsxElement newNode) in
  let newNodeCallShowFunc := hasShowFuncCall newVersion newNode in
  let '(replacedShowCall, editedNodeClone) :=
    traverse (showCallVisitor editedNodeId newNodeId newNodeCallShowFunc)
      false editedNodeClone in
  if newNodeCallShowFunc && negb replacedShowCall then
    if node_eqb (tag_rawNode editedNode) (jsx_rawNode (tag_jsxElement editedNode))
    then
      _ <-! assert (isJSXElement editedNodeClone);
      Ok (makeJsxElementWithShowCall editedNodeClone newNodeId)
    else
      Ok (snd (traverse
                 (showWrapVisitor
                    (node_start (jsx_rawNode (tag_jsxElement editedNode)))
                    newNodeId)
                 false editedNodeClone))
  else Ok editedNodeClone.

(** ** Node serializer *)

(** [Map<Node, Node>] keyed by object identity; see [node_eqb]. *)
Fixpoint nodemap_set (k v : Node) (m : list (Node * Node)) : list (Node * Node) :=
  match m with
  | [] => [(k, v)]
  | (k', v') :: rest =>
      if node_eqb k' k then (k', v) :: rest else (k', v') :: nodemap_set k v rest
  end.

Fixpoint nodemap_get (k : Node) (m : list (Node * Node)) : option Node :=
  match m with
  | [] => None
  | (k', v') :: rest => if node_eqb k' k then Some v' else nodemap_get k rest
  end.

(** The edited element's clone with its attributes and children replaced and
    its closing tag materialized.  [babel.types.cloneDeep] copies the fields
    of the node type, not the source offsets: the clone has no [start]. *)
Definition withMergedAttributesAndChildren (jsxElement : Node)
    (attributes children : list Node) : Node :=
  match jsxElement with
  | JSXElement _ name _ selfClosing closingElement _ =>
      JSXElement None name attributes selfClosing
        (match closingElement, children with
         | None, _ :: _ => Some (JSXClosingElement name)
         | _, _ => closingElement
         end)
        children
  | _ => jsxElement
  end.

Section NodeSerializer.
Variable nodesDeepEqualIgnoreComments : Node -> Node -> bool.
Variables newVersion editedVersion baseVersion : CodeVersion.

Section Recursion.
(** The recursive calls of [serializeNonOpaquePlasmicASTNode]. *)
Variable self : PlasmicASTNode -> Exc (option Node).

Definition serializePlasmicASTNode_with (newNode : PlasmicASTNode)
  : Exc (option Node) :=
  match newNode with
  | PlasmicOpaque _ rawNode => Ok (Some rawNode)
  | _ => self newNode
  end.

Definition serializeTagOrComponent_with (newNode : PlasmicTagOrComponent)
  : Exc (option Node) :=
  let nodeId := getId newVersion newNode in
  let editedNode := findNode editedVersion nodeId in
  let baseNode := findNode baseVersion nodeId in
  match editedNode with
  | Some editedNode =>
      baseNode <-! ensure baseNode;
      attributes <-!
        mergeAttributes nodesDeepEqualIgnoreComments serializePlasmicASTNode_with
          newNode editedNode baseNode newVersion;
      children <-!
        mergedChildren self newNode editedNode baseNode
          newVersion editedVersion baseVersion;
      let editedNodeJsxElementClone :=
        withMergedAttributesAndChildren
          (jsx_rawNode (tag_jsxElement editedNode)) attributes children in
      let editNodeClone :=
        cloneDeepWithHook
          (replaceNode (jsx_rawNode (tag_jsxElement editedNode))
             editedNodeJsxElementClone)
          (tag_rawNode editedNode) in
      merged <-!
        mergeShowFunc newNode editedNode newVersion editedVersion editNodeClone;
      Ok (Some merged)
  | None =>
      match baseNode with
      | Some _ => Ok None
      | None => Ok (Some (tag_rawNode newNode))
      end
  end.

(** The callback of [newNode.jsxNodes.forEach] in the [arg] case. *)
Definition serializeArg_step (nodesToMerged : Exc (list (Node * Node)))
    (n : PlasmicTagOrComponent) : Exc (list (Node * Node)) :=
  m <-! nodesToMerged;
  rawMerged <-! serializeTagOrComponent_with n;
  Ok (nodemap_set (tag_rawNode n)
        (match rawMerged with
         | Some merged => merged
         | None =>
             if isJSXExpressionContainer (tag_rawNode n)
             then JSXExpressionContainer NullLiteral
             else NullLiteral
         end)
        m).

Definition serializeNonOpaquePlasmicASTNode_with (newNode : PlasmicASTNode)
  : Exc (option Node) :=
  match newNode with
  | PlasmicOpaque _ _ => Throw
  | PlasmicArg _ rawNode _ jsxNodes =>
      nodesToMerged <-! foldl serializeArg_step (Ok []) jsxNodes;
      Ok (Some (cloneDeepWithHook (fun n => nodemap_get n nodesToMerged) rawNode))
  | PlasmicCondStrCall _ rawNode => Ok (Some rawNode)
  | PlasmicStringLit _ rawNode _ => Ok (Some rawNode)
  | PlasmicText _ rawNode _ => Ok (Some rawNode)
  | PlasmicTag _ node => serializeTagOrComponent_with node
  end.
End Recursion.

(** [fuel] bounds the depth of the recursion; the depth of the new tree is
    enough. *)
Fixpoint serializeNonOpaquePlasmicASTNode (fuel : nat) (newNode : PlasmicASTNode)
  : Exc (option Node) :=
  match fuel with
  | 0 => OutOfFuel
  | S fuel' =>
      serializeNonOpaquePlasmicASTNode_with
        (serializeNonOpaquePlasmicASTNode fuel') newNode
  end.

Definition serializeTagOrComponent (fuel : nat) (newNode : PlasmicTagOrComponent)
  : Exc (option Node) :=
  serializeTagOrComponent_with (serializeNonOpaquePlasmicASTNode fuel) newNode.

Definition serializePlasmicASTNode (fuel : nat) (newNode : PlasmicASTNode)
  : Exc (option Node) :=
  serializePlasmicASTNode_with (serializeNonOpaquePlasmicASTNode fuel) newNode.
End NodeSerializer.

(** ** Concrete versions for the worked scenarios *)

(** Modelled from the spec: the version index of [CodeVersion].  [tags] lists
    the [tag-or-component] nodes of the version; a node is found by the
    entity identifier of its name, "the cross-version identity", so a renamed
    node is still paired. *)
Definition hasManagedClassName (nameInId : string) (attr : Node) : bool :=
  match attr with
  | JSXAttribute (JSXIdentifier name)
      (Some (JSXExpressionContainer (CallExpression callee _))) =>
      String.eqb name "className"
      && calleeMatch callee helperObject ("cls" +:+ nameInId)
  | _ => false
  end.

Definition hasManagedSpread (nameInId : string) (attr : Node) : bool :=
  match attr with
  | JSXSpreadAttribute (CallExpression callee _) =>
      calleeMatch callee helperObject ("props" +:+ nameInId)
  | _ => false
  end.

Definition containsShowCall (nameInId : string) (n : Node) : bool :=
  fst (showCallVisitor nameInId nameInId true false false n).

Definition mkCodeVersion (rootNode : PlasmicASTNode)
    (tags : list PlasmicTagOrComponent) (nameInIdToUuid : list (string * string))
  : CodeVersion :=
  let uuid := fun nameInId => default nameInId (map_get nameInId nameInIdToUuid) in
  let nameOf := fun t => jsx_nameInId (tag_jsxElement t) in
  {| root := rootNode;
     getId := fun t => uuid (nameOf t);
     findNode := fun id => List.find (fun t => String.eqb (uuid (nameOf t)) id) tags;
     getUuid := uuid;
     hasClassNameIdAttr := fun t =>
       existsb (hasManagedClassName (nameOf t))
         (jsx_attributes (jsx_rawNode (tag_jsxElement t)));
     hasPropsIdSpreador := fun t =>
       existsb (hasManagedSpread (nameOf t))
         (jsx_attributes (jsx_rawNode (tag_jsxElement t)));
     hasShowFuncCall := fun t => containsShowCall (nameOf t) (tag_rawNode t) |}.

(** A version that is one managed element [<tag ...attributes>children</tag>]
    whose raw node is the element itself. *)
Definition element (start : nat) (tag : string) (attributes children : list Node)
  : Node :=
  JSXElement (Some start) (JSXIdentifier tag) attributes
    (match children with [] => true | _ => false end)
    (match children with [] => None | _ => Some (JSXClosingElement (JSXIdentifier tag)) end)
    children.

Definition stringAttr (name value : string) : Node :=
  JSXAttribute (JSXIdentifier name) (Some (StringLiteral value)).

Definition exprAttr (name : string) (value : Node) : Node :=
  JSXAttribute (JSXIdentifier name) (Some (JSXExpressionContainer value)).

Definition singleTag (nameInId : string) (rawNode : Node)
    (children : list PlasmicASTNode) : PlasmicTagOrComponent :=
  TagOrComponent rawNode (JsxElement nameInId rawNode [] children).

Definition singleTagVersion (oid : nat) (uuid : string) (t : PlasmicTagOrComponent)
  : CodeVersion :=
  mkCodeVersion (PlasmicTag oid t) [t] [(jsx_nameInId (tag_jsxElement t), uuid)].

(** Scenario S4: [title] is ["a"] in base, ["b"] in edited, ["c"] in new. *)
Definition s4_tag (title : string) : PlasmicTagOrComponent :=
  singleTag "Root"
    (element 0 "div" [classNameAttr "Root"; stringAttr "title" title] []) [].
Definition s4_base : CodeVersion := singleTagVersion 10 "u-root" (s4_tag "a").
Definition s4_edited : CodeVersion := singleTagVersion 20 "u-root" (s4_tag "b").
Definition s4_new : CodeVersion := singleTagVersion 30 "u-root" (s4_tag "c").

(** Scenario S6: base and edited are [<p>hello world</p>], new is
    [<p>hello</p>]. *)
Definition s6_tag (oid : nat) (content : string) : PlasmicTagOrComponent :=
  singleTag "P"
    (element 0 "p" [classNameAttr "P"] [JSXText content])
    [PlasmicText oid (JSXText content) content].
Definition s6_base : CodeVersion := singleTagVersion 10 "u-p" (s6_tag 11 "hello world").
Definition s6_edited : CodeVersion := singleTagVersion 20 "u-p" (s6_tag 21 "hello world").
Definition s6_new : CodeVersion := singleTagVersion 30 "u-p" (s6_tag 31 "hello").

(** ** Vocabulary for the attribute merger *)

(** The conflict table in the words of the specification: an ordered list of
    guarded rules, the first rule whose guard holds decides, and the default
    applies when none does. *)
Fixpoint first_rule (rules : list (bool * Resolution)) (otherwise : Resolution)
  : Resolution :=
  match rules with
  | [] => otherwise
  | (guard, r) :: rest => if guard then r else first_rule rest otherwise
  end.

Definition conflictTable (deepEqual : Node -> Node -> bool) (name : string)
    (base : option Node) (edited new : Node) : Resolution :=
  let base_equals := fun x =>
    match base with Some b => deepEqual b x | None => false end in
  first_rule
    [ (deepEqual edited new, emit_edited);
      (match base with None => true | Some _ => false end, emit_both);
      (base_equals edited, emit_new);
      (startsWith name "on" || base_equals new, emit_edited) ]
    emit_both.

Definition emits_new (r : Resolution) : bool :=
  match r with emit_new | emit_both => true | emit_edited => false end.

Definition emits_edited (r : Resolution) : bool :=
  match r with emit_edited | emit_both => true | emit_new => false end.

(** The edited attribute as Step 2 emits it: for an [on*] attribute of a node
    whose name changed, the clone in which the node's handler for this event
    is renamed; the attribute itself otherwise. *)
Definition renamedHandlers (editedNodeId newNodeId name : string) (editedAttr : Node)
  : Node :=
  if startsWith name "on" && negb (String.eqb editedNodeId newNodeId)
  then cloneDeepWithHook
         (renameHandlerHook editedNodeId newNodeId (substring_from 2 name))
         editedAttr
  else editedAttr.

(** A node and all its descendants. *)
Fixpoint subnodes (n : Node) : list Node :=
  n ::
  match n with
  | MemberExpression o p => subnodes o ++ subnodes p
  | CallExpression c args => subnodes c ++ flat_map subnodes args
  | LogicalExpression _ l r => subnodes l ++ subnodes r
  | JSXExpressionContainer e => subnodes e
  | JSXAttribute name value =>
      subnodes name ++ match value with Some v => subnodes v | None => [] end
  | JSXSpreadAttribute a => subnodes a
  | JSXElement _ name attributes _ ce children =>
      subnodes name ++ flat_map subnodes attributes
      ++ flat_map subnodes children
      ++ match ce with Some c => subnodes c | None => [] end
  | JSXClosingElement name => subnodes name
  | JSXFragment children => flat_map subnodes children
  | Other _ _ parts => flat_map subnodes parts
  | Identifier _ | StringLiteral _ | BooleanLiteral _ | NullLiteral
  | JSXIdentifier _ | JSXNamespacedName _ _ | JSXText _ => []
  end.

(** A reference [rh.on<nodeId><Rest>] to a managed event handler of the node
    named [nodeId]. *)
Definition isHandlerReference (nodeId : string) (n : Node) : bool :=
  match n with
  | MemberExpression (Identifier o) (Identifier p) =>
      String.eqb o helperObject && startsWith p ("on" +:+ nodeId)
  | _ => false
  end.

(** [attr.name.name] of a named attribute. *)
Definition attrNameOf (attr : Node) : option string :=
  match attr with
  | JSXAttribute (JSXIdentifier name) _ => Some name
  | _ => None
  end.

(** The class attribute [className={rh.clsRoot() + " custom"}] of a developer
    who extended the managed class: the node is still [Root], the attribute
    is no longer the bare managed call. *)
Definition customClassName (nameInId : string) : Node :=
  exprAttr "className"
    (Other "BinaryExpression" true
       [makeCallExpression helperObject ("cls" +:+ nameInId); StringLiteral " custom"]).

(** [Root] is renamed [Root2] by the tool (same entity) while the developer
    extended the class attribute. *)
Definition c1_base : CodeVersion :=
  singleTagVersion 10 "u-root"
    (singleTag "Root" (element 0 "div" [classNameAttr "Root"] []) []).
Definition c1_edited : CodeVersion :=
  singleTagVersion 20 "u-root"
    (singleTag "Root" (element 0 "div" [customClassName "Root"] []) []).
Definition c1_new : CodeVersion :=
  singleTagVersion 30 "u-root"
    (singleTag "Root2" (element 0 "div" [classNameAttr "Root2"] []) []).

(** [Root] is renamed [Main]; the developer reused the managed click handler
    for a key handler of their own, [onKeyDown={rh.onRootClick}]. *)
Definition handlerAttr (name handler : string) : Node :=
  exprAttr name (makeMemberExpression helperObject handler).

Definition c4_base : CodeVersion :=
  singleTagVersion 10 "u-root"
    (singleTag "Root"
       (element 0 "div" [classNameAttr "Root"; handlerAttr "onClick" "onRootClick"] [])
       []).
Definition c4_edited : CodeVersion :=
  singleTagVersion 20 "u-root"
    (singleTag "Root"
       (element 0 "div"
          [classNameAttr "Root"; handlerAttr "onClick" "onRootClick";
           handlerAttr "onKeyDown" "onRootClick"] [])
       []).
Definition c4_new : CodeVersion :=
  singleTagVersion 30 "u-root"
    (singleTag "Main"
       (element 0 "div" [classNameAttr "Main"; handlerAttr "onClick" "onMainClick"] [])
       []).

(** ** Vocabulary for the visibility reconciler *)

(** A call [rh.show<nodeId>(...)]. *)
Definition isShowCall (nodeId : string) (n : Node) : bool :=
  match n with
  | CallExpression callee _ => calleeMatch callee helperObject ("show" +:+ nodeId)
  | _ => false
  end.

(** The nodes below the root of a tree. *)
Definition descendants (n : Node) : list Node := tail (subnodes n).

(** [f] applied to the children of a node. *)
Definition mapChildren (f : Node -> Node) (n : Node) : Node :=
  match n with
  | MemberExpression o p => MemberExpression (f o) (f p)
  | CallExpression c args => CallExpression (f c) (List.map f args)
  | LogicalExpression op l r => LogicalExpression op (f l) (f r)
  | JSXExpressionContainer e => JSXExpressionContainer (f e)
  | JSXAttribute name value => JSXAttribute (f name) (option_map f value)
  | JSXSpreadAttribute a => JSXSpreadAttribute (f a)
  | JSXElement s name attributes sc ce children =>
      JSXElement s (f name) (List.map f attributes) sc (option_map f ce)
        (List.map f children)
  | JSXClosingElement name => JSXClosingElement (f name)
  | JSXFragment children => JSXFragment (List.map f children)
  | Other t e parts => Other t e (List.map f parts)
  | Identifier _ | StringLiteral _ | BooleanLiteral _ | NullLiteral
  | JSXIdentifier _ | JSXNamespacedName _ _ | JSXText _ => n
  end.

(** The two rewrites of the table, as hooks of the cloning primitive:
    [show<editedNodeId>] is renamed [show<newNodeId>], and the call is
    replaced by the literal [true]. *)
Definition renameShowHook (editedNodeId newNodeId : string) : Node -> option Node :=
  fun n =>
    match n with
    | CallExpression callee arguments =>
        if isShowCall editedNodeId n
        then Some (CallExpression
                     (set_property callee (Identifier ("show" +:+ newNodeId)))
                     arguments)
        else None
    | _ => None
    end.

Definition showToTrueHook (editedNodeId : string) : Node -> option Node :=
  fun n => if isShowCall editedNodeId n then Some (BooleanLiteral true) else None.

(** The second traversal of [mergeShowFunc]: the first JSX element below the
    root, in source order, whose offset is [start] is replaced by
    [rh.show<newNodeId>() && <element>], inside an expression container when
    the element is a child of a JSX element or fragment. *)
Definition wrapElementAt (start : option nat) (newNodeId : string) (n : Node) : Node :=
  snd (traverse (showWrapVisitor start newNodeId) false n).

(** Scenario S5: base and edited have no visibility gate on [Row]; the new
    version is [rh.showRow() && <div .../>]. *)
Definition s5_element : Node :=
  element 7 "div" [classNameAttr "Row"; stringAttr "id" "x"] [].
Definition s5_plain : PlasmicTagOrComponent :=
  TagOrComponent s5_element (JsxElement "Row" s5_element [] []).
Definition s5_gated : PlasmicTagOrComponent :=
  TagOrComponent (makeJsxElementWithShowCall s5_element "Row")
    (JsxElement "Row" s5_element [] []).
Definition s5_base : CodeVersion := singleTagVersion 10 "u-row" s5_plain.
Definition s5_edited : CodeVersion := singleTagVersion 20 "u-row" s5_plain.
Definition s5_new : CodeVersion := singleTagVersion 30 "u-row" s5_gated.

(** An edited node whose markup sits under the developer's own condition,
    [{cond && <div .../>}], and one whose markup is a child of a fragment. *)
Definition s5_conditional : Node :=
  JSXExpressionContainer (LogicalExpression "&&" (Identifier "cond") s5_element).
Definition s5_in_fragment : Node := JSXFragment [JSXText "label"; s5_element].

(** An element as [babel.types.cloneDeep] returns it: without its source
    offset. *)
Definition withoutOffset (n : Node) : Node :=
  match n with
  | JSXElement _ name attributes selfClosing closingElement children =>
      JSXElement None name attributes selfClosing closingElement children
  | _ => n
  end.

(** The edited version of S5 in which the developer put the markup of [Row]
    under a condition: the raw node of the node is the wrapper
    [{cond && <div .../>}], its element is the [div]. *)
Definition s5_wrapped : PlasmicTagOrComponent :=
  TagOrComponent s5_conditional (JsxElement "Row" s5_element [] []).
Definition s5_edited_wrapped : CodeVersion := singleTagVersion 20 "u-row" s5_wrapped.

(** ** Import merger *)

Inductive ImportSpecifierNode : Type :=
| ImportDefaultSpecifier (local : string)
| ImportSpecifier (local imported : string)
| ImportNamespaceSpecifier (local : string).

#[global] Instance ImportSpecifierNode_eq_dec : EqDecision ImportSpecifierNode.
Proof. solve_decision. Defined.

(** An import declaration: its specifiers, its module, and the values of the
    comments attached before and after it ([leadingComments] is [None] once
    it has been set to [null]). *)
Record ImportDeclaration : Type := mkImportDeclaration {
  specifiers : list ImportSpecifierNode;
  source : string;
  leadingComments : option (list string);
  trailingComments : list string
}.

#[global] Instance ImportDeclaration_eq_dec : EqDecision ImportDeclaration.
Proof. solve_decision. Defined.

(** A statement of [program.body]. *)
Inductive Statement : Type :=
| ImportStatement (node : ImportDeclaration)
| OtherStatement (code : string).

(** The regular expression of [tryParsePlasmicImportSpec],
    [/plasmic-import:\s+([\w-]+)(?:\/(component|css|render|globalVariant|projectcss|defaultcss))?/],
    on ASCII text. *)
Definition isSpaceChar (c : ascii) : bool :=
  let n := nat_of_ascii c in
  (n =? 32)%nat || ((9 <=? n)%nat && (n <=? 13)%nat).

Definition isWordOrDashChar (c : ascii) : bool :=
  let n := nat_of_ascii c in
  ((48 <=? n)%nat && (n <=? 57)%nat) || ((65 <=? n)%nat && (n <=? 90)%nat)
  || ((97 <=? n)%nat && (n <=? 122)%nat) || (n =? 95)%nat || (n =? 45)%nat.

(** The longest prefix of characters satisfying [p], and the rest. *)
Fixpoint span_string (p : ascii -> bool) (s : string) : string * string :=
  match s with
  | EmptyString => (EmptyString, EmptyString)
  | String c rest =>
      if p c then let '(taken, remaining) := span_string p rest in (String c taken, remaining)
      else (EmptyString, s)
  end.

(** [s] without the prefix [p], when [s] starts with [p]. *)
Fixpoint strip_prefix (p s : string) : option string :=
  match p, s with
  | EmptyString, _ => Some s
  | String a p', String b s' => if Ascii.eqb a b then strip_prefix p' s' else None
  | String _ _, EmptyString => None
  end.

Definition importTypeAlternatives : list string :=
  ["component"; "css"; "render"; "globalVariant"; "projectcss"; "defaultcss"].

(** The match of the expression anchored at the start of [s]: the captures
    [m[1]] and [m[2]]. *)
Definition plasmicImportMatchAt (s : string) : option (string * option string) :=
  match strip_prefix "plasmic-import:" s with
  | None => None
  | Some rest =>
      let '(spaces, rest) := span_string isSpaceChar rest in
      let '(id, rest) := span_string isWordOrDashChar rest in
      if (String.length spaces =? 0)%nat || (String.length id =? 0)%nat then None
      else
        Some (id,
              match rest with
              | String "/" rest =>
                  List.find (fun alternative => String.prefix alternative rest)
                    importTypeAlternatives
              | _ => None
              end)
  end.

(** [value.match(regex)]: the leftmost match. *)
Fixpoint plasmicImportMatch (s : string) : option (string * option string) :=
  match plasmicImportMatchAt s with
  | Some m => Some m
  | None =>
      match s with
      | EmptyString => None
      | String _ rest => plasmicImportMatch rest
      end
  end.

(** [PlasmicImportSpec]; [Nd] is what [node] holds: the declaration, or a
    reference to it where the store is modelled. *)
Record PlasmicImportSpecOf (Nd : Type) : Type := mkPlasmicImportSpec {
  spec_id : string;
  spec_type : option string;
  spec_node : Nd
}.
Arguments mkPlasmicImportSpec {Nd} _ _ _.
Arguments spec_id {Nd} _.
Arguments spec_type {Nd} _.
Arguments spec_node {Nd} _.

Abbreviation PlasmicImportSpec := (PlasmicImportSpecOf ImportDeclaration).

Definition tryParsePlasmicImportSpec (node : ImportDeclaration)
  : option (string * option string) :=
  match trailingComments node with
  | [] => None
  | c :: _ => plasmicImportMatch c
  end.

Definition compareImports {Nd : Type} (import1 import2 : PlasmicImportSpecOf Nd) : Z :=
  if negb (String.eqb (spec_id import1) (spec_id import2)) then
    if String.ltb (spec_id import1) (spec_id import2) then (-1)%Z else 1%Z
  else
    match spec_type import1, spec_type import2 with
    | None, None => 0%Z
    | None, Some _ => (-1)%Z
    | Some _, None => 1%Z
    | Some t1, Some t2 =>
        if String.eqb t1 t2 then 0%Z
        else if String.ltb t1 t2 then (-1)%Z else 1%Z
    end.

(** Whether the loop of [mergeImports] [continue]s at the specifier [s2] of
    [i2], given the specifiers of [i1]. *)
Definition mergeImports_continue (specifiers1 : list ImportSpecifierNode)
    (s2 : ImportSpecifierNode) : bool :=
  match s2 with
  | ImportDefaultSpecifier local2 =>
      existsb (fun s1 => match s1 with
                         | ImportDefaultSpecifier local1 => String.eqb local1 local2
                         | _ => false
                         end) specifiers1
  | ImportSpecifier local2 imported2 =>
      existsb (fun s1 => match s1 with
                         | ImportSpecifier local1 imported1 =>
                             String.eqb local1 local2
                             && String.eqb imported1 imported2
                         | _ => false
                         end) specifiers1
  | ImportNamespaceSpecifier _ => false
  end.

(** One iteration of the loop of [mergeImports] over the specifiers of [i2]:
    [cloned.specifiers] after it. *)
Definition mergeImports_step (i1 : ImportDeclaration)
    (cloned : list ImportSpecifierNode) (s2 : ImportSpecifierNode)
  : list ImportSpecifierNode :=
  if mergeImports_continue (specifiers i1) s2 then cloned else cloned ++ [s2].

Definition mergeImports (i1 i2 : ImportDeclaration) : ImportDeclaration :=
  {| specifiers := foldl (mergeImports_step i1) (specifiers i1) (specifiers i2);
     source := source i1;
     leadingComments := leadingComments i1;
     trailingComments := trailingComments i1 |}.

Definition extractPlasmicImports (body : list Statement) : list PlasmicImportSpec :=
  omap (fun stmt =>
          match stmt with
          | ImportStatement node =>
              match tryParsePlasmicImportSpec node with
              | Some (id, type) => Some (mkPlasmicImportSpec id type node)
              | None => None
              end
          | OtherStatement _ => None
          end) body.

(** [array.sort(compare)]: a stable sort. *)
Fixpoint sort_insert {A : Type} (compare : A -> A -> Z) (x : A) (sorted : list A)
  : list A :=
  match sorted with
  | [] => [x]
  | y :: rest =>
      if (compare x y <=? 0)%Z then x :: sorted
      else y :: sort_insert compare x rest
  end.

Definition sort {A : Type} (compare : A -> A -> Z) (l : list A) : list A :=
  foldr (sort_insert compare) [] l.

(** The callback of [mergedFile.program.body.filter]; the state is
    [firstImport] and [firstPlasmicImport], [None] for [-1]. *)
Fixpoint removePlasmicImports (body : list Statement) (i : nat)
    (firstImport firstPlasmicImport : option nat)
  : list Statement * option nat * option nat :=
  match body with
  | [] => ([], firstImport, firstPlasmicImport)
  | stmt :: rest =>
      match stmt with
      | ImportStatement node =>
          let firstImport :=
            match firstImport with None => Some i | Some _ => firstImport end in
          match tryParsePlasmicImportSpec node with
          | Some _ =>
              let firstPlasmicImport :=
                match firstPlasmicImport with
                | None => Some i
                | Some _ => firstPlasmicImport
                end in
              removePlasmicImports rest (S i) firstImport firstPlasmicImport
          | None =>
              let '(kept, fi, fp) :=
                removePlasmicImports rest (S i) firstImport firstPlasmicImport in
              (stmt :: kept, fi, fp)
          end
      | OtherStatement _ =>
          let '(kept, fi, fp) :=
            removePlasmicImports rest (S i) firstImport firstPlasmicImport in
          (stmt :: kept, fi, fp)
      end
  end.

Definition clearLeadingComments (spec : PlasmicImportSpec) : PlasmicImportSpec :=
  {| spec_id := spec_id spec;
     spec_type := spec_type spec;
     spec_node :=
       {| specifiers := specifiers (spec_node spec);
          source := source (spec_node spec);
          leadingComments := None;
          trailingComments := trailingComments (spec_node spec) |} |}.

(** The [while] loop of [mergePlasmicImports] over [allImports]. *)
Fixpoint mergeAdjacentImports (allImports : list PlasmicImportSpec)
  : list ImportDeclaration :=
  match allImports with
  | [] => []
  | a :: rest =>
      match rest with
      | b :: rest' =>
          if (compareImports a b =? 0)%Z
          then mergeImports (spec_node a) (spec_node b) :: mergeAdjacentImports rest'
          else spec_node a :: mergeAdjacentImports rest
      | [] => [spec_node a]
      end
  end.

(** The managed imports of the merged file, in their final order. *)
Definition mergedPlasmicImports (newBody editedBody : list Statement)
  : list ImportDeclaration :=
  let newImports := extractPlasmicImports newBody in
  let editedImports := extractPlasmicImports editedBody in
  let allImports := sort compareImports (editedImports ++ newImports) in
  mergeAdjacentImports (List.map clearLeadingComments allImports).

(** [mergePlasmicImports(mergedFile, parsedNew, parsedEdited)]: the body of
    the merged file afterwards. *)
Definition mergePlasmicImports (mergedFileBody newBody editedBody : list Statement)
  : list Statement :=
  let '(body, firstImport, firstPlasmicImport) :=
    removePlasmicImports mergedFileBody 0 None None in
  let mergedImports := mergedPlasmicImports newBody editedBody in
  let insertMergedImportsAt :=
    match firstPlasmicImport with
    | Some i => i
    | None => match firstImport with Some i => i | None => 0 end
    end in
  take insertMergedImportsAt body
  ++ List.map ImportStatement mergedImports
  ++ drop insertMergedImportsAt body.

(** Scenario S7: edited has [import {A, B} from "m"], new has
    [import {B, C} from "m"], both managed with id [7]. *)
Definition namedImport (names : list string) (module comment : string)
  : ImportDeclaration :=
  {| specifiers := List.map (fun n => ImportSpecifier n n) names;
     source := module;
     leadingComments := Some [];
     trailingComments := [comment] |}.

Definition s7_edited_body : list Statement :=
  [OtherStatement "import React from 'react';";
   ImportStatement (namedImport ["A"; "B"] "m" " plasmic-import: 7");
   OtherStatement "function Component() {}"].

Definition s7_new_body : list Statement :=
  [OtherStatement "import React from 'react';";
   ImportStatement (namedImport ["B"; "C"] "m" " plasmic-import: 7");
   OtherStatement "function Component() {}"].

(** A developer's copy of the managed import of S7 in the edited file: three
    declarations share the id [7]. *)
Definition dup_edited_body : list Statement :=
  [ImportStatement (namedImport ["A"] "m" " plasmic-import: 7");
   ImportStatement (namedImport ["B"] "m" " plasmic-import: 7")].

Definition dup_new_body : list Statement :=
  [ImportStatement (namedImport ["C"] "m" " plasmic-import: 7")].

(** ** Vocabulary for the import merger *)

(** The key of a managed import: the captures [(id, type)]. *)
Definition import_key {Nd : Type} (spec : PlasmicImportSpecOf Nd)
  : string * option string :=
  (spec_id spec, spec_type spec).

Definition has_key (key : string * option string) (node : ImportDeclaration) : bool :=
  bool_decide (tryParsePlasmicImportSpec node = Some key).

(** The managed import with key [key] among [imports], if any. *)
Definition import_with_key (key : string * option string)
    (imports : list PlasmicImportSpec) : option ImportDeclaration :=
  spec_node <$> List.find (fun spec => bool_decide (import_key spec = key)) imports.

(** Whether the first declaration already holds the specifier, in the words
    of the specification. *)
Definition alreadyImported (a : ImportDeclaration) (s : ImportSpecifierNode) : bool :=
  match s with
  | ImportDefaultSpecifier local =>
      bool_decide (ImportDefaultSpecifier local ∈ specifiers a)
  | ImportSpecifier local imported =>
      bool_decide (ImportSpecifier local imported ∈ specifiers a)
  | ImportNamespaceSpecifier _ => false
  end.

(** [mergeSpecifiers(a, b)]: [a], then the specifiers of [b] that [a] does
    not already hold. *)
Definition mergeSpecifiers (a b : ImportDeclaration) : list ImportSpecifierNode :=
  specifiers a ++ List.filter (fun s => negb (alreadyImported a s)) (specifiers b).

(** The total order of the specification on keys: by [id], then by [type],
    an absent [type] first. *)
Definition key_compare (k1 k2 : string * option string) : comparison :=
  match String.compare (fst k1) (fst k2) with
  | Eq =>
      match snd k1, snd k2 with
      | None, None => Eq
      | None, Some _ => Lt
      | Some _, None => Gt
      | Some t1, Some t2 => String.compare t1 t2
      end
  | c => c
  end.

Definition key_lt (k1 k2 : string * option string) : Prop :=
  key_compare k1 k2 = Lt.

(** The managed imports with key [key] among [imports], in order. *)
Definition by_key (key : string * option string) (imports : list PlasmicImportSpec)
  : list PlasmicImportSpec :=
  List.filter (fun spec => bool_decide (import_key spec = key)) imports.

(** A declaration once its [leadingComments] is set to [null]. *)
Definition cleared (node : ImportDeclaration) : ImportDeclaration :=
  spec_node (clearLeadingComments (mkPlasmicImportSpec "" None node)).

(** The order of [array.sort(compareImports)]: not after. *)
Definition import_le (a b : PlasmicImportSpec) : Prop :=
  import_key a = import_key b \/ key_lt (import_key a) (import_key b).

(** A managed import as [extractPlasmicImports] builds it: its key is the
    one read from its own trailing comment. *)
Definition parsed_spec (spec : PlasmicImportSpec) : Prop :=
  tryParsePlasmicImportSpec (spec_node spec) = Some (import_key spec).

(** ** Project sync data and the caching provider *)

Record ComponentSkeletonModel : Type := {
  csm_uuid : string;
  csm_nameInIdToUuid : list (string * string);
  csm_fileContent : string
}.

Record ProjectSyncMetadataModel : Type := {
  components : list ComponentSkeletonModel
}.

(** An entry of the cache of [makeCachedProjectSyncDataProvider]. *)
Record CacheEntry : Type := {
  proejctId : string;
  entry_revision : N;
  model : ProjectSyncMetadataModel
}.

Section Providers.
(** The state outside the program that a provider may read and change, and
    the outcome of the promise a provider returns: the model, or a
    rejection. *)
Variable World : Type.

Definition ProjectSyncDataProviderType : Type :=
  string -> N -> World -> Exc ProjectSyncMetadataModel * World.

(** The closure returned by [makeCachedProjectSyncDataProvider]: the array
    [cache] it captures, and a call of the closure, which returns the promise
    and leaves the closure in its next state. *)
Record CachedProvider : Type := {
  rawProvider : ProjectSyncDataProviderType;
  cache : list CacheEntry
}.

Definition makeCachedProjectSyncDataProvider
    (rawProvider : ProjectSyncDataProviderType) : CachedProvider :=
  {| rawProvider := rawProvider; cache := [] |}.

Definition callCachedProvider (provider : CachedProvider)
    (projectId : string) (revision : N) (w : World)
  : (Exc ProjectSyncMetadataModel * World) * CachedProvider :=
  let cached :=
    List.find (fun ent => String.eqb (proejctId ent) projectId
                          && N.eqb (entry_revision ent) revision)
      (cache provider) in
  match cached with
  | Some cached => ((Ok (model cached), w), provider)   (* Promise.resolve *)
  | None => (rawProvider provider projectId revision w, provider)
  end.

(** A sequence of calls of the caching provider, and the same calls made to
    a raw provider: the promises returned, in order, and the final world. *)
Fixpoint callCachedProvider_all (provider : CachedProvider)
    (calls : list (string * N)) (w : World)
  : list (Exc ProjectSyncMetadataModel) * World :=
  match calls with
  | [] => ([], w)
  | (projectId, revision) :: rest =>
      let '((promise, w1), provider1) :=
        callCachedProvider provider projectId revision w in
      let '(promises, w2) := callCachedProvider_all provider1 rest w1 in
      (promise :: promises, w2)
  end.

Fixpoint callProvider_all (provider : ProjectSyncDataProviderType)
    (calls : list (string * N)) (w : World)
  : list (Exc ProjectSyncMetadataModel) * World :=
  match calls with
  | [] => ([], w)
  | (projectId, revision) :: rest =>
      let '(promise, w1) := provider projectId revision w in
      let '(promises, w2) := callProvider_all provider rest w1 in
      (promise :: promises, w2)
  end.
End Providers.

Arguments rawProvider {World} _.
Arguments cache {World} _.
Arguments callCachedProvider {World} _ _ _ _.
Arguments callCachedProvider_all {World} _ _ _.
Arguments callProvider_all {World} _ _ _.

(** ** File assembler *)

(** The regular expression of [tryExtractPlasmicJsxExpression],
    [/^\s*plasmic-managed-jsx\/(\d+)\s*$/], on ASCII text: the revision
    [+m[1]] of a marker comment.  The source converts the digits to a
    double, which is the number they spell up to [2 ^ 53] and a rounded one
    beyond; the model has the number they spell, so it follows the source on
    revisions below [2 ^ 53], and the theorems that read a revision back
    carry that bound. *)
Definition isDigitChar (c : ascii) : bool :=
  let n := nat_of_ascii c in (48 <=? n)%nat && (n <=? 57)%nat.

Definition revisionOfMarker (value : string) : option N :=
  let '(_, rest) := span_string isSpaceChar value in
  match strip_prefix "plasmic-managed-jsx/" rest with
  | None => None
  | Some rest =>
      let '(digits, rest) := span_string isDigitChar rest in
      let '(_, rest) := span_string isSpaceChar rest in
      if (String.length digits =? 0)%nat || negb (String.length rest =? 0)%nat
      then None
      else N.of_uint <$> NilZero.uint_of_string digits
  end.

(** The marker comment written back: [` plasmic-managed-jsx/${revision}`].
    The template literal prints a double: in decimal digits for the safe
    integers (below [2 ^ 53]), which is the range this definition follows
    the source on; from [1e21] on the source prints an exponent. *)
Definition markerOfRevision (revision : N) : string :=
  " plasmic-managed-jsx/" +:+ NilZero.string_of_uint (N.to_uint revision).

(** An [AssignmentExpression] or [ReturnStatement] of a parsed file: the
    values of its leading comments and its right-hand side or argument. *)
Record JsxCandidate : Type := {
  isAssignment : bool;
  candidate_leadingComments : list string;
  candidate_expression : option Node
}.

(** What the merger reads from a parsed file ([babel.types.File]): the
    assignments and return statements in traversal order, and the statements
    of [program.body]. *)
Record File : Type := {
  candidates : list JsxCandidate;
  body : list Statement
}.

Record PlasmicComponentSkeletonFile : Type := {
  jsx : Node;
  file : File;
  revision : N;
  identifyingComment : string
}.

Definition tryExtractPlasmicJsxExpression (node : JsxCandidate)
  : Exc (option (Node * string * N)) :=
  match List.find (fun c => bool_decide (is_Some (revisionOfMarker c)))
          (candidate_leadingComments node) with
  | None => Ok None
  | Some c =>
      expression <-!
        (if isAssignment node
         then ensure (candidate_expression node)    (* node.right, always there *)
         else ensure (candidate_expression node));  (* ensure(node.argument) *)
      Ok (Some (expression, c, default 0%N (revisionOfMarker c)))
  end.

(** The visitors of [tryParseComponentSkeletonFile]: the first candidate
    that carries the marker stops the traversal. *)
Fixpoint findPlasmicJsx (nodes : list JsxCandidate)
  : Exc (option (Node * string * N)) :=
  match nodes with
  | [] => Ok None
  | node :: rest =>
      found <-! tryExtractPlasmicJsxExpression node;
      match found with
      | Some jsx => Ok (Some jsx)
      | None => findPlasmicJsx rest
      end
  end.

(** The managed region: [newFile.match(plasmicManagedRegex)] and
    [mergedCode.replace(plasmicManagedRegex, fragment)]. *)
Record ManagedRegion : Type := {
  matchManagedRegion : string -> option string;
  replaceManagedRegion : string -> string -> string
}.

Record ComponentInfoForMerge : Type := {
  editedFile : string;
  newFile : string;
  newNameInIdToUuid : list (string * string)
}.

(** The merged file handed to the printer: the statements after the import
    merge, the managed expression and the marker comment. *)
Record MergedFile : Type := {
  merged_body : list Statement;
  merged_jsx : Node;
  merged_marker : string
}.

Section MergeFiles.
Variable World : Type.
(** [parser.parse] of [@babel/parser], which throws on a syntax error;
    [new CodeVersion(...)] of [./plasmic-parser]; [code] and [formatted] of
    [./utils]; [nodesDeepEqualIgnoreComments]; the regular expression engine
    on the managed region. *)
Variable parse : string -> Exc File.
Variable newCodeVersion : string -> list (string * string) -> Node -> Exc CodeVersion.
Variable code : MergedFile -> string.
Variable formatted : string -> string.
Variable nodesDeepEqualIgnoreComments : Node -> Node -> bool.
Variable plasmicManagedRegex : ManagedRegion.
(** The bound on the depth of the serializer's recursion. *)
Variable fuel : nat.

Definition tryParseComponentSkeletonFile (fileContent : string)
  : Exc (option PlasmicComponentSkeletonFile) :=
  parsed <-! parse fileContent;
  found <-! findPlasmicJsx (candidates parsed);
  match found with
  | Some (expression, comment, rev) =>
      Ok (Some {| jsx := expression; file := parsed; revision := rev;
                  identifyingComment := comment |})
  | None => Ok None
  end.

(** The first loop of [mergeFiles]: [updateableByComponentUuid]. *)
Fixpoint updateableComponents (componentByUuid : list (string * ComponentInfoForMerge))
    (updateable : list (string * PlasmicComponentSkeletonFile))
  : Exc (list (string * PlasmicComponentSkeletonFile)) :=
  match componentByUuid with
  | [] => Ok updateable
  | (uuid, codeVersions) :: rest =>
      parsedEdited <-! tryParseComponentSkeletonFile (editedFile codeVersions);
      match parsedEdited with
      | Some parsedEdited =>
          updateableComponents rest (map_set uuid parsedEdited updateable)
      | None => updateableComponents rest updateable
      end
  end.

(** The body of the second loop, after the base metadata has arrived: the
    merged text of one component. *)
Definition mergeComponent (componentByUuid : list (string * ComponentInfoForMerge))
    (componentUuid : string) (parsedEdited : PlasmicComponentSkeletonFile)
    (projectSyncData : ProjectSyncMetadataModel) : Exc string :=
  baseMetadata <-!
    ensure (List.find (fun c => String.eqb (csm_uuid c) componentUuid)
              (components projectSyncData));
  parsedBaseOpt <-! tryParseComponentSkeletonFile (csm_fileContent baseMetadata);
  parsedBase <-! ensure parsedBaseOpt;
  baseCodeVersion <-!
    newCodeVersion (csm_fileContent baseMetadata) (csm_nameInIdToUuid baseMetadata)
      (jsx parsedBase);
  component <-! ensure (map_get componentUuid componentByUuid);
  editedCodeVersion <-!
    newCodeVersion (editedFile component) (csm_nameInIdToUuid baseMetadata)
      (jsx parsedEdited);
  parsedNewOpt <-! tryParseComponentSkeletonFile (newFile component);
  parsedNew <-! ensure parsedNewOpt;
  newCodeVersion' <-!
    newCodeVersion (newFile component) (newNameInIdToUuid component) (jsx parsedNew);
  newJsx <-!
    serializePlasmicASTNode nodesDeepEqualIgnoreComments
      newCodeVersion' editedCodeVersion baseCodeVersion fuel (root newCodeVersion');
  let mergedFile :=
    {| merged_body :=
         mergePlasmicImports (body (file parsedEdited)) (body (file parsedNew))
           (body (file parsedEdited));
       merged_jsx := default (jsx parsedEdited) newJsx;
       merged_marker := markerOfRevision (revision parsedNew) |} in
  let mergedCode := code mergedFile in
  newFragment <-! ensure (matchManagedRegion plasmicManagedRegex (newFile component));
  let replacedCode :=
    replaceManagedRegion plasmicManagedRegex mergedCode newFragment in
  Ok (formatted replacedCode).

(** The second loop of [mergeFiles]: [mergedFiles]. *)
Fixpoint mergeUpdateable (componentByUuid : list (string * ComponentInfoForMerge))
    (projectId : string) (projectSyncDataProvider : ProjectSyncDataProviderType World)
    (updateable : list (string * PlasmicComponentSkeletonFile))
    (mergedFiles : list (string * string)) (w : World)
  : Exc (list (string * string)) * World :=
  match updateable with
  | [] => (Ok mergedFiles, w)
  | (componentUuid, parsedEdited) :: rest =>
      let '(projectSyncData, w1) :=
        projectSyncDataProvider projectId (revision parsedEdited) w in
      match projectSyncData with
      | Ok projectSyncData =>
          match mergeComponent componentByUuid componentUuid parsedEdited
                  projectSyncData with
          | Ok mergedText =>
              mergeUpdateable componentByUuid projectId projectSyncDataProvider
                rest (map_set componentUuid mergedText mergedFiles) w1
          | Throw => (Throw, w1)
          | OutOfFuel => (OutOfFuel, w1)
          end
      | Throw => (Throw, w1)
      | OutOfFuel => (OutOfFuel, w1)
      end
  end.

(** [mergeFiles]: [Ok None] is the value [undefined]. *)
Definition mergeFiles (componentByUuid : list (string * ComponentInfoForMerge))
    (projectId : string) (projectSyncDataProvider : ProjectSyncDataProviderType World)
    (w : World) : Exc (option (list (string * string))) * World :=
  match updateableComponents componentByUuid [] with
  | Ok updateableByComponentUuid =>
      if (List.length updateableByComponentUuid =? 0)%nat then (Ok None, w)
      else
        let '(mergedFiles, w1) :=
          mergeUpdateable componentByUuid projectId projectSyncDataProvider
            updateableByComponentUuid [] w in
        (exc_bind mergedFiles (fun m => Ok (Some m)), w1)
  | Throw => (Throw, w)
  | OutOfFuel => (OutOfFuel, w)
  end.
End MergeFiles.

(** A run of [mergeFiles] on one component whose edited file carries no
    marker: the parser finds no assignment or return statement with a
    [plasmic-managed-jsx] comment. *)
Definition unmarkedFile : File := {| candidates := []; body := [] |}.

Definition unmarkedComponent : ComponentInfoForMerge :=
  {| editedFile := "export const x = 1;";
     newFile := "export const x = 1;";
     newNameInIdToUuid := [] |}.

Definition noRegion : ManagedRegion :=
  {| matchManagedRegion := fun _ => None;
     replaceManagedRegion := fun mergedCode _ => mergedCode |}.

Definition mergeUnmarked : Exc (option (list (string * string))) * unit :=
  mergeFiles unit (fun _ => Ok unmarkedFile) (fun _ _ _ => Throw) (fun _ => "")
    (fun text => text) deepEqualIgnoreComments noRegion 0
    [("component-1", unmarkedComponent)] "project-1"
    (fun _ _ w => (Throw, w)) tt.

(** ** The store: declarations, statements and comments as objects

    To follow what the import merger and the file assembler mutate and share,
    import declarations, their specifiers, the comments and the statements
    are objects of a store; an array of nodes is a list of references.
    [OtherObj] is any other node taken as one object with the nodes below it:
    a statement without managed markup, or the root of an expression, whose
    tree is the subject of the node serializer.  [StatementObj] is the
    statement that holds managed markup: the nodes of the statement down to
    the assignment or the [return], taken as one object, the leading comments
    of that assignment or [return], and its right-hand side or argument. *)
Abbreviation loc := nat.

Inductive Obj : Type :=
| CommentObj (value : string)
| SpecifierObj (specifier : ImportSpecifierNode)
| ImportObj (specifiers : list loc) (source : string)
    (leadingComments : option (list loc)) (trailingComments : list loc)
| OtherObj (code : string)
| StatementObj (code : string) (comments : list loc) (expression : loc).

Abbreviation Store := (list Obj).

(** A new object: the store grows at its end. *)
Definition alloc (h : Store) (o : Obj) : Store * loc := (h ++ [o], List.length h).

(** Modelled from the spec: [cloneDeepWithHook] of [./cloneDeepWithHook] on
    the objects of the store, "deep clone this subtree, but if the hook
    returns a replacement for a node, use that replacement and do not descend
    into it": a node for which the hook returns a node is replaced by that
    node itself; any other node gets a fresh copy that refers to the clones
    of the nodes it referred to.  The hook returns [None] for [undefined]. *)
Definition cloneLeafWithHook (hook : loc -> option loc) (h : Store) (l : loc)
  : Store * loc :=
  match hook l with
  | Some replacement => (h, replacement)
  | None =>
      match h !! l with
      | Some o => alloc h o
      | None => (h, l)
      end
  end.

Fixpoint cloneLeavesWithHook (hook : loc -> option loc) (h : Store) (ls : list loc)
  : Store * list loc :=
  match ls with
  | [] => (h, [])
  | l :: rest =>
      let '(h1, l') := cloneLeafWithHook hook h l in
      let '(h2, rest') := cloneLeavesWithHook hook h1 rest in
      (h2, l' :: rest')
  end.

Definition cloneDeepWithHookAt (hook : loc -> option loc) (h : Store) (l : loc)
  : Store * loc :=
  match hook l with
  | Some replacement => (h, replacement)
  | None =>
      match h !! l with
      | Some (ImportObj specs src lead trail) =>
          let '(h1, specs') := cloneLeavesWithHook hook h specs in
          let '(h2, lead') :=
            match lead with
            | Some ls =>
                let '(h2, ls') := cloneLeavesWithHook hook h1 ls in (h2, Some ls')
            | None => (h1, None)
            end in
          let '(h3, trail') := cloneLeavesWithHook hook h2 trail in
          alloc h3 (ImportObj specs' src lead' trail')
      | Some (StatementObj code comments expression) =>
          let '(h1, comments') := cloneLeavesWithHook hook h comments in
          let '(h2, expression') := cloneLeafWithHook hook h1 expression in
          alloc h2 (StatementObj code comments' expression')
      | Some o => alloc h o
      | None => (h, l)
      end
  end.

(** [cloneDeep] of [lodash]: fresh copies of an object and of the objects it
    refers to; no node is replaced. *)
Definition noHook : loc -> option loc := fun _ => None.

Definition cloneLeaf (h : Store) (l : loc) : Store * loc :=
  cloneLeafWithHook noHook h l.

Definition cloneLeaves (h : Store) (ls : list loc) : Store * list loc :=
  cloneLeavesWithHook noHook h ls.

Definition cloneDeepAt (h : Store) (l : loc) : Store * loc :=
  cloneDeepWithHookAt noHook h l.

(** The hook of the clone that [mergeFiles] makes of the edited file:
    [n => n === parsedEdited.jsx ? newJsx : undefined]. *)
Definition jsxHook (jsx : loc) (newJsx : option loc) : loc -> option loc :=
  fun n => if decide (n = jsx) then newJsx else None.

(** The clone of the body of a file: every statement is cloned. *)
Fixpoint cloneStatements (hook : loc -> option loc) (h : Store) (stmts : list loc)
  : Store * list loc :=
  match stmts with
  | [] => (h, [])
  | stmt :: rest =>
      let '(h1, stmt') := cloneDeepWithHookAt hook h stmt in
      let '(h2, rest') := cloneStatements hook h1 rest in
      (h2, stmt' :: rest')
  end.

Definition commentValueAt (h : Store) (l : loc) : option string :=
  match h !! l with
  | Some (CommentObj value) => Some value
  | _ => None
  end.

Definition specifierAt (h : Store) (l : loc) : option ImportSpecifierNode :=
  match h !! l with
  | Some (SpecifierObj s) => Some s
  | _ => None
  end.

Definition specifiersOf (h : Store) (node : loc) : list loc :=
  match h !! node with
  | Some (ImportObj specs _ _ _) => specs
  | _ => []
  end.

Definition isImportAt (h : Store) (node : loc) : bool :=
  match h !! node with
  | Some (ImportObj _ _ _ _) => true
  | _ => false
  end.

Definition tryParsePlasmicImportSpecAt (h : Store) (node : loc)
  : option (string * option string) :=
  match h !! node with
  | Some (ImportObj _ _ _ (c :: _)) =>
      match commentValueAt h c with
      | Some value => plasmicImportMatch value
      | None => None
      end
  | _ => None
  end.

Definition extractPlasmicImportsAt (h : Store) (stmts : list loc)
  : list (PlasmicImportSpecOf loc) :=
  omap (fun stmt =>
          match tryParsePlasmicImportSpecAt h stmt with
          | Some (id, type) => Some (mkPlasmicImportSpec id type stmt)
          | None => None
          end) stmts.

Fixpoint removePlasmicImportsAt (h : Store) (stmts : list loc) (i : nat)
    (firstImport firstPlasmicImport : option nat)
  : list loc * option nat * option nat :=
  match stmts with
  | [] => ([], firstImport, firstPlasmicImport)
  | stmt :: rest =>
      if isImportAt h stmt then
        let firstImport :=
          match firstImport with None => Some i | Some _ => firstImport end in
        match tryParsePlasmicImportSpecAt h stmt with
        | Some _ =>
            let firstPlasmicImport :=
              match firstPlasmicImport with
              | None => Some i
              | Some _ => firstPlasmicImport
              end in
            removePlasmicImportsAt h rest (S i) firstImport firstPlasmicImport
        | None =>
            let '(kept, fi, fp) :=
              removePlasmicImportsAt h rest (S i) firstImport firstPlasmicImport in
            (stmt :: kept, fi, fp)
        end
      else
        let '(kept, fi, fp) :=
          removePlasmicImportsAt h rest (S i) firstImport firstPlasmicImport in
        (stmt :: kept, fi, fp)
  end.

(** [importDecl.node.leadingComments = null]. *)
Definition setLeadingCommentsNull (h : Store) (node : loc) : Store :=
  match h !! node with
  | Some (ImportObj specs src _ trail) => <[node := ImportObj specs src None trail]> h
  | _ => h
  end.

(** [cloned.specifiers.push(s2)]. *)
Definition pushSpecifier (h : Store) (cloned s2 : loc) : Store :=
  match h !! cloned with
  | Some (ImportObj specs src lead trail) =>
      <[cloned := ImportObj (specs ++ [s2]) src lead trail]> h
  | _ => h
  end.

Definition mergeImportsAt_step (specifiers1 : list ImportSpecifierNode)
    (cloned : loc) (h : Store) (s2 : loc) : Store :=
  match specifierAt h s2 with
  | Some v2 =>
      if mergeImports_continue specifiers1 v2 then h
      else pushSpecifier h cloned s2
  | None => h
  end.

Definition mergeImportsAt (h : Store) (i1 i2 : loc) : Store * loc :=
  let '(h1, cloned) := cloneDeepAt h i1 in
  let specifiers1 := omap (specifierAt h) (specifiersOf h i1) in
  (foldl (mergeImportsAt_step specifiers1 cloned) h1 (specifiersOf h i2), cloned).

Fixpoint mergeAdjacentImportsAt (h : Store) (allImports : list (PlasmicImportSpecOf loc))
  : Store * list loc :=
  match allImports with
  | [] => (h, [])
  | a :: rest =>
      match rest with
      | b :: rest' =>
          if (compareImports a b =? 0)%Z then
            let '(h1, merged) := mergeImportsAt h (spec_node a) (spec_node b) in
            let '(h2, others) := mergeAdjacentImportsAt h1 rest' in
            (h2, merged :: others)
          else
            let '(h1, others) := mergeAdjacentImportsAt h rest in
            (h1, spec_node a :: others)
      | [] => (h, [spec_node a])
      end
  end.

Definition mergePlasmicImportsAt (h : Store)
    (mergedFileBody newBody editedBody : list loc) : Store * list loc :=
  let newImports := extractPlasmicImportsAt h newBody in
  let editedImports := extractPlasmicImportsAt h editedBody in
  let '(kept, firstImport, firstPlasmicImport) :=
    removePlasmicImportsAt h mergedFileBody 0 None None in
  let allImports := sort compareImports (editedImports ++ newImports) in
  let h1 :=
    foldl (fun h importDecl => setLeadingCommentsNull h (spec_node importDecl))
      h allImports in
  let '(h2, mergedImports) := mergeAdjacentImportsAt h1 allImports in
  let insertMergedImportsAt :=
    match firstPlasmicImport with
    | Some i => i
    | None => match firstImport with Some i => i | None => 0 end
    end in
  (h2, take insertMergedImportsAt kept ++ mergedImports
       ++ drop insertMergedImportsAt kept).

(** [parsedEdited.identifyingComment.value = ...]. *)
Definition setCommentValue (h : Store) (comment : loc) (value : string) : Store :=
  match h !! comment with
  | Some (CommentObj _) => <[comment := CommentObj value]> h
  | _ => h
  end.

(** The assembly of [mergeFiles] on the store: the marker comment of the
    edited file is rewritten, the edited file is cloned with the merged
    markup [newJsx] in the place of the edited markup [jsx], and the imports
    are merged into the clone.  The result is the store afterwards and the
    body of the merged file. *)
Definition assembleMergedFileAt (h : Store) (identifyingComment : loc)
    (newRevision : N) (jsx : loc) (newJsx : option loc)
    (editedBody newBody : list loc) : Store * list loc :=
  let h1 := setCommentValue h identifyingComment (markerOfRevision newRevision) in
  let '(h2, mergedFileBody) := cloneStatements (jsxHook jsx newJsx) h1 editedBody in
  mergePlasmicImportsAt h2 mergedFileBody newBody editedBody.

(** An edited file [import A from "a"; // plasmic-import: a] with a
    component whose [return] carries the marker comment (address 8) and the
    edited markup (address 9), a new file
    [import B from "b"; // plasmic-import: b], and the markup the serializer
    returned (address 11), which holds nodes of the input trees. *)
Definition c3_store : Store :=
  [ CommentObj " plasmic-import: a";      (* 0 *)
    SpecifierObj (ImportDefaultSpecifier "A");   (* 1 *)
    CommentObj " generated";               (* 2 *)
    ImportObj [1] "a" (Some [2]) [0];     (* 3: the import of the edited file *)
    CommentObj " plasmic-import: b";      (* 4 *)
    SpecifierObj (ImportDefaultSpecifier "B");   (* 5 *)
    CommentObj " generated";               (* 6 *)
    ImportObj [5] "b" (Some [6]) [4];     (* 7: the import of the new file *)
    CommentObj " plasmic-managed-jsx/3";  (* 8 *)
    OtherObj "<div className={rh.clsRoot()} />";   (* 9: the edited markup *)
    StatementObj "function Component() { return _; }" [8] 9;   (* 10 *)
    OtherObj "<div className={rh.clsRoot()} title={t} />" ].   (* 11: newJsx *)

Definition c3_edited_body : list loc := [3; 10].
Definition c3_new_body : list loc := [7].

(** The objects an object refers to. *)
Definition refs (o : Obj) : list loc :=
  match o with
  | ImportObj specs _ lead trail => specs ++ default [] lead ++ trail
  | StatementObj _ comments expression => comments ++ [expression]
  | _ => []
  end.

(** Every reference of the store points into the store. *)
Definition closed (h : Store) : Prop :=
  Forall (fun o => Forall (fun r => r < List.length h) (refs o)) h.

Definition withoutLeadingComments (o : Obj) : Obj :=
  match o with
  | ImportObj specs src _ trail => ImportObj specs src None trail
  | _ => o
  end.

Definition withMarker (marker : loc) (value : string) (l : loc) (o : Obj) : Obj :=
  match o with
  | CommentObj _ => if decide (l = marker) then CommentObj value else o
  | _ => o
  end.

(** What the assembly leaves at the address [l] of an object [o] of the
    input. *)
Definition afterMerge (marker : loc) (value : string) (managed : list loc)
    (l : loc) (o : Obj) : Obj :=
  let o1 := withMarker marker value l o in
  if decide (l ∈ managed) then withoutLeadingComments o1 else o1.

(** The managed import declarations of the edited and of the new file. *)
Definition managedImportsAt (h : Store) (editedBody newBody : list loc) : list loc :=
  spec_node <$>
    (extractPlasmicImportsAt h editedBody ++ extractPlasmicImportsAt h newBody).

(** [h'] holds every object of [h] unchanged, and maybe more. *)
Definition extends (h h' : Store) : Prop :=
  List.length h <= List.length h' /\ forall l, l < List.length h -> h' !! l = h !! l.

(** A reference of a clone: a new object, or a node the hook returned. *)
Definition freshOrHooked (hook : loc -> option loc) (h : Store) (r : loc) : Prop :=
  List.length h <= r \/ exists l, hook l = Some r.

(** An object of the store the references of which point into the store. *)
Definition validAt (h : Store) (l : loc) : Prop :=
  exists o, h !! l = Some o /\ Forall (fun r => r < List.length h) (refs o).

Definition pushed (s2 : loc) (o : Obj) : Obj :=
  match o with
  | ImportObj specs src lead trail => ImportObj (specs ++ [s2]) src lead trail
  | _ => o
  end.

(** ** Merging a version with itself

    A managed element [<div className={rh.clsRoot()}>{x}</div>] whose only
    child is an expression the parser does not classify. *)
Definition c9_opaque_child : Node := JSXExpressionContainer (Identifier "x").

Definition c9_opaque_tag : PlasmicTagOrComponent :=
  singleTag "Root"
    (element 0 "div" [classNameAttr "Root"] [c9_opaque_child])
    [PlasmicOpaque 11 c9_opaque_child].

Definition c9_opaque_version : CodeVersion :=
  singleTagVersion 10 "u-root" c9_opaque_tag.

(** The JSX child [mergedChildren] makes of a serialized node: a bare
    expression is wrapped in an expression container. *)
Definition asJsxChild (n : Node) : Node :=
  if isExpression n && negb (isJSXElement n) && negb (isJSXFragment n)
  then JSXExpressionContainer n
  else n.

(** A tree without the source offsets of its elements.  Two trees with the
    same image hold the same markup: they differ at most in where their
    elements sat in the files they were parsed from. *)
Fixpoint withoutOffsets (n : Node) : Node :=
  match n with
  | MemberExpression o p => MemberExpression (withoutOffsets o) (withoutOffsets p)
  | CallExpression c args =>
      CallExpression (withoutOffsets c) (List.map withoutOffsets args)
  | LogicalExpression op l r =>
      LogicalExpression op (withoutOffsets l) (withoutOffsets r)
  | JSXExpressionContainer e => JSXExpressionContainer (withoutOffsets e)
  | JSXAttribute name value =>
      JSXAttribute (withoutOffsets name) (option_map withoutOffsets value)
  | JSXSpreadAttribute a => JSXSpreadAttribute (withoutOffsets a)
  | JSXElement _ name attributes sc ce children =>
      JSXElement None (withoutOffsets name) (List.map withoutOffsets attributes) sc
        (option_map withoutOffsets ce) (List.map withoutOffsets children)
  | JSXClosingElement name => JSXClosingElement (withoutOffsets name)
  | JSXFragment children => JSXFragment (List.map withoutOffsets children)
  | Other t e parts => Other t e (List.map withoutOffsets parts)
  | Identifier _ | StringLiteral _ | BooleanLiteral _ | NullLiteral
  | JSXIdentifier _ | JSXNamespacedName _ _ | JSXText _ => n
  end.

(** An attribute of a generated element: a named attribute or a spread; the
    id attribute is the one the generator writes, [className={rh.cls<id>()}]
    on an element the version records without an id spread, or
    [{...rh.props<id>(...)}] on an element it records with one. *)
Definition legalAttribute (version : CodeVersion) (t : PlasmicTagOrComponent)
    (attr : Node) : Prop :=
  let nodeId := jsx_nameInId (tag_jsxElement t) in
  match attr with
  | JSXSpreadAttribute _ =>
      hasManagedSpread nodeId attr = true -> hasPropsIdSpreador version t = true
  | JSXAttribute (JSXIdentifier _) _ =>
      hasManagedClassName nodeId attr = true ->
      attr = classNameAttr nodeId /\ hasPropsIdSpreador version t = false
  | _ => False
  end.

(** An element with children has a closing tag. *)
Definition closingElementPresent (jsxElement : Node) : bool :=
  match jsxElement with
  | JSXElement _ _ _ _ None (_ :: _) => false
  | _ => true
  end.

(** A generated [tag-or-component] node of [version]: the version finds the
    node under its own identifier and records exactly one id attribute; the
    attributes are legal; no child is opaque; the children of the JSX element
    are the raw nodes of the classified children; the version records a
    visibility call exactly when the markup holds one. *)
Definition legalTag_with (legalChild : PlasmicASTNode -> Prop)
    (version : CodeVersion) (t : PlasmicTagOrComponent) : Prop :=
  let jsxElement := tag_jsxElement t in
  findNode version (getId version t) = Some t
  /\ xorb (hasPropsIdSpreador version t) (hasClassNameIdAttr version t) = true
  /\ Forall (legalAttribute version t) (jsx_attributes (jsx_rawNode jsxElement))
  /\ Forall (fun c => node_type c <> Vopaque /\ legalChild c) (jsx_children jsxElement)
  /\ jsx_element_children (jsx_rawNode jsxElement)
     = List.map (fun c => asJsxChild (node_rawNode c)) (jsx_children jsxElement)
  /\ closingElementPresent (jsx_rawNode jsxElement) = true
  /\ hasShowFuncCall version t
     = existsb (isShowCall (jsx_nameInId jsxElement)) (descendants (tag_rawNode t)).

Definition legalNode_with (legalChild : PlasmicASTNode -> Prop)
    (version : CodeVersion) (n : PlasmicASTNode) : Prop :=
  match n with
  | PlasmicTag _ t => legalTag_with legalChild version t
  | PlasmicArg _ _ _ jsxNodes => Forall (legalTag_with legalChild version) jsxNodes
  | _ => True
  end.

(** Legal down to [depth] levels of classified nodes. *)
Fixpoint legal (version : CodeVersion) (depth : nat) (n : PlasmicASTNode) : Prop :=
  match depth with
  | 0 => False
  | S depth' => legalNode_with (legal version depth') version n
  end.

(** The managed imports of a generated file: a statement is managed when it
    is an import declaration that [tryParsePlasmicImportSpec] recognizes. *)
Definition isManagedStatement (stmt : Statement) : bool :=
  match stmt with
  | ImportStatement node =>
      match tryParsePlasmicImportSpec node with Some _ => true | None => false end
  | OtherStatement _ => false
  end.

Definition hasNamespaceSpecifier (node : ImportDeclaration) : bool :=
  existsb (fun s => match s with ImportNamespaceSpecifier _ => true | _ => false end)
    (specifiers node).

(** The imports of a generated file [pre ++ block ++ post]: the managed
    imports are the declarations of [block], one per key and in the order of
    the keys, and none of them is a namespace import. *)
Definition legalImports (pre : list Statement) (block : list ImportDeclaration)
    (post : list Statement) : Prop :=
  Forall (fun stmt => isManagedStatement stmt = false) (pre ++ post)
  /\ Forall (fun node => isManagedStatement (ImportStatement node) = true
                         /\ hasNamespaceSpecifier node = false) block
  /\ StronglySorted (fun a b => key_lt (import_key a) (import_key b))
       (extractPlasmicImports (List.map ImportStatement block)).

(** A generated version with a nested element,
    [<div className={rh.clsRoot()} title="a">hello<span className={rh.clsRow()}>row</span></div>],
    and a generated file with two managed imports. *)
Definition c9_row : PlasmicTagOrComponent :=
  singleTag "Row"
    (element 10 "span" [classNameAttr "Row"] [JSXText "row"])
    [PlasmicText 21 (JSXText "row") "row"].

Definition c9_root_element : Node :=
  element 0 "div" [classNameAttr "Root"; stringAttr "title" "a"]
    [JSXText "hello"; tag_rawNode c9_row].

Definition c9_root : PlasmicTagOrComponent :=
  TagOrComponent c9_root_element
    (JsxElement "Root" c9_root_element []
       [PlasmicText 11 (JSXText "hello") "hello"; PlasmicTag 12 c9_row]).

Definition c9_version : CodeVersion :=
  mkCodeVersion (PlasmicTag 10 c9_root) [c9_root; c9_row]
    [("Root", "u-root"); ("Row", "u-row")].

Definition c9_imports : list ImportDeclaration :=
  [namedImport ["A"] "m" " plasmic-import: 1";
   namedImport ["B"] "n" " plasmic-import: 2/css"].

(** ** Vocabulary for the further properties *)

(** [attr.name.name] is a string: the attribute is a spread, or its name is
    a plain JSX identifier. *)
Definition hasStringName (attr : Node) : bool :=
  match attr with
  | JSXAttribute (JSXIdentifier _) _ => true
  | JSXAttribute _ _ => false
  | _ => true
  end.

(** The last attribute named [name], in source order. *)
Definition lastAttrNamed (name : string) (attributes : list Node) : option Node :=
  last (List.filter (fun attr => bool_decide (attrNameOf attr = Some name)) attributes).


(** Elements for the attribute merger: [<div className={rh.clsRoot()}/>],
    the same with the developer's [id="main"] and [{...rest}], and with the
    tool's [title={t}]. *)
Definition x_plain_tag : PlasmicTagOrComponent :=
  singleTag "Root" (element 0 "div" [classNameAttr "Root"] []) [].

Definition x_own_tag : PlasmicTagOrComponent :=
  singleTag "Root"
    (element 0 "div"
       [classNameAttr "Root"; stringAttr "id" "main";
        JSXSpreadAttribute (Identifier "rest")] []) [].

Definition x_title_value : PlasmicASTNode :=
  PlasmicOpaque 5 (JSXExpressionContainer (Identifier "t")).

Definition x_title_tag : PlasmicTagOrComponent :=
  let rawNode :=
    element 0 "div" [classNameAttr "Root"; exprAttr "title" (Identifier "t")] [] in
  TagOrComponent rawNode
    (JsxElement "Root" rawNode [inr ("title", x_title_value)] []).

(** An edited element that still holds the element [Row], which the new
    version no longer has. *)
Definition x_kept_row_tag : PlasmicTagOrComponent :=
  singleTag "P"
    (element 0 "p" [classNameAttr "P"] [tag_rawNode c9_row])
    [PlasmicTag 22 c9_row].


(** A JSX element whose source offset is [start]. *)
Definition isElementAt (start : option nat) (n : Node) : bool :=
  match n with
  | JSXElement s _ _ _ _ _ => option_eqb Nat.eqb s start
  | _ => false
  end.

(** ** Project sync data as JSON

    What [JSON.stringify] is given for a component ([toJSON]) and what
    [fromJson] rebuilds from the parsed value ([fromJsObject]); the map of
    names travels as the array of its entries. *)
Record ComponentSkeletonJson : Type := {
  json_uuid : string;
  json_nameInIdToUuid : list (string * string);
  json_fileContent : string
}.

(** [new Map(entries)]: the entries are set one after the other. *)
Definition mapOfEntries {V : Type} (entries : list (string * V)) : list (string * V) :=
  foldl (fun m entry => map_set (fst entry) (snd entry) m) [] entries.

Definition toJSON (m : ComponentSkeletonModel) : ComponentSkeletonJson :=
  {| json_uuid := csm_uuid m;
     json_nameInIdToUuid := csm_nameInIdToUuid m;   (* [...entries()] *)
     json_fileContent := csm_fileContent m |}.

Definition fromJsObject (jsObj : ComponentSkeletonJson) : ComponentSkeletonModel :=
  {| csm_uuid := json_uuid jsObj;
     csm_nameInIdToUuid := mapOfEntries (json_nameInIdToUuid jsObj);
     csm_fileContent := json_fileContent jsObj |}.

(** [ProjectSyncMetadataModel]: [toJSON] hands out the components, each
    serialised by its own [toJSON]; [fromJson] maps [fromJsObject] over the
    parsed array. *)
Definition projectToJSON (m : ProjectSyncMetadataModel) : list ComponentSkeletonJson :=
  List.map toJSON (components m).

Definition projectFromJson (j : list ComponentSkeletonJson) : ProjectSyncMetadataModel :=
  {| components := List.map fromJsObject j |}.

(** The last entry of an array of entries with a given key. *)
Definition lastEntry {V : Type} (k : string) (entries : list (string * V)) : option V :=
  snd <$> last (List.filter (fun entry => String.eqb (fst entry) k) entries).

(** ** Vocabulary for the placement of the merged imports *)

Definition isImportStatement (stmt : Statement) : bool :=
  match stmt with
  | ImportStatement _ => true
  | OtherStatement _ => false
  end.

(** Two managed declarations in the order of [compareImports], by the keys
    [tryParsePlasmicImportSpec] reads from them. *)
Definition managed_le (a b : ImportDeclaration) : Prop :=
  match tryParsePlasmicImportSpec a, tryParsePlasmicImportSpec b with
  | Some ka, Some kb => ka = kb \/ key_lt ka kb
  | _, _ => False
  end.

(** The worlds a provider can leave behind when it is called from [w]: [w]
    itself, and the world after a call made in such a world. *)
Inductive reachableWorld {World : Type}
    (provider : ProjectSyncDataProviderType World) (projectId : string) (w : World)
  : World -> Prop :=
| reachable_start : reachableWorld provider projectId w w
| reachable_call (w1 : World) (revision : N) :
    reachableWorld provider projectId w w1 ->
    reachableWorld provider projectId w (provider projectId revision w1).2.

(** A run of [mergeFiles] on two components: the edited file of the first
    carries the marker of revision 3, the second is not a generated file.
    The parser, the printer and the provider are the simplest that let the
    run go through. *)
Definition x_marked_file : File :=
  {| candidates :=
       [{| isAssignment := false;
           candidate_leadingComments := [" plasmic-managed-jsx/3"];
           candidate_expression := Some c9_root_element |}];
     body := List.map ImportStatement c9_imports |}.

Definition x_parse (fileContent : string) : Exc File :=
  if String.eqb fileContent "export const x = 1;" then Ok unmarkedFile
  else Ok x_marked_file.

Definition x_components : list (string * ComponentInfoForMerge) :=
  [("component-1",
    {| editedFile := "edited"; newFile := "new";
       newNameInIdToUuid := [("Root", "u-root"); ("Row", "u-row")] |});
   ("component-2", unmarkedComponent)].

Definition x_region : ManagedRegion :=
  {| matchManagedRegion := fun _ => Some "fragment";
     replaceManagedRegion := fun mergedCode _ => mergedCode |}.

Definition x_provider : ProjectSyncDataProviderType unit :=
  fun _ _ w =>
    (Ok {| components :=
             [{| csm_uuid := "component-1";
                 csm_nameInIdToUuid := [("Root", "u-root"); ("Row", "u-row")];
                 csm_fileContent := "base" |}] |}, w).

Definition x_mergeFiles : Exc (option (list (string * string))) * unit :=
  mergeFiles unit x_parse (fun _ _ _ => Ok c9_version) (fun _ => "merged")
    (fun text => text) deepEqualIgnoreComments x_region 8
    x_components "project-1" x_provider tt.

(* ===================================================================== *)
(** * Part II. Theorems                                                   *)
(* ===================================================================== *)

(** ** The loop of [findMatch] *)

Section FindMatchLoop.
Variable body : PlasmicASTNode -> Iteration.

Lemma findMatch_loop_perfect l i m k :
  findMatch_loop body l i m = perfect k <->
  exists j n, k = i + j /\ l !! j = Some n /\ body n = ReturnPerfect /\
    forall j' n', j' < j -> l !! j' = Some n' -> body n' <> ReturnPerfect.
Proof.
  revert i m. induction l as [|a l IH]; intros i m; simpl.
  - split.
    + destruct m; discriminate.
    + intros (j & n & _ & Hl & _). rewrite lookup_nil in Hl. discriminate.
  - destruct (body a) eqn:Ha.
    + split.
      * intros [= <-]. exists 0, a. repeat split; auto with lia.
      * intros (j & n & -> & Hl & Hb & Hfirst). destruct j as [|j].
        { f_equal. lia. }
        exfalso. apply (Hfirst 0 a); [lia|reflexivity|exact Ha].
    + rewrite IH. split.
      * intros (j & n & -> & Hl & Hb & Hfirst). exists (S j), n.
        repeat split; auto with lia.
        intros [|j'] n' Hlt Hl'; simpl in Hl'.
        { injection Hl' as <-. congruence. }
        apply (Hfirst j' n'); [lia|exact Hl'].
      * intros (j & n & -> & Hl & Hb & Hfirst). destruct j as [|j]; simpl in Hl.
        { injection Hl as <-. congruence. }
        exists j, n. repeat split; auto with lia.
        intros j' n' Hlt Hl'. apply (Hfirst (S j') n'); [lia|exact Hl'].
    + rewrite IH. split.
      * intros (j & n & -> & Hl & Hb & Hfirst). exists (S j), n.
        repeat split; auto with lia.
        intros [|j'] n' Hlt Hl'; simpl in Hl'.
        { injection Hl' as <-. congruence. }
        apply (Hfirst j' n'); [lia|exact Hl'].
      * intros (j & n & -> & Hl & Hb & Hfirst). destruct j as [|j]; simpl in Hl.
        { injection Hl as <-. congruence. }
        exists j, n. repeat split; auto with lia.
        intros j' n' Hlt Hl'. apply (Hfirst (S j') n'); [lia|exact Hl'].
Qed.

Lemma findMatch_loop_recorded l i m0 :
  findMatch_loop body l i (Some m0) = type_match m0 <->
  forall j n, l !! j = Some n -> body n <> ReturnPerfect.
Proof.
  revert i. induction l as [|a l IH]; intros i; simpl.
  - split; [|reflexivity]. intros _ j n Hl. rewrite lookup_nil in Hl. discriminate.
  - destruct (body a) eqn:Ha.
    + split; [discriminate|]. intros H. exfalso. exact (H 0 a eq_refl Ha).
    + rewrite IH. split.
      * intros H [|j] n Hl; simpl in Hl; [injection Hl as <-; congruence|eauto].
      * intros H j n Hl. exact (H (S j) n Hl).
    + rewrite IH. split.
      * intros H [|j] n Hl; simpl in Hl; [injection Hl as <-; congruence|eauto].
      * intros H j n Hl. exact (H (S j) n Hl).
Qed.

Lemma findMatch_loop_recorded_inv l i m0 r :
  findMatch_loop body l i (Some m0) = r ->
  r = type_match m0 \/ exists k, r = perfect k.
Proof.
  revert i. induction l as [|a l IH]; intros i; simpl.
  - intros <-. by left.
  - destruct (body a); eauto.
Qed.

Lemma findMatch_loop_type l i k :
  findMatch_loop body l i None = type_match k <->
  (forall j n, l !! j = Some n -> body n <> ReturnPerfect) /\
  exists j n, k = i + j /\ l !! j = Some n /\ body n = RecordType /\
    forall j' n', j' < j -> l !! j' = Some n' -> body n' <> RecordType.
Proof.
  revert i. induction l as [|a l IH]; intros i; simpl.
  - split; [discriminate|].
    intros (_ & j & n & _ & Hl & _). rewrite lookup_nil in Hl. discriminate.
  - destruct (body a) eqn:Ha.
    + split; [discriminate|]. intros (H & _). exfalso. exact (H 0 a eq_refl Ha).
    + split.
      * intros H.
        destruct (findMatch_loop_recorded_inv _ _ _ _ H) as [Hk|(k' & Hk)];
          [|discriminate].
        injection Hk as ->. pose proof (proj1 (findMatch_loop_recorded _ _ _) H) as H'.
        clear H; rename H' into H. split.
        { intros [|j] n Hl; simpl in Hl; [injection Hl as <-; congruence|eauto]. }
        exists 0, a. repeat split; auto with lia.
      * intros (Hnp & j & n & -> & Hl & Hb & Hfirst).
        destruct j as [|j].
        { replace (i + 0) with i by lia. apply findMatch_loop_recorded.
          intros j n' Hl'. exact (Hnp (S j) n' Hl'). }
        exfalso. apply (Hfirst 0 a); [lia|reflexivity|exact Ha].
    + rewrite IH. split.
      * intros (Hnp & j & n & -> & Hl & Hb & Hfirst). split.
        { intros [|j0] n0 Hl0; simpl in Hl0; [injection Hl0 as <-; congruence|eauto]. }
        exists (S j), n. repeat split; auto with lia.
        intros [|j'] n' Hlt Hl'; simpl in Hl'.
        { injection Hl' as <-. congruence. }
        apply (Hfirst j' n'); [lia|exact Hl'].
      * intros (Hnp & j & n & -> & Hl & Hb & Hfirst). split.
        { intros j0 n0 Hl0. exact (Hnp (S j0) n0 Hl0). }
        destruct j as [|j]; simpl in Hl.
        { injection Hl as <-. congruence. }
        exists j, n. repeat split; auto with lia.
        intros j' n' Hlt Hl'. apply (Hfirst (S j') n'); [lia|exact Hl'].
Qed.

Lemma findMatch_loop_none l i :
  findMatch_loop body l i None = none <->
  forall j n, l !! j = Some n -> body n = NextIndex.
Proof.
  revert i. induction l as [|a l IH]; intros i; simpl.
  - split; [|reflexivity]. intros _ j n Hl. rewrite lookup_nil in Hl. discriminate.
  - destruct (body a) eqn:Ha.
    + split; [discriminate|]. intros H. specialize (H 0 a eq_refl). congruence.
    + split.
      * intros H. destruct (findMatch_loop_recorded_inv _ _ _ _ H) as [Hk|(k' & Hk)];
          discriminate.
      * intros H. specialize (H 0 a eq_refl). congruence.
    + rewrite IH. split.
      * intros H [|j] n Hl; simpl in Hl; [injection Hl as <-; congruence|eauto].
      * intros H j n Hl. exact (H (S j) n Hl).
Qed.
End FindMatchLoop.

(** ** [findMatch]: the per-variant rules *)

Lemma first_from_drop (P : PlasmicASTNode -> Prop) nodes start k :
  (exists j n, k = start + j /\ drop start nodes !! j = Some n /\ P n /\
     forall j' n', j' < j -> drop start nodes !! j' = Some n' -> ~ P n') <->
  first_from P nodes start k.
Proof.
  unfold first_from. split.
  - intros (j & n & -> & Hl & HP & Hfirst). rewrite lookup_drop in Hl.
    split; [lia|]. split; [eauto|].
    intros j' n' Hj' Hl'. apply (Hfirst (j' - start) n'); [lia|].
    rewrite lookup_drop. replace (start + (j' - start)) with j' by lia. exact Hl'.
  - intros (Hle & (n & Hl & HP) & Hfirst). exists (k - start), n.
    rewrite lookup_drop. replace (start + (k - start)) with k by lia.
    repeat split; auto with lia.
    intros j' n' Hlt Hl'. rewrite lookup_drop in Hl'.
    apply (Hfirst (start + j') n'); [lia|exact Hl'].
Qed.

Lemma none_from_drop (P : PlasmicASTNode -> Prop) nodes start :
  (forall j n, drop start nodes !! j = Some n -> ~ P n) <->
  none_from P nodes start.
Proof.
  unfold none_from. split.
  - intros H j n Hle Hl. apply (H (j - start) n).
    rewrite lookup_drop. replace (start + (j - start)) with j by lia. exact Hl.
  - intros H j n Hl. rewrite lookup_drop in Hl. apply (H (start + j) n); [lia|exact Hl].
Qed.

(** C5 (as amended).  For a [text] or [string-lit] probe holding [v]:
    the result is [perfect i] exactly when [i] is the first index at or after
    [start] that holds a [text] or a [string-lit] node (either of the two)
    with value [v]; it is [type i] exactly when no such node exists and [i]
    is the first index at or after [start] holding a [text] or [string-lit]
    node; it is [none] exactly when no [text] or [string-lit] node exists at
    or after [start].  For a [cond-str-call] probe the result is [perfect i]
    exactly when [i] is the first index at or after [start] holding a
    [cond-str-call] node. *)
Theorem findMatch_rules (nodes : list PlasmicASTNode) (start : nat)
    (equiv : string -> string -> bool) (p : PlasmicASTNode) :
  match p with
  | PlasmicText _ _ v | PlasmicStringLit _ _ v =>
      let same := fun n => text_value n = Some v in
      let kind := fun n => is_Some (text_value n) in
      (forall i, findMatch nodes start equiv p = perfect i <->
                 first_from same nodes start i) /\
      (forall i, findMatch nodes start equiv p = type_match i <->
                 none_from same nodes start /\ first_from kind nodes start i) /\
      (findMatch nodes start equiv p = none <-> none_from kind nodes start)
  | PlasmicCondStrCall _ _ =>
      forall i, findMatch nodes start equiv p = perfect i <->
                first_from (fun n => node_type n = Vcond_str_call) nodes start i
  | _ => True
  end.
Proof.
  assert (Htext : forall v,
    let body := fun ni => match ni with
       | PlasmicText _ _ v0 | PlasmicStringLit _ _ v0 =>
           if String.eqb v0 v then ReturnPerfect else RecordType
       | _ => NextIndex end in
    (forall n, body n = ReturnPerfect <-> text_value n = Some v) /\
    (forall n, text_value n <> Some v ->
               (body n = RecordType <-> is_Some (text_value n))) /\
    (forall n, body n = NextIndex <-> ~ is_Some (text_value n))).
  { intros v body. repeat split; intros; destruct n; simpl in *;
      try destruct (String.eqb_spec value v); subst;
      try congruence; try discriminate; eauto;
      try (match goal with H : is_Some None |- _ => destruct H; discriminate end);
      try (match goal with H : ~ is_Some (Some _) |- _ => exfalso; apply H; eauto end);
      try (intros [? ?]; discriminate). }
  assert (Hgoal : forall v,
    let body := fun ni => match ni with
       | PlasmicText _ _ v0 | PlasmicStringLit _ _ v0 =>
           if String.eqb v0 v then ReturnPerfect else RecordType
       | _ => NextIndex end in
    let same := fun n => text_value n = Some v in
    let kind := fun n => is_Some (text_value n) in
    (forall i, findMatch_loop body (drop start nodes) start None = perfect i <->
               first_from same nodes start i) /\
    (forall i, findMatch_loop body (drop start nodes) start None = type_match i <->
               none_from same nodes start /\ first_from kind nodes start i) /\
    (findMatch_loop body (drop start nodes) start None = none <->
     none_from kind nodes start)).
  { intros v body same kind. destruct (Htext v) as (Hp & Ht & Hn). fold body in Hp, Ht, Hn.
    split; [|split].
    - intros i. rewrite findMatch_loop_perfect, <- first_from_drop.
      split; intros (j & n & -> & Hl & Hb & Hfirst); exists j, n;
        (repeat split; [done|by apply Hp|]);
        intros j' n' Hlt Hl' Hc; apply (Hfirst j' n' Hlt Hl'); by apply Hp.
    - intros i. rewrite findMatch_loop_type, <- first_from_drop, <- none_from_drop.
      split.
      + intros (Hnp & j & n & -> & Hl & Hb & Hfirst). split.
        { intros j0 n0 Hl0 Hc. apply (Hnp j0 n0 Hl0). by apply Hp. }
        exists j, n. repeat split; [done| |].
        { apply Ht; [|done]. intros Hc. apply (Hnp j n Hl). by apply Hp. }
        intros j' n' Hlt Hl' Hc. apply (Hfirst j' n' Hlt Hl').
        apply Ht; [|done]. intros Hc'. apply (Hnp j' n' Hl'). by apply Hp.
      + intros (Hnp & j & n & -> & Hl & Hb & Hfirst). split.
        { intros j0 n0 Hl0 Hc. apply (Hnp j0 n0 Hl0). by apply Hp. }
        exists j, n. repeat split; [done| |].
        { apply Ht; [|done]. exact (Hnp j n Hl). }
        intros j' n' Hlt Hl' Hc. apply (Hfirst j' n' Hlt Hl').
        apply Ht in Hc; [done|]. exact (Hnp j' n' Hl').
    - rewrite findMatch_loop_none, <- none_from_drop.
      split; intros H j n Hl; specialize (H j n Hl); by apply Hn. }
  destruct p; try exact I.
  - exact (Hgoal value).
  - exact (Hgoal value).
  - intros i. unfold findMatch. rewrite findMatch_loop_perfect, <- first_from_drop.
    assert (Hb : forall n, match n with PlasmicCondStrCall _ _ => ReturnPerfect
                                   | _ => RecordType end = ReturnPerfect <->
                           node_type n = Vcond_str_call).
    { intros []; simpl; split; congruence. }
    split; intros (j & n & -> & Hl & Hbn & Hfirst); exists j, n;
      (repeat split; [done|by apply Hb|]);
      intros j' n' Hlt Hl' Hc; apply (Hfirst j' n' Hlt Hl'); by apply Hb.
Qed.

(** C5 (as stated) fails: a [text] probe is a perfect match for a
    [string-lit] node with the same value, a node of another variant. *)
Lemma findMatch_perfect_across_variants :
  findMatch [ex_strlit_a] 0 String.eqb ex_text_a = perfect 0 /\
  exists ni, [ex_strlit_a] !! 0 = Some ni /\ node_type ni <> node_type ex_text_a.
Proof.
  split; [reflexivity|]. exists ex_strlit_a. split; [reflexivity|]. discriminate.
Qed.

(** With a [cond-str-call] probe and no [cond-str-call] sibling, [findMatch]
    reports the first sibling of any variant as a type match. *)
Example findMatch_cond_str_call_fallback :
  findMatch [ex_text_a] 0 String.eqb ex_cond_call = type_match 0.
Proof. reflexivity. Qed.

(** ** Children merger: states of the loop *)

Lemma forEach_indexed_app {A St : Type} (f : St -> A -> nat -> St)
    (l1 l2 : list A) (i : nat) (s : St) :
  forEach_indexed f (l1 ++ l2) i s =
  forEach_indexed f l2 (i + List.length l1) (forEach_indexed f l1 i s).
Proof.
  revert i s. induction l1 as [|a l1 IH]; intros i s; simpl.
  - by rewrite Nat.add_0_r.
  - rewrite IH. f_equal. lia.
Qed.

Lemma elem_of_splice {A : Type} (l : list A) (index : nat) (x y : A) :
  y ∈ splice l index x <-> y = x \/ y ∈ l.
Proof.
  unfold splice. rewrite elem_of_app, elem_of_cons.
  rewrite <- (take_drop index l) at 3. rewrite elem_of_app. tauto.
Qed.

Section ChildrenMergerFacts.
Variables newNode editedNode baseNode : PlasmicTagOrComponent.
Variables newVersion editedVersion baseVersion : CodeVersion.

Let editedChildren := jsx_children (tag_jsxElement editedNode).
Let newChildren := jsx_children (tag_jsxElement newNode).
Let state := mergedChildren_state newNode editedNode baseNode
               newVersion editedVersion baseVersion.
Let step := mergedChildren_step baseNode newVersion editedVersion baseVersion
              editedChildren.

Lemma mergedChildren_state_0 : state 0 = (newChildren, 0).
Proof. reflexivity. Qed.

Lemma mergedChildren_state_S (k : nat) (c : PlasmicASTNode) :
  editedChildren !! k = Some c ->
  state (S k) = step (state k) c k.
Proof.
  intros Hk. unfold state, mergedChildren_state. fold editedChildren.
  rewrite (take_S_r _ _ _ Hk), forEach_indexed_app. simpl.
  rewrite length_take.
  apply lookup_lt_Some in Hk.
  replace (k `min` List.length editedChildren) with k by lia.
  reflexivity.
Qed.

Lemma mergedChildren_state_ge (k : nat) :
  List.length editedChildren <= k -> state k = state (List.length editedChildren).
Proof.
  intros Hk. unfold state, mergedChildren_state. fold editedChildren.
  by rewrite !take_ge by lia.
Qed.

Lemma insertEditedNodeIntoNew_elem st c prev x :
  x ∈ fst (insertEditedNodeIntoNew newVersion editedVersion st c prev) ->
  x = c \/ x ∈ fst st.
Proof.
  destruct st as [merged cursor]. unfold insertEditedNodeIntoNew.
  destruct prev as [prev|]; [destruct (findMatch _ _ _ prev)|]; simpl;
    rewrite elem_of_splice; tauto.
Qed.

Lemma mergedChildren_step_elem st c k x :
  x ∈ fst (step st c k) -> x = c \/ x ∈ fst st.
Proof.
  destruct st as [merged cursor]. unfold step, mergedChildren_step.
  destruct (node_type c);
    repeat match goal with
           | |- context [match findMatch ?a ?b ?c ?d with _ => _ end] =>
               destruct (findMatch a b c d)
           end;
    intros Hx;
    first [ right; exact Hx
          | apply insertEditedNodeIntoNew_elem in Hx; exact Hx ].
Qed.

(** Every node of [merged] is a child of the new node or an edited child
    visited so far, other than one whose visit left [merged] as it was. *)
Lemma mergedChildren_state_elem (i k : nat) (x : PlasmicASTNode) :
  state (S i) = state i ->
  x ∈ fst (state k) ->
  x ∈ newChildren \/ exists j, j < k /\ j <> i /\ editedChildren !! j = Some x.
Proof.
  intros Hskip. revert x. induction k as [|k IH]; intros x Hx.
  - left. exact Hx.
  - destruct (editedChildren !! k) as [c|] eqn:Hk.
    + destruct (decide (k = i)) as [->|Hne].
      * rewrite Hskip in Hx. destruct (IH x Hx) as [?|(j & ? & ? & ?)]; [by left|].
        right. exists j. auto with lia.
      * rewrite (mergedChildren_state_S _ _ Hk) in Hx.
        apply mergedChildren_step_elem in Hx. destruct Hx as [->|Hx].
        { right. exists k. auto with lia. }
        destruct (IH x Hx) as [?|(j & ? & ? & ?)]; [by left|].
        right. exists j. auto with lia.
    + apply lookup_ge_None in Hk.
      rewrite mergedChildren_state_ge in Hx by lia.
      rewrite <- (mergedChildren_state_ge k) in Hx by lia.
      destruct (IH x Hx) as [?|(j & ? & ? & ?)]; [by left|].
      right. exists j. auto with lia.
Qed.
End ChildrenMergerFacts.

(** C6.  In the loop of the children merger, an edited child that is a
    [text] or a [string-lit], has no perfect match in [merged] at or after
    the cursor, and has a perfect match among the children of the base node,
    leaves [merged] and the cursor as they are; as the children are distinct
    objects, it does not occur in the final [merged] list either.  For base
    and edited [<p>hello world</p>] and new [<p>hello</p>] the serializer
    yields the element with the children of [<p>hello</p>]. *)
Theorem mergedChildren_honours_deletion :
  (forall (newNode editedNode baseNode : PlasmicTagOrComponent)
          (newVersion editedVersion baseVersion : CodeVersion)
          (i : nat) (editedChild : PlasmicASTNode),
      let editedChildren := jsx_children (tag_jsxElement editedNode) in
      let newChildren := jsx_children (tag_jsxElement newNode) in
      let state := mergedChildren_state newNode editedNode baseNode
                     newVersion editedVersion baseVersion in
      editedChildren !! i = Some editedChild ->
      node_type editedChild = Vtext \/ node_type editedChild = Vstring_lit ->
      (forall k, findMatch (fst (state i)) (snd (state i))
                   (idMatchChecker newVersion editedVersion) editedChild
                 <> perfect k) ->
      (exists k, findMatch (jsx_children (tag_jsxElement baseNode)) 0
                   (idMatchChecker baseVersion editedVersion) editedChild
                 = perfect k) ->
      state (S i) = state i /\
      (NoDup (List.map node_oid editedChildren) ->
       node_oid editedChild ∉ List.map node_oid newChildren ->
       node_oid editedChild ∉
         List.map node_oid
           (mergedChildren_list newNode editedNode baseNode
              newVersion editedVersion baseVersion))) /\
  (exists merged,
      serializePlasmicASTNode deepEqualIgnoreComments s6_new s6_edited s6_base 2
        (root s6_new) = Ok (Some merged) /\
      jsx_element_children merged
      = jsx_element_children (jsx_rawNode (tag_jsxElement (s6_tag 31 "hello")))).
Proof.
  split.
  - intros newNode editedNode baseNode newVersion editedVersion baseVersion
      i editedChild editedChildren newChildren state Hi Hty Hnew (kb & Hbase).
    assert (Hskip : state (S i) = state i).
    { unfold state. rewrite (mergedChildren_state_S _ _ _ _ _ _ _ _ Hi).
      fold state. destruct (state i) as [merged cursor] eqn:Hst.
      unfold mergedChildren_step. simpl in Hnew.
      destruct (findMatch merged cursor _ editedChild) eqn:Hm;
        [exfalso; by eapply Hnew| |];
        rewrite Hbase; by destruct Hty as [-> | ->]. }
    split; [exact Hskip|].
    intros Hnodup Hfresh Hin.
    apply list_elem_of_fmap in Hin as (x & Hoid & Hx).
    unfold mergedChildren_list in Hx.
    apply (mergedChildren_state_elem _ _ _ _ _ _ i) in Hx; [|exact Hskip].
    destruct Hx as [Hx|(j & _ & Hne & Hj)].
    + apply Hfresh. apply list_elem_of_fmap. eauto.
    + apply Hne. unfold editedChildren in *.
      eapply NoDup_lookup; [exact Hnodup| |].
      * rewrite list_lookup_fmap, Hj. reflexivity.
      * rewrite list_lookup_fmap, Hi. simpl. by rewrite Hoid.
  - eexists. split; reflexivity.
Qed.

Lemma mergedChildren_honours_deletion_witness :
  mergedChildren_state (s6_tag 31 "hello") (s6_tag 21 "hello world")
    (s6_tag 11 "hello world") s6_new s6_edited s6_base 1
  = ([PlasmicText 31 (JSXText "hello") "hello"], 0) /\
  21 ∉ List.map node_oid
         (mergedChildren_list (s6_tag 31 "hello") (s6_tag 21 "hello world")
            (s6_tag 11 "hello world") s6_new s6_edited s6_base).
Proof.
  pose proof (proj1 mergedChildren_honours_deletion
                (s6_tag 31 "hello") (s6_tag 21 "hello world")
                (s6_tag 11 "hello world") s6_new s6_edited s6_base
                0 (PlasmicText 21 (JSXText "hello world") "hello world")
                eq_refl (or_introl eq_refl)) as H.
  simpl in H.
  destruct H as [H1 H2].
  - intros k. vm_compute. discriminate.
  - exists 0. reflexivity.
  - split.
    + exact H1.
    + apply H2.
      * vm_compute. repeat constructor. apply not_elem_of_nil.
      * vm_compute. intros Hc. apply list_elem_of_In in Hc. simpl in Hc.
        destruct Hc as [Hc|[]]. discriminate.
Defined.

(** ** Induction over syntax trees *)

Section NodeInduction.
Variable P : Node -> Prop.
Hypothesis HIdentifier : forall name, P (Identifier name).
Hypothesis HStringLiteral : forall value, P (StringLiteral value).
Hypothesis HBooleanLiteral : forall value, P (BooleanLiteral value).
Hypothesis HNullLiteral : P NullLiteral.
Hypothesis HMemberExpression :
  forall o p, P o -> P p -> P (MemberExpression o p).
Hypothesis HCallExpression :
  forall c args, P c -> Forall P args -> P (CallExpression c args).
Hypothesis HLogicalExpression :
  forall op l r, P l -> P r -> P (LogicalExpression op l r).
Hypothesis HJSXIdentifier : forall name, P (JSXIdentifier name).
Hypothesis HJSXNamespacedName : forall ns name, P (JSXNamespacedName ns name).
Hypothesis HJSXText : forall value, P (JSXText value).
Hypothesis HJSXExpressionContainer :
  forall e, P e -> P (JSXExpressionContainer e).
Hypothesis HJSXAttribute :
  forall name value, P name -> (forall v, value = Some v -> P v) ->
                     P (JSXAttribute name value).
Hypothesis HJSXSpreadAttribute : forall a, P a -> P (JSXSpreadAttribute a).
Hypothesis HJSXElement :
  forall s name attributes sc ce children,
    P name -> Forall P attributes -> (forall c, ce = Some c -> P c) ->
    Forall P children -> P (JSXElement s name attributes sc ce children).
Hypothesis HJSXClosingElement : forall name, P name -> P (JSXClosingElement name).
Hypothesis HJSXFragment :
  forall children, Forall P children -> P (JSXFragment children).
Hypothesis HOther : forall t e parts, Forall P parts -> P (Other t e parts).

Lemma Node_nested_ind : forall n, P n.
Proof.
  fix IH 1. intros n.
  assert (Hlist : forall l, Forall P l).
  { fix IHl 1. intros [|x l]; constructor; [apply IH|apply IHl]. }
  assert (Hopt : forall o v, o = Some v -> P v).
  { intros [x|] v Hv; [injection Hv as <-; apply IH|discriminate]. }
  destruct n.
  - apply HIdentifier.
  - apply HStringLiteral.
  - apply HBooleanLiteral.
  - apply HNullLiteral.
  - apply HMemberExpression; apply IH.
  - apply HCallExpression; [apply IH|apply Hlist].
  - apply HLogicalExpression; apply IH.
  - apply HJSXIdentifier.
  - apply HJSXNamespacedName.
  - apply HJSXText.
  - apply HJSXExpressionContainer; apply IH.
  - apply HJSXAttribute; [apply IH|apply Hopt].
  - apply HJSXSpreadAttribute; apply IH.
  - apply HJSXElement; [apply IH|apply Hlist|apply Hopt|apply Hlist].
  - apply HJSXClosingElement; apply IH.
  - apply HJSXFragment; apply Hlist.
  - apply HOther; apply Hlist.
Qed.
End NodeInduction.

(** ** Strings *)

Lemma string_length_app (s1 s2 : string) :
  String.length (s1 +:+ s2) = String.length s1 + String.length s2.
Proof. induction s1 as [|a s1 IH]; simpl; [reflexivity|by rewrite IH]. Qed.

Lemma string_app_inv_tail (s1 s2 t : string) : s1 +:+ t = s2 +:+ t -> s1 = s2.
Proof.
  revert s2. induction s1 as [|a s1 IH]; intros [|b s2] H.
  - reflexivity.
  - apply (f_equal String.length) in H.
    rewrite !string_length_app in H. simpl in H. lia.
  - apply (f_equal String.length) in H.
    rewrite !string_length_app in H. simpl in H. lia.
  - change (String a (s1 +:+ t) = String b (s2 +:+ t)) in H.
    injection H as -> H. f_equal. by apply IH.
Qed.

Lemma handler_name_inj (id1 id2 event : string) :
  "on" +:+ id1 +:+ event = "on" +:+ id2 +:+ event -> id1 = id2.
Proof.
  intros H.
  change (String "o" (String "n" (id1 +:+ event))
          = String "o" (String "n" (id2 +:+ event))) in H.
  injection H as H. by apply string_app_inv_tail in H.
Qed.

(** ** Renaming event handlers *)

Lemma Forall_flat_map_subnodes (Q : Node -> Prop) (f : Node -> Node) (l : list Node) :
  Forall (fun x => Forall Q (subnodes (f x))) l ->
  Forall Q (flat_map subnodes (List.map f l)).
Proof.
  induction 1 as [|x l Hx _ IH]; simpl; [constructor|].
  apply Forall_app. by split.
Qed.

Section RenameHandlers.
Variables editedNodeId newNodeId eventNameInId : string.
Hypothesis renamed : editedNodeId <> newNodeId.

Let hook := renameHandlerHook editedNodeId newNodeId eventNameInId.
Let old := "on" +:+ editedNodeId +:+ eventNameInId.
Let clean : Node -> Prop :=
  fun m => memberExpressionMatch m helperObject old = false.

Lemma renameHandlerHook_spec (n : Node) :
  (memberExpressionMatch n helperObject old = true /\
   hook n = Some (makeMemberExpression helperObject
                    ("on" +:+ newNodeId +:+ eventNameInId))) \/
  (memberExpressionMatch n helperObject old = false /\ hook n = None).
Proof.
  unfold hook, renameHandlerHook. fold old.
  destruct (memberExpressionMatch n helperObject old); [left|right]; done.
Qed.

Lemma clone_is_Identifier (n : Node) (x : string) :
  cloneDeepWithHook hook n = Identifier x -> n = Identifier x.
Proof.
  destruct n; simpl; try discriminate; try done.
  destruct (hook (MemberExpression n1 n2)) eqn:Hh; [|discriminate].
  destruct (renameHandlerHook_spec (MemberExpression n1 n2)) as [[_ H]|[_ H]];
    rewrite H in Hh; [injection Hh as <-|]; discriminate.
Qed.

Lemma clone_handlers_clean (n : Node) :
  Forall clean (subnodes (cloneDeepWithHook hook n)).
Proof.
  assert (Hnew : Forall clean
            (subnodes (makeMemberExpression helperObject
                         ("on" +:+ newNodeId +:+ eventNameInId)))).
  { unfold makeMemberExpression. cbn [subnodes app]. repeat constructor.
    unfold clean, memberExpressionMatch.
    apply andb_false_iff. right. apply String.eqb_neq. intros Heq.
    apply handler_name_inj in Heq. congruence. }
  induction n using Node_nested_ind; simpl;
    try (repeat constructor; done).
  1: { destruct (renameHandlerHook_spec (MemberExpression n1 n2))
         as [[_ ->]|[Hm ->]]; [exact Hnew|].
       constructor; [|apply Forall_app; by split].
       unfold clean. simpl.
       destruct (cloneDeepWithHook hook n1) eqn:H1; try done.
       destruct (cloneDeepWithHook hook n2) eqn:H2; try done.
       apply clone_is_Identifier in H1, H2. subst. exact Hm. }
  all: constructor; [done|]; rewrite ?Forall_app; repeat split;
    try assumption; try (apply Forall_flat_map_subnodes; assumption);
    try match goal with
    | |- Forall _ (match option_map _ ?o with _ => _ end) =>
        destruct o; simpl; [eauto|constructor]
    end.
Qed.
End RenameHandlers.

(** ** The error monad *)

Lemma exc_bind_Ok {A B : Type} (m : Exc A) (k : A -> Exc B) (b : B) :
  exc_bind m k = Ok b <-> exists a, m = Ok a /\ k a = Ok b.
Proof.
  destruct m; simpl; split; try discriminate; eauto.
  - intros (a' & [= <-] & H). exact H.
  - intros (a' & [=] & _).
  - intros (a' & [=] & _).
Qed.

Lemma exc_mapM_lookup {A B : Type} (f : A -> Exc B) (l : list A) (bs : list B) :
  exc_mapM f l = Ok bs ->
  forall k a, l !! k = Some a -> exists b, bs !! k = Some b /\ f a = Ok b.
Proof.
  revert bs. induction l as [|x l IH]; intros bs H k a Hk.
  - rewrite lookup_nil in Hk. discriminate.
  - simpl in H. apply exc_bind_Ok in H as (b & Hb & H).
    apply exc_bind_Ok in H as (bs' & Hbs & [= <-]).
    destruct k as [|k]; simpl in *.
    + injection Hk as <-. eauto.
    + eauto.
Qed.

(** ** Attribute merger *)

(** The source's decision chain is the ordered rule list of the
    specification. *)
Lemma conflictResolution_table deepEqual name base edited new :
  conflictResolution deepEqual name base edited new
  = conflictTable deepEqual name base edited new.
Proof.
  unfold conflictResolution, conflictTable. simpl.
  destruct (deepEqual edited new); [reflexivity|].
  destruct base as [b|]; [|reflexivity].
  destruct (deepEqual b edited); [reflexivity|].
  destruct (startsWith name "on" || deepEqual b new); reflexivity.
Qed.




(** C4 (as amended).  An emitted [on*] attribute of the edited node whose
    name changed: when the new node has the attribute too, it is the clone in
    which every reference to the node's handler for the attribute's own event,
    [rh.on<editedNameInId><Event>], is rewritten to
    [rh.on<newNameInId><Event>], and no such reference remains in it; when
    neither the new nor the base node has the attribute, it is the edited
    attribute without any transformation. *)
Theorem emitAttrInEditedNode_renames_own_handler
    (deepEqual : Node -> Node -> bool)
    (newNode editedNode : PlasmicTagOrComponent)
    (newNamedAttrs baseNamedAttrs : list (string * Node))
    (name : string) (editedAttr emitted : Node) :
  let editedNodeId := jsx_nameInId (tag_jsxElement editedNode) in
  let newNodeId := jsx_nameInId (tag_jsxElement newNode) in
  let event := substring_from 2 name in
  startsWith name "on" = true ->
  editedNodeId <> newNodeId ->
  emitAttrInEditedNode deepEqual newNode editedNode newNamedAttrs baseNamedAttrs
    name editedAttr = Some emitted ->
  match map_get name newNamedAttrs with
  | Some _ =>
      emitted
      = cloneDeepWithHook (renameHandlerHook editedNodeId newNodeId event)
          editedAttr /\
      forall m, m ∈ subnodes emitted ->
                memberExpressionMatch m helperObject
                  ("on" +:+ editedNodeId +:+ event) = false
  | None => emitted = editedAttr
  end.
Proof.
  cbv zeta. intros Hon Hrenamed Hemit.
  unfold emitAttrInEditedNode in Hemit.
  destruct (map_get name newNamedAttrs) as [newAttr|].
  - apply String.eqb_neq in Hrenamed as Hneq. rewrite Hon, Hneq in Hemit.
    simpl in Hemit.
    assert (Hclone : emitted
              = cloneDeepWithHook
                  (renameHandlerHook (jsx_nameInId (tag_jsxElement editedNode))
                     (jsx_nameInId (tag_jsxElement newNode))
                     (substring_from 2 name))
                  editedAttr).
    { destruct (conflictResolution _ _ _ _ _); congruence. }
    split; [exact Hclone|].
    intros m Hm. rewrite Hclone in Hm.
    pose proof (clone_handlers_clean _ _ (substring_from 2 name) Hrenamed
                  editedAttr) as Hclean.
    rewrite Forall_forall in Hclean. by apply Hclean.
  - destruct (map_get name baseNamedAttrs); congruence.
Qed.

Lemma emitAttrInEditedNode_renames_own_handler_witness :
  handlerAttr "onClick" "onMainClick"
  = cloneDeepWithHook (renameHandlerHook "Root" "Main" "Click")
      (handlerAttr "onClick" "onRootClick") /\
  forall m, m ∈ subnodes (handlerAttr "onClick" "onMainClick") ->
            memberExpressionMatch m helperObject ("on" +:+ "Root" +:+ "Click")
            = false.
Proof.
  apply (emitAttrInEditedNode_renames_own_handler
           (fun _ _ => false)
           (singleTag "Main" NullLiteral []) (singleTag "Root" NullLiteral [])
           [("onClick", handlerAttr "onClick" "onMainClick")] []
           "onClick" (handlerAttr "onClick" "onRootClick")
           (handlerAttr "onClick" "onMainClick"));
    [reflexivity|discriminate|reflexivity].
Defined.

(** C4 (as stated) fails: [Root] was renamed [Main]; the developer's own
    [onKeyDown={rh.onRootClick}], absent from the new and the base node, is
    emitted as it is and still refers to [rh.onRootClick]. *)
Lemma developer_handler_keeps_old_reference :
  exists merged attr,
    serializePlasmicASTNode deepEqualIgnoreComments c4_new c4_edited c4_base 2
      (root c4_new) = Ok (Some merged) /\
    attr ∈ jsx_attributes merged /\
    attrNameOf attr = Some "onKeyDown" /\
    startsWith "onKeyDown" "on" = true /\
    "Root" <> "Main" /\
    existsb (isHandlerReference "Root") (subnodes attr) = true.
Proof.
  eexists. exists (handlerAttr "onKeyDown" "onRootClick").
  split; [reflexivity|]. split.
  - vm_compute. apply list_elem_of_In. simpl. auto.
  - repeat split; [discriminate].
Qed.

(** ** Visibility reconciler *)

Lemma cloneDeepWithHook_unfold (hook : Node -> option Node) (n : Node) :
  cloneDeepWithHook hook n
  = match hook n with
    | Some replacement => replacement
    | None => mapChildren (cloneDeepWithHook hook) n
    end.
Proof. destruct n; reflexivity. Qed.

Lemma existsb_flat_map_subnodes (p : Node -> bool) (x : Node) (l : list Node) :
  existsb p (flat_map subnodes (x :: l))
  = existsb p (subnodes x) || existsb p (flat_map subnodes l).
Proof. simpl. apply existsb_app. Qed.

Section ShowCallTraversal.
Variables editedNodeId newNodeId : string.
Variable newNodeCallShowFunc : bool.

Let visitor := showCallVisitor editedNodeId newNodeId newNodeCallShowFunc.
Let hook : Node -> option Node :=
  if newNodeCallShowFunc then renameShowHook editedNodeId newNodeId
  else showToTrueHook editedNodeId.
Let found (n : Node) : bool := existsb (isShowCall editedNodeId) (subnodes n).
Let visited (n : Node) : Prop :=
  forall inHtml s, visitor inHtml s n = (s || found n, cloneDeepWithHook hook n).

Lemma showCall_traverse_list (l : list Node) (inHtml s : bool) :
  Forall visited l ->
  traverse_list visitor inHtml s l
  = (s || existsb (isShowCall editedNodeId) (flat_map subnodes l),
     List.map (cloneDeepWithHook hook) l).
Proof.
  intros Hl. revert s. induction Hl as [|x l Hx _ IH]; intros s.
  - simpl. by rewrite orb_false_r.
  - cbn [traverse_list List.map]. rewrite Hx, IH.
    rewrite existsb_flat_map_subnodes. unfold found. by rewrite orb_assoc.
Qed.

Lemma showCall_traverse_option (o : option Node) (s : bool) :
  (forall v, o = Some v -> visited v) ->
  traverse_option visitor s o
  = (s || existsb (isShowCall editedNodeId)
            (match o with Some v => subnodes v | None => [] end),
     option_map (cloneDeepWithHook hook) o).
Proof.
  intros Ho. destruct o as [v|]; simpl.
  - by rewrite (Ho v eq_refl).
  - by rewrite orb_false_r.
Qed.

Lemma hook_not_call (n : Node) : isShowCall editedNodeId n = false -> hook n = None.
Proof.
  unfold hook, renameShowHook, showToTrueHook.
  intros H. destruct newNodeCallShowFunc; [destruct n|]; by rewrite ?H.
Qed.

Lemma showCallVisitor_not_call (n : Node) (inHtml st : bool) :
  isShowCall editedNodeId n = false ->
  visitor inHtml st n = traverse visitor st n.
Proof.
  intros H. destruct n; try reflexivity.
  unfold visitor. cbn [showCallVisitor]. simpl in H. by rewrite H.
Qed.

Lemma showCallVisitor_spec (n : Node) : visited n.
Proof.
  induction n using Node_nested_ind; intros inHtml st.
  6: { destruct (isShowCall editedNodeId (CallExpression n args)) eqn:Hcall.
       - unfold visitor, found. cbn [showCallVisitor subnodes existsb].
         rewrite Hcall, orb_true_r.
         rewrite cloneDeepWithHook_unfold.
         pose proof Hcall as Hcallee. unfold isShowCall in Hcallee.
         rewrite Hcallee.
         unfold hook; destruct newNodeCallShowFunc;
           unfold renameShowHook, showToTrueHook; by rewrite Hcall.
       - rewrite showCallVisitor_not_call by done.
         rewrite cloneDeepWithHook_unfold, hook_not_call by done.
         cbn [traverse mapChildren]. rewrite IHn, (showCall_traverse_list _ _ _ H).
         unfold found. cbn [subnodes existsb]. rewrite Hcall.
         by rewrite existsb_app, ?orb_assoc, ?orb_false_r. }
  all: rewrite showCallVisitor_not_call by done;
    rewrite cloneDeepWithHook_unfold, hook_not_call by done;
    cbn [traverse mapChildren];
    repeat match goal with
           | H : visited _ |- _ => rewrite H
           | H : Forall _ ?l |- context [traverse_list _ ?h ?s ?l] =>
               rewrite (showCall_traverse_list l h s H)
           | H : forall v, ?o = Some v -> _ |- context [traverse_option _ ?s ?o] =>
               rewrite (showCall_traverse_option o s H)
           end;
    unfold found; cbn [subnodes existsb];
    rewrite ?existsb_app, ?orb_assoc, ?orb_false_r; try reflexivity.
Qed.

(** Below the root, which is not visited, the traversal rewrites the
    children as the cloning primitive does and reports whether it met a
    matching call. *)
Lemma showCall_traverse (n : Node) (st : bool) :
  traverse visitor st n
  = (st || existsb (isShowCall editedNodeId) (descendants n),
     mapChildren (cloneDeepWithHook hook) n).
Proof.
  pose proof showCallVisitor_spec as Hall.
  destruct n; unfold descendants; cbn [traverse mapChildren subnodes tail];
    repeat first
      [ rewrite Hall
      | rewrite showCall_traverse_list by (apply Forall_forall; intros; apply Hall)
      | rewrite showCall_traverse_option by (intros; apply Hall) ];
    unfold found; cbn [existsb];
    rewrite ?existsb_app, ?orb_assoc, ?orb_false_r; try reflexivity.
Qed.
End ShowCallTraversal.

(** A hook that fires nowhere in a tree leaves the tree as it is. *)
Section CloneIdentity.
Variable hook : Node -> option Node.

Let quiet (l : list Node) : Prop := Forall (fun m => hook m = None) l.

Lemma cloneDeepWithHook_id_list (l : list Node) :
  Forall (fun x => quiet (subnodes x) -> cloneDeepWithHook hook x = x) l ->
  quiet (flat_map subnodes l) ->
  List.map (cloneDeepWithHook hook) l = l.
Proof.
  induction 1 as [|x l Hx _ IH]; intros Hq; [reflexivity|].
  simpl in Hq. apply Forall_app in Hq as [Hqx Hql].
  simpl. by rewrite Hx, IH.
Qed.

Lemma cloneDeepWithHook_id_option (o : option Node) :
  (forall v, o = Some v -> quiet (subnodes v) -> cloneDeepWithHook hook v = v) ->
  quiet (match o with Some v => subnodes v | None => [] end) ->
  option_map (cloneDeepWithHook hook) o = o.
Proof.
  intros Ho Hq. destruct o as [v|]; [|reflexivity].
  simpl. by rewrite (Ho v eq_refl Hq).
Qed.

Lemma cloneDeepWithHook_id (n : Node) :
  quiet (subnodes n) -> cloneDeepWithHook hook n = n.
Proof.
  induction n using Node_nested_ind; intros Hn;
    cbn [subnodes] in Hn; apply Forall_cons in Hn as [Hroot Hn];
    rewrite cloneDeepWithHook_unfold, Hroot; cbn [mapChildren];
    try reflexivity;
    rewrite ?Forall_app in Hn;
    repeat match goal with H : _ /\ _ |- _ => destruct H end;
    repeat match goal with
           | IH : quiet (subnodes ?c) -> cloneDeepWithHook hook ?c = ?c |- _ =>
               rewrite IH by assumption; clear IH
           | IH : Forall _ ?l |- context [List.map _ ?l] =>
               rewrite (cloneDeepWithHook_id_list l IH) by assumption; clear IH
           | IH : forall v, ?o = Some v -> _ |- context [option_map _ ?o] =>
               rewrite (cloneDeepWithHook_id_option o IH) by assumption; clear IH
           end;
    reflexivity.
Qed.

Lemma mapChildren_cloneDeepWithHook_id (n : Node) :
  quiet (descendants n) -> mapChildren (cloneDeepWithHook hook) n = n.
Proof.
  intros Hn. unfold descendants, quiet in Hn.
  destruct n; cbn [subnodes tail] in Hn; cbn [mapChildren]; try reflexivity;
    rewrite ?Forall_app in Hn;
    repeat match goal with H : _ /\ _ |- _ => destruct H end;
    repeat first
      [ rewrite cloneDeepWithHook_id by assumption
      | rewrite cloneDeepWithHook_id_list
          by (try assumption; apply Forall_forall; intros; by apply cloneDeepWithHook_id)
      | rewrite cloneDeepWithHook_id_option
          by (try assumption; intros; by apply cloneDeepWithHook_id) ];
    reflexivity.
Qed.
End CloneIdentity.

(** The second traversal: behaviour at and away from the element. *)
Lemma showWrapVisitor_stopped start newNodeId inHtml (n : Node) :
  showWrapVisitor start newNodeId inHtml true n = (true, n).
Proof. destruct n; reflexivity. Qed.

Lemma showWrapVisitor_found start newNodeId inHtml (n : Node) :
  isJSXElement n = true ->
  node_start n = start ->
  showWrapVisitor start newNodeId inHtml false n
  = (true,
     if inHtml
     then JSXExpressionContainer (makeJsxElementWithShowCall n newNodeId)
     else makeJsxElementWithShowCall n newNodeId).
Proof.
  intros Hel Hstart. destruct n; try discriminate. simpl in Hstart. subst start.
  cbn [showWrapVisitor].
  replace (option_eqb Nat.eqb start0 start0) with true; [reflexivity|].
  destruct start0; simpl; [by rewrite Nat.eqb_refl|reflexivity].
Qed.

(** [mergeShowFunc] on a given clone, case by case.  With [E] = a call
    [rh.show<editedNameInId>()] occurs below the root of the clone, and [N] =
    the new node has a show call: [E] and [N], the calls are renamed to
    [show<newNameInId>]; [E] and not [N], the calls are replaced by the
    literal [true]; not [E] and [N], the result is
    [rh.show<newNameInId>() && <clone>] when the edited node is the markup
    itself, and otherwise what the second traversal makes of the clone; not
    [E] and not [N], the clone is returned unchanged. *)
Lemma mergeShowFunc_table (newNode editedNode : PlasmicTagOrComponent)
    (newVersion editedVersion : CodeVersion) (editedNodeClone : Node) :
  let editedNodeId := jsx_nameInId (tag_jsxElement editedNode) in
  let newNodeId := jsx_nameInId (tag_jsxElement newNode) in
  let E := existsb (isShowCall editedNodeId) (descendants editedNodeClone) in
  let N := hasShowFuncCall newVersion newNode in
  mergeShowFunc newNode editedNode newVersion editedVersion editedNodeClone
  = match E, N with
    | true, true =>
        Ok (mapChildren
              (cloneDeepWithHook (renameShowHook editedNodeId newNodeId))
              editedNodeClone)
    | true, false =>
        Ok (mapChildren (cloneDeepWithHook (showToTrueHook editedNodeId))
              editedNodeClone)
    | false, true =>
        if node_eqb (tag_rawNode editedNode) (jsx_rawNode (tag_jsxElement editedNode))
        then
          if isJSXElement editedNodeClone
          then Ok (LogicalExpression "&&"
                     (makeCallExpression helperObject ("show" +:+ newNodeId))
                     editedNodeClone)
          else Throw
        else
          Ok (wrapElementAt
                (node_start (jsx_rawNode (tag_jsxElement editedNode)))
                newNodeId editedNodeClone)
    | false, false => Ok editedNodeClone
    end.
Proof.
  cbv zeta. unfold mergeShowFunc.
  rewrite showCall_traverse. cbn [orb].
  destruct (existsb _ (descendants editedNodeClone)) eqn:HE.
  - destruct (hasShowFuncCall newVersion newNode); reflexivity.
  - rewrite mapChildren_cloneDeepWithHook_id.
    + destruct (hasShowFuncCall newVersion newNode); cbn [andb negb]; [|reflexivity].
      destruct (node_eqb _ _); [|reflexivity].
      unfold makeJsxElementWithShowCall.
      by destruct (isJSXElement editedNodeClone).
    + apply Forall_forall. intros m Hm.
      assert (Hcall : isShowCall (jsx_nameInId (tag_jsxElement editedNode)) m = false).
      { destruct (isShowCall _ m) eqn:Hc; [|reflexivity].
        assert (Hex : existsb (isShowCall (jsx_nameInId (tag_jsxElement editedNode)))
                        (descendants editedNodeClone) = true).
        { apply existsb_exists. exists m. split; [by apply list_elem_of_In|exact Hc]. }
        congruence. }
      destruct (hasShowFuncCall newVersion newNode).
      * unfold renameShowHook. destruct m; try reflexivity. by rewrite Hcall.
      * unfold showToTrueHook. by rewrite Hcall.
Qed.

(** The four rows of the table on scenario S5 and its variations. *)
Example mergeShowFunc_adds_gate :
  serializePlasmicASTNode deepEqualIgnoreComments s5_new s5_edited s5_base 2
    (root s5_new)
  = Ok (Some (makeJsxElementWithShowCall (withoutOffset s5_element) "Row")).
Proof. reflexivity. Qed.

Example mergeShowFunc_removes_gate :
  serializePlasmicASTNode deepEqualIgnoreComments s5_edited s5_new s5_new 2
    (root s5_edited)
  = Ok (Some (LogicalExpression "&&" (BooleanLiteral true)
                (withoutOffset s5_element))).
Proof. reflexivity. Qed.

(** C7, the defect.  The new version of S5 calls [rh.showRow()]; in the
    edited version the developer put the markup of [Row] under a condition of
    their own, so the clone holds no visibility call and the edited node is
    not the markup itself: the row "not [E] and [N]" of the table, under a
    wrapper.  The table asks for [{cond && (rh.showRow() && <div .../>)}].
    The second traversal of [mergeShowFunc] looks for the JSX element whose
    source offset is the edited element's, but the element of the clone was
    made by [babel.types.cloneDeep] and carries no offset: nothing is
    wrapped, and the serializer returns [{cond && <div .../>}] without the
    gate. *)
Lemma gate_not_added_under_wrapper :
  hasShowFuncCall s5_new s5_gated = true
  /\ existsb (isShowCall "Row") (descendants (tag_rawNode s5_wrapped)) = false
  /\ tag_rawNode s5_wrapped
     = JSXExpressionContainer
         (LogicalExpression "&&" (Identifier "cond") s5_element)
  /\ serializePlasmicASTNode deepEqualIgnoreComments
       s5_new s5_edited_wrapped s5_base 2 (root s5_new)
     = Ok (Some (JSXExpressionContainer
                   (LogicalExpression "&&" (Identifier "cond")
                      (withoutOffset s5_element)))).
Proof. repeat split. Qed.

Example wrapElementAt_under_condition :
  wrapElementAt (Some 7) "Row" s5_conditional
  = JSXExpressionContainer
      (LogicalExpression "&&" (Identifier "cond")
         (makeJsxElementWithShowCall s5_element "Row")).
Proof. reflexivity. Qed.

Example wrapElementAt_in_html_context :
  wrapElementAt (Some 7) "Row" s5_in_fragment
  = JSXFragment
      [JSXText "label";
       JSXExpressionContainer (makeJsxElementWithShowCall s5_element "Row")].
Proof. reflexivity. Qed.

(** ** Import merger: the order on keys *)

Lemma string_compare_refl (s : string) : String.compare s s = Eq.
Proof. by apply OrderedTypeEx.String_as_OT.cmp_eq. Qed.

Lemma string_compare_Eq (s1 s2 : string) : String.compare s1 s2 = Eq <-> s1 = s2.
Proof. apply OrderedTypeEx.String_as_OT.cmp_eq. Qed.

Lemma string_compare_Lt_trans (s1 s2 s3 : string) :
  String.compare s1 s2 = Lt -> String.compare s2 s3 = Lt ->
  String.compare s1 s3 = Lt.
Proof.
  intros H1 H2. apply OrderedTypeEx.String_as_OT.cmp_lt.
  eapply OrderedTypeEx.String_as_OT.lt_trans;
    by apply OrderedTypeEx.String_as_OT.cmp_lt.
Qed.

Lemma string_compare_Gt (s1 s2 : string) :
  String.compare s1 s2 = Gt <-> String.compare s2 s1 = Lt.
Proof.
  rewrite (String.compare_antisym s2 s1).
  destruct (String.compare s1 s2); simpl; split; congruence.
Qed.

Lemma string_eqb_compare (s1 s2 : string) :
  String.eqb s1 s2 = match String.compare s1 s2 with Eq => true | _ => false end.
Proof.
  destruct (String.eqb_spec s1 s2) as [->|Hne].
  - by rewrite string_compare_refl.
  - destruct (String.compare s1 s2) eqn:Hc; try reflexivity.
    by apply string_compare_Eq in Hc.
Qed.

Lemma compareImports_key (a b : PlasmicImportSpec) :
  compareImports a b
  = match key_compare (import_key a) (import_key b) with
    | Lt => (-1)%Z
    | Eq => 0%Z
    | Gt => 1%Z
    end.
Proof.
  unfold compareImports, key_compare, import_key, String.ltb. simpl.
  rewrite string_eqb_compare.
  destruct (String.compare (spec_id a) (spec_id b)); simpl; try reflexivity.
  destruct (spec_type a) as [t1|], (spec_type b) as [t2|]; try reflexivity.
  rewrite string_eqb_compare. by destruct (String.compare t1 t2).
Qed.

Lemma key_compare_Eq (k1 k2 : string * option string) :
  key_compare k1 k2 = Eq <-> k1 = k2.
Proof.
  destruct k1 as [i1 t1], k2 as [i2 t2]. unfold key_compare. simpl. split.
  - destruct (String.compare i1 i2) eqn:Hi; try discriminate.
    apply string_compare_Eq in Hi as ->.
    destruct t1, t2; try discriminate; [|done].
    intros Ht. by apply string_compare_Eq in Ht as ->.
  - intros [= -> ->]. rewrite string_compare_refl.
    destruct t2; [apply string_compare_refl|reflexivity].
Qed.

Lemma key_compare_Gt (k1 k2 : string * option string) :
  key_compare k1 k2 = Gt <-> key_compare k2 k1 = Lt.
Proof.
  destruct k1 as [i1 t1], k2 as [i2 t2]. unfold key_compare. simpl.
  rewrite (String.compare_antisym i2 i1).
  destruct (String.compare i1 i2); simpl; try (split; congruence).
  destruct t1 as [t1|], t2 as [t2|]; try (split; congruence).
  apply string_compare_Gt.
Qed.

Lemma key_lt_trans (k1 k2 k3 : string * option string) :
  key_lt k1 k2 -> key_lt k2 k3 -> key_lt k1 k3.
Proof.
  destruct k1 as [i1 t1], k2 as [i2 t2], k3 as [i3 t3].
  unfold key_lt, key_compare. simpl.
  destruct (String.compare i1 i2) eqn:H12; try discriminate.
  - apply string_compare_Eq in H12 as ->.
    destruct (String.compare i2 i3) eqn:H23; try discriminate; [|done].
    destruct t1 as [t1|], t2 as [t2|], t3 as [t3|]; try done.
    apply string_compare_Lt_trans.
  - intros _. destruct (String.compare i2 i3) eqn:H23; try discriminate.
    + apply string_compare_Eq in H23 as <-. by rewrite H12.
    + by rewrite (string_compare_Lt_trans _ _ _ H12 H23).
Qed.

Lemma key_lt_irrefl (k : string * option string) : ~ key_lt k k.
Proof. unfold key_lt. by rewrite (proj2 (key_compare_Eq k k) eq_refl). Qed.

(** [compareImports] in terms of the order on keys. *)
Lemma compareImports_le (a b : PlasmicImportSpec) :
  (compareImports a b <=? 0)%Z = true <->
  import_key a = import_key b \/ key_lt (import_key a) (import_key b).
Proof.
  rewrite compareImports_key. unfold key_lt.
  destruct (key_compare (import_key a) (import_key b)) eqn:Hc; simpl.
  - apply key_compare_Eq in Hc. split; auto.
  - split; auto.
  - split; [discriminate|]. intros [He|]; [|discriminate].
    apply key_compare_Eq in He. congruence.
Qed.

Lemma compareImports_gt (a b : PlasmicImportSpec) :
  (compareImports a b <=? 0)%Z = false <->
  key_lt (import_key b) (import_key a).
Proof.
  rewrite compareImports_key. unfold key_lt. rewrite <- key_compare_Gt.
  destruct (key_compare (import_key a) (import_key b)); cbv; split; congruence.
Qed.

Lemma compareImports_eq (a b : PlasmicImportSpec) :
  (compareImports a b =? 0)%Z = true <-> import_key a = import_key b.
Proof.
  rewrite compareImports_key, <- key_compare_Eq.
  destruct (key_compare (import_key a) (import_key b)); cbv; split; congruence.
Qed.

(** ** Import merger: the stable sort *)

Lemma import_le_trans (a b c : PlasmicImportSpec) :
  import_le a b -> import_le b c -> import_le a c.
Proof.
  unfold import_le. intros [Hab|Hab] [Hbc|Hbc].
  - left. congruence.
  - right. by rewrite Hab.
  - right. by rewrite <- Hbc.
  - right. by eapply key_lt_trans.
Qed.

Lemma by_key_sort_insert (key : string * option string) (x : PlasmicImportSpec)
    (sorted : list PlasmicImportSpec) :
  by_key key (sort_insert compareImports x sorted) = by_key key (x :: sorted).
Proof.
  induction sorted as [|y rest IH]; [reflexivity|].
  cbn [sort_insert]. destruct (compareImports x y <=? 0)%Z eqn:Hc; [reflexivity|].
  apply compareImports_gt in Hc.
  unfold by_key in *. cbn [List.filter] in *. rewrite IH.
  destruct (bool_decide (import_key x = key)) eqn:Hx; [|reflexivity].
  apply bool_decide_eq_true in Hx.
  destruct (bool_decide (import_key y = key)) eqn:Hy; [|reflexivity].
  apply bool_decide_eq_true in Hy.
  exfalso. rewrite Hx, Hy in Hc. by apply key_lt_irrefl in Hc.
Qed.

(** The sort is stable: the imports with one key keep their order. *)
Lemma by_key_sort (key : string * option string) (l : list PlasmicImportSpec) :
  by_key key (sort compareImports l) = by_key key l.
Proof.
  induction l as [|x l IH]; [reflexivity|].
  unfold sort in *. cbn [foldr]. rewrite by_key_sort_insert.
  unfold by_key in *. cbn [List.filter]. by rewrite IH.
Qed.

Lemma elem_of_sort_insert (x y : PlasmicImportSpec) (sorted : list PlasmicImportSpec) :
  y ∈ sort_insert compareImports x sorted -> y = x \/ y ∈ sorted.
Proof.
  induction sorted as [|z rest IH]; cbn [sort_insert].
  - intros Hy. apply list_elem_of_singleton in Hy. by left.
  - destruct (compareImports x z <=? 0)%Z.
    + intros Hy. apply elem_of_cons in Hy. tauto.
    + intros Hy. apply elem_of_cons in Hy as [->|Hy].
      * right. apply list_elem_of_here.
      * destruct (IH Hy) as [->|Hin]; [by left|].
        right. by apply list_elem_of_further.
Qed.

Lemma sort_insert_sorted (x : PlasmicImportSpec) (sorted : list PlasmicImportSpec) :
  StronglySorted import_le sorted ->
  StronglySorted import_le (sort_insert compareImports x sorted).
Proof.
  induction 1 as [|y rest Hsorted IH Hy]; cbn [sort_insert].
  - repeat constructor.
  - destruct (compareImports x y <=? 0)%Z eqn:Hc.
    + apply compareImports_le in Hc.
      constructor; [by constructor|]. constructor; [exact Hc|].
      eapply Forall_impl; [exact Hy|]. intros z Hz.
      by eapply import_le_trans.
    + apply compareImports_gt in Hc. constructor; [exact IH|].
      apply Forall_forall. intros z Hz.
      apply elem_of_sort_insert in Hz as [->|Hz].
      * by right.
      * rewrite Forall_forall in Hy. by apply Hy.
Qed.

Lemma sort_sorted (l : list PlasmicImportSpec) :
  StronglySorted import_le (sort compareImports l).
Proof.
  induction l as [|x l IH]; [constructor|].
  unfold sort in *. cbn [foldr]. by apply sort_insert_sorted.
Qed.

(** ** Import merger: the pass over adjacent imports *)

Lemma list_pair_ind {A : Type} (P : list A -> Prop) :
  P [] -> (forall a, P [a]) ->
  (forall a b rest, P rest -> P (b :: rest) -> P (a :: b :: rest)) ->
  forall l, P l.
Proof.
  intros Hnil Hone Hstep l.
  assert (H : P l /\ forall a, P (a :: l)); [|tauto].
  induction l as [|b l [IH1 IH2]]; split; auto.
Qed.

Lemma list_filter_nil {A : Type} (p : A -> bool) (l : list A) :
  Forall (fun x => p x = false) l -> List.filter p l = [].
Proof. induction 1 as [|x l Hx _ IH]; simpl; [reflexivity|by rewrite Hx]. Qed.

Lemma import_le_antisym (a b : PlasmicImportSpec) :
  import_le a b -> import_le b a -> import_key a = import_key b.
Proof.
  intros [Hab|Hab] [Hba|Hba]; try done.
  exfalso. eapply key_lt_irrefl, key_lt_trans; eassumption.
Qed.

Lemma has_key_parsed (key : string * option string) (spec : PlasmicImportSpec) :
  parsed_spec spec ->
  has_key key (spec_node spec) = bool_decide (import_key spec = key).
Proof.
  unfold parsed_spec, has_key. intros ->.
  apply bool_decide_ext. split; congruence.
Qed.

Lemma has_key_mergeImports (key : string * option string) (i1 i2 : ImportDeclaration) :
  has_key key (mergeImports i1 i2) = has_key key i1.
Proof. reflexivity. Qed.

Lemma by_key_cons (key : string * option string) (x : PlasmicImportSpec)
    (l : list PlasmicImportSpec) :
  by_key key (x :: l)
  = if bool_decide (import_key x = key) then x :: by_key key l else by_key key l.
Proof. reflexivity. Qed.

Lemma mergeAdjacentImports_by_key (allImports : list PlasmicImportSpec) :
  StronglySorted import_le allImports ->
  (forall key, List.length (by_key key allImports) <= 2) ->
  Forall parsed_spec allImports ->
  forall key,
    List.filter (has_key key) (mergeAdjacentImports allImports)
    = match by_key key allImports with
      | [] => []
      | [a] => [spec_node a]
      | a :: b :: _ => [mergeImports (spec_node a) (spec_node b)]
      end.
Proof.
  induction allImports as [|a|a b rest IHrest IHtail] using list_pair_ind;
    intros Hsorted Hcount Hparsed key.
  - reflexivity.
  - apply Forall_cons in Hparsed as [Ha _].
    cbn [mergeAdjacentImports List.filter]. rewrite by_key_cons.
    rewrite (has_key_parsed _ _ Ha). by destruct (bool_decide _).
  - apply StronglySorted_inv in Hsorted as [Hsorted_tail Ha_le].
    apply Forall_cons in Hparsed as [Ha Hparsed_tail].
    pose proof Hparsed_tail as Hparsed_tail'.
    apply Forall_cons in Hparsed_tail' as [Hb Hparsed_rest].
    pose proof Hsorted_tail as Hsorted_tail'.
    apply StronglySorted_inv in Hsorted_tail' as [Hsorted_rest Hb_le].
    cbn [mergeAdjacentImports].
    destruct (compareImports a b =? 0)%Z eqn:Hab.
    + apply compareImports_eq in Hab.
      cbn [List.filter]. rewrite has_key_mergeImports, (has_key_parsed _ _ Ha).
      rewrite IHrest; [|exact Hsorted_rest| |exact Hparsed_rest].
      2: { intros k. specialize (Hcount k). rewrite !by_key_cons in Hcount.
           destruct (bool_decide (import_key a = k)),
             (bool_decide (import_key b = k));
             cbn [List.length] in Hcount; lia. }
      specialize (Hcount key). rewrite !by_key_cons in *. rewrite <- Hab in *.
      destruct (bool_decide (import_key a = key)) eqn:Hk; [|reflexivity].
      destruct (by_key key rest); [reflexivity|cbn [List.length] in Hcount; lia].
    + assert (Hne : import_key a <> import_key b).
      { intros He. apply compareImports_eq in He. congruence. }
      cbn [List.filter]. rewrite (has_key_parsed _ _ Ha).
      rewrite IHtail; [|exact Hsorted_tail| |exact Hparsed_tail].
      2: { intros k. specialize (Hcount k). rewrite (by_key_cons k a) in Hcount.
           destruct (bool_decide (import_key a = k));
             cbn [List.length] in Hcount; lia. }
      rewrite (by_key_cons key a).
      destruct (bool_decide (import_key a = key)) eqn:Hk; [|reflexivity].
      apply bool_decide_eq_true in Hk.
      assert (Hnone : by_key key (b :: rest) = []).
      { apply list_filter_nil. subst key.
        apply Forall_cons in Ha_le as [Hab_le _]. constructor.
        - apply bool_decide_eq_false. congruence.
        - eapply Forall_impl; [exact Hb_le|].
          intros z Hz. apply bool_decide_eq_false. intros Hzk.
          apply Hne, import_le_antisym; [exact Hab_le|].
          unfold import_le in *. by rewrite <- Hzk. }
      by rewrite Hnone.
Qed.

(** ** Import merger: the union *)

Lemma existsb_elem_of {A : Type} `{EqDecision A} (p : A -> bool) (x : A) (l : list A) :
  (forall y, p y = bool_decide (y = x)) ->
  existsb p l = bool_decide (x ∈ l).
Proof.
  intros Hp. induction l as [|y l IH]; cbn [existsb].
  - symmetry. apply bool_decide_eq_false. apply not_elem_of_nil.
  - rewrite Hp, IH. apply eq_true_iff_eq.
    rewrite orb_true_iff, !bool_decide_eq_true, elem_of_cons.
    split; intros [?|?]; auto.
Qed.

Lemma mergeImports_continue_spec (i1 : ImportDeclaration) (s2 : ImportSpecifierNode) :
  mergeImports_continue (specifiers i1) s2 = alreadyImported i1 s2.
Proof.
  destruct s2 as [l2|l2 im2|l2]; cbn [mergeImports_continue alreadyImported];
    [| |reflexivity].
  - rewrite (existsb_elem_of _ (ImportDefaultSpecifier l2)); [reflexivity|].
    intros [l1|l1 im1|l1]; try (symmetry; by apply bool_decide_eq_false).
    destruct (String.eqb_spec l1 l2) as [->|Hne]; symmetry.
    + by apply bool_decide_eq_true.
    + apply bool_decide_eq_false. congruence.
  - rewrite (existsb_elem_of _ (ImportSpecifier l2 im2)); [reflexivity|].
    intros [l1|l1 im1|l1]; try (symmetry; by apply bool_decide_eq_false).
    destruct (String.eqb_spec l1 l2) as [->|Hne],
             (String.eqb_spec im1 im2) as [->|Hne']; symmetry; simpl;
      first [by apply bool_decide_eq_true | apply bool_decide_eq_false; congruence].
Qed.

Lemma mergeImports_step_spec (i1 : ImportDeclaration)
    (cloned : list ImportSpecifierNode) (s2 : ImportSpecifierNode) :
  mergeImports_step i1 cloned s2
  = if alreadyImported i1 s2 then cloned else cloned ++ [s2].
Proof. unfold mergeImports_step. by rewrite mergeImports_continue_spec. Qed.

Lemma mergeImports_specifiers (a b : ImportDeclaration) :
  specifiers (mergeImports a b) = mergeSpecifiers a b.
Proof.
  unfold mergeImports, mergeSpecifiers. cbn [specifiers].
  generalize (specifiers a) at 1 2 as cloned.
  induction (specifiers b) as [|s2 rest IH]; intros cloned; cbn [foldl List.filter].
  - by rewrite app_nil_r.
  - rewrite IH, mergeImports_step_spec.
    destruct (alreadyImported a s2); cbn [negb]; [reflexivity|].
    by rewrite <- app_assoc.
Qed.

Lemma extractPlasmicImports_parsed (body : list Statement) :
  Forall parsed_spec (extractPlasmicImports body).
Proof.
  unfold extractPlasmicImports.
  induction body as [|stmt body IH]; [constructor|].
  cbn [omap list_omap]. destruct stmt as [node|code]; [|exact IH].
  destruct (tryParsePlasmicImportSpec node) as [[id type]|] eqn:Hp; [|exact IH].
  constructor; [exact Hp|exact IH].
Qed.

Lemma by_key_clearLeadingComments (key : string * option string)
    (l : list PlasmicImportSpec) :
  by_key key (List.map clearLeadingComments l)
  = List.map clearLeadingComments (by_key key l).
Proof.
  induction l as [|x l IH]; [reflexivity|].
  cbn [List.map]. rewrite !by_key_cons, IH.
  change (import_key (clearLeadingComments x)) with (import_key x).
  by destruct (bool_decide _).
Qed.

Lemma sorted_clearLeadingComments (l : list PlasmicImportSpec) :
  StronglySorted import_le l ->
  StronglySorted import_le (List.map clearLeadingComments l).
Proof.
  induction 1 as [|x l _ IH Hx]; cbn [List.map]; constructor; [exact IH|].
  apply Forall_map. exact Hx.
Qed.

Lemma by_key_NoDup (key : string * option string) (l : list PlasmicImportSpec) :
  NoDup (List.map import_key l) ->
  by_key key l
  = match List.find (fun spec => bool_decide (import_key spec = key)) l with
    | Some spec => [spec]
    | None => []
    end.
Proof.
  induction l as [|x l IH]; [reflexivity|].
  cbn [List.map]. intros Hnd. apply NoDup_cons in Hnd as [Hx Hnd].
  rewrite by_key_cons. cbn [List.find].
  destruct (bool_decide (import_key x = key)) eqn:Hk; [|by apply IH].
  apply bool_decide_eq_true in Hk. f_equal.
  apply list_filter_nil, Forall_forall. intros y Hy.
  apply bool_decide_eq_false. intros Hyk. apply Hx.
  apply list_elem_of_fmap. exists y. split; [congruence|exact Hy].
Qed.

Lemma mergeAdjacentImports_managed (allImports : list PlasmicImportSpec) :
  Forall parsed_spec allImports ->
  Forall (fun node => is_Some (tryParsePlasmicImportSpec node))
    (mergeAdjacentImports allImports).
Proof.
  induction allImports as [|a|a b rest IHrest IHtail] using list_pair_ind;
    intros Hparsed; cbn [mergeAdjacentImports].
  - constructor.
  - apply Forall_cons in Hparsed as [Ha _]. repeat constructor. by rewrite Ha.
  - apply Forall_cons in Hparsed as [Ha Htail].
    pose proof Htail as Htail'. apply Forall_cons in Htail' as [_ Hrest].
    destruct (compareImports a b =? 0)%Z; constructor; auto.
    all: change (tryParsePlasmicImportSpec (mergeImports (spec_node a) (spec_node b)))
        with (tryParsePlasmicImportSpec (spec_node a)); by rewrite Ha.
Qed.

(** C8 (as amended).  [mergeImports] copies the first declaration and
    appends each specifier of the second unless the first already holds that
    default or named specifier (a namespace specifier is always appended).
    When neither file holds two managed imports with the same [(id, type)],
    the merged managed imports are their union without duplicates: every
    declaration of the result is managed, and for each key the result holds
    the merge of the edited and the new declaration when both files have the
    key, the declaration itself when one file has it, and nothing otherwise.
    Managed [{A, B}] and [{B, C}] from the same module with id [7] merge to
    exactly [{A, B, C}]. *)
Theorem mergePlasmicImports_union :
  (forall a b : ImportDeclaration,
      specifiers (mergeImports a b) = mergeSpecifiers a b /\
      source (mergeImports a b) = source a /\
      trailingComments (mergeImports a b) = trailingComments a) /\
  (forall newBody editedBody : list Statement,
      let editedImports := extractPlasmicImports editedBody in
      let newImports := extractPlasmicImports newBody in
      NoDup (List.map import_key editedImports) ->
      NoDup (List.map import_key newImports) ->
      Forall (fun node => is_Some (tryParsePlasmicImportSpec node))
        (mergedPlasmicImports newBody editedBody) /\
      forall key,
        List.filter (has_key key) (mergedPlasmicImports newBody editedBody)
        = match import_with_key key editedImports,
                import_with_key key newImports with
          | Some e, Some n => [mergeImports (cleared e) (cleared n)]
          | Some e, None => [cleared e]
          | None, Some n => [cleared n]
          | None, None => []
          end) /\
  mergePlasmicImports s7_edited_body s7_new_body s7_edited_body
  = [OtherStatement "import React from 'react';";
     ImportStatement
       (cleared (namedImport ["A"; "B"; "C"] "m" " plasmic-import: 7"));
     OtherStatement "function Component() {}"].
Proof.
  split; [|split]; [| |reflexivity].
  - intros a b. by rewrite mergeImports_specifiers.
  - intros newBody editedBody editedImports newImports HE HN.
    unfold mergedPlasmicImports. fold editedImports newImports.
    assert (Hparsed : Forall parsed_spec
              (List.map clearLeadingComments
                 (sort compareImports (editedImports ++ newImports)))).
    { apply Forall_map, Forall_forall. intros spec Hspec.
      assert (Hin : by_key (import_key spec) (editedImports ++ newImports) <> []).
      { rewrite <- by_key_sort. intros Hnil.
        assert (Hmem : spec ∈ by_key (import_key spec)
                         (sort compareImports (editedImports ++ newImports))).
        { apply list_elem_of_In, filter_In. split; [by apply list_elem_of_In|].
          by apply bool_decide_eq_true. }
        rewrite Hnil in Hmem. by apply not_elem_of_nil in Hmem. }
      assert (Hmem : spec ∈ editedImports ++ newImports).
      { destruct (by_key _ (editedImports ++ newImports)) as [|y l] eqn:Hb; [done|].
        assert (Hy : y ∈ by_key (import_key spec) (editedImports ++ newImports))
          by (rewrite Hb; apply list_elem_of_here).
        clear Hy Hb Hin.
        assert (Hs : spec ∈ by_key (import_key spec)
                        (sort compareImports (editedImports ++ newImports))).
        { apply list_elem_of_In, filter_In. split; [by apply list_elem_of_In|].
          by apply bool_decide_eq_true. }
        rewrite by_key_sort in Hs. apply list_elem_of_In, filter_In in Hs as [Hs _].
        by apply list_elem_of_In. }
      pose proof (extractPlasmicImports_parsed editedBody) as PE.
      pose proof (extractPlasmicImports_parsed newBody) as PN.
      rewrite Forall_forall in PE, PN.
      change (parsed_spec spec).
      apply elem_of_app in Hmem as [Hmem|Hmem]; [by apply PE|by apply PN]. }
    split; [by apply mergeAdjacentImports_managed|].
    intros key.
    rewrite mergeAdjacentImports_by_key; [|by apply sorted_clearLeadingComments, sort_sorted| |exact Hparsed].
    2: { intros k. rewrite by_key_clearLeadingComments, length_map, by_key_sort.
         unfold by_key. rewrite List.filter_app, length_app.
         fold (by_key k editedImports) (by_key k newImports).
         rewrite (by_key_NoDup _ _ HE), (by_key_NoDup _ _ HN).
         repeat destruct (List.find _ _); simpl; lia. }
    rewrite by_key_clearLeadingComments, by_key_sort.
    unfold by_key. rewrite List.filter_app.
    fold (by_key key editedImports) (by_key key newImports).
    rewrite (by_key_NoDup _ _ HE), (by_key_NoDup _ _ HN).
    unfold import_with_key.
    destruct (List.find _ editedImports) as [e|], (List.find _ newImports) as [n|];
      reflexivity.
Qed.

Lemma mergePlasmicImports_union_witness :
  List.filter (has_key ("7", None)) (mergedPlasmicImports s7_new_body s7_edited_body)
  = [mergeImports (cleared (namedImport ["A"; "B"] "m" " plasmic-import: 7"))
       (cleared (namedImport ["B"; "C"] "m" " plasmic-import: 7"))].
Proof.
  refine (proj2 (proj1 (proj2 mergePlasmicImports_union)
                   s7_new_body s7_edited_body _ _) ("7", None)).
  - vm_compute. repeat constructor. apply not_elem_of_nil.
  - vm_compute. repeat constructor. apply not_elem_of_nil.
Defined.

(** C8 (as stated) fails when a file holds a managed import twice: of three
    declarations with id [7] the pass merges the first two and leaves the
    third, so two declarations with the same key remain. *)
Lemma mergePlasmicImports_leaves_duplicate :
  List.map specifiers
    (List.filter (has_key ("7", None))
       (mergedPlasmicImports dup_new_body dup_edited_body))
  = [[ImportSpecifier "A" "A"; ImportSpecifier "B" "B"]; [ImportSpecifier "C" "C"]].
Proof. reflexivity. Qed.

(** ** The caching provider *)

Lemma callCachedProvider_empty {World : Type} (provider : CachedProvider World)
    (projectId : string) (revision : N) (w : World) :
  cache provider = [] ->
  callCachedProvider provider projectId revision w
  = (rawProvider provider projectId revision w, provider).
Proof. unfold callCachedProvider. by intros ->. Qed.

(** C10.  The provider made by [makeCachedProjectSyncDataProvider] starts
    with an empty cache; a call never changes the cache, and with the cache
    empty it is forwarded to the raw provider.  So every sequence of calls
    returns what the same calls to the raw provider return, with the same
    effect on the world: no result is ever served from the cache. *)
Theorem cachedProvider_forwards (World : Type)
    (raw : ProjectSyncDataProviderType World) :
  let cached : CachedProvider World := makeCachedProjectSyncDataProvider World raw in
  cache cached = [] /\
  (forall (provider : CachedProvider World) projectId revision w,
      cache (snd (callCachedProvider provider projectId revision w))
      = cache provider) /\
  (forall projectId revision w,
      callCachedProvider cached projectId revision w
      = (raw projectId revision w, cached)) /\
  (forall calls w,
      callCachedProvider_all cached calls w = callProvider_all raw calls w).
Proof.
  intros cached. split; [reflexivity|]. split; [|split].
  - intros provider projectId revision w. unfold callCachedProvider.
    by destruct (List.find _ _).
  - reflexivity.
  - intros calls. induction calls as [|[projectId revision] rest IH]; intros w.
    + reflexivity.
    + cbn [callCachedProvider_all callProvider_all].
      rewrite callCachedProvider_empty by reflexivity.
      change (rawProvider cached) with raw.
      destruct (raw projectId revision w) as [promise w1].
      by rewrite IH.
Qed.

(** ** File assembler *)

Lemma map_get_set {V : Type} (k k' : string) (v : V) (m : list (string * V)) :
  map_get k (map_set k' v m) = if String.eqb k' k then Some v else map_get k m.
Proof.
  induction m as [|[k0 v0] m IH]; cbn [map_set map_get].
  - reflexivity.
  - destruct (String.eqb_spec k0 k') as [->|Hne]; cbn [map_get].
    + by destruct (String.eqb k' k).
    + rewrite IH. destruct (String.eqb_spec k0 k) as [->|Hne'].
      * destruct (String.eqb_spec k' k) as [->|]; [done|reflexivity].
      * reflexivity.
Qed.

Section MergeFilesFacts.
Variable World : Type.
Variable parse : string -> Exc File.
Variable newCodeVersion : string -> list (string * string) -> Node -> Exc CodeVersion.
Variable code : MergedFile -> string.
Variable formatted : string -> string.
Variable deepEqual : Node -> Node -> bool.
Variable region : ManagedRegion.
Variable fuel : nat.

(** The edited file of a component carries the marker. *)
Let marked (info : ComponentInfoForMerge) : Prop :=
  exists parsed,
    tryParseComponentSkeletonFile parse (editedFile info) = Ok (Some parsed).

Lemma updateableComponents_keys (componentByUuid : list (string * ComponentInfoForMerge))
    (acc updateable : list (string * PlasmicComponentSkeletonFile)) (uuid : string) :
  updateableComponents parse componentByUuid acc = Ok updateable ->
  is_Some (map_get uuid updateable) ->
  is_Some (map_get uuid acc) \/
  exists info, (uuid, info) ∈ componentByUuid /\ marked info.
Proof.
  revert acc. induction componentByUuid as [|[uuid' info] rest IH]; intros acc H Hk.
  - injection H as <-. by left.
  - cbn [updateableComponents] in H.
    apply exc_bind_Ok in H as (parsedEdited & Hparse & H).
    destruct parsedEdited as [parsedEdited|].
    + destruct (IH _ H Hk) as [Hacc|(info' & Hin & Hm)].
      * rewrite map_get_set in Hacc.
        destruct (String.eqb_spec uuid' uuid) as [->|Hne]; [|by left].
        right. exists info. split; [apply list_elem_of_here|]. by exists parsedEdited.
      * right. exists info'. split; [by apply list_elem_of_further|exact Hm].
    + destruct (IH _ H Hk) as [Hacc|(info' & Hin & Hm)]; [by left|].
      right. exists info'. split; [by apply list_elem_of_further|exact Hm].
Qed.

Lemma updateableComponents_unmarked
    (componentByUuid : list (string * ComponentInfoForMerge))
    (acc : list (string * PlasmicComponentSkeletonFile)) :
  (forall uuid info, (uuid, info) ∈ componentByUuid ->
     tryParseComponentSkeletonFile parse (editedFile info) = Ok None) ->
  updateableComponents parse componentByUuid acc = Ok acc.
Proof.
  induction componentByUuid as [|[uuid info] rest IH]; intros Hall.
  - reflexivity.
  - cbn [updateableComponents].
    rewrite (Hall uuid info (list_elem_of_here _ _)). cbn [exc_bind].
    apply IH. intros uuid' info' Hin. apply (Hall uuid' info').
    by apply list_elem_of_further.
Qed.

Lemma mergeUpdateable_keys (componentByUuid : list (string * ComponentInfoForMerge))
    (projectId : string) (provider : ProjectSyncDataProviderType World)
    (updateable : list (string * PlasmicComponentSkeletonFile))
    (acc mergedFiles : list (string * string)) (w w' : World) (uuid : string) :
  mergeUpdateable World parse newCodeVersion code formatted deepEqual region fuel
    componentByUuid projectId provider updateable acc w = (Ok mergedFiles, w') ->
  is_Some (map_get uuid mergedFiles) ->
  is_Some (map_get uuid acc) \/ is_Some (map_get uuid updateable).
Proof.
  revert acc w. induction updateable as [|[uuid' parsedEdited] rest IH];
    intros acc w H Hk.
  - injection H as <- <-. by left.
  - cbn [mergeUpdateable] in H.
    destruct (provider projectId (revision parsedEdited) w) as [[data| |] w1];
      try discriminate.
    destruct (mergeComponent _ _ _ _ _ _ _ _ _ _ _) as [mergedText| |];
      try discriminate.
    cbn [map_get]. destruct (IH _ _ H Hk) as [Hacc|Hrest].
    + rewrite map_get_set in Hacc.
      destruct (String.eqb uuid' uuid); [right; eauto|by left].
    + right. destruct (String.eqb uuid' uuid); eauto.
Qed.

(** C2 (as amended).  A component all of whose entries have an edited file
    without the marker gets no entry in the mapping [mergeFiles] returns; and
    when no component is mergeable [mergeFiles] returns [undefined], not a
    mapping, without calling the provider. *)
Theorem mergeFiles_skips_unmarked
    (componentByUuid : list (string * ComponentInfoForMerge))
    (projectId : string) (provider : ProjectSyncDataProviderType World) (w : World) :
  let result :=
    mergeFiles World parse newCodeVersion code formatted deepEqual region fuel
      componentByUuid projectId provider w in
  (forall mergedFiles w' uuid,
      result = (Ok (Some mergedFiles), w') ->
      (forall info, (uuid, info) ∈ componentByUuid ->
         tryParseComponentSkeletonFile parse (editedFile info) = Ok None) ->
      map_get uuid mergedFiles = None) /\
  ((forall uuid info, (uuid, info) ∈ componentByUuid ->
      tryParseComponentSkeletonFile parse (editedFile info) = Ok None) ->
   result = (Ok None, w)).
Proof.
  cbv zeta. unfold mergeFiles. split.
  - intros mergedFiles w' uuid H Hunmarked.
    destruct (updateableComponents parse componentByUuid []) as [updateable| |]
      eqn:Hupd; try discriminate.
    destruct (List.length updateable =? 0)%nat; [discriminate|].
    destruct (mergeUpdateable _ _ _ _ _ _ _ _ _ _ _ _ _ _) as [[merged| |] w1]
      eqn:Hm; try discriminate.
    cbn [exc_bind] in H. injection H as <- <-.
    destruct (map_get uuid merged) as [text|] eqn:Hget; [|reflexivity].
    exfalso.
    destruct (mergeUpdateable_keys _ _ _ _ _ _ _ _ uuid Hm) as [Hacc|Hin].
    + rewrite Hget. eauto.
    + by destruct Hacc.
    + destruct (updateableComponents_keys _ _ _ uuid Hupd Hin)
        as [Hacc|(info & Hinfo & parsed & Hparsed)].
      * by destruct Hacc.
      * rewrite (Hunmarked info Hinfo) in Hparsed. discriminate.
  - intros Hall. by rewrite updateableComponents_unmarked.
Qed.
End MergeFilesFacts.

Lemma mergeFiles_skips_unmarked_witness : mergeUnmarked = (Ok None, tt).
Proof.
  unfold mergeUnmarked.
  apply (proj2 (mergeFiles_skips_unmarked unit (fun _ => Ok unmarkedFile)
                  (fun _ _ _ => Throw) (fun _ => "") (fun text => text)
                  deepEqualIgnoreComments noRegion 0
                  [("component-1", unmarkedComponent)] "project-1"
                  (fun _ _ w => (Throw, w)) tt)).
  intros uuid info _. reflexivity.
Defined.

(** C2 (as stated) fails: with no mergeable component the result is
    [undefined], not a mapping with zero entries. *)
Lemma mergeFiles_returns_undefined :
  fst mergeUnmarked = Ok None /\ fst mergeUnmarked <> Ok (Some []).
Proof. split; [reflexivity|discriminate]. Qed.

(* --------------------------------------------------------------------- *)
(** ** The store: what cloning, clearing and pushing change *)

Lemma setCommentValue_lookup (h : Store) (c : loc) (v : string) (l : loc) :
  setCommentValue h c v !! l = withMarker c v l <$> h !! l.
Proof.
  unfold setCommentValue.
  destruct (h !! c) as [oc|] eqn:Hc.
  - destruct (decide (l = c)) as [->|Hne].
    + destruct oc; rewrite ?list_lookup_insert_eq by (by eapply lookup_lt_Some);
        rewrite ?Hc; try reflexivity.
      unfold withMarker. cbn [fmap option_fmap option_map].
      by rewrite decide_True.
    + assert (Hid : withMarker c v l <$> h !! l = h !! l).
      { destruct (h !! l) as [[]|]; simpl; try reflexivity.
        by rewrite decide_False. }
      rewrite Hid. destruct oc; try reflexivity.
      by rewrite list_lookup_insert_ne.
  - destruct (h !! l) as [o|] eqn:Hl; [|reflexivity].
    destruct o; simpl; try reflexivity.
    rewrite decide_False; [reflexivity|]. intros ->. congruence.
Qed.

Lemma setCommentValue_length (h : Store) (c : loc) (v : string) :
  List.length (setCommentValue h c v) = List.length h.
Proof.
  unfold setCommentValue. destruct (h !! c) as [[]|]; try reflexivity.
  apply length_insert.
Qed.

Lemma refs_withMarker (c : loc) (v : string) (l : loc) (o : Obj) :
  refs (withMarker c v l o) = refs o.
Proof. destruct o; simpl; try reflexivity. by case_decide. Qed.

Lemma closed_lookup (h : Store) (l : loc) (o : Obj) :
  closed h -> h !! l = Some o -> Forall (fun r => r < List.length h) (refs o).
Proof. intros Hc Hl. exact (proj1 (Forall_lookup _ _) Hc l o Hl). Qed.

Lemma setCommentValue_closed (h : Store) (c : loc) (v : string) :
  closed h -> closed (setCommentValue h c v).
Proof.
  intros Hc. apply Forall_lookup. intros l o Hl.
  rewrite setCommentValue_lookup in Hl. rewrite setCommentValue_length.
  destruct (h !! l) as [o0|] eqn:Hl0; [|discriminate].
  injection Hl as <-. rewrite refs_withMarker. by eapply closed_lookup.
Qed.

Lemma setLeadingCommentsNull_lookup (h : Store) (node l : loc) :
  setLeadingCommentsNull h node !! l
  = if decide (l = node) then withoutLeadingComments <$> h !! l else h !! l.
Proof.
  unfold setLeadingCommentsNull. case_decide as Hl.
  - subst l. destruct (h !! node) as [o|] eqn:Hn; [|by rewrite Hn].
    destruct o; simpl; rewrite ?Hn; try reflexivity.
    rewrite list_lookup_insert_eq by (by eapply lookup_lt_Some). reflexivity.
  - destruct (h !! node) as [[]|]; try reflexivity.
    by rewrite list_lookup_insert_ne.
Qed.

Lemma setLeadingCommentsNull_length (h : Store) (node : loc) :
  List.length (setLeadingCommentsNull h node) = List.length h.
Proof.
  unfold setLeadingCommentsNull. destruct (h !! node) as [[]|]; try reflexivity.
  apply length_insert.
Qed.

Lemma withoutLeadingComments_idemp (o : Obj) :
  withoutLeadingComments (withoutLeadingComments o) = withoutLeadingComments o.
Proof. by destruct o. Qed.

Lemma clearAll_lookup {Nd : Type} (proj : Nd -> loc) (ls : list Nd) (h : Store) (l : loc) :
  foldl (fun h x => setLeadingCommentsNull h (proj x)) h ls !! l
  = if decide (l ∈ proj <$> ls) then withoutLeadingComments <$> h !! l else h !! l.
Proof.
  revert h. induction ls as [|x ls IH]; intros h; cbn [foldl].
  - case_decide as Hin; [|reflexivity]. by apply elem_of_nil in Hin.
  - rewrite IH, setLeadingCommentsNull_lookup, fmap_cons.
    destruct (decide (l = proj x)) as [->|Hne].
    + rewrite (decide_True (P := proj x ∈ proj x :: (proj <$> ls)))
        by apply list_elem_of_here.
      case_decide; [|reflexivity].
      destruct (h !! proj x); simpl; [|reflexivity].
      by rewrite withoutLeadingComments_idemp.
    + destruct (decide (l ∈ proj <$> ls)) as [Hin|Hnin].
      * rewrite decide_True; [reflexivity|]. by apply list_elem_of_further.
      * rewrite decide_False; [reflexivity|].
        intros Hin. apply elem_of_cons in Hin as [?|?]; contradiction.
Qed.

Lemma clearAll_length {Nd : Type} (proj : Nd -> loc) (ls : list Nd) (h : Store) :
  List.length (foldl (fun h x => setLeadingCommentsNull h (proj x)) h ls)
  = List.length h.
Proof.
  revert h. induction ls as [|x ls IH]; intros h; simpl; [reflexivity|].
  by rewrite IH, setLeadingCommentsNull_length.
Qed.
Lemma extends_refl (h : Store) : extends h h.
Proof. by split. Qed.

Lemma extends_trans (h1 h2 h3 : Store) :
  extends h1 h2 -> extends h2 h3 -> extends h1 h3.
Proof.
  intros [Hlen1 H1] [Hlen2 H2]. split; [lia|].
  intros l Hl. rewrite H2 by lia. by apply H1.
Qed.

Lemma extends_alloc (h : Store) (o : Obj) : extends h (alloc h o).1.
Proof.
  split; simpl.
  - rewrite length_app. lia.
  - intros l Hl. by apply lookup_app_l.
Qed.

Lemma extends_lookup (h h' : Store) (l : loc) (o : Obj) :
  extends h h' -> h !! l = Some o -> h' !! l = Some o.
Proof.
  intros [_ H] Hl. rewrite H; [done|]. by eapply lookup_lt_Some.
Qed.

Lemma extends_validAt (h h' : Store) (l : loc) :
  extends h h' -> validAt h l -> validAt h' l.
Proof.
  intros Hext (o & Hl & Hrefs). exists o. split; [by eapply extends_lookup|].
  eapply Forall_impl; [exact Hrefs|]. destruct Hext. simpl. lia.
Qed.

Lemma extends_specifiersOf (h h' : Store) (l : loc) :
  extends h h' -> l < List.length h -> specifiersOf h' l = specifiersOf h l.
Proof. intros [_ H] Hl. unfold specifiersOf. by rewrite H. Qed.

Lemma validAt_lt (h : Store) (l : loc) : validAt h l -> l < List.length h.
Proof. intros (o & Hl & _). by eapply lookup_lt_Some. Qed.

Lemma freshOrHooked_mono (hook : loc -> option loc) (h h' : Store) (r : loc) :
  List.length h <= List.length h' -> freshOrHooked hook h' r -> freshOrHooked hook h r.
Proof. intros Hlen [Hr|Hr]; [left; lia|by right]. Qed.

Lemma cloneLeafWithHook_extends (hook : loc -> option loc) (h : Store) (l : loc) :
  extends h (cloneLeafWithHook hook h l).1.
Proof.
  unfold cloneLeafWithHook. destruct (hook l); [apply extends_refl|].
  destruct (h !! l); [apply extends_alloc|apply extends_refl].
Qed.

Lemma cloneLeafWithHook_fresh (hook : loc -> option loc) (h : Store) (l : loc) :
  l < List.length h -> freshOrHooked hook h (cloneLeafWithHook hook h l).2.
Proof.
  intros Hl. unfold cloneLeafWithHook.
  destruct (hook l) as [r|] eqn:Hhook; [right; eauto|].
  destruct (lookup_lt_is_Some_2 h l Hl) as [o ->]. left. simpl. lia.
Qed.

Lemma cloneLeavesWithHook_extends (hook : loc -> option loc) (ls : list loc)
    (h : Store) :
  extends h (cloneLeavesWithHook hook h ls).1.
Proof.
  revert h. induction ls as [|l ls IH]; intros h; cbn [cloneLeavesWithHook].
  { apply extends_refl. }
  pose proof (cloneLeafWithHook_extends hook h l) as H1.
  destruct (cloneLeafWithHook hook h l) as [h1 l'].
  pose proof (IH h1) as H2.
  destruct (cloneLeavesWithHook hook h1 ls) as [h2 ls']. cbn [fst] in *.
  by eapply extends_trans.
Qed.

Lemma cloneLeavesWithHook_fresh (hook : loc -> option loc) (ls : list loc)
    (h : Store) :
  Forall (fun r => r < List.length h) ls ->
  Forall (freshOrHooked hook h) (cloneLeavesWithHook hook h ls).2.
Proof.
  revert h. induction ls as [|l ls IH]; intros h Hls; cbn [cloneLeavesWithHook].
  { constructor. }
  apply Forall_cons in Hls as [Hl Hls].
  pose proof (cloneLeafWithHook_extends hook h l) as [Hlen _].
  pose proof (cloneLeafWithHook_fresh hook h l Hl) as Hfresh.
  destruct (cloneLeafWithHook hook h l) as [h1 l']. cbn [fst snd] in *.
  assert (Hls1 : Forall (fun r => r < List.length h1) ls).
  { eapply Forall_impl; [exact Hls|]. cbv beta. lia. }
  pose proof (IH h1 Hls1) as Hrest.
  destruct (cloneLeavesWithHook hook h1 ls) as [h2 ls']. cbn [fst snd] in *.
  constructor; [exact Hfresh|].
  eapply Forall_impl; [exact Hrest|]. intros r. by apply freshOrHooked_mono.
Qed.

(** The clone of a valid object is the node the hook returned for it, or a
    new object that refers to new objects and to nodes the hook returned. *)
Lemma cloneDeepWithHookAt_spec (hook : loc -> option loc) (h : Store) (l : loc) :
  extends h (cloneDeepWithHookAt hook h l).1
  /\ (hook l = Some (cloneDeepWithHookAt hook h l).2
      \/ hook l = None /\ List.length h <= (cloneDeepWithHookAt hook h l).2)
  /\ (validAt h l -> hook l = None ->
      exists o', (cloneDeepWithHookAt hook h l).1 !! (cloneDeepWithHookAt hook h l).2
                 = Some o'
        /\ Forall (freshOrHooked hook h) (refs o')).
Proof.
  unfold cloneDeepWithHookAt.
  destruct (hook l) as [r|] eqn:Hhook.
  { split; [apply extends_refl|]. split; [by left|]. by intros _ [=]. }
  destruct (h !! l) as [o|] eqn:Hl.
  2: { split; [apply extends_refl|]. split.
       - right. split; [done|]. by apply lookup_ge_None in Hl.
       - intros (o & Ho & _). cbn [fst snd] in *. congruence. }
  assert (Hleaf : refs o = [] ->
            extends h (alloc h o).1
            /\ (None = Some (alloc h o).2
                \/ @None loc = None /\ List.length h <= (alloc h o).2)
            /\ (validAt h l -> @None loc = None ->
                exists o', (alloc h o).1 !! (alloc h o).2 = Some o'
                  /\ Forall (freshOrHooked hook h) (refs o'))).
  { intros Ho. split; [apply extends_alloc|]. split; [right; by split|].
    intros _ _. exists o. split; [|by rewrite Ho].
    cbn [alloc fst snd]. by rewrite lookup_app_r, Nat.sub_diag. }
  destruct o as [| |specs src lead trail| |code comments expression];
    try (by apply Hleaf).
  - (* an import declaration *)
    clear Hleaf.
    pose proof (cloneLeavesWithHook_extends hook specs h) as H1.
    pose proof (cloneLeavesWithHook_fresh hook specs h) as F1.
    destruct (cloneLeavesWithHook hook h specs) as [h1 specs'].
    cbn [fst snd] in H1, F1.
    assert (H2 : extends h1
                   (match lead with
                    | Some ls =>
                        let '(h2, ls') := cloneLeavesWithHook hook h1 ls in
                        (h2, Some ls')
                    | None => (h1, None)
                    end).1
                 /\ (Forall (fun r => r < List.length h1) (default [] lead) ->
                     Forall (freshOrHooked hook h1)
                       (default []
                          (match lead with
                           | Some ls =>
                               let '(h2, ls') := cloneLeavesWithHook hook h1 ls in
                               (h2, Some ls')
                           | None => (h1, None)
                           end).2))).
    { destruct lead as [ls|]; [|split; [apply extends_refl|by constructor]].
      pose proof (cloneLeavesWithHook_extends hook ls h1) as H.
      pose proof (cloneLeavesWithHook_fresh hook ls h1) as F.
      by destruct (cloneLeavesWithHook hook h1 ls). }
    destruct (match lead with Some _ => _ | None => _ end) as [h2 lead'].
    destruct H2 as [H2 F2]. cbn [fst snd] in H2, F2.
    pose proof (cloneLeavesWithHook_extends hook trail h2) as H3.
    pose proof (cloneLeavesWithHook_fresh hook trail h2) as F3.
    destruct (cloneLeavesWithHook hook h2 trail) as [h3 trail'].
    cbn [fst snd] in H3, F3.
    assert (Hlen1 : List.length h <= List.length h1) by apply H1.
    assert (Hlen2 : List.length h1 <= List.length h2) by apply H2.
    assert (Hlen3 : List.length h2 <= List.length h3) by apply H3.
    split; [|split].
    + eapply extends_trans; [exact H1|]. eapply extends_trans; [exact H2|].
      eapply extends_trans; [exact H3|]. apply (extends_alloc h3).
    + right. split; [done|]. cbn [alloc snd]. lia.
    + intros (o & Ho & Hrefs) _. rewrite Hl in Ho. injection Ho as <-.
      cbn [refs] in Hrefs.
      apply Forall_app in Hrefs as [Hspecs Hrest].
      apply Forall_app in Hrest as [Hlead Htrail].
      eexists. split.
      { cbn [alloc fst snd]. by rewrite lookup_app_r, Nat.sub_diag. }
      cbn [refs]. repeat apply Forall_app_2.
      * by apply F1.
      * eapply Forall_impl; [apply F2|].
        -- eapply Forall_impl; [exact Hlead|]. cbv beta. lia.
        -- intros r. by apply freshOrHooked_mono.
      * eapply Forall_impl; [apply F3|].
        -- eapply Forall_impl; [exact Htrail|]. cbv beta. lia.
        -- intros r. apply freshOrHooked_mono. lia.
  - (* a statement that holds managed markup *)
    clear Hleaf.
    pose proof (cloneLeavesWithHook_extends hook comments h) as H1.
    pose proof (cloneLeavesWithHook_fresh hook comments h) as F1.
    destruct (cloneLeavesWithHook hook h comments) as [h1 comments'].
    cbn [fst snd] in H1, F1.
    pose proof (cloneLeafWithHook_extends hook h1 expression) as H2.
    pose proof (cloneLeafWithHook_fresh hook h1 expression) as F2.
    destruct (cloneLeafWithHook hook h1 expression) as [h2 expression'].
    cbn [fst snd] in H2, F2.
    assert (Hlen1 : List.length h <= List.length h1) by apply H1.
    assert (Hlen2 : List.length h1 <= List.length h2) by apply H2.
    split; [|split].
    + eapply extends_trans; [exact H1|]. eapply extends_trans; [exact H2|].
      apply (extends_alloc h2).
    + right. split; [done|]. cbn [alloc snd]. lia.
    + intros (o & Ho & Hrefs) _. rewrite Hl in Ho. injection Ho as <-.
      cbn [refs] in Hrefs. apply Forall_app in Hrefs as [Hcomments Hexpression].
      apply Forall_cons in Hexpression as [Hexpression _].
      eexists. split.
      { cbn [alloc fst snd]. by rewrite lookup_app_r, Nat.sub_diag. }
      cbn [refs]. apply Forall_app_2; [by apply F1|].
      constructor; [|constructor].
      apply (freshOrHooked_mono hook h h1); [done|]. apply F2. lia.
Qed.

Lemma cloneDeepAt_extends (h : Store) (l : loc) : extends h (cloneDeepAt h l).1.
Proof. apply cloneDeepWithHookAt_spec. Qed.

Lemma cloneDeepAt_loc (h : Store) (l : loc) :
  List.length h <= (cloneDeepAt h l).2.
Proof.
  destruct (cloneDeepWithHookAt_spec noHook h l) as (_ & [Hhook|[_ Hloc]] & _);
    [discriminate|exact Hloc].
Qed.

(** The clone of a valid object is a new object, and refers to new objects
    only. *)
Lemma cloneDeepAt_fresh (h : Store) (l : loc) :
  validAt h l ->
  exists o', (cloneDeepAt h l).1 !! (cloneDeepAt h l).2 = Some o'
    /\ Forall (fun r => List.length h <= r) (refs o').
Proof.
  intros Hvalid.
  destruct (cloneDeepWithHookAt_spec noHook h l) as (_ & _ & Hfresh).
  destruct (Hfresh Hvalid eq_refl) as (o' & Ho' & Hrefs).
  exists o'. split; [exact Ho'|].
  eapply Forall_impl; [exact Hrefs|]. by intros r [Hr|[? [=]]].
Qed.

(** A statement of the cloned body is the node the hook returned for it, or
    a new object that refers to new objects and to nodes the hook
    returned. *)
Lemma cloneStatements_spec (hook : loc -> option loc) (stmts : list loc)
    (h : Store) :
  Forall (validAt h) stmts ->
  extends h (cloneStatements hook h stmts).1
  /\ Forall (fun l =>
       (exists stmt, hook stmt = Some l)
       \/ List.length h <= l
          /\ exists o, (cloneStatements hook h stmts).1 !! l = Some o
               /\ Forall (freshOrHooked hook h) (refs o))
       (cloneStatements hook h stmts).2.
Proof.
  revert h. induction stmts as [|stmt rest IH]; intros h Hvalid;
    cbn [cloneStatements].
  { split; [apply extends_refl|constructor]. }
  apply Forall_cons in Hvalid as [Hstmt Hrest].
  destruct (cloneDeepWithHookAt_spec hook h stmt) as (Hext1 & Hloc & Hfresh).
  destruct (cloneDeepWithHookAt hook h stmt) as [h1 stmt'].
  cbn [fst snd] in Hext1, Hloc, Hfresh.
  assert (Hrest1 : Forall (validAt h1) rest).
  { eapply Forall_impl; [exact Hrest|]. intros l. by apply extends_validAt. }
  destruct (IH h1 Hrest1) as [Hext2 Hout].
  destruct (cloneStatements hook h1 rest) as [h2 rest']. cbn [fst snd] in *.
  split; [by eapply extends_trans|].
  assert (Hlen1 : List.length h <= List.length h1) by apply Hext1.
  constructor.
  - destruct Hloc as [Hhook|[Hhook Hloc]]; [left; eauto|]. right.
    split; [done|]. destruct (Hfresh Hstmt Hhook) as (o' & Ho' & Hrefs).
    exists o'. split; [by eapply extends_lookup|done].
  - eapply Forall_impl; [exact Hout|]. cbv beta.
    intros l [Hl|(Hl & o & Ho & Hr)]; [by left|]. right.
    split; [lia|]. exists o. split; [done|].
    eapply Forall_impl; [exact Hr|]. intros r. by apply freshOrHooked_mono.
Qed.

Lemma pushSpecifier_lookup (h : Store) (c s2 l : loc) :
  pushSpecifier h c s2 !! l
  = if decide (l = c) then pushed s2 <$> h !! l else h !! l.
Proof.
  unfold pushSpecifier. case_decide as Hl.
  - subst l. destruct (h !! c) as [o|] eqn:Hc; [|by rewrite Hc].
    destruct o; rewrite ?list_lookup_insert_eq by (by eapply lookup_lt_Some);
      rewrite ?Hc; reflexivity.
  - destruct (h !! c) as [[]|]; try reflexivity.
    by rewrite list_lookup_insert_ne.
Qed.

Lemma pushSpecifier_length (h : Store) (c s2 : loc) :
  List.length (pushSpecifier h c s2) = List.length h.
Proof.
  unfold pushSpecifier. destruct (h !! c) as [[]|]; try reflexivity.
  apply length_insert.
Qed.

Lemma refs_pushed (P : loc -> Prop) (s2 : loc) (o : Obj) :
  Forall P (refs o) -> P s2 -> Forall P (refs (pushed s2 o)).
Proof.
  destruct o as [| |specs src lead trail| |code comments expression]; simpl;
    try (intros; constructor); [|by intros].
  intros H Hs. apply Forall_app in H as [H1 H2].
  apply Forall_app_2; [|exact H2].
  apply Forall_app_2; [exact H1|]. by constructor.
Qed.

Lemma mergeImportsAt_step_spec (specifiers1 : list ImportSpecifierNode)
    (c : loc) (h : Store) (s2 : loc) :
  List.length (mergeImportsAt_step specifiers1 c h s2) = List.length h
  /\ (forall l, l <> c -> mergeImportsAt_step specifiers1 c h s2 !! l = h !! l)
  /\ forall (P : loc -> Prop) o,
       h !! c = Some o -> Forall P (refs o) -> P s2 ->
       exists o', mergeImportsAt_step specifiers1 c h s2 !! c = Some o'
         /\ Forall P (refs o').
Proof.
  unfold mergeImportsAt_step.
  assert (Hsame : List.length h = List.length h
            /\ (forall l, l <> c -> h !! l = h !! l)
            /\ forall (P : loc -> Prop) o,
                 h !! c = Some o -> Forall P (refs o) -> P s2 ->
                 exists o', h !! c = Some o' /\ Forall P (refs o')).
  { repeat split. intros P o Ho Hr _. by exists o. }
  destruct (specifierAt h s2) as [v2|]; [|exact Hsame].
  destruct (mergeImports_continue specifiers1 v2); [exact Hsame|].
  split; [apply pushSpecifier_length|]. split.
  - intros l Hl. rewrite pushSpecifier_lookup. by rewrite decide_False.
  - intros P o Ho Hr Hs. exists (pushed s2 o). split.
    + rewrite pushSpecifier_lookup, decide_True by done. by rewrite Ho.
    + by apply refs_pushed.
Qed.

Lemma mergeImportsAt_steps_spec (specifiers1 : list ImportSpecifierNode)
    (c : loc) (ls : list loc) (h : Store) :
  List.length (foldl (mergeImportsAt_step specifiers1 c) h ls) = List.length h
  /\ (forall l, l <> c -> foldl (mergeImportsAt_step specifiers1 c) h ls !! l = h !! l)
  /\ forall (P : loc -> Prop) o,
       h !! c = Some o -> Forall P (refs o) -> Forall P ls ->
       exists o', foldl (mergeImportsAt_step specifiers1 c) h ls !! c = Some o'
         /\ Forall P (refs o').
Proof.
  revert h. induction ls as [|s2 ls IH]; intros h; cbn [foldl].
  { repeat split. intros P o Ho Hr _. by exists o. }
  destruct (mergeImportsAt_step_spec specifiers1 c h s2) as (Hlen1 & Hne1 & Hc1).
  destruct (IH (mergeImportsAt_step specifiers1 c h s2)) as (Hlen2 & Hne2 & Hc2).
  split; [congruence|]. split.
  - intros l Hl. rewrite Hne2 by done. by apply Hne1.
  - intros P o Ho Hr Hls. apply Forall_cons in Hls as [Hs Hls].
    destruct (Hc1 P o Ho Hr Hs) as (o1 & Ho1 & Hr1).
    by apply (Hc2 P o1).
Qed.

(** A merged declaration is a new object; it refers to new objects and to
    specifiers of the second declaration. *)
Lemma mergeImportsAt_spec (h : Store) (i1 i2 : loc) :
  extends h (mergeImportsAt h i1 i2).1
  /\ List.length h <= (mergeImportsAt h i1 i2).2
  /\ (validAt h i1 ->
      exists o', (mergeImportsAt h i1 i2).1 !! (mergeImportsAt h i1 i2).2 = Some o'
        /\ Forall (fun r => List.length h <= r \/ r ∈ specifiersOf h i2) (refs o')).
Proof.
  unfold mergeImportsAt.
  pose proof (cloneDeepAt_extends h i1) as Hext.
  pose proof (cloneDeepAt_loc h i1) as Hloc.
  pose proof (cloneDeepAt_fresh h i1) as Hfresh.
  destruct (cloneDeepAt h i1) as [h1 c]. simpl in Hext, Hloc, Hfresh.
  destruct (mergeImportsAt_steps_spec (omap (specifierAt h) (specifiersOf h i1))
              c (specifiersOf h i2) h1) as (Hlen & Hne & Hc).
  simpl. split; [|split; [done|]].
  - destruct Hext as [Hlen1 Hsame]. split; [lia|].
    intros l Hl. rewrite Hne by lia. by apply Hsame.
  - intros Hvalid. destruct (Hfresh Hvalid) as (o' & Ho' & Hr).
    apply (Hc _ o' Ho').
    + eapply Forall_impl; [exact Hr|]. simpl. tauto.
    + apply Forall_forall. tauto.
Qed.
Lemma elem_of_flat_map {A B : Type} (f : A -> list B) (l : list A) (x : B) :
  x ∈ flat_map f l <-> exists y, y ∈ l /\ x ∈ f y.
Proof.
  rewrite list_elem_of_In, in_flat_map. split.
  - intros (y & Hy & Hx). exists y. by rewrite !list_elem_of_In.
  - intros (y & Hy & Hx). exists y. by rewrite <- !list_elem_of_In.
Qed.

Lemma fresh_or_shared_mono (h h' : Store) (ns ns' : list loc) (r : loc) :
  extends h h' -> Forall (validAt h) ns -> ns ⊆ ns' ->
  List.length h' <= r \/ r ∈ flat_map (specifiersOf h') ns ->
  List.length h <= r \/ r ∈ flat_map (specifiersOf h) ns'.
Proof.
  intros Hext Hvalid Hsub [Hr|Hr].
  - left. destruct Hext. lia.
  - right. apply elem_of_flat_map in Hr as (y & Hy & Hr).
    apply elem_of_flat_map. exists y. split; [by apply Hsub|].
    rewrite <- (extends_specifiersOf h h'); [done|done|].
    apply validAt_lt. exact (proj1 (Forall_forall _ _) Hvalid y Hy).
Qed.

Lemma mergeAdjacentImportsAt_cons (h : Store) (a b : PlasmicImportSpecOf loc)
    (rest : list (PlasmicImportSpecOf loc)) :
  mergeAdjacentImportsAt h (a :: b :: rest)
  = if (compareImports a b =? 0)%Z then
      let '(h1, merged) := mergeImportsAt h (spec_node a) (spec_node b) in
      let '(h2, others) := mergeAdjacentImportsAt h1 rest in
      (h2, merged :: others)
    else
      let '(h1, others) := mergeAdjacentImportsAt h (b :: rest) in
      (h1, spec_node a :: others).
Proof. reflexivity. Qed.

Lemma mergeAdjacentImportsAt_spec (allImports : list (PlasmicImportSpecOf loc)) :
  forall h : Store,
    Forall (validAt h) (spec_node <$> allImports) ->
    extends h (mergeAdjacentImportsAt h allImports).1
    /\ Forall (fun l =>
         l ∈ spec_node <$> allImports
         \/ List.length h <= l
            /\ exists o, (mergeAdjacentImportsAt h allImports).1 !! l = Some o
                 /\ Forall (fun r => List.length h <= r
                                     \/ r ∈ flat_map (specifiersOf h)
                                              (spec_node <$> allImports))
                      (refs o))
       (mergeAdjacentImportsAt h allImports).2.
Proof.
  pattern allImports. apply list_pair_ind; clear allImports.
  - intros h _. simpl. split; [apply extends_refl|constructor].
  - intros a h _. simpl. split; [apply extends_refl|].
    constructor; [|constructor]. left. apply list_elem_of_here.
  - intros a b rest IHrest IHb h Hvalid.
    rewrite mergeAdjacentImportsAt_cons.
    destruct (compareImports a b =? 0)%Z.
    + rewrite !fmap_cons in Hvalid.
      apply Forall_cons in Hvalid as [Ha Hvalid].
      pose proof Hvalid as Hbrest.
      apply Forall_cons in Hvalid as [Hb Hrest].
      destruct (mergeImportsAt_spec h (spec_node a) (spec_node b))
        as (Hext1 & Hloc & Hfresh).
      destruct (Hfresh Ha) as (o' & Ho' & Hr'). clear Hfresh.
      destruct (mergeImportsAt h (spec_node a) (spec_node b)) as [h1 c].
      cbn [fst snd] in Hext1, Hloc, Ho', Hr'.
      assert (Hrest1 : Forall (validAt h1) (spec_node <$> rest)).
      { eapply Forall_impl; [exact Hrest|]. intros l. by apply extends_validAt. }
      destruct (IHrest h1 Hrest1) as [Hext2 Hout].
      destruct (mergeAdjacentImportsAt h1 rest) as [h2 others].
      cbn [fst snd] in Hext2, Hout |- *.
      split; [by eapply extends_trans|]. constructor.
      * right. split; [done|]. exists o'. split; [by eapply extends_lookup|].
        eapply Forall_impl; [exact Hr'|]. cbv beta. intros r [Hr|Hr]; [by left|].
        right. apply elem_of_flat_map. exists (spec_node b). split; [|done].
        apply list_elem_of_further, list_elem_of_here.
      * eapply Forall_impl; [exact Hout|]. cbv beta.
        intros l [Hl|(Hl & o & Ho & Hr)].
        { left. by do 2 apply list_elem_of_further. }
        right. split; [destruct Hext1; lia|]. exists o. split; [done|].
        eapply Forall_impl; [exact Hr|]. cbv beta. intros r.
        apply (fresh_or_shared_mono h h1); [done|done|].
        intros x Hx. by do 2 apply list_elem_of_further.
    + destruct (IHb h) as [Hext Hout].
      { rewrite fmap_cons in Hvalid. apply Forall_cons in Hvalid as [_ Hvalid].
        exact Hvalid. }
      destruct (mergeAdjacentImportsAt h (b :: rest)) as [h1 others].
      cbn [fst snd] in Hext, Hout |- *. split; [done|]. constructor.
      * left. apply list_elem_of_here.
      * eapply Forall_impl; [exact Hout|]. cbv beta.
        intros l [Hl|(Hl & o & Ho & Hr)].
        { left. by apply list_elem_of_further. }
        right. split; [done|]. exists o. split; [done|].
        eapply Forall_impl; [exact Hr|]. cbv beta. intros r [Hr'|Hr']; [by left|].
        right. apply elem_of_flat_map in Hr' as (y & Hy & Hr').
        apply elem_of_flat_map. exists y. split; [|done].
        by apply list_elem_of_further.
Qed.

Lemma closed_validAt (h : Store) (l : loc) :
  closed h -> l < List.length h -> validAt h l.
Proof.
  intros Hc Hl. destruct (lookup_lt_is_Some_2 h l Hl) as [o Ho].
  exists o. split; [done|]. by eapply closed_lookup.
Qed.

Lemma tryParsePlasmicImportSpecAt_extends (h h' : Store) (l : loc) :
  extends h h' -> validAt h l ->
  tryParsePlasmicImportSpecAt h' l = tryParsePlasmicImportSpecAt h l.
Proof.
  intros Hext (o & Hl & Hrefs). unfold tryParsePlasmicImportSpecAt.
  rewrite (extends_lookup h h' l o Hext Hl), Hl.
  destruct o as [| |specs src lead [|c trail]| |]; try reflexivity.
  simpl in Hrefs. apply Forall_app in Hrefs as [_ Hrefs].
  apply Forall_app in Hrefs as [_ Hrefs]. apply Forall_cons in Hrefs as [Hc _].
  unfold commentValueAt. destruct Hext as [_ Hsame]. by rewrite Hsame.
Qed.

Lemma extractPlasmicImportsAt_extends (h h' : Store) (stmts : list loc) :
  extends h h' -> Forall (validAt h) stmts ->
  extractPlasmicImportsAt h' stmts = extractPlasmicImportsAt h stmts.
Proof.
  intros Hext. induction 1 as [|stmt rest Hstmt Hrest IH]; [reflexivity|].
  unfold extractPlasmicImportsAt in *. cbn [omap list_omap].
  rewrite (tryParsePlasmicImportSpecAt_extends h h' stmt Hext Hstmt).
  by rewrite IH.
Qed.

Lemma extractPlasmicImportsAt_nodes (h : Store) (stmts : list loc) (l : loc) :
  l ∈ spec_node <$> extractPlasmicImportsAt h stmts -> l ∈ stmts.
Proof.
  intros Hl. apply list_elem_of_fmap in Hl as (a & -> & Ha).
  apply list_elem_of_omap in Ha as (stmt & Hstmt & Hparse).
  destruct (tryParsePlasmicImportSpecAt h stmt) as [[id type]|]; [|discriminate].
  injection Hparse as <-. exact Hstmt.
Qed.

Lemma removePlasmicImportsAt_subset (h : Store) (stmts : list loc) :
  forall i firstImport firstPlasmicImport,
    (removePlasmicImportsAt h stmts i firstImport firstPlasmicImport).1.1 ⊆ stmts.
Proof.
  induction stmts as [|stmt rest IH]; intros i fi fp; simpl; [done|].
  destruct (isImportAt h stmt).
  - destruct (tryParsePlasmicImportSpecAt h stmt).
    + intros x Hx. apply list_elem_of_further. by eapply IH.
    + match goal with
      | |- context [removePlasmicImportsAt h rest ?i ?a ?b] =>
          pose proof (IH i a b) as Hsub;
          destruct (removePlasmicImportsAt h rest i a b) as [[kept fi'] fp']
      end.
      simpl in *. intros x Hx. apply elem_of_cons in Hx as [->|Hx].
      * apply list_elem_of_here.
      * apply list_elem_of_further. by apply Hsub.
  - match goal with
    | |- context [removePlasmicImportsAt h rest ?i ?a ?b] =>
        pose proof (IH i a b) as Hsub;
        destruct (removePlasmicImportsAt h rest i a b) as [[kept fi'] fp']
    end.
    simpl in *. intros x Hx. apply elem_of_cons in Hx as [->|Hx].
    + apply list_elem_of_here.
    + apply list_elem_of_further. by apply Hsub.
Qed.

Lemma sort_insert_Permutation {A : Type} (compare : A -> A -> Z) (x : A) (l : list A) :
  sort_insert compare x l ≡ₚ x :: l.
Proof.
  induction l as [|y l IH]; simpl; [done|].
  destruct (compare x y <=? 0)%Z; [done|].
  rewrite IH. apply Permutation_swap.
Qed.

Lemma sort_Permutation {A : Type} (compare : A -> A -> Z) (l : list A) :
  sort compare l ≡ₚ l.
Proof.
  induction l as [|x l IH]; [done|].
  unfold sort in *. cbn [foldr]. rewrite sort_insert_Permutation. by rewrite IH.
Qed.
Lemma setCommentValue_specifiersOf (h : Store) (c : loc) (v : string) (l : loc) :
  specifiersOf (setCommentValue h c v) l = specifiersOf h l.
Proof.
  unfold specifiersOf. rewrite setCommentValue_lookup.
  destruct (h !! l) as [[]|]; simpl; try reflexivity. by case_decide.
Qed.

Lemma refs_withoutLeadingComments (P : loc -> Prop) (o : Obj) :
  Forall P (refs o) -> Forall P (refs (withoutLeadingComments o)).
Proof.
  destruct o as [| |specs src lead trail| |]; simpl; try done.
  intros H. apply Forall_app in H as [H1 H2]. apply Forall_app in H2 as [_ H2].
  by apply Forall_app_2.
Qed.

Lemma clearAll_validAt {Nd : Type} (proj : Nd -> loc) (ls : list Nd)
    (h : Store) (l : loc) :
  validAt h l ->
  validAt (foldl (fun h x => setLeadingCommentsNull h (proj x)) h ls) l.
Proof.
  intros (o & Hl & Hrefs). unfold validAt.
  rewrite clearAll_lookup, clearAll_length, Hl.
  case_decide.
  - exists (withoutLeadingComments o). split; [done|].
    by apply refs_withoutLeadingComments.
  - by exists o.
Qed.

Lemma clearAll_specifiersOf {Nd : Type} (proj : Nd -> loc) (ls : list Nd)
    (h : Store) (l : loc) :
  specifiersOf (foldl (fun h x => setLeadingCommentsNull h (proj x)) h ls) l
  = specifiersOf h l.
Proof.
  unfold specifiersOf. rewrite clearAll_lookup.
  case_decide; [|reflexivity]. by destruct (h !! l) as [[]|].
Qed.
Lemma jsxHook_Some (jsx : loc) (newJsx : option loc) (l r : loc) :
  jsxHook jsx newJsx l = Some r -> newJsx = Some r.
Proof. unfold jsxHook. by case_decide. Qed.

(** C3 (as amended).  On a store whose references all point into the store,
    for bodies made of objects of the store and a revision that is a safe
    integer, the assembly of the merged file (the marker update, the clone of
    the edited file with the merged markup [newJsx] in the place of the
    edited markup, the import merge) changes two kinds of objects of the
    input: the marker comment of the edited file, whose value becomes the
    marker of the new revision, and the managed import declarations of the
    edited and of the new file, whose [leadingComments] become [null]; every
    other object of the input is left as it was.  A statement of the merged
    body is one of these managed import declarations itself, or [newJsx]
    itself, or a new object; a new statement refers only to new objects, to
    specifiers of the managed import declarations and to [newJsx], the
    markup as the serializer returned it. *)
Theorem assembleMergedFileAt_frame (h : Store) (marker : loc) (revision : N)
    (jsx : loc) (newJsx : option loc) (editedBody newBody : list loc) :
  closed h ->
  Forall (fun l => l < List.length h) (editedBody ++ newBody) ->
  (revision < 2 ^ 53)%N ->
  let value := markerOfRevision revision in
  let managed := managedImportsAt (setCommentValue h marker value) editedBody newBody in
  let result :=
    assembleMergedFileAt h marker revision jsx newJsx editedBody newBody in
  (forall l o, h !! l = Some o ->
     result.1 !! l = Some (afterMerge marker value managed l o))
  /\ Forall (fun l =>
       l ∈ managed
       \/ newJsx = Some l
       \/ List.length h <= l
          /\ exists o, result.1 !! l = Some o
               /\ Forall (fun r => List.length h <= r
                                   \/ r ∈ flat_map (specifiersOf h) managed
                                   \/ newJsx = Some r)
                    (refs o))
     result.2.
Proof.
  intros Hclosed Hbodies _ value managed.
  unfold assembleMergedFileAt. fold value.
  set (h1 := setCommentValue h marker value) in *.
  assert (Hlen1 : List.length h1 = List.length h)
    by apply setCommentValue_length.
  assert (Hclosed1 : closed h1) by by apply setCommentValue_closed.
  assert (Hvalid : Forall (validAt h1) (editedBody ++ newBody)).
  { eapply Forall_impl; [exact Hbodies|]. intros l Hl.
    apply closed_validAt; [done|]. by rewrite Hlen1. }
  pose proof Hvalid as Hvalid'.
  apply Forall_app in Hvalid' as [HvalidE HvalidN].
  destruct (cloneStatements_spec (jsxHook jsx newJsx) editedBody h1 HvalidE)
    as [Hext2 Hfresh2].
  destruct (cloneStatements (jsxHook jsx newJsx) h1 editedBody)
    as [h2 mergedFileBody].
  cbn [fst snd] in Hext2, Hfresh2.
  unfold mergePlasmicImportsAt.
  rewrite !(extractPlasmicImportsAt_extends h1 h2) by done.
  pose proof (removePlasmicImportsAt_subset h2 mergedFileBody 0 None None) as Hkept.
  destruct (removePlasmicImportsAt h2 mergedFileBody 0 None None)
    as [[kept firstImport] firstPlasmicImport].
  cbn [fst snd] in Hkept.
  set (allImports := sort compareImports
         (extractPlasmicImportsAt h1 editedBody ++ extractPlasmicImportsAt h1 newBody)).
  assert (Hperm : spec_node <$> allImports ≡ₚ managed).
  { unfold allImports, managed, managedImportsAt. fold h1.
    by rewrite sort_Permutation. }
  assert (HmanagedIn : forall l, l ∈ managed -> validAt h1 l).
  { intros l Hl. unfold managed, managedImportsAt in Hl. fold h1 in Hl.
    rewrite fmap_app in Hl. apply elem_of_app in Hl as [Hl|Hl];
      apply extractPlasmicImportsAt_nodes in Hl;
      apply (proj1 (Forall_forall _ _) Hvalid); apply elem_of_app; tauto. }
  set (h3 := foldl (fun h importDecl => setLeadingCommentsNull h (spec_node importDecl))
               h2 allImports).
  assert (Hlen3 : List.length h3 = List.length h2) by apply clearAll_length.
  assert (Hvalid3 : Forall (validAt h3) (spec_node <$> allImports)).
  { apply Forall_forall. intros l Hl. apply clearAll_validAt.
    apply (extends_validAt h1 h2); [done|]. apply HmanagedIn. by rewrite <- Hperm. }
  destruct (mergeAdjacentImportsAt_spec allImports h3 Hvalid3) as [Hext4 Hout].
  destruct (mergeAdjacentImportsAt h3 allImports) as [h4 mergedImports].
  cbn [fst snd] in Hext4, Hout |- *.
  assert (Hlen2 : List.length h1 <= List.length h2) by apply Hext2.
  assert (Hspecs : forall l, l ∈ managed -> specifiersOf h3 l = specifiersOf h l).
  { intros l Hl. unfold h3. rewrite clearAll_specifiersOf.
    rewrite (extends_specifiersOf h1 h2) by (done || by apply validAt_lt, HmanagedIn).
    apply setCommentValue_specifiersOf. }
  split.
  - intros l o Hl.
    assert (Hlt : l < List.length h) by by eapply lookup_lt_Some.
    destruct Hext4 as [_ Hsame4]. rewrite Hsame4 by lia.
    unfold h3. rewrite clearAll_lookup.
    destruct Hext2 as [_ Hsame2]. rewrite Hsame2 by lia.
    unfold h1 at 1 2. rewrite setCommentValue_lookup, Hl. unfold afterMerge.
    cbn [fmap option_fmap option_map].
    destruct (decide (l ∈ managed)) as [Hin|Hnin].
    + rewrite decide_True; [done|]. by rewrite Hperm.
    + rewrite decide_False; [done|]. by rewrite Hperm.
  - assert (Hkept_ok : Forall (fun l =>
       l ∈ managed
       \/ newJsx = Some l
       \/ List.length h <= l
          /\ exists o, h4 !! l = Some o
               /\ Forall (fun r => List.length h <= r
                                   \/ r ∈ flat_map (specifiersOf h) managed
                                   \/ newJsx = Some r)
                    (refs o)) kept).
    { apply Forall_forall. intros l Hl. right.
      destruct (proj1 (Forall_forall _ _) Hfresh2 l (Hkept l Hl))
        as [[stmt Hhook]|(Hfresh & o & Ho & Hrefs)].
      { left. by eapply jsxHook_Some. }
      right. split; [lia|]. exists o. split.
      - destruct Hext4 as [_ Hsame4].
        rewrite Hsame4 by (rewrite Hlen3; by eapply lookup_lt_Some).
        unfold h3. rewrite clearAll_lookup, decide_False; [done|].
        rewrite Hperm. intros Hin. apply HmanagedIn, validAt_lt in Hin. lia.
      - eapply Forall_impl; [exact Hrefs|]. cbv beta.
        intros r [Hr|[stmt Hhook]]; [left; lia|].
        right. right. by eapply jsxHook_Some. }
    apply Forall_app_2; [by apply Forall_take|].
    apply Forall_app_2; [|by apply Forall_drop].
    eapply Forall_impl; [exact Hout|]. cbv beta.
    intros l [Hl|(Hl & o & Ho & Hrefs)].
    + left. by rewrite <- Hperm.
    + right. right. split; [lia|]. exists o. split; [done|].
      eapply Forall_impl; [exact Hrefs|]. cbv beta.
      intros r [Hr|Hr]; [left; lia|]. right. left.
      apply elem_of_flat_map in Hr as (y & Hy & Hr).
      rewrite Hperm in Hy. apply elem_of_flat_map. exists y.
      split; [done|]. by rewrite <- Hspecs.
Qed.

Lemma assembleMergedFileAt_frame_witness :
  (assembleMergedFileAt c3_store 8 4 9 (Some 11) c3_edited_body c3_new_body).1 !! 1
  = Some (SpecifierObj (ImportDefaultSpecifier "A")).
Proof.
  refine (proj1 (assembleMergedFileAt_frame c3_store 8 4 9 (Some 11)
                   c3_edited_body c3_new_body _ _ _) 1 _ eq_refl).
  - unfold closed. apply (bool_decide_unpack _). vm_compute. exact I.
  - apply (bool_decide_unpack _). vm_compute. exact I.
  - reflexivity.
Defined.

(** C3, the claim as written fails: after the assembly the managed import
    declaration of the new file (address 7) has lost its leading comments;
    the merged body holds the import declarations of the edited file
    (address 3) and of the new file (address 7) themselves, next to the clone
    of the component (address 17); and that clone refers to the markup the
    serializer returned (address 11), an object that was there before. *)
Lemma assembleMergedFileAt_mutates_imports :
  let result :=
    assembleMergedFileAt c3_store 8 4 9 (Some 11) c3_edited_body c3_new_body in
  c3_new_body = [7]
  /\ c3_store !! 7 = Some (ImportObj [5] "b" (Some [6]) [4])
  /\ result.1 !! 7 = Some (ImportObj [5] "b" None [4])
  /\ result.2 = [3; 7; 17]
  /\ result.1 !! 17
     = Some (StatementObj "function Component() { return _; }" [16] 11).
Proof. vm_compute. repeat split. Qed.

(* --------------------------------------------------------------------- *)
(** ** Merging a version with itself *)

(** Structural equality and identity. *)
Lemma list_eqb_eq {A : Type} (eqb : A -> A -> bool) (l1 l2 : list A) :
  Forall (fun a => forall b, eqb a b = true -> a = b) l1 ->
  list_eqb eqb l1 l2 = true -> l1 = l2.
Proof.
  intros H. revert l2. induction H as [|a l1 Ha _ IH]; intros [|b l2]; simpl;
    try done.
  intros Hab. apply andb_true_iff in Hab as [Hab Hl]. f_equal; auto.
Qed.

Lemma option_eqb_eq {A : Type} (eqb : A -> A -> bool) (o1 o2 : option A) :
  (forall a, o1 = Some a -> forall b, eqb a b = true -> a = b) ->
  option_eqb eqb o1 o2 = true -> o1 = o2.
Proof.
  intros H. destruct o1 as [a|], o2 as [b|]; simpl; try done.
  intros Hab. f_equal. by apply (H a).
Qed.

Lemma option_nat_eqb_eq (o1 o2 : option nat) :
  option_eqb Nat.eqb o1 o2 = true -> o1 = o2.
Proof.
  apply option_eqb_eq. intros a _ b. apply Nat.eqb_eq.
Qed.

Lemma node_eqb_eq (a b : Node) : node_eqb a b = true -> a = b.
Proof.
  unfold node_eqb. revert b.
  induction a using Node_nested_ind; intros b; destruct b; cbn [node_eqb_gen];
    try discriminate; rewrite ?andb_true_iff; intros Hab;
    repeat match goal with H : _ /\ _ |- _ => destruct H end;
    repeat match goal with
           | H : String.eqb _ _ = true |- _ => apply String.eqb_eq in H; subst
           | H : Bool.eqb _ _ = true |- _ => apply Bool.eqb_prop in H; subst
           | H : (negb true || _) = true |- _ => simpl in H
           | H : option_eqb Nat.eqb _ _ = true |- _ =>
               apply option_nat_eqb_eq in H; subst
           | IH : forall b, node_eqb_gen true ?x b = true -> ?x = b,
             H : node_eqb_gen true ?x _ = true |- _ => apply IH in H; subst
           | IH : Forall _ ?l, H : list_eqb _ ?l _ = true |- _ =>
               apply (list_eqb_eq _ _ _ IH) in H; subst
           | IH : forall v, ?o = Some v -> _, H : option_eqb _ ?o _ = true |- _ =>
               apply (option_eqb_eq _ _ _ IH) in H; subst
           end;
    reflexivity.
Qed.

Lemma list_eqb_refl {A : Type} (eqb : A -> A -> bool) (l : list A) :
  Forall (fun a => eqb a a = true) l -> list_eqb eqb l l = true.
Proof. induction 1 as [|a l Ha _ IH]; simpl; [done|]. by rewrite Ha, IH. Qed.

Lemma node_eqb_gen_refl (positions : bool) (a : Node) :
  node_eqb_gen positions a a = true.
Proof.
  induction a using Node_nested_ind; cbn [node_eqb_gen];
    rewrite ?String.eqb_refl, ?eqb_reflx;
    repeat match goal with
           | IH : node_eqb_gen _ ?x ?x = true |- _ => rewrite IH; clear IH
           | IH : Forall _ ?l |- _ => rewrite (list_eqb_refl _ l IH); clear IH
           end;
    try reflexivity.
  - destruct value as [v|]; simpl; [auto|reflexivity].
  - assert (Hs : option_eqb Nat.eqb s s = true).
    { destruct s; simpl; [apply Nat.eqb_refl|done]. }
    rewrite Hs, orb_true_r. simpl.
    destruct ce as [c|]; simpl; [|reflexivity].
    by rewrite (H0 c eq_refl).
Qed.

Lemma list_eqb_sym {A : Type} (eqb : A -> A -> bool) (l1 l2 : list A) :
  Forall (fun a => forall b, eqb a b = eqb b a) l1 ->
  list_eqb eqb l1 l2 = list_eqb eqb l2 l1.
Proof.
  intros H. revert l2. induction H as [|a l1 Ha _ IH]; intros [|b l2]; simpl;
    try done.
  by rewrite Ha, IH.
Qed.

Lemma option_eqb_sym {A : Type} (eqb : A -> A -> bool) (o1 o2 : option A) :
  (forall a, o1 = Some a -> forall b, eqb a b = eqb b a) ->
  option_eqb eqb o1 o2 = option_eqb eqb o2 o1.
Proof.
  intros H. destruct o1 as [a|], o2 as [b|]; simpl; try done. by apply H.
Qed.

Lemma node_eqb_gen_sym (positions : bool) (a b : Node) :
  node_eqb_gen positions a b = node_eqb_gen positions b a.
Proof.
  revert b.
  induction a using Node_nested_ind; intros b; destruct b; cbn [node_eqb_gen];
    try reflexivity;
    repeat match goal with
           | IH : forall b, node_eqb_gen _ ?x b = node_eqb_gen _ b ?x
             |- context [node_eqb_gen _ ?x ?y] =>
               rewrite (IH y); clear IH
           | IH : Forall _ ?l |- context [list_eqb _ ?l ?l'] =>
               rewrite (list_eqb_sym _ l l' IH); clear IH
           | IH : forall v, ?o = Some v -> _ |- context [option_eqb _ ?o ?o'] =>
               rewrite (option_eqb_sym _ o o' IH); clear IH
           end;
    rewrite ?(String.eqb_sym name), ?(String.eqb_sym value), ?(String.eqb_sym op),
      ?(String.eqb_sym ns), ?(String.eqb_sym t);
    try reflexivity.
  - by destruct value, value0.
  - f_equal. f_equal. f_equal. f_equal. f_equal.
    destruct s as [x|], start as [y|]; simpl; try reflexivity.
    by rewrite Nat.eqb_sym.
    by destruct sc, selfClosing.
  - f_equal. by destruct e, expression.
Qed.
Lemma map_fixed {A : Type} (f : A -> A) (l : list A) :
  Forall (fun x => f x = x) l -> List.map f l = l.
Proof. induction 1 as [|x l Hx _ IH]; simpl; [done|]. by rewrite Hx, IH. Qed.

(** A hook that only ever returns the node it is asked about leaves every
    tree as it is. *)
Section CloneFixed.
Variable hook : Node -> option Node.
Hypothesis hook_fixed : forall m, hook m = None \/ hook m = Some m.

Lemma cloneDeepWithHook_fixed (n : Node) : cloneDeepWithHook hook n = n.
Proof.
  induction n using Node_nested_ind;
    rewrite cloneDeepWithHook_unfold;
    (match goal with
     | |- context [hook ?m] => destruct (hook_fixed m) as [-> | ->]
     end; [|reflexivity]);
    cbn [mapChildren]; try reflexivity;
    repeat match goal with
           | IH : cloneDeepWithHook hook ?c = ?c |- _ => rewrite IH; clear IH
           | IH : Forall _ ?l |- context [List.map _ ?l] =>
               rewrite (map_fixed _ l IH); clear IH
           | IH : forall v, ?o = Some v -> _ |- context [option_map _ ?o] =>
               destruct o as [?v|]; cbn [option_map];
               [rewrite (IH _ eq_refl)|]; clear IH
           end;
    reflexivity.
Qed.
End CloneFixed.

Lemma mapChildren_id (f : Node -> Node) (n : Node) :
  (forall x, f x = x) -> mapChildren f n = n.
Proof.
  intros Hf.
  assert (Hmap : forall l, List.map f l = l).
  { intros l. rewrite <- (List.map_id l) at 2. apply List.map_ext. exact Hf. }
  assert (Hopt : forall o, option_map f o = o).
  { intros [x|]; simpl; [by rewrite Hf|reflexivity]. }
  destruct n; cbn [mapChildren]; rewrite ?Hf, ?Hmap, ?Hopt; reflexivity.
Qed.

Lemma memberExpressionMatch_eq (n : Node) (object member : string) :
  memberExpressionMatch n object member = true ->
  n = makeMemberExpression object member.
Proof.
  unfold memberExpressionMatch, makeMemberExpression.
  destruct n as [| | | |o p| | | | | | | | | | | |]; try discriminate.
  destruct o; try discriminate. destruct p; try discriminate.
  intros H. apply andb_true_iff in H as [Ho Hp].
  apply String.eqb_eq in Ho, Hp. by subst.
Qed.

Lemma replaceNode_fixed (target m : Node) :
  replaceNode target target m = None \/ replaceNode target target m = Some m.
Proof.
  unfold replaceNode. destruct (node_eqb m target) eqn:E; [|by left].
  right. by rewrite (node_eqb_eq _ _ E).
Qed.

Lemma renameShowHook_fixed (nodeId : string) (m : Node) :
  renameShowHook nodeId nodeId m = None \/ renameShowHook nodeId nodeId m = Some m.
Proof.
  unfold renameShowHook. destruct m; try by left.
  destruct (isShowCall nodeId _) eqn:E; [|by left]. right.
  simpl in E. unfold calleeMatch in E.
  apply memberExpressionMatch_eq in E. by subst.
Qed.

(** The visibility reconciler leaves the clone of a node merged with itself
    as it is, when the version records a visibility call exactly where the
    clone holds one. *)
Lemma mergeShowFunc_self (version : CodeVersion) (t : PlasmicTagOrComponent)
    (clone : Node) :
  hasShowFuncCall version t
  = existsb (isShowCall (jsx_nameInId (tag_jsxElement t))) (descendants clone) ->
  mergeShowFunc t t version version clone = Ok clone.
Proof.
  intros Hshow. unfold mergeShowFunc. rewrite showCall_traverse, Hshow.
  destruct (existsb _ (descendants clone)) eqn:E; cbn [orb andb negb].
  - rewrite mapChildren_id; [reflexivity|].
    intros x. apply cloneDeepWithHook_fixed, renameShowHook_fixed.
  - rewrite mapChildren_cloneDeepWithHook_id; [reflexivity|].
    apply Forall_forall. intros m Hm. unfold showToTrueHook.
    destruct (isShowCall _ m) eqn:Em; [|reflexivity].
    assert (Hex : existsb (isShowCall (jsx_nameInId (tag_jsxElement t)))
                    (descendants clone) = true).
    { apply existsb_exists. exists m. split; [|done]. by apply list_elem_of_In. }
    congruence.
Qed.

(** ** Trees up to source offsets *)

Lemma map_withoutOffsets_ext (f g : Node -> Node) (l : list Node) :
  Forall (fun x => f x = g x) l -> List.map f l = List.map g l.
Proof. induction 1 as [|x l Hx _ IH]; simpl; [done|]. by rewrite Hx, IH. Qed.

Lemma isExpression_withoutOffsets (n : Node) :
  isExpression (withoutOffsets n) = isExpression n.
Proof. by destruct n. Qed.

Lemma isJSXElement_withoutOffsets (n : Node) :
  isJSXElement (withoutOffsets n) = isJSXElement n.
Proof. by destruct n. Qed.

Lemma isJSXFragment_withoutOffsets (n : Node) :
  isJSXFragment (withoutOffsets n) = isJSXFragment n.
Proof. by destruct n. Qed.

Lemma asJsxChild_withoutOffsets (n : Node) :
  withoutOffsets (asJsxChild n) = asJsxChild (withoutOffsets n).
Proof.
  unfold asJsxChild.
  rewrite isExpression_withoutOffsets, isJSXElement_withoutOffsets,
    isJSXFragment_withoutOffsets.
  by destruct (isExpression n && negb (isJSXElement n) && negb (isJSXFragment n)).
Qed.

Lemma isShowCall_withoutOffsets (nodeId : string) (n : Node) :
  isShowCall nodeId (withoutOffsets n) = isShowCall nodeId n.
Proof.
  destruct n as [| | | | |callee args| | | | | | | | | | |]; try reflexivity.
  cbn [withoutOffsets isShowCall]. unfold calleeMatch, memberExpressionMatch.
  destruct callee as [| | | |o p| | | | | | | | | | | |]; try reflexivity.
  cbn [withoutOffsets]. by destruct o, p.
Qed.

Lemma flat_map_subnodes_withoutOffsets (l : list Node) :
  Forall (fun n => subnodes (withoutOffsets n) = List.map withoutOffsets (subnodes n)) l ->
  flat_map subnodes (List.map withoutOffsets l)
  = List.map withoutOffsets (flat_map subnodes l).
Proof.
  induction 1 as [|x l Hx _ IH]; [reflexivity|].
  cbn [List.map flat_map]. by rewrite Hx, IH, List.map_app.
Qed.

Lemma subnodes_withoutOffsets (n : Node) :
  subnodes (withoutOffsets n) = List.map withoutOffsets (subnodes n).
Proof.
  induction n using Node_nested_ind; cbn [withoutOffsets subnodes List.map];
    try reflexivity; f_equal; rewrite ?List.map_app;
    repeat match goal with
           | IH : subnodes (withoutOffsets ?c) = _ |- _ => rewrite IH; clear IH
           | IH : Forall _ ?l |- context [flat_map subnodes (List.map _ ?l)] =>
               rewrite (flat_map_subnodes_withoutOffsets l IH); clear IH
           | IH : forall v, ?o = Some v -> _ |- context [option_map _ ?o] =>
               destruct o as [?v|]; cbn [option_map List.map];
               [rewrite (IH _ eq_refl)|]; clear IH
           end;
    reflexivity.
Qed.

(** Two trees with the same markup hold a visibility call at the same
    places. *)
Lemma showCall_sameMarkup (nodeId : string) (a b : Node) :
  withoutOffsets a = withoutOffsets b ->
  existsb (isShowCall nodeId) (descendants a)
  = existsb (isShowCall nodeId) (descendants b).
Proof.
  assert (H : forall n, existsb (isShowCall nodeId) (descendants n)
                        = existsb (isShowCall nodeId) (descendants (withoutOffsets n))).
  { intros n. unfold descendants. rewrite subnodes_withoutOffsets.
    destruct (subnodes n) as [|x l]; [reflexivity|]. cbn [List.map tail].
    induction l as [|y l IH]; [reflexivity|].
    cbn [List.map existsb]. by rewrite isShowCall_withoutOffsets, IH. }
  intros Hab. by rewrite (H a), (H b), Hab.
Qed.

(** A hook that returns the markup it was asked about leaves the markup of
    every tree as it is. *)
Section CloneSameMarkup.
Variable hook : Node -> option Node.
Hypothesis hook_same :
  forall m r, hook m = Some r -> withoutOffsets r = withoutOffsets m.

Lemma cloneDeepWithHook_sameMarkup (n : Node) :
  withoutOffsets (cloneDeepWithHook hook n) = withoutOffsets n.
Proof.
  induction n using Node_nested_ind;
    rewrite cloneDeepWithHook_unfold;
    (match goal with
     | |- context [hook ?m] =>
         destruct (hook m) as [r|] eqn:Hhook; [by apply hook_same|]
     end);
    cbn [mapChildren withoutOffsets]; try reflexivity;
    rewrite ?List.map_map;
    repeat match goal with
           | IH : withoutOffsets (cloneDeepWithHook hook ?c) = _ |- _ =>
               rewrite IH; clear IH
           | IH : Forall _ ?l |- context [List.map _ ?l] =>
               rewrite (map_withoutOffsets_ext _ withoutOffsets l IH); clear IH
           | IH : forall v, ?o = Some v -> _ |- context [option_map _ (option_map _ ?o)] =>
               destruct o as [?v|]; cbn [option_map];
               [rewrite (IH _ eq_refl)|]; clear IH
           end;
    reflexivity.
Qed.
End CloneSameMarkup.

Lemma exc_mapM_Ok {A B : Type} (f : A -> Exc B) (g : A -> B) (l : list A) :
  Forall (fun a => f a = Ok (g a)) l -> exc_mapM f l = Ok (List.map g l).
Proof.
  induction 1 as [|a l Ha _ IH]; simpl; [reflexivity|]. by rewrite Ha, IH.
Qed.

Lemma concat_map_nil {A B : Type} (l : list A) :
  List.concat (List.map (fun _ : A => @nil B) l) = [].
Proof. induction l; simpl; auto. Qed.

Lemma concat_map_singleton {A : Type} (l : list A) :
  List.concat (List.map (fun a => [a]) l) = l.
Proof. induction l as [|a l IH]; simpl; [done|]. by rewrite IH. Qed.

(** The named attributes: a [Map] holds a key once. *)
Lemma map_set_keys {V : Type} (k : string) (v : V) (m : list (string * V)) (k' : string) :
  k' ∈ (map_set k v m).*1 <-> k' = k \/ k' ∈ m.*1.
Proof.
  induction m as [|[k0 v0] m IH]; simpl.
  - rewrite list_elem_of_singleton, elem_of_nil. tauto.
  - destruct (String.eqb k0 k) eqn:E.
    + apply String.eqb_eq in E. subst k0. simpl. rewrite !elem_of_cons. tauto.
    + simpl. rewrite !elem_of_cons, IH. tauto.
Qed.

Lemma map_set_NoDup {V : Type} (k : string) (v : V) (m : list (string * V)) :
  NoDup m.*1 -> NoDup (map_set k v m).*1.
Proof.
  induction m as [|[k0 v0] m IH]; simpl; intros Hnd.
  - apply NoDup_singleton.
  - apply NoDup_cons in Hnd as [Hk0 Hnd].
    destruct (String.eqb k0 k) eqn:E; simpl.
    + by apply NoDup_cons.
    + apply NoDup_cons. split; [|by apply IH].
      rewrite map_set_keys. intros [->|Hin]; [|done].
      by rewrite String.eqb_refl in E.
Qed.

Lemma map_get_elem {V : Type} (k : string) (v : V) (m : list (string * V)) :
  NoDup m.*1 -> (k, v) ∈ m -> map_get k m = Some v.
Proof.
  induction m as [|[k0 v0] m IH]; simpl; intros Hnd Hin.
  - by apply elem_of_nil in Hin.
  - apply NoDup_cons in Hnd as [Hk0 Hnd].
    apply elem_of_cons in Hin as [Heq|Hin].
    + injection Heq as <- <-. by rewrite String.eqb_refl.
    + destruct (String.eqb k0 k) eqn:E; [|by apply IH].
      apply String.eqb_eq in E. subst k0. exfalso. apply Hk0.
      apply list_elem_of_fmap. by exists (k, v).
Qed.

Lemma map_get_is_Some {V : Type} (k : string) (m : list (string * V)) :
  is_Some (map_get k m) <-> k ∈ m.*1.
Proof.
  induction m as [|[k0 v0] m IH]; simpl.
  - rewrite elem_of_nil. split; [by intros [? ?]|done].
  - rewrite elem_of_cons. destruct (String.eqb k0 k) eqn:E.
    + apply String.eqb_eq in E. subst. split; [by left|by eexists].
    + rewrite IH. apply String.eqb_neq in E. split; [tauto|].
      intros [->|?]; [done|tauto].
Qed.

Lemma getNamedAttrs_loop_spec (version : CodeVersion) (t : PlasmicTagOrComponent)
    (attributes : list Node) :
  Forall (legalAttribute version t) attributes ->
  forall attrs, NoDup attrs.*1 ->
    exists named,
      getNamedAttrs_loop attributes attrs = Ok named
      /\ NoDup named.*1
      /\ (forall name, name ∈ attrs.*1 -> name ∈ named.*1)
      /\ (forall name value,
            JSXAttribute (JSXIdentifier name) value ∈ attributes ->
            name ∈ named.*1).
Proof.
  induction 1 as [|attr rest Hattr _ IH]; intros attrs Hnd; simpl.
  - exists attrs. repeat split; try done.
    intros name value Hin. by apply elem_of_nil in Hin.
  - destruct attr as [| | | | | | | | | | |nameNode value|arg| | | |];
      try (by destruct Hattr).
    + (* a named attribute *)
      destruct nameNode as [| | | | | | |name| | | | | | | | |];
        try (by destruct Hattr).
      destruct (IH (map_set name (JSXAttribute (JSXIdentifier name) value) attrs))
        as (named & Hok & Hnd' & Hkeep & Hin).
      { by apply map_set_NoDup. }
      exists named. repeat split; try done.
      * intros k Hk. apply Hkeep, map_set_keys. by right.
      * intros k v Hk. apply elem_of_cons in Hk as [Heq|Hk]; [|by eapply Hin].
        injection Heq as -> ->. apply Hkeep, map_set_keys. by left.
    + (* a spread *)
      destruct (IH attrs Hnd) as (named & Hok & Hnd' & Hkeep & Hin).
      exists named. repeat split; try done.
      intros k v Hk. apply elem_of_cons in Hk as [Heq|Hk]; [done|by eapply Hin].
Qed.

Section SelfMerge.
Variable nodesDeepEqualIgnoreComments : Node -> Node -> bool.
Hypothesis deepEqual_refl : forall n, nodesDeepEqualIgnoreComments n n = true.
Hypothesis deepEqual_sym :
  forall a b, nodesDeepEqualIgnoreComments a b = nodesDeepEqualIgnoreComments b a.
Variable version : CodeVersion.

Lemma conflictResolution_self (name : string) (x e : Node) :
  conflictResolution nodesDeepEqualIgnoreComments name (Some x) e x = emit_edited.
Proof.
  unfold conflictResolution.
  destruct (nodesDeepEqualIgnoreComments e x) eqn:E; [reflexivity|].
  by rewrite (deepEqual_sym x e), E, deepEqual_refl, orb_true_r.
Qed.

Lemma mergeAttributes_step_self (t : PlasmicTagOrComponent)
    (named : list (string * Node)) (attr : Node) :
  legalAttribute version t attr ->
  (forall name value, attr = JSXAttribute (JSXIdentifier name) value ->
                      name ∈ named.*1) ->
  mergeAttributes_step nodesDeepEqualIgnoreComments t t version named named attr
  = Ok [attr].
Proof.
  intros Hlegal Hnamed. unfold mergeAttributes_step.
  destruct attr as [| | | | | | | | | | |nameNode value|arg| | | |];
    try (by destruct Hlegal).
  - (* a named attribute *)
    destruct nameNode as [| | | | | | |name| | | | | | | | |];
      try (by destruct Hlegal).
    cbn [exc_bind].
    match goal with
    | |- (if ?b then _ else _) = _ =>
        assert (Hb : b = hasManagedClassName (jsx_nameInId (tag_jsxElement t))
                           (JSXAttribute (JSXIdentifier name) value))
    end.
    { unfold hasManagedClassName.
      destruct value as [[| | | | | | | | | |[]| | | | | |]|];
        rewrite ?andb_false_r; reflexivity. }
    rewrite Hb. clear Hb.
    destruct (hasManagedClassName _ _) eqn:Hmanaged.
    + destruct (Hlegal Hmanaged) as [Heq Hprops]. by rewrite Hprops, Heq.
    + unfold emitAttrInEditedNode.
      destruct (proj2 (map_get_is_Some name named) (Hnamed name value eq_refl))
        as [x Hx].
      rewrite Hx, conflictResolution_self, String.eqb_refl, andb_false_r.
      reflexivity.
  - (* a spread *)
    destruct arg as [| | | | |callee arguments| | | | | | | | | | |];
      try reflexivity.
    destruct (calleeMatch callee _ _) eqn:Hmatch; [|reflexivity].
    rewrite (Hlegal Hmatch).
    unfold calleeMatch in Hmatch. apply memberExpressionMatch_eq in Hmatch.
    subst callee. reflexivity.
Qed.
Lemma mergeAttributes_self (serialize : PlasmicASTNode -> Exc (option Node))
    (t : PlasmicTagOrComponent) :
  xorb (hasPropsIdSpreador version t) (hasClassNameIdAttr version t) = true ->
  Forall (legalAttribute version t)
    (jsx_attributes (jsx_rawNode (tag_jsxElement t))) ->
  mergeAttributes nodesDeepEqualIgnoreComments serialize t t t version
  = Ok (jsx_attributes (jsx_rawNode (tag_jsxElement t))).
Proof.
  intros Hxor Hattrs. unfold mergeAttributes, getNamedAttrs.
  rewrite Hxor. cbn [assert exc_bind].
  destruct (getNamedAttrs_loop_spec version t _ Hattrs [] (NoDup_nil_2))
    as (named & Hok & Hnd & _ & Hin).
  rewrite Hok. cbn [exc_bind]. unfold newAttrsBeforeIdNode.
  rewrite (exc_mapM_Ok _ (fun _ => [])).
  2: { apply Forall_forall. intros [name attr] Hentry.
       unfold newAttrsBeforeIdNode_step.
       destruct (String.eqb name "className"); [reflexivity|].
       by rewrite (map_get_elem name attr named Hnd Hentry), conflictResolution_self. }
  cbn [exc_bind]. rewrite concat_map_nil.
  rewrite (exc_mapM_Ok _ (fun a => [a])).
  2: { apply Forall_forall. intros attr Hattr.
       apply mergeAttributes_step_self.
       - exact (proj1 (Forall_forall _ _) Hattrs attr Hattr).
       - intros name value ->. by eapply Hin. }
  cbn [exc_bind]. by rewrite concat_map_singleton.
Qed.

Lemma findMatch_loop_finds (body : PlasmicASTNode -> Iteration)
    (l : list PlasmicASTNode) (k : nat) (n : PlasmicASTNode) :
  l !! k = Some n -> body n = ReturnPerfect ->
  forall i m, exists j, j <= k /\ findMatch_loop body l i m = perfect (i + j).
Proof.
  revert k. induction l as [|a l IH]; intros k Hk Hn i m.
  { by rewrite lookup_nil in Hk. }
  simpl. destruct (body a) eqn:Ha.
  - exists 0. split; [lia|]. by rewrite Nat.add_0_r.
  - destruct k as [|k]; [simpl in Hk; congruence|].
    destruct (IH k Hk Hn (S i) (match m with None => Some i | Some j => Some j end))
      as (j & Hj & ->).
    exists (S j). split; [lia|]. f_equal. lia.
  - destruct k as [|k]; [simpl in Hk; congruence|].
    destruct (IH k Hk Hn (S i) m) as (j & Hj & ->).
    exists (S j). split; [lia|]. f_equal. lia.
Qed.

Lemma findMatch_text_self (nodes : list PlasmicASTNode) (start : nat)
    (equiv : string -> string -> bool) (c : PlasmicASTNode) (i : nat) :
  nodes !! i = Some c -> is_Some (text_value c) -> start <= i ->
  exists j, j <= i /\ findMatch nodes start equiv c = perfect j.
Proof.
  intros Hi [v Hv] Hstart.
  assert (Hdrop : drop start nodes !! (i - start) = Some c).
  { rewrite lookup_drop. by replace (start + (i - start)) with i by lia. }
  destruct c; try discriminate; injection Hv as ->; unfold findMatch;
    match goal with
    | |- context [findMatch_loop ?body _ _ _] =>
        destruct (findMatch_loop_finds body _ _ _ Hdrop) with (i := start) (m := @None nat)
          as (j & Hj & ->); [cbn; by rewrite String.eqb_refl|]
    end;
    exists (start + j); split; (lia || reflexivity).
Qed.

Lemma mergedChildren_steps_self (baseNode : PlasmicTagOrComponent)
    (children editedChildren : list PlasmicASTNode) (l : list PlasmicASTNode) :
  forall i next,
    (forall k c, l !! k = Some c ->
                 children !! (i + k) = Some c /\ node_type c <> Vopaque) ->
    next <= i ->
    exists next',
      forEach_indexed
        (mergedChildren_step baseNode version version version editedChildren)
        l i (children, next)
      = (children, next').
Proof.
  induction l as [|c l IH]; intros i next Hl Hnext; cbn [forEach_indexed].
  { by exists next. }
  destruct (Hl 0 c eq_refl) as [Hc Hopaque]. rewrite Nat.add_0_r in Hc.
  assert (Hrest : forall k c', l !! k = Some c' ->
                    children !! (S i + k) = Some c' /\ node_type c' <> Vopaque).
  { intros k c' Hk. destruct (Hl (S k) c' Hk) as [H1 H2].
    split; [|done]. by replace (S i + k) with (i + S k) by lia. }
  assert (Htext : is_Some (text_value c) ->
            exists next',
              mergedChildren_step baseNode version version version editedChildren
                (children, next) c i = (children, next') /\ next' <= S i).
  { intros Hv.
    destruct (findMatch_text_self children next
                (idMatchChecker version version) c i Hc Hv Hnext) as (j & Hj & Hfind).
    exists (j + 1). split; [|lia].
    unfold mergedChildren_step.
    destruct Hv as [v Hv]. destruct c; try discriminate; cbn [node_type];
      by rewrite Hfind. }
  assert (Hstep : exists next',
            mergedChildren_step baseNode version version version editedChildren
              (children, next) c i = (children, next') /\ next' <= S i).
  { destruct c; try (by destruct Hopaque);
      try (apply Htext; by eexists);
      (exists next; split; [reflexivity|lia]). }
  destruct Hstep as (next1 & -> & Hnext1).
  by apply IH.
Qed.

Lemma mergedChildren_list_self (t : PlasmicTagOrComponent) :
  Forall (fun c => node_type c <> Vopaque) (jsx_children (tag_jsxElement t)) ->
  mergedChildren_list t t t version version version
  = jsx_children (tag_jsxElement t).
Proof.
  intros Hchildren. unfold mergedChildren_list, mergedChildren_state.
  rewrite firstn_all.
  destruct (mergedChildren_steps_self t (jsx_children (tag_jsxElement t))
              (jsx_children (tag_jsxElement t)) (jsx_children (tag_jsxElement t))
              0 0) as (next' & ->); [|lia|reflexivity].
  intros k c Hk. split; [exact Hk|].
  exact (proj1 (Forall_lookup _ _) Hchildren k c Hk).
Qed.

Lemma includes_elem (l : list PlasmicASTNode) (c : PlasmicASTNode) :
  c ∈ l -> includes l c = true.
Proof.
  intros Hc. unfold includes. apply existsb_exists. exists c.
  split; [by apply list_elem_of_In|apply Nat.eqb_refl].
Qed.

Lemma withoutNils_Some {A B : Type} (f : A -> B) (l : list A) :
  withoutNils (List.map (fun a => Some (f a)) l) = List.map f l.
Proof.
  unfold withoutNils. induction l as [|a l IH]; [reflexivity|].
  cbn [List.map omap list_omap id]. by rewrite IH.
Qed.

Lemma exc_mapM_Forall2 {A B : Type} (f : A -> Exc B) (R : A -> B -> Prop)
    (l : list A) :
  Forall (fun a => exists b, f a = Ok b /\ R a b) l ->
  exists bs, exc_mapM f l = Ok bs /\ Forall2 R l bs.
Proof.
  induction 1 as [|a l (b & Hb & HR) _ (bs & Hbs & HRs)]; cbn [exc_mapM].
  - exists []. by split.
  - exists (b :: bs). rewrite Hb, Hbs. split; [reflexivity|by constructor].
Qed.

(** The children of a node merged with itself are its own children, up to
    source offsets, when each child serializes to its own markup. *)
Lemma mergedChildren_self (self : PlasmicASTNode -> Exc (option Node))
    (t : PlasmicTagOrComponent) :
  Forall (fun c => node_type c <> Vopaque
                   /\ exists merged, self c = Ok (Some merged)
                        /\ withoutOffsets merged = withoutOffsets (node_rawNode c))
    (jsx_children (tag_jsxElement t)) ->
  exists children,
    mergedChildren self t t t version version version = Ok children
    /\ List.map withoutOffsets children
       = List.map (fun c => withoutOffsets (asJsxChild (node_rawNode c)))
           (jsx_children (tag_jsxElement t)).
Proof.
  intros Hchildren. unfold mergedChildren.
  rewrite mergedChildren_list_self.
  2: { eapply Forall_impl; [exact Hchildren|]. by intros c [? _]. }
  destruct (exc_mapM_Forall2
              (mergedChildren_emit self t)
              (fun c emitted =>
                 exists child, emitted = Some child
                   /\ withoutOffsets child
                      = withoutOffsets (asJsxChild (node_rawNode c)))
              (jsx_children (tag_jsxElement t))) as (emitted & -> & Hemitted).
  { apply Forall_forall. intros c Hc.
    destruct (proj1 (Forall_forall _ _) Hchildren c Hc)
      as (Hopaque & merged & Hself & Hsame).
    unfold mergedChildren_emit. rewrite (includes_elem _ c Hc). cbn [negb].
    assert (Hemit :
      exists b,
        (n <-! self c;
         match n with
         | None => Ok None
         | Some n =>
             if isExpression n then
               if negb (isJSXElement n) && negb (isJSXFragment n)
               then Ok (Some (JSXExpressionContainer n))
               else Ok (Some n)
             else Ok (Some n)
         end) = Ok b
        /\ exists child, b = Some child
             /\ withoutOffsets child
                = withoutOffsets (asJsxChild (node_rawNode c))).
    { rewrite Hself. cbn [exc_bind]. exists (Some (asJsxChild merged)). split.
      - unfold asJsxChild.
        destruct (isExpression _), (isJSXElement _), (isJSXFragment _); reflexivity.
      - exists (asJsxChild merged). split; [reflexivity|].
        by rewrite !asJsxChild_withoutOffsets, Hsame. }
    destruct c; try exact Hemit. by destruct Hopaque. }
  cbn [exc_bind]. exists (withoutNils emitted). split; [reflexivity|].
  unfold withoutNils. clear Hchildren.
  induction Hemitted as [|c e cs es (child & -> & Hchild) _ IH]; [reflexivity|].
  cbn [omap list_omap id List.map]. by rewrite Hchild, <- IH.
Qed.

Lemma withMergedAttributesAndChildren_self (jsxElement : Node)
    (children : list Node) :
  closingElementPresent jsxElement = true ->
  List.map withoutOffsets children
  = List.map withoutOffsets (jsx_element_children jsxElement) ->
  withoutOffsets
    (withMergedAttributesAndChildren jsxElement (jsx_attributes jsxElement) children)
  = withoutOffsets jsxElement.
Proof.
  destruct jsxElement as [| | | | | | | | | | | | |s name attrs sc ce ch| | |];
    try reflexivity.
  cbn [closingElementPresent withMergedAttributesAndChildren withoutOffsets
       jsx_attributes jsx_element_children].
  intros Hclosing Hchildren. rewrite Hchildren. f_equal.
  destruct ce as [c|]; [reflexivity|].
  destruct children as [|x children]; [reflexivity|].
  destruct ch as [|y ch]; [discriminate Hchildren|discriminate Hclosing].
Qed.

(** A legal [tag-or-component] node merged with itself serializes to its own
    markup, when its children do. *)
Lemma serializeTagOrComponent_self (legalChild : PlasmicASTNode -> Prop)
    (self : PlasmicASTNode -> Exc (option Node)) (t : PlasmicTagOrComponent) :
  legalTag_with legalChild version t ->
  (forall c, legalChild c -> node_type c <> Vopaque ->
             exists merged, self c = Ok (Some merged)
               /\ withoutOffsets merged = withoutOffsets (node_rawNode c)) ->
  exists merged,
    serializeTagOrComponent_with nodesDeepEqualIgnoreComments version version version
      self t
    = Ok (Some merged)
    /\ withoutOffsets merged = withoutOffsets (tag_rawNode t).
Proof.
  intros (Hfind & Hxor & Hattrs & Hchildren & Hraw & Hclosing & Hshow) Hself.
  unfold serializeTagOrComponent_with. rewrite Hfind. cbn [ensure exc_bind].
  rewrite (mergeAttributes_self _ t Hxor Hattrs). cbn [exc_bind].
  destruct (mergedChildren_self self t) as (children & -> & Hsame).
  { eapply Forall_impl; [exact Hchildren|]. intros c [Hopaque Hc].
    split; [done|]. by apply Hself. }
  cbn [exc_bind].
  set (clone := cloneDeepWithHook _ (tag_rawNode t)).
  assert (Hclone : withoutOffsets clone = withoutOffsets (tag_rawNode t)).
  { apply cloneDeepWithHook_sameMarkup. intros m r Hhook.
    unfold replaceNode in Hhook.
    destruct (node_eqb m (jsx_rawNode (tag_jsxElement t))) eqn:Hm; [|discriminate].
    apply node_eqb_eq in Hm. injection Hhook as <-. subst m.
    apply withMergedAttributesAndChildren_self; [exact Hclosing|].
    by rewrite Hsame, Hraw, List.map_map. }
  rewrite (mergeShowFunc_self version t clone).
  - cbn [exc_bind]. by exists clone.
  - rewrite Hshow. symmetry. by apply showCall_sameMarkup.
Qed.

Lemma nodemap_set_sameMarkup (k v : Node) (m : list (Node * Node)) :
  withoutOffsets v = withoutOffsets k ->
  Forall (fun kv => withoutOffsets kv.2 = withoutOffsets kv.1) m ->
  Forall (fun kv => withoutOffsets kv.2 = withoutOffsets kv.1) (nodemap_set k v m).
Proof.
  intros Hv. induction 1 as [|[k' v'] m Hkv Hm IH]; cbn [nodemap_set].
  - by repeat constructor.
  - destruct (node_eqb k' k) eqn:E.
    + apply node_eqb_eq in E. subst k'. by constructor.
    + by constructor.
Qed.

Lemma nodemap_get_sameMarkup (m : list (Node * Node)) (n r : Node) :
  Forall (fun kv => withoutOffsets kv.2 = withoutOffsets kv.1) m ->
  nodemap_get n m = Some r -> withoutOffsets r = withoutOffsets n.
Proof.
  induction 1 as [|[k' v'] m Hkv _ IH]; cbn [nodemap_get]; [discriminate|].
  destruct (node_eqb k' n) eqn:E; [|exact IH].
  apply node_eqb_eq in E. intros [= <-]. by subst.
Qed.

Lemma serializeArg_steps_self (legalChild : PlasmicASTNode -> Prop)
    (self : PlasmicASTNode -> Exc (option Node))
    (jsxNodes : list PlasmicTagOrComponent) :
  Forall (legalTag_with legalChild version) jsxNodes ->
  (forall c, legalChild c -> node_type c <> Vopaque ->
             exists merged, self c = Ok (Some merged)
               /\ withoutOffsets merged = withoutOffsets (node_rawNode c)) ->
  forall m, Forall (fun kv => withoutOffsets kv.2 = withoutOffsets kv.1) m ->
    exists m', foldl (serializeArg_step nodesDeepEqualIgnoreComments
                        version version version self) (Ok m) jsxNodes = Ok m'
               /\ Forall (fun kv => withoutOffsets kv.2 = withoutOffsets kv.1) m'.
Proof.
  intros Hlegal Hself. induction Hlegal as [|t rest Ht _ IH]; intros m Hm.
  { by exists m. }
  cbn [foldl]. unfold serializeArg_step at 2. cbn [exc_bind].
  destruct (serializeTagOrComponent_self legalChild self t Ht Hself)
    as (merged & -> & Hmerged).
  cbn [exc_bind]. apply IH. by apply nodemap_set_sameMarkup.
Qed.

(** Enough fuel gives the result: a node that is legal down to [depth]
    levels, merged with itself, serializes to its own markup with any [fuel]
    of at least [depth]. *)
Lemma serializeNonOpaquePlasmicASTNode_self (depth : nat) :
  forall n, legal version depth n -> node_type n <> Vopaque ->
  forall fuel, depth <= fuel ->
    exists merged,
      serializeNonOpaquePlasmicASTNode nodesDeepEqualIgnoreComments
        version version version fuel n
      = Ok (Some merged)
      /\ withoutOffsets merged = withoutOffsets (node_rawNode n).
Proof.
  induction depth as [|depth IH]; intros n Hlegal Hopaque fuel Hfuel;
    [destruct Hlegal|].
  destruct fuel as [|fuel]; [lia|].
  assert (Hself : forall c, legal version depth c -> node_type c <> Vopaque ->
            exists merged,
              serializeNonOpaquePlasmicASTNode nodesDeepEqualIgnoreComments
                version version version fuel c = Ok (Some merged)
              /\ withoutOffsets merged = withoutOffsets (node_rawNode c)).
  { intros c Hc Hno. apply IH; [done|done|lia]. }
  cbn [serializeNonOpaquePlasmicASTNode legal] in *.
  destruct n as [| |oid rawNode argName jsxNodes| |oid t|];
    cbn [serializeNonOpaquePlasmicASTNode_with node_rawNode legalNode_with] in *;
    try (by destruct Hopaque); try (by eexists).
  - destruct (serializeArg_steps_self (legal version depth) _ jsxNodes Hlegal Hself
                [] (Forall_nil_2 _)) as (m' & -> & Hm').
    cbn [exc_bind]. eexists. split; [reflexivity|].
    apply cloneDeepWithHook_sameMarkup. intros m r. by apply nodemap_get_sameMarkup.
  - by apply (serializeTagOrComponent_self (legal version depth)).
Qed.
End SelfMerge.
(** ** The imports of a file merged with itself *)

Lemma extractPlasmicImports_app (l1 l2 : list Statement) :
  extractPlasmicImports (l1 ++ l2)
  = extractPlasmicImports l1 ++ extractPlasmicImports l2.
Proof. apply omap_app. Qed.

Lemma extractPlasmicImports_unmanaged (l : list Statement) :
  Forall (fun stmt => isManagedStatement stmt = false) l ->
  extractPlasmicImports l = [].
Proof.
  induction 1 as [|stmt l Hstmt _ IH]; [reflexivity|].
  unfold extractPlasmicImports in *. cbn [omap list_omap]. rewrite IH.
  destruct stmt as [node|]; [|reflexivity].
  simpl in Hstmt. by destruct (tryParsePlasmicImportSpec node) as [[id type]|].
Qed.

Lemma extractPlasmicImports_block (block : list ImportDeclaration) :
  Forall (fun node => isManagedStatement (ImportStatement node) = true) block ->
  List.map spec_node (extractPlasmicImports (List.map ImportStatement block)) = block.
Proof.
  induction 1 as [|node block Hnode _ IH]; [reflexivity|].
  unfold extractPlasmicImports in *. cbn [List.map omap list_omap].
  simpl in Hnode.
  destruct (tryParsePlasmicImportSpec node) as [[id type]|]; [|discriminate].
  simpl. by rewrite IH.
Qed.

Lemma compareImports_refl (a : PlasmicImportSpec) : compareImports a a = 0%Z.
Proof.
  apply Z.eqb_eq. by apply compareImports_eq.
Qed.

Lemma sort_insert_before (x : PlasmicImportSpec) (p q : list PlasmicImportSpec) :
  Forall (fun y => key_lt (import_key y) (import_key x)) p ->
  sort_insert compareImports x (p ++ x :: q) = p ++ x :: x :: q.
Proof.
  induction 1 as [|y p Hy _ IH]; simpl.
  - by rewrite compareImports_refl.
  - rewrite (proj2 (compareImports_gt x y) Hy). by rewrite IH.
Qed.

Lemma sort_insert_tail (q : list PlasmicImportSpec) :
  forall p,
    StronglySorted (fun a b => key_lt (import_key a) (import_key b)) (p ++ q) ->
    foldr (sort_insert compareImports) (p ++ q) q
    = p ++ flat_map (fun x => [x; x]) q.
Proof.
  induction q as [|x q IH]; intros p Hsorted; [reflexivity|].
  cbn [foldr flat_map].
  replace (p ++ x :: q) with ((p ++ [x]) ++ q) in * by by rewrite <- app_assoc.
  rewrite (IH (p ++ [x]) Hsorted), <- app_assoc. cbn [app].
  apply sort_insert_before.
  rewrite <- app_assoc in Hsorted. cbn [app] in Hsorted.
  clear IH. induction p as [|y p IHp]; [constructor|].
  cbn [app] in Hsorted. apply StronglySorted_inv in Hsorted as [Hp Hy].
  constructor; [|by apply IHp].
  apply Forall_app in Hy as [_ Hy]. by apply Forall_cons in Hy as [Hy _].
Qed.

Lemma sort_sorted_id (l : list PlasmicImportSpec) :
  StronglySorted (fun a b => key_lt (import_key a) (import_key b)) l ->
  sort compareImports l = l.
Proof.
  unfold sort. induction 1 as [|x l Hl IH Hx]; [reflexivity|].
  cbn [foldr]. rewrite IH. destruct l as [|y l]; [reflexivity|].
  apply Forall_cons in Hx as [Hy _]. simpl.
  assert (Hle : (compareImports x y <=? 0)%Z = true).
  { apply compareImports_le. by right. }
  by rewrite Hle.
Qed.

Lemma sort_self (l : list PlasmicImportSpec) :
  StronglySorted (fun a b => key_lt (import_key a) (import_key b)) l ->
  sort compareImports (l ++ l) = flat_map (fun x => [x; x]) l.
Proof.
  intros Hsorted. unfold sort. rewrite foldr_app.
  change (foldr (sort_insert compareImports) [] l) with (sort compareImports l).
  rewrite (sort_sorted_id l Hsorted).
  exact (sort_insert_tail l [] Hsorted).
Qed.

Lemma mergeImports_continue_self (specs : list ImportSpecifierNode)
    (s : ImportSpecifierNode) :
  s ∈ specs ->
  match s with ImportNamespaceSpecifier _ => False | _ => True end ->
  mergeImports_continue specs s = true.
Proof.
  intros Hs Hkind. destruct s; try done; simpl; apply existsb_exists;
    eexists; (split; [apply list_elem_of_In, Hs|]);
    cbv beta iota; by rewrite ?String.eqb_refl.
Qed.

Lemma mergeImports_self (node : ImportDeclaration) :
  hasNamespaceSpecifier node = false -> mergeImports node node = node.
Proof.
  intros Hns. unfold mergeImports.
  assert (Hfold : forall l acc,
            l ⊆ specifiers node ->
            foldl (mergeImports_step node) acc l = acc).
  { induction l as [|s l IH]; intros acc Hl; [reflexivity|]. cbn [foldl].
    unfold mergeImports_step at 2. rewrite mergeImports_continue_self.
    - apply IH. intros x Hx. apply Hl. by apply list_elem_of_further.
    - apply Hl, list_elem_of_here.
    - destruct s; try done.
      assert (Hex : hasNamespaceSpecifier node = true); [|congruence].
      apply existsb_exists. exists (ImportNamespaceSpecifier local).
      split; [|reflexivity].
      apply list_elem_of_In, Hl, list_elem_of_here. }
  rewrite Hfold by done. by destruct node.
Qed.

Lemma mergeAdjacentImports_self (l : list PlasmicImportSpec) :
  Forall (fun a => hasNamespaceSpecifier (spec_node a) = false) l ->
  mergeAdjacentImports
    (List.map clearLeadingComments (flat_map (fun x => [x; x]) l))
  = List.map (fun a => cleared (spec_node a)) l.
Proof.
  induction 1 as [|a l Ha _ IH]; [reflexivity|].
  cbn [flat_map app List.map mergeAdjacentImports].
  rewrite compareImports_refl. cbn [Z.eqb]. rewrite IH.
  f_equal. apply mergeImports_self. exact Ha.
Qed.

Lemma removePlasmicImports_found (l : list Statement) :
  forall i firstImport k,
    exists firstImport',
      removePlasmicImports l i firstImport (Some k)
      = (List.filter (fun stmt => negb (isManagedStatement stmt)) l,
         firstImport', Some k).
Proof.
  induction l as [|stmt l IH]; intros i fi k; simpl; [by eexists|].
  destruct stmt as [node|c]; simpl.
  - destruct (tryParsePlasmicImportSpec node); simpl.
    + apply IH.
    + match goal with
      | |- context [removePlasmicImports l ?i ?a ?b] =>
          destruct (IH i a k) as (fi' & ->)
      end. by eexists.
  - destruct (IH (S i) fi k) as (fi' & ->). by eexists.
Qed.

Lemma removePlasmicImports_unmanaged (l : list Statement) :
  Forall (fun stmt => isManagedStatement stmt = false) l ->
  forall i firstImport firstPlasmicImport,
    (removePlasmicImports l i firstImport firstPlasmicImport).1.1 = l.
Proof.
  induction 1 as [|stmt l Hstmt _ IH]; intros i fi fp; [reflexivity|].
  cbn [removePlasmicImports]. destruct stmt as [node|c].
  - simpl in Hstmt. destruct (tryParsePlasmicImportSpec node); [discriminate|].
    match goal with
    | |- context [removePlasmicImports l ?i ?a ?b] =>
        pose proof (IH i a b) as Hkept;
        destruct (removePlasmicImports l i a b) as [[kept fi'] fp']
    end.
    cbn [fst] in *. by rewrite Hkept.
  - pose proof (IH (S i) fi fp) as Hkept.
    destruct (removePlasmicImports l (S i) fi fp) as [[kept fi'] fp'].
    cbn [fst] in *. by rewrite Hkept.
Qed.

Lemma filter_unmanaged_id (l : list Statement) :
  Forall (fun stmt => isManagedStatement stmt = false) l ->
  List.filter (fun stmt => negb (isManagedStatement stmt)) l = l.
Proof.
  induction 1 as [|stmt l Hstmt _ IH]; simpl; [done|]. by rewrite Hstmt, IH.
Qed.

Lemma filter_unmanaged_block (block : list ImportDeclaration) :
  Forall (fun node => isManagedStatement (ImportStatement node) = true) block ->
  List.filter (fun stmt => negb (isManagedStatement stmt))
    (List.map ImportStatement block) = [].
Proof.
  induction 1 as [|node l Hnode _ IH]; [done|].
  cbn [List.map List.filter]. by rewrite Hnode, IH.
Qed.

Lemma removePlasmicImports_block (pre : list Statement)
    (node : ImportDeclaration) (rest : list Statement) :
  Forall (fun stmt => isManagedStatement stmt = false) pre ->
  isManagedStatement (ImportStatement node) = true ->
  forall i firstImport,
    exists firstImport',
      removePlasmicImports (pre ++ ImportStatement node :: rest) i firstImport None
      = (pre ++ List.filter (fun stmt => negb (isManagedStatement stmt)) rest,
         firstImport', Some (i + List.length pre)).
Proof.
  intros Hpre Hnode. induction Hpre as [|stmt pre Hstmt _ IH]; intros i fi.
  - cbn [app removePlasmicImports]. simpl in Hnode.
    destruct (tryParsePlasmicImportSpec node); [|discriminate].
    match goal with
    | |- context [removePlasmicImports rest ?i ?a (Some ?k)] =>
        destruct (removePlasmicImports_found rest i a k) as (fi' & ->)
    end.
    exists fi'. cbn [List.length]. by rewrite Nat.add_0_r.
  - cbn [app removePlasmicImports List.length].
    destruct stmt as [n|c].
    + simpl in Hstmt. destruct (tryParsePlasmicImportSpec n); [discriminate|].
      match goal with
      | |- context [removePlasmicImports _ ?i ?a None] =>
          destruct (IH i a) as (fi' & ->)
      end.
      exists fi'. by replace (S i + List.length pre) with (i + S (List.length pre)) by lia.
    + destruct (IH (S i) fi) as (fi' & ->).
      exists fi'. by replace (S i + List.length pre) with (i + S (List.length pre)) by lia.
Qed.

(** The managed imports of a file merged with itself are the managed imports
    of the file, their leading comments removed, where they were. *)
Lemma mergePlasmicImports_self (pre : list Statement)
    (block : list ImportDeclaration) (post : list Statement) :
  legalImports pre block post ->
  let body := pre ++ List.map ImportStatement block ++ post in
  mergePlasmicImports body body body
  = pre ++ List.map (fun node => ImportStatement (cleared node)) block ++ post.
Proof.
  intros (Hrest & Hblock & Hsorted) body.
  apply Forall_app in Hrest as [Hpre Hpost].
  assert (Hmanaged : Forall (fun node =>
            isManagedStatement (ImportStatement node) = true) block).
  { eapply Forall_impl; [exact Hblock|]. by intros node [? _]. }
  assert (Hextract : extractPlasmicImports body
                     = extractPlasmicImports (List.map ImportStatement block)).
  { unfold body. rewrite !extractPlasmicImports_app.
    rewrite (extractPlasmicImports_unmanaged pre Hpre),
      (extractPlasmicImports_unmanaged post Hpost).
    by rewrite app_nil_r. }
  assert (Hmerged : mergedPlasmicImports body body = List.map cleared block).
  { unfold mergedPlasmicImports. rewrite Hextract, (sort_self _ Hsorted).
    rewrite mergeAdjacentImports_self.
    - rewrite <- (extractPlasmicImports_block block Hmanaged) at 2.
      by rewrite List.map_map.
    - apply Forall_forall. intros a Ha.
      assert (Hin : spec_node a ∈ block).
      { rewrite <- (extractPlasmicImports_block block Hmanaged).
        apply list_elem_of_In, in_map, list_elem_of_In, Ha. }
      exact (proj2 (proj1 (Forall_forall _ _) Hblock _ Hin)). }
  unfold mergePlasmicImports. rewrite Hmerged, List.map_map.
  destruct block as [|node block].
  - cbn [List.map app].
    pose proof (removePlasmicImports_unmanaged body
                  (proj2 (Forall_app _ _ _) (conj Hpre Hpost)) 0 None None) as Hkept.
    destruct (removePlasmicImports body 0 None None) as [[kept fi] fp].
    cbn [fst] in Hkept. subst kept. by rewrite take_drop.
  - apply Forall_cons in Hmanaged as [Hnode Hmanaged].
    unfold body. cbn [List.map app].
    destruct (removePlasmicImports_block pre node
                (List.map ImportStatement block ++ post) Hpre Hnode 0 None)
      as (fi & ->).
    rewrite List.filter_app, (filter_unmanaged_block block Hmanaged),
      (filter_unmanaged_id post Hpost).
    cbn [app Nat.add].
    rewrite take_app_length, drop_app_length. reflexivity.
Qed.



(* ===================================================================== *)
(** * Part III. Further properties of the code                            *)
(* ===================================================================== *)

(** ** [getNamedAttrs] *)

Lemma getNamedAttrs_loop_last (attributes : list Node) :
  forall attrs,
    NoDup attrs.*1 ->
    forallb hasStringName attributes = true ->
    exists named,
      getNamedAttrs_loop attributes attrs = Ok named
      /\ NoDup named.*1
      /\ forall name,
           map_get name named
           = match lastAttrNamed name attributes with
             | Some attr => Some attr
             | None => map_get name attrs
             end.
Proof.
  induction attributes as [|attr rest IH]; intros attrs Hnd Hall.
  { exists attrs. by repeat split. }
  cbn [forallb] in Hall. apply andb_true_iff in Hall as [Hattr Hrest].
  assert (Hskip : attrNameOf attr = None ->
                  getNamedAttrs_loop (attr :: rest) attrs
                  = getNamedAttrs_loop rest attrs ->
                  exists named,
                    getNamedAttrs_loop (attr :: rest) attrs = Ok named
                    /\ NoDup named.*1
                    /\ forall name,
                         map_get name named
                         = match lastAttrNamed name (attr :: rest) with
                           | Some attr => Some attr
                           | None => map_get name attrs
                           end).
  { intros Hname ->. destruct (IH attrs Hnd Hrest) as (named & Hok & Hnd' & Hget).
    exists named. repeat split; try done. intros name. rewrite Hget.
    unfold lastAttrNamed. cbn [List.filter]. rewrite Hname.
    by rewrite bool_decide_eq_false_2. }
  destruct attr as [| | | | | | | | | | |nameNode value| | | | |];
    try (by apply Hskip).
  destruct nameNode as [| | | | | | |n| | | | | | | | |]; try discriminate.
  cbn [getNamedAttrs_loop].
  destruct (IH (map_set n (JSXAttribute (JSXIdentifier n) value) attrs)
              (map_set_NoDup _ _ _ Hnd) Hrest) as (named & Hok & Hnd' & Hget).
  exists named. repeat split; try done. intros name. rewrite Hget, map_get_set.
  unfold lastAttrNamed. cbn [List.filter attrNameOf].
  destruct (String.eqb_spec n name) as [->|Hne].
  - rewrite bool_decide_eq_true_2 by done. rewrite last_cons.
    by destruct (last _).
  - rewrite bool_decide_eq_false_2 by congruence. reflexivity.
Qed.

Lemma getNamedAttrs_loop_throws (attributes : list Node) :
  forall attrs,
    forallb hasStringName attributes = false ->
    getNamedAttrs_loop attributes attrs = Throw.
Proof.
  induction attributes as [|attr rest IH]; intros attrs Hall; [discriminate|].
  cbn [forallb] in Hall. apply andb_false_iff in Hall as [Hattr|Hrest].
  - destruct attr as [| | | | | | | | | | |nameNode value| | | | |];
      try discriminate.
    by destruct nameNode.
  - destruct attr as [| | | | | | | | | | |nameNode value| | | | |];
      try (by apply IH).
    destruct nameNode; try reflexivity. by apply IH.
Qed.

(** X1.  [getNamedAttrs] throws exactly when some attribute that is not a
    spread has a name other than a plain identifier.  Otherwise it returns a
    map that holds each name once, and looking a name up gives the last
    attribute of that name in the element: a repeated name overwrites, and
    spreads are left out. *)
Theorem getNamedAttrs_last_wins (jsxElement : Node) :
  let attributes := jsx_attributes jsxElement in
  (forallb hasStringName attributes = true ->
   exists named,
     getNamedAttrs jsxElement = Ok named
     /\ NoDup named.*1
     /\ forall name, map_get name named = lastAttrNamed name attributes)
  /\ (forallb hasStringName attributes = false ->
      getNamedAttrs jsxElement = Throw).
Proof.
  cbv zeta. unfold getNamedAttrs. split.
  - intros Hall.
    destruct (getNamedAttrs_loop_last _ [] (NoDup_nil_2) Hall)
      as (named & Hok & Hnd & Hget).
    exists named. repeat split; try done. intros name. rewrite Hget.
    by destruct (lastAttrNamed _ _).
  - apply getNamedAttrs_loop_throws.
Qed.

(** ** [findMatch]: bounds, and the probes the claim leaves out *)

Lemma findMatch_loop_range (body : PlasmicASTNode -> Iteration)
    (l : list PlasmicASTNode) :
  forall i m k,
    findMatch_loop body l i m = perfect k
    \/ (findMatch_loop body l i m = type_match k /\ m <> Some k) ->
    i <= k < i + List.length l.
Proof.
  induction l as [|a l IH]; intros i m k; simpl.
  - intros [H|[H Hm]]; destruct m; try discriminate.
    injection H as ->. by destruct Hm.
  - destruct (body a).
    + intros [[= <-]|[? _]]; [lia|discriminate].
    + intros H.
      destruct m as [j|].
      * specialize (IH (S i) (Some j) k H). lia.
      * destruct (decide (k = i)) as [->|Hne]; [lia|].
        assert (Hk : S i <= k < S i + List.length l); [|lia].
        apply (IH (S i) (Some i) k). destruct H as [H|[H _]]; [by left|].
        right. split; [done|congruence].
    + intros H. specialize (IH (S i) m k H). lia.
Qed.

Lemma findMatch_range (nodes : list PlasmicASTNode) (start : nat)
    (equiv : string -> string -> bool) (p : PlasmicASTNode) (i : nat) :
  findMatch nodes start equiv p = perfect i
  \/ findMatch nodes start equiv p = type_match i ->
  start <= i < List.length nodes.
Proof.
  intros H.
  assert (Hrange : start <= i < start + List.length (drop start nodes)).
  { destruct p; unfold findMatch in H;
      try (eapply findMatch_loop_range;
           destruct H as [H|H]; [left; exact H|right; split; [exact H|done]]).
    destruct H; discriminate. }
  rewrite length_drop in Hrange. lia.
Qed.

Lemma findMatch_loop_nil (body : PlasmicASTNode -> Iteration) (i : nat) :
  findMatch_loop body [] i None = none.
Proof. reflexivity. Qed.

(** X2.  An index [findMatch] returns, as a perfect or as a type match, is
    an index of [nodes] at or after [start]; and with [start] at or beyond
    the end of [nodes] the result is [none]. *)
Theorem findMatch_index_in_range (nodes : list PlasmicASTNode) (start : nat)
    (equiv : string -> string -> bool) (p : PlasmicASTNode) :
  (forall i,
      findMatch nodes start equiv p = perfect i
      \/ findMatch nodes start equiv p = type_match i ->
      start <= i < List.length nodes)
  /\ (List.length nodes <= start -> findMatch nodes start equiv p = none).
Proof.
  split; [intros i; apply findMatch_range|].
  intros Hlen. unfold findMatch. rewrite drop_ge by done. by destruct p.
Qed.

Section FindMatchRules.
Variable body : PlasmicASTNode -> Iteration.
Variables same kind : PlasmicASTNode -> Prop.
Hypothesis body_perfect : forall n, body n = ReturnPerfect <-> same n.
Hypothesis body_record : forall n, ~ same n -> (body n = RecordType <-> kind n).
Hypothesis same_kind : forall n, same n -> kind n.
Variable nodes : list PlasmicASTNode.
Variable start : nat.

Lemma findMatch_loop_rules :
  (forall i, findMatch_loop body (drop start nodes) start None = perfect i <->
             first_from same nodes start i)
  /\ (forall i, findMatch_loop body (drop start nodes) start None = type_match i <->
                none_from same nodes start /\ first_from kind nodes start i)
  /\ (findMatch_loop body (drop start nodes) start None = none <->
      none_from kind nodes start).
Proof.
  split; [|split].
  - intros i. rewrite findMatch_loop_perfect, <- first_from_drop.
    split; intros (j & n & -> & Hl & Hb & Hfirst); exists j, n;
      (repeat split; [done|by apply body_perfect|]);
      intros j' n' Hlt Hl' Hc; apply (Hfirst j' n' Hlt Hl'); by apply body_perfect.
  - intros i. rewrite findMatch_loop_type, <- first_from_drop, <- none_from_drop.
    split.
    + intros (Hnp & j & n & -> & Hl & Hb & Hfirst). split.
      { intros j0 n0 Hl0 Hc. apply (Hnp j0 n0 Hl0). by apply body_perfect. }
      exists j, n. repeat split; [done| |].
      { apply body_record; [|done]. intros Hc. apply (Hnp j n Hl).
        by apply body_perfect. }
      intros j' n' Hlt Hl' Hc. apply (Hfirst j' n' Hlt Hl').
      apply body_record; [|done]. intros Hc'. apply (Hnp j' n' Hl').
      by apply body_perfect.
    + intros (Hnp & j & n & -> & Hl & Hb & Hfirst). split.
      { intros j0 n0 Hl0 Hc. apply (Hnp j0 n0 Hl0). by apply body_perfect. }
      exists j, n. repeat split; [done| |].
      { apply body_record; [|done]. exact (Hnp j n Hl). }
      intros j' n' Hlt Hl' Hc. apply (Hfirst j' n' Hlt Hl').
      apply body_record in Hc; [done|]. exact (Hnp j' n' Hl').
  - rewrite findMatch_loop_none, <- none_from_drop.
    split; intros H j n Hl; specialize (H j n Hl).
    + intros Hk. destruct (body n) eqn:Hb; try discriminate.
      assert (Hns : ~ same n).
      { intros Hs. apply body_perfect in Hs. congruence. }
      apply (body_record n Hns) in Hk. congruence.
    + destruct (body n) eqn:Hb; [| |reflexivity]; exfalso; apply H.
      * by apply same_kind, body_perfect.
      * apply body_record; [|done].
        intros Hs. apply body_perfect in Hs. congruence.
Qed.
End FindMatchRules.

Lemma first_from_any (nodes : list PlasmicASTNode) (start i : nat) :
  first_from (fun _ => True) nodes start i <->
  i = start /\ start < List.length nodes.
Proof.
  unfold first_from. split.
  - intros (Hle & (n & Hn & _) & Hfirst).
    destruct (decide (i = start)) as [->|Hne].
    + split; [done|]. by eapply lookup_lt_Some.
    + exfalso. destruct (lookup_lt_is_Some_2 nodes start) as [n' Hn'].
      { apply lookup_lt_Some in Hn. lia. }
      apply (Hfirst start n'); [lia|done|done].
  - intros [-> Hlt]. split; [done|]. split.
    + destruct (lookup_lt_is_Some_2 nodes start Hlt) as [n Hn]. by exists n.
    + intros j n Hj. lia.
Qed.

Lemma none_from_any (nodes : list PlasmicASTNode) (start : nat) :
  none_from (fun _ => True) nodes start <-> List.length nodes <= start.
Proof.
  unfold none_from. split.
  - intros H. destruct (decide (List.length nodes <= start)) as [|Hlt]; [done|].
    destruct (lookup_lt_is_Some_2 nodes start) as [n Hn]; [lia|].
    by destruct (H start n).
  - intros Hlen j n Hj Hn. apply lookup_lt_Some in Hn. lia.
Qed.

(** X3.  For an [arg] probe the result is [perfect i] exactly when [i] is the
    first index at or after [start] holding an [arg] node with the probe's
    [argName]; it is [type i] exactly when there is none and [i] is the first
    index at or after [start] holding an [arg] node; it is [none] exactly
    when no [arg] node is at or after [start].  For a [tag-or-component]
    probe the result is [perfect i] exactly when [i] is the first index at or
    after [start] holding a [tag-or-component] node whose name the checker
    accepts; without such a node the result is [type start] whenever [start]
    is an index of [nodes], whatever the node there is, and [none] only past
    the end.  For an [opaque] probe the result is always [none]. *)
Theorem findMatch_arg_and_tag_rules (nodes : list PlasmicASTNode) (start : nat)
    (equiv : string -> string -> bool) (p : PlasmicASTNode) :
  match p with
  | PlasmicArg _ _ argName _ =>
      let same := fun n =>
        match n with PlasmicArg _ _ a _ => a = argName | _ => False end in
      let kind := fun n => node_type n = Varg in
      (forall i, findMatch nodes start equiv p = perfect i <->
                 first_from same nodes start i)
      /\ (forall i, findMatch nodes start equiv p = type_match i <->
                    none_from same nodes start /\ first_from kind nodes start i)
      /\ (findMatch nodes start equiv p = none <-> none_from kind nodes start)
  | PlasmicTag _ t =>
      let same := fun n =>
        match n with
        | PlasmicTag _ ti =>
            equiv (jsx_nameInId (tag_jsxElement ti))
              (jsx_nameInId (tag_jsxElement t)) = true
        | _ => False
        end in
      (forall i, findMatch nodes start equiv p = perfect i <->
                 first_from same nodes start i)
      /\ (forall i, findMatch nodes start equiv p = type_match i <->
                    none_from same nodes start
                    /\ i = start /\ start < List.length nodes)
      /\ (findMatch nodes start equiv p = none <-> List.length nodes <= start)
  | PlasmicOpaque _ _ => findMatch nodes start equiv p = none
  | _ => True
  end.
Proof.
  destruct p as [| |oid rawNode argName jsxNodes| |oid t|]; try exact I;
    [| |reflexivity].
  - cbv zeta. unfold findMatch.
    apply findMatch_loop_rules.
    + intros []; simpl; try (split; [discriminate|tauto]).
      destruct (String.eqb_spec argName argName0); split; congruence.
    + intros []; simpl; try (intros _; split; [discriminate|discriminate]).
      destruct (String.eqb_spec argName argName0); [congruence|].
      intros _. by split.
    + intros []; simpl; tauto.
  - cbv zeta. unfold findMatch.
    match goal with
    | |- context [findMatch_loop ?b _ _ _] =>
        pose proof (findMatch_loop_rules b
          (fun n => match n with
                    | PlasmicTag _ ti =>
                        equiv (jsx_nameInId (tag_jsxElement ti))
                          (jsx_nameInId (tag_jsxElement t)) = true
                    | _ => False
                    end)
          (fun _ => True)) as Hrules
    end.
    destruct (Hrules) with (nodes := nodes) (start := start) as (Hp & Ht & Hn).
    + intros []; simpl; try (split; [discriminate|tauto]).
      destruct (equiv _ _); split; congruence.
    + intros []; simpl; try (intros _; by split).
      destruct (equiv _ _); [congruence|]. intros _. by split.
    + done.
    + split; [exact Hp|]. split.
      * intros i. rewrite Ht, first_from_any. tauto.
      * by rewrite Hn, none_from_any.
Qed.

(** ** Children merger: what the loop keeps *)

Lemma splice_sublist {A : Type} (l : list A) (index : nat) (x : A) :
  l `sublist_of` splice l index x.
Proof.
  unfold splice. rewrite <- (take_drop index l) at 1.
  apply sublist_app; [done|]. by apply sublist_cons.
Qed.

Lemma splice_length {A : Type} (l : list A) (index : nat) (x : A) :
  List.length (splice l index x) = S (List.length l).
Proof.
  unfold splice. rewrite length_app. cbn [List.length].
  rewrite length_take, length_drop. lia.
Qed.

Section ChildrenMergerInvariants.
Variables newNode editedNode baseNode : PlasmicTagOrComponent.
Variables newVersion editedVersion baseVersion : CodeVersion.

Let editedChildren := jsx_children (tag_jsxElement editedNode).
Let newChildren := jsx_children (tag_jsxElement newNode).
Let state := mergedChildren_state newNode editedNode baseNode
               newVersion editedVersion baseVersion.
Let step := mergedChildren_step baseNode newVersion editedVersion baseVersion
              editedChildren.

(** One step grows the list by at most one node, keeps what it holds in
    order, and leaves the cursor inside it. *)
Let grows (st st' : list PlasmicASTNode * nat) : Prop :=
  fst st `sublist_of` fst st'
  /\ List.length (fst st') <= S (List.length (fst st))
  /\ snd st' <= List.length (fst st').

Lemma insertEditedNodeIntoNew_grows st c prev :
  snd st <= List.length (fst st) ->
  grows st (insertEditedNodeIntoNew newVersion editedVersion st c prev)
  /\ c ∈ fst (insertEditedNodeIntoNew newVersion editedVersion st c prev).
Proof.
  destruct st as [merged cursor]. cbn [fst snd]. intros Hcursor.
  unfold insertEditedNodeIntoNew, grows.
  destruct prev as [prev|].
  - destruct (findMatch merged cursor _ prev) eqn:Hm; cbn [fst snd];
      rewrite splice_length, elem_of_splice;
      (split; [split; [apply splice_sublist|split; [lia|]]|by left]);
      try lia.
    + assert (cursor <= index < List.length merged); [|lia].
      eapply findMatch_range. left. exact Hm.
    + assert (cursor <= index < List.length merged); [|lia].
      eapply findMatch_range. right. exact Hm.
  - cbn [fst snd]. rewrite splice_length, elem_of_splice.
    split; [split; [apply splice_sublist|split; lia]|by left].
Qed.

Lemma mergedChildren_step_grows st c k :
  snd st <= List.length (fst st) -> grows st (step st c k).
Proof.
  intros Hcursor.
  assert (Hsame : grows st st).
  { unfold grows. split; [done|]. split; [lia|done]. }
  unfold step, mergedChildren_step. destruct st as [merged cursor].
  assert (Htext : grows (merged, cursor)
            match findMatch merged cursor
                    (idMatchChecker newVersion editedVersion) c with
            | perfect index => (merged, index + 1)
            | _ =>
                match findMatch (jsx_children (tag_jsxElement baseNode)) 0
                        (idMatchChecker baseVersion editedVersion) c with
                | perfect _ => (merged, cursor)
                | _ =>
                    insertEditedNodeIntoNew newVersion editedVersion
                      (merged, cursor) c (previousChild editedChildren k)
                end
            end).
  { destruct (findMatch merged cursor _ c) eqn:Hm.
    - unfold grows. cbn [fst snd]. split; [done|]. split; [lia|].
      assert (cursor <= index < List.length merged); [|lia].
      eapply findMatch_range. left. exact Hm.
    - destruct (findMatch (jsx_children _) 0 _ c); try exact Hsame;
        by apply insertEditedNodeIntoNew_grows.
    - destruct (findMatch (jsx_children _) 0 _ c); try exact Hsame;
        by apply insertEditedNodeIntoNew_grows. }
  destruct (node_type c); try exact Hsame; try exact Htext.
  by apply insertEditedNodeIntoNew_grows.
Qed.

Lemma mergedChildren_state_next (k : nat) :
  state (S k) = state k
  \/ exists c, editedChildren !! k = Some c /\ state (S k) = step (state k) c k.
Proof.
  destruct (editedChildren !! k) as [c|] eqn:Hk.
  - right. exists c. split; [done|]. by apply mergedChildren_state_S.
  - left. apply lookup_ge_None in Hk. unfold state.
    rewrite (mergedChildren_state_ge _ _ _ _ _ _ (S k)),
      (mergedChildren_state_ge _ _ _ _ _ _ k); [done|exact Hk|].
    fold editedChildren. lia.
Qed.

Lemma mergedChildren_state_invariant (k : nat) :
  newChildren `sublist_of` fst (state k)
  /\ snd (state k) <= List.length (fst (state k))
  /\ List.length (fst (state k)) <= List.length newChildren + k.
Proof.
  induction k as [|k (Hsub & Hcursor & Hlen)].
  { unfold state. rewrite mergedChildren_state_0. cbn [fst snd].
    fold newChildren. split; [done|]. split; lia. }
  destruct (mergedChildren_state_next k) as [->|(c & _ & ->)].
  - split; [done|]. split; [done|lia].
  - destruct (mergedChildren_step_grows (state k) c k Hcursor) as (H1 & H2 & H3).
    split; [by etrans|]. split; [done|lia].
Qed.

Lemma mergedChildren_state_mono (k k' : nat) :
  k <= k' -> fst (state k) `sublist_of` fst (state k').
Proof.
  induction 1 as [|k' _ IH]; [done|]. etrans; [exact IH|].
  destruct (mergedChildren_state_next k') as [->|(c & _ & ->)]; [done|].
  apply mergedChildren_step_grows, mergedChildren_state_invariant.
Qed.

Lemma mergedChildren_list_state :
  mergedChildren_list newNode editedNode baseNode newVersion editedVersion baseVersion
  = fst (state (List.length editedChildren)).
Proof. reflexivity. Qed.

Lemma mergedChildren_opaque_inserted (i : nat) (c : PlasmicASTNode) :
  editedChildren !! i = Some c -> node_type c = Vopaque ->
  c ∈ mergedChildren_list newNode editedNode baseNode
        newVersion editedVersion baseVersion.
Proof.
  intros Hi Hopaque. rewrite mergedChildren_list_state.
  eapply elem_of_sublist; [|apply (mergedChildren_state_mono (S i))].
  - unfold state. rewrite (mergedChildren_state_S _ _ _ _ _ _ _ _ Hi).
    fold state. unfold mergedChildren_step. destruct (state i) as [merged cursor] eqn:Hst.
    rewrite Hopaque. apply insertEditedNodeIntoNew_grows.
    pose proof (mergedChildren_state_invariant i) as (_ & Hcursor & _).
    by rewrite Hst in Hcursor.
  - apply lookup_lt_Some in Hi. fold editedChildren in Hi. lia.
Qed.
End ChildrenMergerInvariants.

(** X4.  The children merger only ever inserts: after any number of edited
    children the children of the new node are all in the merged list, in
    their order; the list has grown by at most one node for each edited child
    visited; and the insertion cursor is an index of the list or its end. *)
Theorem mergedChildren_only_inserts
    (newNode editedNode baseNode : PlasmicTagOrComponent)
    (newVersion editedVersion baseVersion : CodeVersion) (k : nat) :
  let state := mergedChildren_state newNode editedNode baseNode
                 newVersion editedVersion baseVersion k in
  let newChildren := jsx_children (tag_jsxElement newNode) in
  newChildren `sublist_of` fst state
  /\ snd state <= List.length (fst state)
  /\ List.length (fst state) <= List.length newChildren + k.
Proof. apply mergedChildren_state_invariant. Qed.

(** X5.  An opaque child of the edited node is always in the output of the
    children merger, as its own raw node, whatever the new and the base
    versions hold. *)
Theorem mergedChildren_keeps_opaque
    (self : PlasmicASTNode -> Exc (option Node))
    (newNode editedNode baseNode : PlasmicTagOrComponent)
    (newVersion editedVersion baseVersion : CodeVersion)
    (out : list Node) (c : PlasmicASTNode) :
  mergedChildren self newNode editedNode baseNode
    newVersion editedVersion baseVersion = Ok out ->
  c ∈ jsx_children (tag_jsxElement editedNode) ->
  node_type c = Vopaque ->
  node_rawNode c ∈ out.
Proof.
  intros Hout Hc Hopaque. unfold mergedChildren in Hout.
  apply exc_bind_Ok in Hout as (emitted & Hemitted & Hout).
  injection Hout as <-.
  apply list_elem_of_lookup in Hc as [i Hi].
  pose proof (mergedChildren_opaque_inserted newNode editedNode baseNode
                newVersion editedVersion baseVersion i c Hi Hopaque) as Hin.
  apply list_elem_of_lookup in Hin as [j Hj].
  destruct (exc_mapM_lookup _ _ _ Hemitted j c Hj) as (b & Hb & Hemit).
  unfold withoutNils. apply list_elem_of_omap. exists b.
  split; [by eapply list_elem_of_lookup_2|].
  unfold mergedChildren_emit in Hemit. destruct c; try discriminate.
  cbn [node_rawNode] in *. destruct (negb _); by injection Hemit as <-.
Qed.

Lemma mergedChildren_keeps_opaque_witness :
  mergedChildren (fun _ => Throw) c9_opaque_tag c9_opaque_tag c9_opaque_tag
    c9_opaque_version c9_opaque_version c9_opaque_version
  = Ok [c9_opaque_child; c9_opaque_child]
  /\ c9_opaque_child ∈ [c9_opaque_child; c9_opaque_child].
Proof.
  split; [reflexivity|].
  apply (mergedChildren_keeps_opaque (fun _ => Throw)
           c9_opaque_tag c9_opaque_tag c9_opaque_tag
           c9_opaque_version c9_opaque_version c9_opaque_version
           [c9_opaque_child; c9_opaque_child]
           (PlasmicOpaque 11 c9_opaque_child)).
  - reflexivity.
  - apply list_elem_of_here.
  - reflexivity.
Defined.

(** X6.  An edited child that is a [tag-or-component], an [arg] or a
    [cond-str-call] node is never inserted: when the new node does not hold
    it, the merged list does not hold it either (children compared by
    identity, the edited children being distinct objects). *)
Theorem mergedChildren_never_inserts_managed
    (newNode editedNode baseNode : PlasmicTagOrComponent)
    (newVersion editedVersion baseVersion : CodeVersion)
    (i : nat) (c : PlasmicASTNode) :
  let editedChildren := jsx_children (tag_jsxElement editedNode) in
  let newChildren := jsx_children (tag_jsxElement newNode) in
  editedChildren !! i = Some c ->
  node_type c = Vtag_or_component \/ node_type c = Varg
  \/ node_type c = Vcond_str_call ->
  NoDup (List.map node_oid editedChildren) ->
  node_oid c ∉ List.map node_oid newChildren ->
  node_oid c ∉
    List.map node_oid
      (mergedChildren_list newNode editedNode baseNode
         newVersion editedVersion baseVersion).
Proof.
  intros editedChildren newChildren Hi Hty Hnodup Hfresh Hin.
  assert (Hskip : mergedChildren_state newNode editedNode baseNode
                    newVersion editedVersion baseVersion (S i)
                  = mergedChildren_state newNode editedNode baseNode
                      newVersion editedVersion baseVersion i).
  { rewrite (mergedChildren_state_S _ _ _ _ _ _ _ _ Hi).
    destruct (mergedChildren_state _ _ _ _ _ _ i) as [merged cursor].
    unfold mergedChildren_step. by destruct Hty as [-> | [-> | ->]]. }
  apply list_elem_of_fmap in Hin as (x & Hoid & Hx).
  unfold mergedChildren_list in Hx.
  apply (mergedChildren_state_elem _ _ _ _ _ _ i) in Hx; [|exact Hskip].
  destruct Hx as [Hx|(j & _ & Hne & Hj)].
  - apply Hfresh. apply list_elem_of_fmap. eauto.
  - apply Hne. unfold editedChildren in *.
    eapply NoDup_lookup; [exact Hnodup| |].
    + rewrite list_lookup_fmap, Hj. reflexivity.
    + rewrite list_lookup_fmap, Hi. simpl. by rewrite Hoid.
Qed.

(** ** Attribute merger: attributes that are on one side only *)

Lemma exc_mapM_lookup_inv {A B : Type} (f : A -> Exc B) (l : list A) (bs : list B) :
  exc_mapM f l = Ok bs ->
  forall k b, bs !! k = Some b -> exists a, l !! k = Some a /\ f a = Ok b.
Proof.
  revert bs. induction l as [|a l IH]; intros bs H k b Hk; simpl in H.
  - injection H as <-. by rewrite lookup_nil in Hk.
  - apply exc_bind_Ok in H as (b0 & Hb0 & H).
    apply exc_bind_Ok in H as (bs0 & Hbs0 & [= <-]).
    destruct k as [|k]; simpl in Hk.
    + injection Hk as <-. exists a. by split.
    + destruct (IH bs0 Hbs0 k b Hk) as (a' & Ha' & Hf). exists a'. by split.
Qed.

Lemma elem_of_concat {A : Type} (x : A) (ls : list (list A)) :
  x ∈ List.concat ls <-> exists k l, ls !! k = Some l /\ x ∈ l.
Proof.
  rewrite list_elem_of_In, in_concat. split.
  - intros (l & Hl & Hx). apply list_elem_of_In, list_elem_of_lookup in Hl as [k Hk].
    exists k, l. split; [done|]. by apply list_elem_of_In.
  - intros (k & l & Hk & Hx). exists l. split.
    + apply list_elem_of_In. by eapply list_elem_of_lookup_2.
    + by apply list_elem_of_In.
Qed.

Lemma lastAttrNamed_Some (name : string) (attributes : list Node) (attr : Node) :
  lastAttrNamed name attributes = Some attr ->
  attr ∈ attributes /\ attrNameOf attr = Some name.
Proof.
  intros H. apply last_Some_elem_of, list_elem_of_In, filter_In in H as [Hin Hname].
  split; [by apply list_elem_of_In|]. by apply bool_decide_eq_true in Hname.
Qed.

Lemma lastAttrNamed_None (name : string) (attributes : list Node) (attr : Node) :
  lastAttrNamed name attributes = None ->
  attr ∈ attributes -> attrNameOf attr <> Some name.
Proof.
  intros H Hin Hname. apply last_None in H.
  assert (Hf : In attr (List.filter
                  (fun a => bool_decide (attrNameOf a = Some name)) attributes)).
  { apply filter_In. split; [by apply list_elem_of_In|by apply bool_decide_eq_true]. }
  by rewrite H in Hf.
Qed.

Lemma getNamedAttrs_Ok (jsxElement : Node) (named : list (string * Node)) :
  getNamedAttrs jsxElement = Ok named ->
  forallb hasStringName (jsx_attributes jsxElement) = true
  /\ NoDup named.*1
  /\ (forall name,
        map_get name named = lastAttrNamed name (jsx_attributes jsxElement))
  /\ (forall name attr, (name, attr) ∈ named -> attrNameOf attr = Some name).
Proof.
  intros Hok. unfold getNamedAttrs in Hok.
  destruct (forallb hasStringName (jsx_attributes jsxElement)) eqn:Hall.
  2: { by rewrite (getNamedAttrs_loop_throws _ [] Hall) in Hok. }
  destruct (getNamedAttrs_loop_last _ [] (NoDup_nil_2) Hall)
    as (named' & Hok' & Hnd & Hget).
  rewrite Hok' in Hok. injection Hok as ->.
  assert (Hlast : forall name,
            map_get name named = lastAttrNamed name (jsx_attributes jsxElement)).
  { intros name. rewrite Hget. by destruct (lastAttrNamed _ _). }
  repeat split; try done.
  intros name attr Hin.
  pose proof (map_get_elem name attr named Hnd Hin) as Hm.
  rewrite Hlast in Hm. by apply lastAttrNamed_Some in Hm as [_ ?].
Qed.

Lemma map_get_Some {V : Type} (k : string) (v : V) (m : list (string * V)) :
  map_get k m = Some v -> (k, v) ∈ m.
Proof.
  induction m as [|[k0 v0] m IH]; simpl; [discriminate|].
  destruct (String.eqb_spec k0 k) as [->|Hne].
  - intros [= ->]. apply list_elem_of_here.
  - intros H. by apply list_elem_of_further, IH.
Qed.

Lemma attrNameOf_Some (attr : Node) (name : string) :
  attrNameOf attr = Some name ->
  exists value, attr = JSXAttribute (JSXIdentifier name) value.
Proof.
  destruct attr as [| | | | | | | | | | |nameNode value| | | | |]; try discriminate.
  destruct nameNode; try discriminate. intros [= ->]. by exists value.
Qed.

Section AttributePresence.
Variable deepEqual : Node -> Node -> bool.
Variable serialize : PlasmicASTNode -> Exc (option Node).
Variables newNode editedNode baseNode : PlasmicTagOrComponent.
Variable newVersion : CodeVersion.
Variables newNamed editedNamed baseNamed : list (string * Node).
Variable out : list Node.
Hypothesis merged :
  mergeAttributes deepEqual serialize newNode editedNode baseNode newVersion = Ok out.
Hypothesis new_attrs :
  getNamedAttrs (jsx_rawNode (tag_jsxElement newNode)) = Ok newNamed.
Hypothesis edited_attrs :
  getNamedAttrs (jsx_rawNode (tag_jsxElement editedNode)) = Ok editedNamed.
Hypothesis base_attrs :
  getNamedAttrs (jsx_rawNode (tag_jsxElement baseNode)) = Ok baseNamed.

Let editedNodeId := jsx_nameInId (tag_jsxElement editedNode).

Lemma mergeAttributes_steps :
  exists step1 step2,
    exc_mapM (newAttrsBeforeIdNode_step deepEqual serialize newNode
                editedNamed baseNamed) newNamed = Ok step1
    /\ exc_mapM (mergeAttributes_step deepEqual newNode editedNode newVersion
                   newNamed baseNamed)
         (jsx_attributes (jsx_rawNode (tag_jsxElement editedNode))) = Ok step2
    /\ out = List.concat step1 ++ List.concat step2.
Proof.
  pose proof merged as H. unfold mergeAttributes in H.
  apply exc_bind_Ok in H as (_ & _ & H).
  rewrite new_attrs, edited_attrs, base_attrs in H. cbn [exc_bind] in H.
  apply exc_bind_Ok in H as (mergedAttrs & H1 & H).
  apply exc_bind_Ok in H as (step2 & H2 & [= <-]).
  unfold newAttrsBeforeIdNode in H1.
  apply exc_bind_Ok in H1 as (step1 & H1 & [= <-]).
  by exists step1, step2.
Qed.

(** What Step 1 pushes for the entry [(name, attr)] carries the name
    [name], and is pushed only for an attribute that the edited node has too
    or that the base node has not. *)
Lemma newAttrsBeforeIdNode_step_names (name : string) (attr pushed : Node)
    (l : list Node) :
  attrNameOf attr = Some name ->
  newAttrsBeforeIdNode_step deepEqual serialize newNode editedNamed baseNamed
    (name, attr) = Ok l ->
  pushed ∈ l ->
  attrNameOf pushed = Some name
  /\ (is_Some (map_get name editedNamed) \/ map_get name baseNamed = None).
Proof.
  intros Hname Hstep Hin. unfold newAttrsBeforeIdNode_step in Hstep.
  destruct (String.eqb name "className").
  { injection Hstep as <-. by apply elem_of_nil in Hin. }
  destruct (map_get name editedNamed) as [editedAttr|].
  - split; [|left; by eexists].
    destruct (conflictResolution _ _ _ _ _); injection Hstep as <-;
      try (by apply elem_of_nil in Hin);
      apply list_elem_of_singleton in Hin; by subst.
  - destruct (map_get name baseNamed) as [baseAttr|].
    { injection Hstep as <-. by apply elem_of_nil in Hin. }
    split; [|by right].
    apply exc_bind_Ok in Hstep as (valueNode & _ & Hstep).
    apply exc_bind_Ok in Hstep as (_ & _ & Hstep).
    apply exc_bind_Ok in Hstep as (serialized & _ & Hstep).
    apply exc_bind_Ok in Hstep as (mergedNewValue & _ & Hstep).
    apply exc_bind_Ok in Hstep as (_ & _ & Hstep).
    injection Hstep as <-. apply list_elem_of_singleton in Hin. subst pushed.
    apply attrNameOf_Some in Hname as (value & ->). reflexivity.
Qed.

Lemma emitAttrInEditedNode_name (name : string) (editedAttr emitted : Node) :
  attrNameOf editedAttr = Some name ->
  emitAttrInEditedNode deepEqual newNode editedNode newNamed baseNamed
    name editedAttr = Some emitted ->
  attrNameOf emitted = Some name.
Proof.
  intros Hname Hemit. apply attrNameOf_Some in Hname as (value & ->).
  unfold emitAttrInEditedNode in Hemit.
  destruct (map_get name newNamed) as [newAttr|].
  - destruct (conflictResolution _ _ _ _ _); try discriminate;
      destruct (_ && _); by injection Hemit as <-.
  - destruct (map_get name baseNamed); [discriminate|]. by injection Hemit as <-.
Qed.

(** What Step 2 pushes for an attribute of the edited node: a spread, the id
    attribute [className], or what [emitAttrInEditedNode] returns for the
    attribute. *)
Lemma mergeAttributes_step_names (attrInEditedNode pushed : Node) (l : list Node) :
  hasStringName attrInEditedNode = true ->
  mergeAttributes_step deepEqual newNode editedNode newVersion newNamed baseNamed
    attrInEditedNode = Ok l ->
  pushed ∈ l ->
  attrNameOf pushed = None
  \/ attrNameOf pushed = Some "className"
  \/ exists name,
       attrNameOf attrInEditedNode = Some name
       /\ emitAttrInEditedNode deepEqual newNode editedNode newNamed baseNamed
            name attrInEditedNode = Some pushed.
Proof.
  intros Hshape Hstep Hin. unfold mergeAttributes_step in Hstep.
  destruct attrInEditedNode as [| | | | | | | | | | |nameNode value|arg| | | |];
    try discriminate.
  - destruct nameNode as [| | | | | | |name| | | | | | | | |]; try discriminate.
    cbn [exc_bind] in Hstep.
    match type of Hstep with
    | (if ?b then _ else _) = _ => destruct b
    end.
    + destruct (hasPropsIdSpreador newVersion newNode); injection Hstep as <-;
        apply list_elem_of_singleton in Hin; subst pushed; [by left|right; by left].
    + right. right. exists name. split; [reflexivity|].
      destruct (emitAttrInEditedNode _ _ _ _ _ _ _) as [toEmit|];
        injection Hstep as <-; [|by apply elem_of_nil in Hin].
      apply list_elem_of_singleton in Hin. by subst.
  - assert (Hself : Ok [JSXSpreadAttribute arg] = Ok l -> attrNameOf pushed = None).
    { intros [= <-]. apply list_elem_of_singleton in Hin. by subst. }
    destruct arg as [| | | | |callee arguments| | | | | | | | | | |];
      try (left; by apply Hself).
    destruct (calleeMatch callee _ _); [|left; by apply Hself].
    apply exc_bind_Ok in Hstep as (_ & _ & Hstep).
    destruct (hasPropsIdSpreador newVersion newNode).
    + injection Hstep as <-. apply list_elem_of_singleton in Hin. subst. by left.
    + destruct arguments; injection Hstep as <-.
      * apply list_elem_of_singleton in Hin. subst. right. by left.
      * apply elem_of_cons in Hin as [->|Hin]; [right; by left|].
        apply list_elem_of_singleton in Hin. subst. by left.
Qed.

Lemma mergeAttributes_deleted_absent (name : string) (attr : Node) :
  name <> "className" ->
  is_Some (map_get name baseNamed) ->
  map_get name editedNamed = None \/ map_get name newNamed = None ->
  attr ∈ out -> attrNameOf attr <> Some name.
Proof.
  intros Hclass Hbase Hgone Hin Hattr.
  destruct mergeAttributes_steps as (step1 & step2 & H1 & H2 & ->).
  destruct (getNamedAttrs_Ok _ _ new_attrs) as (_ & HndN & _ & HnamesN).
  destruct (getNamedAttrs_Ok _ _ edited_attrs) as (HshapeE & _ & HlastE & _).
  apply elem_of_app in Hin as [Hin|Hin];
    apply elem_of_concat in Hin as (k & l & Hk & Hin).
  - destruct (exc_mapM_lookup_inv _ _ _ H1 k l Hk) as ([name' attr'] & Hentry & Hstep).
    apply list_elem_of_lookup_2 in Hentry.
    destruct (newAttrsBeforeIdNode_step_names name' attr' attr l
                (HnamesN _ _ Hentry) Hstep Hin) as [Hname' Hwhy].
    assert (name' = name) as -> by congruence.
    pose proof (map_get_elem name attr' newNamed HndN Hentry) as HgetN.
    destruct Hgone as [HgoneE|HgoneN]; [|congruence].
    destruct Hwhy as [[? Hsome]|Hnone]; [congruence|].
    destruct Hbase as [? Hbase]. congruence.
  - destruct (exc_mapM_lookup_inv _ _ _ H2 k l Hk) as (edited & Hedited & Hstep).
    apply list_elem_of_lookup_2 in Hedited.
    assert (Hshape : hasStringName edited = true).
    { apply (proj1 (forallb_forall _ _) HshapeE). by apply list_elem_of_In. }
    destruct (mergeAttributes_step_names edited attr l Hshape Hstep Hin)
      as [Hnone|[Hcls|(name' & Hname' & Hemit)]]; [congruence|congruence|].
    pose proof (emitAttrInEditedNode_name name' edited attr Hname' Hemit) as Hout.
    assert (name' = name) as -> by congruence.
    assert (HgetE : map_get name editedNamed <> None).
    { rewrite HlastE. intros Hnone.
      exact (lastAttrNamed_None _ _ _ Hnone Hedited Hname'). }
    destruct Hgone as [HgoneE|HgoneN]; [done|].
    unfold emitAttrInEditedNode in Hemit. rewrite HgoneN in Hemit.
    destruct Hbase as [? Hbase]. by rewrite Hbase in Hemit.
Qed.

Lemma mergeAttributes_own_kept (attr : Node) :
  attr ∈ jsx_attributes (jsx_rawNode (tag_jsxElement editedNode)) ->
  match attr with
  | JSXSpreadAttribute _ => hasManagedSpread editedNodeId attr = false
  | _ =>
      exists name,
        attrNameOf attr = Some name /\ name <> "className"
        /\ map_get name newNamed = None /\ map_get name baseNamed = None
  end ->
  attr ∈ out.
Proof.
  intros Hin Hown.
  destruct mergeAttributes_steps as (step1 & step2 & H1 & H2 & ->).
  apply list_elem_of_lookup in Hin as [k Hk].
  destruct (exc_mapM_lookup _ _ _ H2 k attr Hk) as (l & Hl & Hstep).
  apply elem_of_app. right. apply elem_of_concat. exists k, l.
  split; [done|].
  assert (Hgoal : l = [attr]); [|rewrite Hgoal; apply list_elem_of_here].
  unfold mergeAttributes_step in Hstep.
  destruct attr as [| | | | | | | | | | |nameNode value|arg| | | |];
    try (destruct Hown as (? & Hname & _); discriminate).
  - destruct Hown as (name & Hname & Hclass & HgoneN & HgoneB).
    apply attrNameOf_Some in Hname as (value' & [= -> ->]).
    cbn [exc_bind] in Hstep. apply String.eqb_neq in Hclass.
    rewrite Hclass in Hstep. cbn [andb] in Hstep.
    unfold emitAttrInEditedNode in Hstep. rewrite HgoneN, HgoneB in Hstep.
    by injection Hstep as <-.
  - destruct arg as [| | | | |callee arguments| | | | | | | | | | |];
      try by injection Hstep as <-.
    simpl in Hown. fold editedNodeId in Hstep. rewrite Hown in Hstep.
    by injection Hstep as <-.
Qed.

Lemma mergeAttributes_new_added (name : string) (attr : Node) :
  map_get name newNamed = Some attr ->
  name <> "className" ->
  map_get name editedNamed = None ->
  map_get name baseNamed = None ->
  exists valueNode mergedNewValue,
    findAttrValueNode name (jsx_attrs (tag_jsxElement newNode)) = Some valueNode
    /\ isJSXExpressionContainer (node_rawNode valueNode) = true
    /\ serialize valueNode = Ok (Some mergedNewValue)
    /\ isJSXExpressionContainer mergedNewValue = true
    /\ JSXAttribute (JSXIdentifier name) (Some mergedNewValue) ∈ out.
Proof.
  intros Hget Hclass HgoneE HgoneB.
  destruct mergeAttributes_steps as (step1 & step2 & H1 & H2 & ->).
  destruct (getNamedAttrs_Ok _ _ new_attrs) as (_ & _ & _ & HnamesN).
  apply map_get_Some in Hget.
  pose proof (HnamesN _ _ Hget) as Hname.
  apply attrNameOf_Some in Hname as (value & ->).
  apply list_elem_of_lookup in Hget as [k Hk].
  destruct (exc_mapM_lookup _ _ _ H1 k _ Hk) as (l & Hl & Hstep).
  unfold newAttrsBeforeIdNode_step in Hstep.
  apply String.eqb_neq in Hclass. rewrite Hclass, HgoneE, HgoneB in Hstep.
  apply exc_bind_Ok in Hstep as (valueNode & Hfind & Hstep).
  apply exc_bind_Ok in Hstep as (? & Hraw & Hstep).
  apply exc_bind_Ok in Hstep as (serialized & Hser & Hstep).
  apply exc_bind_Ok in Hstep as (mergedNewValue & Hsome & Hstep).
  apply exc_bind_Ok in Hstep as (? & Hcontainer & Hstep).
  injection Hstep as <-.
  exists valueNode, mergedNewValue.
  destruct (findAttrValueNode name _) as [v|]; [|discriminate].
  injection Hfind as Hv. subst v.
  destruct serialized as [m|]; [|discriminate]. injection Hsome as Hm. subst m.
  unfold assert in Hraw, Hcontainer.
  destruct (isJSXExpressionContainer (node_rawNode valueNode)); [|discriminate].
  destruct (isJSXExpressionContainer mergedNewValue); [|discriminate].
  repeat split; try done.
  apply elem_of_app. left. apply elem_of_concat. exists k. eexists.
  split; [exact Hl|]. apply list_elem_of_here.
Qed.
End AttributePresence.

(** X6, on an instance: the edited element still holds [Row], the new one
    does not, and [Row] is not in the merged list. *)
Lemma mergedChildren_never_inserts_managed_witness :
  jsx_children (tag_jsxElement x_kept_row_tag) !! 0 = Some (PlasmicTag 22 c9_row)
  /\ 22 ∉ List.map node_oid
            (mergedChildren_list (s6_tag 31 "hello") x_kept_row_tag
               (s6_tag 11 "hello world") s6_new s6_edited s6_base).
Proof.
  split; [reflexivity|].
  apply (mergedChildren_never_inserts_managed (s6_tag 31 "hello") x_kept_row_tag
           (s6_tag 11 "hello world") s6_new s6_edited s6_base
           0 (PlasmicTag 22 c9_row)).
  - reflexivity.
  - left. reflexivity.
  - vm_compute. repeat constructor. apply not_elem_of_nil.
  - vm_compute. intros Hc. apply list_elem_of_In in Hc. simpl in Hc.
    destruct Hc as [Hc|[]]. discriminate.
Defined.

(** X7.  A deleted attribute stays deleted.  When the base node has an
    attribute [name] (other than [className]) that the edited node no longer
    has, or that the new node no longer has, no attribute of the merged
    element carries that name. *)
Theorem mergeAttributes_keeps_deletions
    (deepEqual : Node -> Node -> bool)
    (serialize : PlasmicASTNode -> Exc (option Node))
    (newNode editedNode baseNode : PlasmicTagOrComponent)
    (newVersion : CodeVersion)
    (newNamed editedNamed baseNamed : list (string * Node))
    (out : list Node) (name : string) :
  mergeAttributes deepEqual serialize newNode editedNode baseNode newVersion
  = Ok out ->
  getNamedAttrs (jsx_rawNode (tag_jsxElement newNode)) = Ok newNamed ->
  getNamedAttrs (jsx_rawNode (tag_jsxElement editedNode)) = Ok editedNamed ->
  getNamedAttrs (jsx_rawNode (tag_jsxElement baseNode)) = Ok baseNamed ->
  name <> "className" ->
  is_Some (map_get name baseNamed) ->
  map_get name editedNamed = None \/ map_get name newNamed = None ->
  Forall (fun attr => attrNameOf attr <> Some name) out.
Proof.
  intros Hout HN HE HB Hclass Hbase Hgone. apply Forall_forall. intros attr Hin.
  by eapply (mergeAttributes_deleted_absent deepEqual serialize
               newNode editedNode baseNode newVersion newNamed editedNamed baseNamed
               out Hout HN HE HB name attr).
Qed.

Lemma mergeAttributes_keeps_deletions_witness :
  mergeAttributes deepEqualIgnoreComments (fun _ => Throw)
    (s4_tag "c") x_plain_tag (s4_tag "a") s4_new
  = Ok [classNameAttr "Root"]
  /\ Forall (fun attr => attrNameOf attr <> Some "title") [classNameAttr "Root"].
Proof.
  split; [reflexivity|].
  apply (mergeAttributes_keeps_deletions deepEqualIgnoreComments (fun _ => Throw)
           (s4_tag "c") x_plain_tag (s4_tag "a") s4_new
           [("className", classNameAttr "Root"); ("title", stringAttr "title" "c")]
           [("className", classNameAttr "Root")]
           [("className", classNameAttr "Root"); ("title", stringAttr "title" "a")]).
  - reflexivity.
  - reflexivity.
  - reflexivity.
  - reflexivity.
  - discriminate.
  - by eexists.
  - left. reflexivity.
Defined.

(** X8.  The developer's own attributes are kept as they are: the merged
    attributes hold every spread of the edited element that is not the id
    spread, and every named attribute of the edited element (other than
    [className]) that neither the new nor the base element has. *)
Theorem mergeAttributes_keeps_own_attributes
    (deepEqual : Node -> Node -> bool)
    (serialize : PlasmicASTNode -> Exc (option Node))
    (newNode editedNode baseNode : PlasmicTagOrComponent)
    (newVersion : CodeVersion)
    (newNamed baseNamed : list (string * Node))
    (out : list Node) (attr : Node) :
  mergeAttributes deepEqual serialize newNode editedNode baseNode newVersion
  = Ok out ->
  getNamedAttrs (jsx_rawNode (tag_jsxElement newNode)) = Ok newNamed ->
  getNamedAttrs (jsx_rawNode (tag_jsxElement baseNode)) = Ok baseNamed ->
  attr ∈ jsx_attributes (jsx_rawNode (tag_jsxElement editedNode)) ->
  match attr with
  | JSXSpreadAttribute _ =>
      hasManagedSpread (jsx_nameInId (tag_jsxElement editedNode)) attr = false
  | _ =>
      exists name,
        attrNameOf attr = Some name /\ name <> "className"
        /\ map_get name newNamed = None /\ map_get name baseNamed = None
  end ->
  attr ∈ out.
Proof.
  intros Hout HN HB Hin Hown.
  unfold mergeAttributes in Hout.
  pose proof Hout as H.
  apply exc_bind_Ok in H as (_ & _ & H).
  apply exc_bind_Ok in H as (newNamed' & HN' & H).
  apply exc_bind_Ok in H as (editedNamed & HE & _).
  by eapply (mergeAttributes_own_kept deepEqual serialize
               newNode editedNode baseNode newVersion newNamed editedNamed baseNamed
               out Hout HN HE HB attr).
Qed.

Lemma mergeAttributes_keeps_own_attributes_witness :
  mergeAttributes deepEqualIgnoreComments (fun _ => Throw)
    x_plain_tag x_own_tag x_plain_tag (singleTagVersion 30 "u-root" x_plain_tag)
  = Ok [classNameAttr "Root"; stringAttr "id" "main";
        JSXSpreadAttribute (Identifier "rest")]
  /\ stringAttr "id" "main"
     ∈ [classNameAttr "Root"; stringAttr "id" "main";
        JSXSpreadAttribute (Identifier "rest")].
Proof.
  split; [reflexivity|].
  apply (mergeAttributes_keeps_own_attributes deepEqualIgnoreComments (fun _ => Throw)
           x_plain_tag x_own_tag x_plain_tag
           (singleTagVersion 30 "u-root" x_plain_tag)
           [("className", classNameAttr "Root")]
           [("className", classNameAttr "Root")]).
  - reflexivity.
  - reflexivity.
  - reflexivity.
  - apply list_elem_of_further, list_elem_of_here.
  - exists "id". repeat split. discriminate.
Defined.

(** X9.  An attribute the tool adds is added with its value merged.  When
    the merge of the attributes succeeds and the new element has an attribute
    [name] (other than [className]) that neither the edited nor the base
    element has, then the classified element holds a value node for [name]
    whose raw node is an expression container, that node serializes to an
    expression container, and the merged attributes hold [name] with this
    serialized value. *)
Theorem mergeAttributes_adds_new_attribute
    (deepEqual : Node -> Node -> bool)
    (serialize : PlasmicASTNode -> Exc (option Node))
    (newNode editedNode baseNode : PlasmicTagOrComponent)
    (newVersion : CodeVersion)
    (newNamed editedNamed baseNamed : list (string * Node))
    (out : list Node) (name : string) (attr : Node) :
  mergeAttributes deepEqual serialize newNode editedNode baseNode newVersion
  = Ok out ->
  getNamedAttrs (jsx_rawNode (tag_jsxElement newNode)) = Ok newNamed ->
  getNamedAttrs (jsx_rawNode (tag_jsxElement editedNode)) = Ok editedNamed ->
  getNamedAttrs (jsx_rawNode (tag_jsxElement baseNode)) = Ok baseNamed ->
  map_get name newNamed = Some attr ->
  name <> "className" ->
  map_get name editedNamed = None ->
  map_get name baseNamed = None ->
  exists valueNode mergedNewValue,
    findAttrValueNode name (jsx_attrs (tag_jsxElement newNode)) = Some valueNode
    /\ isJSXExpressionContainer (node_rawNode valueNode) = true
    /\ serialize valueNode = Ok (Some mergedNewValue)
    /\ isJSXExpressionContainer mergedNewValue = true
    /\ JSXAttribute (JSXIdentifier name) (Some mergedNewValue) ∈ out.
Proof.
  intros Hout HN HE HB.
  exact (mergeAttributes_new_added deepEqual serialize
           newNode editedNode baseNode newVersion newNamed editedNamed baseNamed
           out Hout HN HE HB name attr).
Qed.

Lemma mergeAttributes_adds_new_attribute_witness :
  exists valueNode mergedNewValue,
    findAttrValueNode "title" (jsx_attrs (tag_jsxElement x_title_tag))
    = Some valueNode
    /\ isJSXExpressionContainer (node_rawNode valueNode) = true
    /\ serializePlasmicASTNode_with (fun _ => Throw) valueNode
       = Ok (Some mergedNewValue)
    /\ isJSXExpressionContainer mergedNewValue = true
    /\ JSXAttribute (JSXIdentifier "title") (Some mergedNewValue)
       ∈ [exprAttr "title" (Identifier "t"); classNameAttr "Root"].
Proof.
  apply (mergeAttributes_adds_new_attribute deepEqualIgnoreComments
           (serializePlasmicASTNode_with (fun _ => Throw))
           x_title_tag x_plain_tag x_plain_tag
           (singleTagVersion 30 "u-root" x_title_tag)
           [("className", classNameAttr "Root");
            ("title", exprAttr "title" (Identifier "t"))]
           [("className", classNameAttr "Root")]
           [("className", classNameAttr "Root")]
           _ "title" (exprAttr "title" (Identifier "t"))).
  - reflexivity.
  - reflexivity.
  - reflexivity.
  - reflexivity.
  - reflexivity.
  - discriminate.
  - reflexivity.
  - reflexivity.
Defined.

(** ** Visibility reconciler: what is left of the calls, and a missing element *)

Section ShowToTrue.
Variable editedNodeId : string.

Let hook := showToTrueHook editedNodeId.
Let clean : Node -> Prop := fun m => isShowCall editedNodeId m = false.
Let identifierName (n : Node) : option string :=
  match n with Identifier x => Some x | _ => None end.

Lemma showToTrue_unfold (n : Node) :
  cloneDeepWithHook hook n
  = if isShowCall editedNodeId n then BooleanLiteral true
    else mapChildren (cloneDeepWithHook hook) n.
Proof.
  rewrite cloneDeepWithHook_unfold. unfold hook, showToTrueHook.
  by destruct (isShowCall editedNodeId n).
Qed.

Lemma showToTrue_identifierName (n : Node) :
  identifierName (cloneDeepWithHook hook n) = identifierName n.
Proof.
  rewrite showToTrue_unfold. destruct (isShowCall editedNodeId n) eqn:E.
  - by destruct n.
  - by destruct n.
Qed.

Lemma memberExpressionMatch_names (a b : Node) (object member : string) :
  memberExpressionMatch (MemberExpression a b) object member
  = match identifierName a, identifierName b with
    | Some o, Some p => String.eqb o object && String.eqb p member
    | _, _ => false
    end.
Proof. by destruct a, b. Qed.

Lemma showToTrue_callee (c : Node) (member : string) :
  calleeMatch (cloneDeepWithHook hook c) helperObject member
  = calleeMatch c helperObject member.
Proof.
  unfold calleeMatch.
  destruct c as [| | | |o p| | | | | | | | | | | |];
    try (rewrite showToTrue_unfold; by destruct (isShowCall _ _)).
  rewrite showToTrue_unfold. cbn [isShowCall mapChildren].
  by rewrite !memberExpressionMatch_names, !showToTrue_identifierName.
Qed.

Lemma showToTrue_clean (n : Node) :
  Forall clean (subnodes (cloneDeepWithHook hook n)).
Proof.
  induction n using Node_nested_ind; rewrite showToTrue_unfold;
    (destruct (isShowCall editedNodeId _) eqn:Hcall;
     [by repeat constructor|]);
    cbn [mapChildren subnodes];
    (constructor;
     [unfold clean; cbn [isShowCall]; rewrite ?showToTrue_callee; exact Hcall || reflexivity|]);
    rewrite ?Forall_app; repeat split;
    try assumption; try (apply Forall_flat_map_subnodes; assumption);
    try (by constructor);
    try match goal with
    | |- Forall _ (match option_map _ ?o with _ => _ end) =>
        destruct o; simpl; [eauto|constructor]
    end.
Qed.

Lemma showToTrue_descendants_clean (n : Node) :
  Forall clean (descendants (mapChildren (cloneDeepWithHook hook) n)).
Proof.
  pose proof showToTrue_clean as Hall. unfold descendants.
  destruct n; cbn [mapChildren subnodes tail];
    rewrite ?Forall_app; repeat split;
    try apply Hall;
    try (apply Forall_flat_map_subnodes, Forall_forall; intros; apply Hall);
    try (by constructor);
    try match goal with
    | |- Forall _ (match option_map _ ?o with _ => _ end) =>
        destruct o; simpl; [apply Hall|constructor]
    end.
Qed.
End ShowToTrue.



Section WrapNotFound.
Variable start : option nat.
Variable newNodeId : string.

Let visitor := showWrapVisitor start newNodeId.
Let absent (l : list Node) : Prop := existsb (isElementAt start) l = false.
Let visited (n : Node) : Prop :=
  absent (subnodes n) -> forall inHtml, visitor inHtml false n = (false, n).

Lemma showWrap_traverse_list (l : list Node) (inHtml : bool) :
  Forall visited l -> absent (flat_map subnodes l) ->
  traverse_list visitor inHtml false l = (false, l).
Proof.
  unfold absent. induction 1 as [|x l Hx _ IH]; intros Habsent; [reflexivity|].
  cbn [flat_map] in Habsent. rewrite existsb_app in Habsent.
  apply orb_false_iff in Habsent as [Hax Hal].
  cbn [traverse_list]. by rewrite (Hx Hax), (IH Hal).
Qed.

Lemma showWrap_traverse_option (o : option Node) :
  (forall v, o = Some v -> visited v) ->
  absent (match o with Some v => subnodes v | None => [] end) ->
  traverse_option visitor false o = (false, o).
Proof.
  intros Ho Habsent. destruct o as [v|]; [|reflexivity].
  cbn [traverse_option]. by rewrite (Ho v eq_refl Habsent).
Qed.

Lemma showWrapVisitor_not_element (n : Node) (inHtml : bool) :
  isElementAt start n = false ->
  visitor inHtml false n = traverse visitor false n.
Proof.
  intros H. destruct n; try reflexivity.
  unfold visitor. cbn [showWrapVisitor]. simpl in H. by rewrite H.
Qed.

Ltac split_absent H :=
  unfold absent in H; cbn [subnodes tail existsb] in H;
  rewrite ?existsb_app, ?orb_false_iff in H;
  repeat match goal with H' : _ /\ _ |- _ => destruct H' end.

Ltac traverse_children :=
  cbn [traverse];
  repeat match goal with
         | IH : visited ?c |- context [visitor _ false ?c] =>
             rewrite IH by assumption; clear IH
         | IH : Forall _ ?l |- context [traverse_list _ ?h false ?l] =>
             rewrite (showWrap_traverse_list l h IH) by assumption; clear IH
         | IH : forall v, ?o = Some v -> visited v
           |- context [traverse_option _ false ?o] =>
             rewrite (showWrap_traverse_option o IH) by assumption; clear IH
         end;
  reflexivity.

Lemma showWrapVisitor_absent (n : Node) : visited n.
Proof.
  induction n using Node_nested_ind; intros Habsent inHtml;
    split_absent Habsent;
    rewrite showWrapVisitor_not_element by assumption;
    traverse_children.
Qed.

Lemma showWrap_traverse_absent (n : Node) :
  absent (descendants n) -> traverse visitor false n = (false, n).
Proof.
  intros Habsent. unfold descendants in Habsent.
  pose proof showWrapVisitor_absent as Hall.
  destruct n; split_absent Habsent; cbn [traverse];
    repeat first
      [ rewrite Hall by assumption
      | rewrite showWrap_traverse_list
          by (try assumption; apply Forall_forall; intros; apply Hall)
      | rewrite showWrap_traverse_option
          by (try assumption; intros; apply Hall) ];
    reflexivity.
Qed.
End WrapNotFound.

(** X11.  When no JSX element below the root of the clone sits at the source
    offset looked for, the second traversal of the reconciler changes
    nothing: the clone comes back as it is, without the visibility gate. *)
Theorem wrapElementAt_without_element (start : option nat) (newNodeId : string)
    (n : Node) :
  existsb (isElementAt start) (descendants n) = false ->
  wrapElementAt start newNodeId n = n.
Proof.
  intros Habsent. unfold wrapElementAt.
  by rewrite (showWrap_traverse_absent start newNodeId n Habsent).
Qed.

Lemma wrapElementAt_without_element_witness :
  wrapElementAt (Some 99) "Row" s5_conditional = s5_conditional.
Proof.
  apply (wrapElementAt_without_element (Some 99) "Row" s5_conditional).
  reflexivity.
Defined.

(** ** The marker comment: written by [mergeFiles], read by
    [tryExtractPlasmicJsxExpression] *)

Lemma span_string_digits (d : Decimal.uint) :
  span_string isDigitChar (NilEmpty.string_of_uint d)
  = (NilEmpty.string_of_uint d, EmptyString).
Proof.
  induction d as [|d IH|d IH|d IH|d IH|d IH|d IH|d IH|d IH|d IH|d IH];
    cbn [NilEmpty.string_of_uint span_string]; try reflexivity;
    rewrite IH; reflexivity.
Qed.

Lemma span_string_decimal (d : Decimal.uint) :
  span_string isDigitChar (NilZero.string_of_uint d)
  = (NilZero.string_of_uint d, EmptyString).
Proof.
  destruct d; try reflexivity; apply span_string_digits.
Qed.

Lemma string_of_uint_nonempty (d : Decimal.uint) :
  (String.length (NilZero.string_of_uint d) =? 0)%nat = false.
Proof. destruct d; reflexivity. Qed.

Lemma uint_of_string_of_uint (d : Decimal.uint) :
  N.of_uint <$> NilZero.uint_of_string (NilZero.string_of_uint d)
  = Some (N.of_uint d).
Proof.
  destruct d; try reflexivity; rewrite NilZero.usu; done.
Qed.

Lemma revisionOfMarker_markerOfRevision (revision : N) :
  revisionOfMarker (markerOfRevision revision) = Some revision.
Proof.
  unfold revisionOfMarker, markerOfRevision.
  set (digits := NilZero.string_of_uint (N.to_uint revision)).
  change (span_string isSpaceChar (" plasmic-managed-jsx/" +:+ digits))
    with (" ", "plasmic-managed-jsx/" +:+ digits).
  cbv beta iota.
  change (strip_prefix "plasmic-managed-jsx/" ("plasmic-managed-jsx/" +:+ digits))
    with (Some digits).
  cbv beta iota. subst digits.
  rewrite span_string_decimal. cbn [span_string].
  rewrite string_of_uint_nonempty. cbn [orb negb String.length Nat.eqb].
  rewrite uint_of_string_of_uint, DecimalN.Unsigned.of_to. reflexivity.
Qed.

Lemma find_marker_first (before after : list string) (c : string) (rev : N) :
  Forall (fun c => revisionOfMarker c = None) before ->
  revisionOfMarker c = Some rev ->
  List.find (fun c => bool_decide (is_Some (revisionOfMarker c)))
    (before ++ c :: after) = Some c.
Proof.
  intros Hbefore Hc. induction Hbefore as [|c' before Hc' _ IH]; cbn [app List.find].
  - rewrite bool_decide_eq_true_2; [reflexivity|]. rewrite Hc. eauto.
  - rewrite bool_decide_eq_false_2; [exact IH|]. rewrite Hc'. by intros [? ?].
Qed.

(** X12.  The marker comment that [mergeFiles] writes for a revision (a
    safe integer) is read back by [tryExtractPlasmicJsxExpression] as that
    revision: on an assignment or a [return] with an argument whose earlier
    leading comments are not markers, it yields the expression, the comment
    written and the revision. *)
Theorem marker_round_trip (revision : N) (isAssign : bool) (expression : Node)
    (before after : list string) :
  (revision < 2 ^ 53)%N ->
  Forall (fun c => revisionOfMarker c = None) before ->
  tryExtractPlasmicJsxExpression
    {| isAssignment := isAssign;
       candidate_leadingComments := before ++ markerOfRevision revision :: after;
       candidate_expression := Some expression |}
  = Ok (Some (expression, markerOfRevision revision, revision)).
Proof.
  intros _ Hbefore. unfold tryExtractPlasmicJsxExpression.
  cbn [candidate_leadingComments candidate_expression isAssignment].
  rewrite (find_marker_first _ _ _ revision Hbefore)
    by apply revisionOfMarker_markerOfRevision.
  rewrite revisionOfMarker_markerOfRevision.
  by destruct isAssign.
Qed.

Lemma marker_round_trip_witness :
  tryExtractPlasmicJsxExpression
    {| isAssignment := false;
       candidate_leadingComments :=
         [" eslint-disable-next-line"] ++ markerOfRevision 12 :: [" trailing note"];
       candidate_expression := Some (Identifier "tree") |}
  = Ok (Some (Identifier "tree", " plasmic-managed-jsx/12", 12%N)).
Proof.
  apply (marker_round_trip 12 false (Identifier "tree")
           [" eslint-disable-next-line"] [" trailing note"]).
  - reflexivity.
  - by repeat constructor.
Defined.

Lemma findPlasmicJsx_skip (before rest : list JsxCandidate) :
  Forall (fun node =>
            Forall (fun c => revisionOfMarker c = None)
              (candidate_leadingComments node)) before ->
  findPlasmicJsx (before ++ rest) = findPlasmicJsx rest.
Proof.
  induction 1 as [|node before Hnode _ IH]; [reflexivity|].
  cbn [app findPlasmicJsx]. unfold tryExtractPlasmicJsxExpression.
  replace (List.find _ (candidate_leadingComments node)) with (@None string).
  - exact IH.
  - symmetry. induction Hnode as [|c cs Hc _ IHc]; [reflexivity|].
    cbn [List.find]. rewrite bool_decide_eq_false_2; [exact IHc|].
    rewrite Hc. by intros [? ?].
Qed.

(** X13.  [tryParseComponentSkeletonFile] stops at the first assignment or
    [return] that carries a marker comment, and takes the first marker among
    its leading comments: later candidates and later comments are never
    looked at.  When that first candidate is a [return] without an argument
    the search throws instead of going on. *)
Theorem findPlasmicJsx_first_marker (before after : list JsxCandidate)
    (node : JsxCandidate) (earlier later : list string) (c : string) (rev : N) :
  Forall (fun node =>
            Forall (fun c => revisionOfMarker c = None)
              (candidate_leadingComments node)) before ->
  candidate_leadingComments node = earlier ++ c :: later ->
  Forall (fun c => revisionOfMarker c = None) earlier ->
  revisionOfMarker c = Some rev ->
  findPlasmicJsx (before ++ node :: after)
  = match candidate_expression node with
    | Some expression => Ok (Some (expression, c, rev))
    | None => Throw
    end.
Proof.
  intros Hbefore Hcomments Hearlier Hc.
  rewrite findPlasmicJsx_skip by exact Hbefore.
  cbn [findPlasmicJsx]. unfold tryExtractPlasmicJsxExpression.
  rewrite Hcomments, (find_marker_first _ _ _ _ Hearlier Hc), Hc.
  by destruct (isAssignment node), (candidate_expression node).
Qed.

Lemma findPlasmicJsx_first_marker_witness :
  findPlasmicJsx
    ([{| isAssignment := true; candidate_leadingComments := [" a note"];
         candidate_expression := Some (Identifier "x") |}]
     ++ {| isAssignment := false;
           candidate_leadingComments :=
             [" plasmic-managed-jsx/x"; "  plasmic-managed-jsx/3 ";
              " plasmic-managed-jsx/4"];
           candidate_expression := None |}
     :: [{| isAssignment := false;
            candidate_leadingComments := [" plasmic-managed-jsx/5"];
            candidate_expression := Some (Identifier "y") |}])
  = Throw.
Proof.
  apply (findPlasmicJsx_first_marker
           [{| isAssignment := true; candidate_leadingComments := [" a note"];
               candidate_expression := Some (Identifier "x") |}]
           [{| isAssignment := false;
               candidate_leadingComments := [" plasmic-managed-jsx/5"];
               candidate_expression := Some (Identifier "y") |}]
           {| isAssignment := false;
              candidate_leadingComments :=
                [" plasmic-managed-jsx/x"; "  plasmic-managed-jsx/3 ";
                 " plasmic-managed-jsx/4"];
              candidate_expression := None |}
           [" plasmic-managed-jsx/x"]
           [" plasmic-managed-jsx/4"] "  plasmic-managed-jsx/3 " 3).
  - by repeat constructor.
  - reflexivity.
  - by repeat constructor.
  - reflexivity.
Defined.

(** ** Project sync data as JSON *)

Lemma map_set_fresh {V : Type} (k : string) (v : V) (m : list (string * V)) :
  k ∉ m.*1 -> map_set k v m = m ++ [(k, v)].
Proof.
  induction m as [|[k0 v0] m IH]; intros Hk; cbn [map_set app]; [reflexivity|].
  cbn [fmap list_fmap fst] in Hk. apply not_elem_of_cons in Hk as [Hne Hk].
  destruct (String.eqb_spec k0 k) as [->|_]; [done|]. by rewrite IH.
Qed.

Lemma foldl_map_set_fresh {V : Type} (entries acc : list (string * V)) :
  NoDup (acc ++ entries).*1 ->
  foldl (fun m entry => map_set (fst entry) (snd entry) m) acc entries
  = acc ++ entries.
Proof.
  revert acc. induction entries as [|[k v] entries IH]; intros acc Hnd;
    cbn [foldl fst snd].
  - by rewrite app_nil_r.
  - rewrite map_set_fresh.
    + rewrite IH; rewrite <- app_assoc; [reflexivity|exact Hnd].
    + rewrite fmap_app in Hnd. apply NoDup_app in Hnd as (_ & Hdisj & _).
      intros Hin. apply (Hdisj k Hin). apply list_elem_of_here.
Qed.

Lemma foldl_map_set_NoDup {V : Type} (entries acc : list (string * V)) :
  NoDup acc.*1 ->
  NoDup (foldl (fun m entry => map_set (fst entry) (snd entry) m) acc entries).*1.
Proof.
  revert acc. induction entries as [|[k v] entries IH]; intros acc Hnd;
    cbn [foldl]; [exact Hnd|].
  apply IH. by apply map_set_NoDup.
Qed.

Lemma foldl_map_set_get {V : Type} (k : string) (entries acc : list (string * V)) :
  map_get k (foldl (fun m entry => map_set (fst entry) (snd entry) m) acc entries)
  = match lastEntry k entries with
    | Some v => Some v
    | None => map_get k acc
    end.
Proof.
  revert acc. induction entries as [|[k0 v0] entries IH]; intros acc;
    cbn [foldl fst snd]; [reflexivity|].
  rewrite IH. unfold lastEntry. cbn [List.filter fst].
  destruct (String.eqb_spec k0 k) as [->|Hne].
  - destruct (List.filter _ entries) as [|e rest] eqn:Hf.
    + cbn. by rewrite map_get_set, String.eqb_refl.
    + rewrite last_cons_cons.
      destruct (last (e :: rest)) eqn:Hl; [reflexivity|by apply last_None in Hl].
  - destruct (snd <$> last (List.filter _ entries)); [reflexivity|].
    rewrite map_get_set. by destruct (String.eqb_spec k0 k).
Qed.

(** X14.  Reading back what [toJSON] wrote gives the model again: the map of
    names comes back with the same entries in the same order (a [Map] holds
    each key once).  On any array of entries [fromJsObject] builds a proper
    map, in which a key bound several times has the value of its last
    entry. *)
Theorem projectFromJson_projectToJSON :
  (forall m : ProjectSyncMetadataModel,
      Forall (fun c => NoDup (csm_nameInIdToUuid c).*1) (components m) ->
      projectFromJson (projectToJSON m) = m) /\
  (forall jsObj : ComponentSkeletonJson,
      NoDup (csm_nameInIdToUuid (fromJsObject jsObj)).*1 /\
      forall name,
        map_get name (csm_nameInIdToUuid (fromJsObject jsObj))
        = lastEntry name (json_nameInIdToUuid jsObj)).
Proof.
  split.
  - intros [cs] Hcs. unfold projectFromJson, projectToJSON. cbn [components] in *.
    f_equal. induction Hcs as [|c cs Hc _ IH]; [reflexivity|].
    cbn [List.map]. rewrite IH. f_equal.
    destruct c as [uuid names content]. unfold fromJsObject, toJSON.
    cbn [json_uuid json_nameInIdToUuid json_fileContent csm_nameInIdToUuid] in *.
    f_equal. unfold mapOfEntries. by rewrite foldl_map_set_fresh.
  - intros jsObj. cbn [fromJsObject csm_nameInIdToUuid]. unfold mapOfEntries. split.
    + apply foldl_map_set_NoDup. constructor.
    + intros name. rewrite foldl_map_set_get.
      by destruct (lastEntry name _).
Qed.

(** ** The comment of a managed import *)

Lemma append_String (c : ascii) (s1 s2 : string) :
  String c s1 +:+ s2 = String c (s1 +:+ s2).
Proof. reflexivity. Qed.

Lemma append_empty (s : string) : EmptyString +:+ s = s.
Proof. reflexivity. Qed.

Lemma append_empty_r (s : string) : s +:+ EmptyString = s.
Proof. induction s as [|c s IH]; [reflexivity|]. by rewrite append_String, IH. Qed.

Lemma span_string_app (p : ascii -> bool) (taken remaining : string) :
  forallb p (list_ascii_of_string taken) = true ->
  match remaining with
  | EmptyString => True
  | String c _ => p c = false
  end ->
  span_string p (taken +:+ remaining) = (taken, remaining).
Proof.
  intros Htaken Hremaining.
  induction taken as [|c taken IH];
    rewrite ?append_String, ?append_empty; cbn [span_string].
  - destruct remaining as [|c remaining]; [reflexivity|].
    cbn [span_string]. by rewrite Hremaining.
  - cbn [list_ascii_of_string forallb] in Htaken.
    apply andb_true_iff in Htaken as [-> Htaken]. by rewrite IH.
Qed.

Lemma strip_prefix_app (p s : string) : strip_prefix p (p +:+ s) = Some s.
Proof.
  induction p as [|c p IH]; rewrite ?append_String, ?append_empty;
    cbn [strip_prefix]; [by destruct s|].
  by rewrite Ascii.eqb_refl.
Qed.

Lemma isSpaceChar_not_word (c : ascii) :
  isWordOrDashChar c = true -> isSpaceChar c = false.
Proof.
  unfold isWordOrDashChar, isSpaceChar. generalize (nat_of_ascii c). intros n.
  rewrite !orb_true_iff, !andb_true_iff, orb_false_iff, andb_false_iff.
  rewrite !Nat.leb_le, !Nat.eqb_eq, Nat.eqb_neq, !Nat.leb_gt. lia.
Qed.

Lemma plasmicImportMatchAt_space (c : ascii) (s : string) :
  isSpaceChar c = true -> plasmicImportMatchAt (String c s) = None.
Proof.
  intros Hc. unfold plasmicImportMatchAt. cbn [strip_prefix].
  destruct (Ascii.eqb_spec "p" c) as [<-|_]; [discriminate|reflexivity].
Qed.

Lemma plasmicImportMatch_spaces (spaces s : string) :
  forallb isSpaceChar (list_ascii_of_string spaces) = true ->
  is_Some (plasmicImportMatchAt s) ->
  plasmicImportMatch (spaces +:+ s) = plasmicImportMatchAt s.
Proof.
  intros Hspaces [m Hm].
  induction spaces as [|c spaces IH]; rewrite ?append_String, ?append_empty.
  - destruct s; cbn [plasmicImportMatch]; by rewrite Hm.
  - cbn [list_ascii_of_string forallb] in Hspaces.
    apply andb_true_iff in Hspaces as [Hc Hspaces].
    cbn [plasmicImportMatch]. rewrite plasmicImportMatchAt_space by exact Hc.
    by apply IH.
Qed.

Lemma length_eqb_0 (s : string) : s <> EmptyString -> (String.length s =? 0)%nat = false.
Proof. by destruct s. Qed.

Lemma plasmicImportMatchAt_wellformed (spaces id tail : string) :
  spaces <> EmptyString ->
  forallb isSpaceChar (list_ascii_of_string spaces) = true ->
  id <> EmptyString ->
  forallb isWordOrDashChar (list_ascii_of_string id) = true ->
  match tail with
  | EmptyString => True
  | String c _ => isWordOrDashChar c = false
  end ->
  plasmicImportMatchAt ("plasmic-import:" +:+ spaces +:+ id +:+ tail)
  = Some (id,
          match tail with
          | String "/" rest =>
              List.find (fun alternative => String.prefix alternative rest)
                importTypeAlternatives
          | _ => None
          end).
Proof.
  intros Hspaces1 Hspaces Hid1 Hid Htail. unfold plasmicImportMatchAt.
  rewrite strip_prefix_app.
  rewrite (span_string_app isSpaceChar spaces (id +:+ tail)); [|exact Hspaces|].
  - rewrite (span_string_app isWordOrDashChar id tail) by assumption.
    by rewrite !length_eqb_0.
  - destruct id as [|c id]; [done|]. rewrite append_String.
    cbn [list_ascii_of_string forallb] in Hid.
    apply andb_true_iff in Hid as [Hc _]. by apply isSpaceChar_not_word.
Qed.

Lemma find_alternative (alternative suffix : string) :
  alternative ∈ importTypeAlternatives ->
  List.find (fun a => String.prefix a (alternative +:+ suffix)) importTypeAlternatives
  = Some alternative.
Proof.
  unfold importTypeAlternatives. rewrite !elem_of_cons, elem_of_nil.
  intros [->|[->|[->|[->|[->|[->|[]]]]]]]; by destruct suffix.
Qed.

(** X15.  [tryParsePlasmicImportSpec] reads the first trailing comment only.
    On a comment [plasmic-import: id] (white space around, an id of letters,
    digits, [_] and [-]) it yields the id with no type; on
    [plasmic-import: id/type] followed by any text, with [type] one of the
    six alternatives of the expression, it yields the id and that type. *)
Theorem tryParsePlasmicImportSpec_wellformed (node : ImportDeclaration)
    (before spaces id : string) (others : list string) :
  forallb isSpaceChar (list_ascii_of_string before) = true ->
  spaces <> EmptyString ->
  forallb isSpaceChar (list_ascii_of_string spaces) = true ->
  id <> EmptyString ->
  forallb isWordOrDashChar (list_ascii_of_string id) = true ->
  (trailingComments node = (before +:+ "plasmic-import:" +:+ spaces +:+ id) :: others ->
   tryParsePlasmicImportSpec node = Some (id, None)) /\
  (forall type suffix,
      type ∈ importTypeAlternatives ->
      trailingComments node
      = (before +:+ "plasmic-import:" +:+ spaces +:+ id +:+ "/" +:+ type +:+ suffix)
          :: others ->
      tryParsePlasmicImportSpec node = Some (id, Some type)).
Proof.
  intros Hbefore Hspaces1 Hspaces Hid1 Hid. unfold tryParsePlasmicImportSpec. split.
  - intros ->.
    pose proof (plasmicImportMatchAt_wellformed spaces id EmptyString
                  Hspaces1 Hspaces Hid1 Hid I) as Hat.
    rewrite append_empty_r in Hat.
    rewrite plasmicImportMatch_spaces; [exact Hat|exact Hbefore|by rewrite Hat].
  - intros type suffix Htype ->.
    pose proof (plasmicImportMatchAt_wellformed spaces id ("/" +:+ type +:+ suffix)
                  Hspaces1 Hspaces Hid1 Hid eq_refl) as Hat.
    change ("/" +:+ type +:+ suffix) with (String "/" (type +:+ suffix)) in Hat at 2.
    cbv beta iota in Hat. rewrite find_alternative in Hat by exact Htype.
    rewrite plasmicImportMatch_spaces; [exact Hat|exact Hbefore|by rewrite Hat].
Qed.

Lemma tryParsePlasmicImportSpec_wellformed_witness :
  tryParsePlasmicImportSpec (namedImport ["A"] "m" " plasmic-import: a_b-7/renderer")
  = Some ("a_b-7", Some "render").
Proof.
  refine (proj2 (tryParsePlasmicImportSpec_wellformed
                   (namedImport ["A"] "m" " plasmic-import: a_b-7/renderer")
                   " " " " "a_b-7" [] _ _ _ _ _) "render" "er" _ _);
    try reflexivity; try discriminate.
  do 2 apply list_elem_of_further. apply list_elem_of_here.
Defined.

(** ** The comparator of managed imports *)

(** X16.  [compareImports] is a consistent comparator, as [Array.sort]
    requires: it returns [0] exactly when the two imports have the same id
    and the same type, swapping the arguments negates the result, and its
    "not after" is transitive. *)
Theorem compareImports_consistent (a b c : PlasmicImportSpec) :
  (compareImports a b = 0%Z <->
   spec_id a = spec_id b /\ spec_type a = spec_type b) /\
  compareImports b a = (- compareImports a b)%Z /\
  ((compareImports a b <= 0)%Z -> (compareImports b c <= 0)%Z ->
   (compareImports a c <= 0)%Z).
Proof.
  split; [|split].
  - rewrite <- Z.eqb_eq, compareImports_eq. unfold import_key.
    split; [by intros [= -> ->]|by intros [-> ->]].
  - rewrite !compareImports_key.
    destruct (key_compare (import_key a) (import_key b)) eqn:Hab.
    + apply key_compare_Eq in Hab. symmetry in Hab.
      apply key_compare_Eq in Hab. by rewrite Hab.
    + apply key_compare_Gt in Hab. by rewrite Hab.
    + apply key_compare_Gt in Hab. by rewrite Hab.
  - rewrite <- !Z.leb_le, !compareImports_le. apply import_le_trans.
Qed.

(** ** The place of the merged imports *)

Lemma removePlasmicImports_kept (l : list Statement) (i : nat)
    (firstImport firstPlasmicImport : option nat) :
  (removePlasmicImports l i firstImport firstPlasmicImport).1.1
  = List.filter (fun stmt => negb (isManagedStatement stmt)) l.
Proof.
  revert i firstImport firstPlasmicImport.
  induction l as [|stmt l IH]; intros i fi fp; [reflexivity|].
  destruct stmt as [node|c];
    cbn [removePlasmicImports List.filter isManagedStatement].
  - destruct (tryParsePlasmicImportSpec node); cbn [negb]; [apply IH|].
    match goal with
    | |- context [removePlasmicImports l ?i ?a ?b] =>
        specialize (IH i a b); destruct (removePlasmicImports l i a b) as [[kept fi'] fp']
    end.
    cbn [fst] in *. by rewrite IH.
  - cbn [negb]. specialize (IH (S i) fi fp).
    destruct (removePlasmicImports l (S i) fi fp) as [[kept fi'] fp'].
    cbn [fst] in *. by rewrite IH.
Qed.

Lemma removePlasmicImports_none_managed (l : list Statement) :
  Forall (fun stmt => isManagedStatement stmt = false) l ->
  forall i k firstPlasmicImport,
    removePlasmicImports l i (Some k) firstPlasmicImport
    = (l, Some k, firstPlasmicImport).
Proof.
  induction 1 as [|stmt l Hstmt _ IH]; intros i k fp; [reflexivity|].
  cbn [removePlasmicImports]. destruct stmt as [node|c].
  - cbn [isManagedStatement] in Hstmt.
    destruct (tryParsePlasmicImportSpec node); [discriminate|]. by rewrite IH.
  - by rewrite IH.
Qed.

Lemma removePlasmicImports_no_import (l : list Statement) :
  Forall (fun stmt => isImportStatement stmt = false) l ->
  forall rest i firstPlasmicImport,
    removePlasmicImports (l ++ rest) i None firstPlasmicImport
    = let '(kept, fi, fp) :=
        removePlasmicImports rest (i + List.length l) None firstPlasmicImport in
      (l ++ kept, fi, fp).
Proof.
  induction 1 as [|stmt l Hstmt _ IH]; intros rest i fp.
  - cbn [app List.length]. rewrite Nat.add_0_r.
    by destruct (removePlasmicImports rest i None fp) as [[kept fi'] fp'].
  - destruct stmt as [node|c]; [discriminate|].
    cbn [app removePlasmicImports List.length]. rewrite IH.
    replace (S i + List.length l) with (i + S (List.length l)) by lia.
    by destruct (removePlasmicImports rest _ None fp) as [[kept fi'] fp'].
Qed.

Lemma allImports_parsed (newBody editedBody : list Statement) :
  Forall parsed_spec
    (List.map clearLeadingComments
       (sort compareImports
          (extractPlasmicImports editedBody ++ extractPlasmicImports newBody))).
Proof.
  apply Forall_map. rewrite sort_Permutation. apply Forall_app. split.
  - exact (extractPlasmicImports_parsed editedBody).
  - exact (extractPlasmicImports_parsed newBody).
Qed.

Lemma mergedPlasmicImports_managed (newBody editedBody : list Statement) :
  Forall (fun stmt => isManagedStatement stmt = true)
    (List.map ImportStatement (mergedPlasmicImports newBody editedBody)).
Proof.
  apply Forall_map. unfold mergedPlasmicImports.
  eapply Forall_impl; [apply mergeAdjacentImports_managed, allImports_parsed|].
  intros node [key Hkey]. cbn [isManagedStatement]. by rewrite Hkey.
Qed.

Lemma filter_managed_all (l : list Statement) :
  Forall (fun stmt => isManagedStatement stmt = true) l ->
  List.filter isManagedStatement l = l /\
  List.filter (fun stmt => negb (isManagedStatement stmt)) l = [].
Proof.
  induction 1 as [|stmt l Hstmt _ [IH1 IH2]]; [done|].
  cbn [List.filter]. by rewrite Hstmt, IH1, IH2.
Qed.

Lemma filter_managed_of_unmanaged (l : list Statement) :
  List.filter isManagedStatement
    (List.filter (fun stmt => negb (isManagedStatement stmt)) l) = [].
Proof.
  induction l as [|stmt l IH]; [reflexivity|]. cbn [List.filter].
  destruct (isManagedStatement stmt) eqn:Hstmt; cbn [negb List.filter]; [exact IH|].
  by rewrite Hstmt.
Qed.

Lemma filter_unmanaged_idem (l : list Statement) :
  List.filter (fun stmt => negb (isManagedStatement stmt))
    (List.filter (fun stmt => negb (isManagedStatement stmt)) l)
  = List.filter (fun stmt => negb (isManagedStatement stmt)) l.
Proof.
  induction l as [|stmt l IH]; [reflexivity|]. cbn [List.filter].
  destruct (isManagedStatement stmt) eqn:Hstmt; cbn [negb List.filter]; [exact IH|].
  by rewrite Hstmt, IH.
Qed.

(** X17.  Whatever the three bodies are, [mergePlasmicImports] leaves the
    statements of the merged file that are not managed imports as they
    were, in their order, and the managed imports of the result are exactly
    the merged ones, in the order of the merge: the managed imports the
    file had are all gone. *)
Theorem mergePlasmicImports_keeps_unmanaged
    (mergedFileBody newBody editedBody : list Statement) :
  let result := mergePlasmicImports mergedFileBody newBody editedBody in
  List.filter (fun stmt => negb (isManagedStatement stmt)) result
  = List.filter (fun stmt => negb (isManagedStatement stmt)) mergedFileBody
  /\ List.filter isManagedStatement result
     = List.map ImportStatement (mergedPlasmicImports newBody editedBody).
Proof.
  cbv zeta. unfold mergePlasmicImports.
  pose proof (removePlasmicImports_kept mergedFileBody 0 None None) as Hkept.
  destruct (removePlasmicImports mergedFileBody 0 None None) as [[body fi] fp].
  cbn [fst] in Hkept. subst body.
  set (at_ := match fp with Some i => i | None => _ end).
  set (kept := List.filter _ mergedFileBody).
  destruct (filter_managed_all _ (mergedPlasmicImports_managed newBody editedBody))
    as [Hall Hnone].
  split.
  - rewrite !List.filter_app, Hnone. cbn [app].
    rewrite <- List.filter_app, take_drop. apply filter_unmanaged_idem.
  - rewrite !List.filter_app, Hall.
    assert (Hsub : forall l, l `sublist_of` kept -> List.filter isManagedStatement l = []).
    { intros l Hl. apply list_filter_nil, Forall_forall. intros stmt Hstmt.
      assert (Hin : stmt ∈ kept) by (eapply elem_of_sublist; eauto).
      apply list_elem_of_In, filter_In in Hin as [_ Hin].
      by destruct (isManagedStatement stmt). }
    rewrite (Hsub _ (sublist_take _ _)), (Hsub _ (sublist_drop _ _)).
    by rewrite app_nil_r.
Qed.

(** X18.  Where the merged imports go: to the place of the first managed
    import of the file; in a file without managed imports, in front of its
    first import declaration; in a file without imports, to the top. *)
Theorem mergePlasmicImports_placement (newBody editedBody : list Statement) :
  let merged := List.map ImportStatement (mergedPlasmicImports newBody editedBody) in
  (forall pre node rest,
      Forall (fun stmt => isManagedStatement stmt = false) pre ->
      isManagedStatement (ImportStatement node) = true ->
      mergePlasmicImports (pre ++ ImportStatement node :: rest) newBody editedBody
      = pre ++ merged
        ++ List.filter (fun stmt => negb (isManagedStatement stmt)) rest) /\
  (forall pre node rest,
      Forall (fun stmt => isImportStatement stmt = false) pre ->
      Forall (fun stmt => isManagedStatement stmt = false)
        (ImportStatement node :: rest) ->
      mergePlasmicImports (pre ++ ImportStatement node :: rest) newBody editedBody
      = pre ++ merged ++ ImportStatement node :: rest) /\
  (forall body,
      Forall (fun stmt => isImportStatement stmt = false) body ->
      mergePlasmicImports body newBody editedBody = merged ++ body).
Proof.
  intros merged. split; [|split].
  - intros pre node rest Hpre Hnode. unfold mergePlasmicImports.
    destruct (removePlasmicImports_block pre node rest Hpre Hnode 0 None)
      as (fi & ->).
    cbn [Nat.add]. fold merged.
    by rewrite take_app_length, drop_app_length.
  - intros pre node rest Hpre Hrest. unfold mergePlasmicImports.
    rewrite removePlasmicImports_no_import by exact Hpre.
    cbn [Nat.add removePlasmicImports].
    pose proof Hrest as Hnode. apply Forall_cons in Hnode as [Hnode Hrest'].
    cbn [isManagedStatement] in Hnode.
    destruct (tryParsePlasmicImportSpec node); [discriminate|].
    rewrite removePlasmicImports_none_managed by exact Hrest'.
    fold merged. by rewrite take_app_length, drop_app_length.
  - intros body Hbody. unfold mergePlasmicImports.
    pose proof (removePlasmicImports_no_import body Hbody [] 0 None) as Hremove.
    rewrite app_nil_r in Hremove. rewrite Hremove. cbn [removePlasmicImports].
    fold merged. by rewrite app_nil_r, take_0, drop_0.
Qed.

Lemma managed_le_keys (a b : PlasmicImportSpec) (na nb : ImportDeclaration) :
  tryParsePlasmicImportSpec na = Some (import_key a) ->
  tryParsePlasmicImportSpec nb = Some (import_key b) ->
  import_le a b -> managed_le na nb.
Proof. unfold managed_le, import_le. by intros -> ->. Qed.

Lemma mergeImports_parsed (a b : ImportDeclaration) :
  tryParsePlasmicImportSpec (mergeImports a b) = tryParsePlasmicImportSpec a.
Proof. reflexivity. Qed.

Lemma mergeAdjacentImports_sorted (allImports : list PlasmicImportSpec) :
  StronglySorted import_le allImports ->
  Forall parsed_spec allImports ->
  StronglySorted managed_le (mergeAdjacentImports allImports)
  /\ Forall (fun node => exists spec, spec ∈ allImports
                         /\ tryParsePlasmicImportSpec node = Some (import_key spec))
       (mergeAdjacentImports allImports).
Proof.
  induction allImports as [|a|a b rest IHrest IHtail] using list_pair_ind;
    intros Hsorted Hparsed; cbn [mergeAdjacentImports].
  - split; constructor.
  - apply Forall_cons in Hparsed as [Ha _]. split.
    + repeat constructor.
    + repeat constructor. exists a. split; [apply list_elem_of_here|exact Ha].
  - apply StronglySorted_inv in Hsorted as [Htail Hle].
    apply Forall_cons in Hparsed as [Ha Hptail].
    pose proof Htail as Htail'. apply StronglySorted_inv in Htail' as [Hrest _].
    pose proof Hptail as Hptail'. apply Forall_cons in Hptail' as [_ Hprest].
    destruct (IHrest Hrest Hprest) as [IH1 IH2].
    destruct (IHtail Htail Hptail) as [IH3 IH4].
    rewrite Forall_forall in Hle.
    destruct (compareImports a b =? 0)%Z.
    + split.
      * constructor; [exact IH1|].
        eapply Forall_impl; [exact IH2|].
        intros node (spec & Hin & Hnode). cbv beta.
        apply (managed_le_keys a spec); [by rewrite mergeImports_parsed|exact Hnode|].
        apply Hle. by apply list_elem_of_further.
      * constructor.
        -- exists a. split; [apply list_elem_of_here|by rewrite mergeImports_parsed].
        -- eapply Forall_impl; [exact IH2|].
           intros node (spec & Hin & Hnode). exists spec.
           split; [by do 2 apply list_elem_of_further|exact Hnode].
    + split.
      * constructor; [exact IH3|].
        eapply Forall_impl; [exact IH4|].
        intros node (spec & Hin & Hnode). cbv beta.
        apply (managed_le_keys a spec); [exact Ha|exact Hnode|]. by apply Hle.
      * constructor.
        -- exists a. split; [apply list_elem_of_here|exact Ha].
        -- eapply Forall_impl; [exact IH4|].
           intros node (spec & Hin & Hnode). exists spec.
           split; [by apply list_elem_of_further|exact Hnode].
Qed.

(** X19.  The merged imports come out ordered by the keys read from their
    own comments: by id, then by type, an import without type first. *)
Theorem mergedPlasmicImports_sorted (newBody editedBody : list Statement) :
  StronglySorted managed_le (mergedPlasmicImports newBody editedBody).
Proof.
  unfold mergedPlasmicImports. apply mergeAdjacentImports_sorted.
  - apply sorted_clearLeadingComments, sort_sorted.
  - apply allImports_parsed.
Qed.

(** ** [mergeFiles]: which components are merged, and against what *)

Section MergeFilesResult.
Variable World : Type.
Variable parse : string -> Exc File.
Variable newCodeVersion : string -> list (string * string) -> Node -> Exc CodeVersion.
Variable code : MergedFile -> string.
Variable formatted : string -> string.
Variable deepEqual : Node -> Node -> bool.
Variable region : ManagedRegion.
Variable fuel : nat.

Lemma updateableComponents_get
    (componentByUuid : list (string * ComponentInfoForMerge))
    (acc updateable : list (string * PlasmicComponentSkeletonFile)) (uuid : string) :
  updateableComponents parse componentByUuid acc = Ok updateable ->
  (forall info, (uuid, info) ∈ componentByUuid ->
     forall parsed,
       tryParseComponentSkeletonFile parse (editedFile info) = Ok (Some parsed) ->
       is_Some (map_get uuid updateable)) /\
  (is_Some (map_get uuid acc) -> is_Some (map_get uuid updateable)) /\
  (forall uuid' info, (uuid', info) ∈ componentByUuid ->
     exists parsed, tryParseComponentSkeletonFile parse (editedFile info) = Ok parsed) /\
  (NoDup acc.*1 -> NoDup updateable.*1).
Proof.
  revert acc. induction componentByUuid as [|[uuid0 info0] rest IH]; intros acc H.
  - injection H as <-. repeat split; try done.
    + intros info Hin. by apply elem_of_nil in Hin.
    + intros uuid' info Hin. by apply elem_of_nil in Hin.
  - cbn [updateableComponents] in H.
    apply exc_bind_Ok in H as (parsedEdited & Hparse & H).
    assert (Hnext : exists acc',
              updateableComponents parse rest acc' = Ok updateable
              /\ (is_Some (map_get uuid acc) -> is_Some (map_get uuid acc'))
              /\ (NoDup acc.*1 -> NoDup acc'.*1)
              /\ (forall p, parsedEdited = Some p -> uuid0 = uuid ->
                    is_Some (map_get uuid acc'))).
    { destruct parsedEdited as [p|].
      - exists (map_set uuid0 p acc). split; [exact H|]. split; [|split].
        + rewrite map_get_set. destruct (String.eqb uuid0 uuid); eauto.
        + apply map_set_NoDup.
        + intros ? _ ->. rewrite map_get_set, String.eqb_refl. eauto.
      - exists acc. by repeat split. }
    destruct Hnext as (acc' & Hrest & Hacc & Hnd & Hhere).
    destruct (IH acc' Hrest) as (IH1 & IH2 & IH3 & IH4).
    split; [|split; [|split]].
    + intros info Hin parsed Hparsed.
      apply elem_of_cons in Hin as [[= <- <-]|Hin].
      * apply IH2. apply (Hhere parsed); [congruence|reflexivity].
      * by apply (IH1 info Hin parsed).
    + intros Hget. by apply IH2, Hacc.
    + intros uuid' info Hin. apply elem_of_cons in Hin as [[= -> ->]|Hin].
      * by exists parsedEdited.
      * by apply (IH3 uuid' info).
    + intros Hnodup. by apply IH4, Hnd.
Qed.

Lemma mergeUpdateable_frame (componentByUuid : list (string * ComponentInfoForMerge))
    (projectId : string) (provider : ProjectSyncDataProviderType World)
    (updateable : list (string * PlasmicComponentSkeletonFile))
    (acc mergedFiles : list (string * string)) (w w' : World) (uuid : string) :
  mergeUpdateable World parse newCodeVersion code formatted deepEqual region fuel
    componentByUuid projectId provider updateable acc w = (Ok mergedFiles, w') ->
  uuid ∉ updateable.*1 ->
  map_get uuid mergedFiles = map_get uuid acc.
Proof.
  revert acc w. induction updateable as [|[uuid0 parsedEdited] rest IH];
    intros acc w H Hnotin.
  - by injection H as <- <-.
  - cbn [mergeUpdateable] in H.
    destruct (provider projectId (revision parsedEdited) w) as [[data| |] w1];
      try discriminate.
    destruct (mergeComponent _ _ _ _ _ _ _ _ _ _ _) as [mergedText| |];
      try discriminate.
    cbn [fmap list_fmap fst] in Hnotin.
    apply not_elem_of_cons in Hnotin as [Hne Hnotin].
    rewrite (IH _ _ H Hnotin), map_get_set.
    destruct (String.eqb_spec uuid0 uuid); [congruence|reflexivity].
Qed.

Lemma reachableWorld_after (provider : ProjectSyncDataProviderType World)
    (projectId : string) (revision : N) (w w0 : World) :
  reachableWorld provider projectId (provider projectId revision w).2 w0 ->
  reachableWorld provider projectId w w0.
Proof.
  induction 1 as [|w1 revision1 _ IH].
  - apply reachable_call, reachable_start.
  - by apply reachable_call.
Qed.

Lemma updateableComponents_value
    (componentByUuid : list (string * ComponentInfoForMerge))
    (acc updateable : list (string * PlasmicComponentSkeletonFile))
    (uuid : string) (parsedEdited : PlasmicComponentSkeletonFile) :
  updateableComponents parse componentByUuid acc = Ok updateable ->
  map_get uuid updateable = Some parsedEdited ->
  map_get uuid acc = Some parsedEdited
  \/ exists info,
       (uuid, info) ∈ componentByUuid
       /\ tryParseComponentSkeletonFile parse (editedFile info)
          = Ok (Some parsedEdited).
Proof.
  revert acc. induction componentByUuid as [|[uuid0 info0] rest IH]; intros acc H Hget.
  - injection H as <-. by left.
  - cbn [updateableComponents] in H.
    apply exc_bind_Ok in H as (parsed0 & Hparse & H).
    destruct parsed0 as [parsed0|].
    + destruct (IH _ H Hget) as [Hacc|(info & Hin & Hinfo)].
      * rewrite map_get_set in Hacc.
        destruct (String.eqb_spec uuid0 uuid) as [->|_]; [|by left].
        injection Hacc as ->. right. exists info0.
        split; [apply list_elem_of_here|exact Hparse].
      * right. exists info. split; [by apply list_elem_of_further|exact Hinfo].
    + destruct (IH _ H Hget) as [Hacc|(info & Hin & Hinfo)]; [by left|].
      right. exists info. split; [by apply list_elem_of_further|exact Hinfo].
Qed.

Lemma mergeUpdateable_entries (componentByUuid : list (string * ComponentInfoForMerge))
    (projectId : string) (provider : ProjectSyncDataProviderType World)
    (updateable : list (string * PlasmicComponentSkeletonFile))
    (acc mergedFiles : list (string * string)) (w w' : World)
    (uuid : string) (parsedEdited : PlasmicComponentSkeletonFile) :
  mergeUpdateable World parse newCodeVersion code formatted deepEqual region fuel
    componentByUuid projectId provider updateable acc w = (Ok mergedFiles, w') ->
  NoDup updateable.*1 ->
  (uuid, parsedEdited) ∈ updateable ->
  exists w0 data mergedText,
    reachableWorld provider projectId w w0
    /\ (provider projectId (revision parsedEdited) w0).1 = Ok data
    /\ mergeComponent parse newCodeVersion code formatted deepEqual region fuel
         componentByUuid uuid parsedEdited data = Ok mergedText
    /\ map_get uuid mergedFiles = Some mergedText.
Proof.
  revert acc w. induction updateable as [|[uuid0 parsed0] rest IH];
    intros acc w H Hnodup Hin; [by apply elem_of_nil in Hin|].
  cbn [mergeUpdateable] in H.
  destruct (provider projectId (revision parsed0) w) as [[data| |] w1] eqn:Hdata;
    try discriminate.
  destruct (mergeComponent _ _ _ _ _ _ _ _ _ _ _) as [mergedText| |] eqn:Hmerge;
    try discriminate.
  cbn [fmap list_fmap fst] in Hnodup. apply NoDup_cons in Hnodup as [Hfresh Hnodup].
  apply elem_of_cons in Hin as [[= -> ->]|Hin].
  - exists w, data, mergedText. rewrite Hdata. split; [apply reachable_start|].
    split; [reflexivity|]. split; [exact Hmerge|].
    rewrite (mergeUpdateable_frame _ _ _ _ _ _ _ _ _ H Hfresh), map_get_set.
    by rewrite String.eqb_refl.
  - destruct (IH _ _ H Hnodup Hin) as (w0 & data0 & text0 & Hreach & Hrest).
    exists w0, data0, text0. split; [|exact Hrest].
    apply (reachableWorld_after provider projectId (revision parsed0)).
    by rewrite Hdata.
Qed.

Lemma map_get_elem_of {V : Type} (k : string) (v : V) (m : list (string * V)) :
  map_get k m = Some v -> (k, v) ∈ m.
Proof.
  induction m as [|[k0 v0] m IH]; cbn [map_get]; [discriminate|].
  destruct (String.eqb_spec k0 k) as [->|_].
  - intros [= ->]. apply list_elem_of_here.
  - intros Hget. by apply list_elem_of_further, IH.
Qed.

(** X20.  When [mergeFiles] returns a mapping, its keys are exactly the
    components that have an entry whose edited file carries the marker, and
    the text under a key is the merge of that component, as parsed from the
    edited file of one of its entries, against the sync data the provider
    returned, in a world of this run, for the revision read from that
    file. *)
Theorem mergeFiles_entries
    (componentByUuid : list (string * ComponentInfoForMerge))
    (projectId : string) (provider : ProjectSyncDataProviderType World) (w w' : World)
    (mergedFiles : list (string * string)) :
  mergeFiles World parse newCodeVersion code formatted deepEqual region fuel
    componentByUuid projectId provider w = (Ok (Some mergedFiles), w') ->
  forall uuid,
    (is_Some (map_get uuid mergedFiles) <->
     exists info parsed,
       (uuid, info) ∈ componentByUuid
       /\ tryParseComponentSkeletonFile parse (editedFile info) = Ok (Some parsed))
    /\ forall mergedText,
         map_get uuid mergedFiles = Some mergedText ->
         exists info parsedEdited w0 data,
           (uuid, info) ∈ componentByUuid
           /\ tryParseComponentSkeletonFile parse (editedFile info)
              = Ok (Some parsedEdited)
           /\ reachableWorld provider projectId w w0
           /\ (provider projectId (revision parsedEdited) w0).1 = Ok data
           /\ mergeComponent parse newCodeVersion code formatted deepEqual region fuel
                componentByUuid uuid parsedEdited data = Ok mergedText.
Proof.
  unfold mergeFiles. intros H uuid.
  destruct (updateableComponents parse componentByUuid []) as [updateable| |]
    eqn:Hupd; try discriminate.
  destruct (List.length updateable =? 0)%nat; [discriminate|].
  destruct (mergeUpdateable _ _ _ _ _ _ _ _ _ _ _ _ _ _) as [[merged| |] w1]
    eqn:Hm; try discriminate.
  cbn [exc_bind] in H. injection H as <- <-.
  destruct (updateableComponents_get _ _ _ uuid Hupd) as (Hmarked & _ & _ & Hnodup).
  specialize (Hnodup (NoDup_nil_2)).
  assert (Hkeys : is_Some (map_get uuid merged) -> is_Some (map_get uuid updateable)).
  { intros Hget.
    destruct (mergeUpdateable_keys _ _ _ _ _ _ _ _ _ _ _ _ _ _ _ _ uuid Hm Hget)
      as [Hacc|Hin]; [by destruct Hacc|exact Hin]. }
  split; [split|].
  - intros Hget.
    destruct (updateableComponents_keys _ _ _ _ uuid Hupd (Hkeys Hget))
      as [Hacc|(info & Hinfo & parsed & Hparsed)]; [by destruct Hacc|].
    by exists info, parsed.
  - intros (info & parsed & Hinfo & Hparsed).
    destruct (Hmarked info Hinfo parsed Hparsed) as [parsedEdited Hget].
    apply map_get_elem_of in Hget.
    destruct (mergeUpdateable_entries _ _ _ _ _ _ _ _ _ _ Hm Hnodup Hget)
      as (_ & _ & mergedText & _ & _ & _ & Htext).
    rewrite Htext. eauto.
  - intros mergedText Htext.
    destruct (Hkeys (ex_intro _ _ Htext)) as [parsedEdited Hget].
    destruct (updateableComponents_value _ _ _ _ _ Hupd Hget)
      as [Hacc|(info & Hinfo & Hparsed)]; [discriminate Hacc|].
    apply map_get_elem_of in Hget.
    destruct (mergeUpdateable_entries _ _ _ _ _ _ _ _ _ _ Hm Hnodup Hget)
      as (w0 & data & mergedText' & Hreach & Hdata & Hmerge & Htext').
    exists info, parsedEdited, w0, data.
    repeat (split; [done|]). congruence.
Qed.

Lemma ensure_Ok {A : Type} (x : option A) (a : A) : ensure x = Ok a -> x = Some a.
Proof. destruct x; [by intros [= ->]|discriminate]. Qed.

(** X21.  [mergeFiles] parses the edited file of every component before it
    merges any: it returns a result, a mapping or [undefined], only when the
    edited file of each component was parsed and searched without an
    exception, whether the file carries the marker or not. *)
Theorem mergeFiles_parses_every_edited_file
    (componentByUuid : list (string * ComponentInfoForMerge))
    (projectId : string) (provider : ProjectSyncDataProviderType World) (w w' : World)
    (result : option (list (string * string))) :
  mergeFiles World parse newCodeVersion code formatted deepEqual region fuel
    componentByUuid projectId provider w = (Ok result, w') ->
  forall uuid info,
    (uuid, info) ∈ componentByUuid ->
    exists parsed,
      tryParseComponentSkeletonFile parse (editedFile info) = Ok parsed.
Proof.
  unfold mergeFiles. intros H uuid info Hin.
  destruct (updateableComponents parse componentByUuid []) as [updateable| |]
    eqn:Hupd.
  - destruct (updateableComponents_get _ _ _ uuid Hupd) as (_ & _ & Hparsed & _).
    by apply (Hparsed uuid info).
  - discriminate.
  - discriminate.
Qed.

(** X22.  A component is merged only when the sync data holds it, its base
    and new files carry the marker and the new file has the managed region.
    The merged file then has the imports of the edited and the new file
    merged into the edited body, and, when the revision of the new file is a
    safe integer, its marker comment reads back as that revision: the next
    merge starts from it. *)
Theorem mergeComponent_marks_new_revision
    (componentByUuid : list (string * ComponentInfoForMerge))
    (componentUuid : string) (parsedEdited : PlasmicComponentSkeletonFile)
    (projectSyncData : ProjectSyncMetadataModel) (mergedText : string) :
  mergeComponent parse newCodeVersion code formatted deepEqual region fuel
    componentByUuid componentUuid parsedEdited projectSyncData = Ok mergedText ->
  exists baseMetadata parsedBase component parsedNew fragment mergedFile,
    List.find (fun c => String.eqb (csm_uuid c) componentUuid)
      (components projectSyncData) = Some baseMetadata
    /\ tryParseComponentSkeletonFile parse (csm_fileContent baseMetadata)
       = Ok (Some parsedBase)
    /\ map_get componentUuid componentByUuid = Some component
    /\ tryParseComponentSkeletonFile parse (newFile component) = Ok (Some parsedNew)
    /\ matchManagedRegion region (newFile component) = Some fragment
    /\ mergedText
       = formatted (replaceManagedRegion region (code mergedFile) fragment)
    /\ merged_body mergedFile
       = mergePlasmicImports (body (file parsedEdited)) (body (file parsedNew))
           (body (file parsedEdited))
    /\ ((revision parsedNew < 2 ^ 53)%N ->
        revisionOfMarker (merged_marker mergedFile) = Some (revision parsedNew)).
Proof.
  unfold mergeComponent. intros H.
  apply exc_bind_Ok in H as (baseMetadata & Hbase & H).
  apply exc_bind_Ok in H as (parsedBaseOpt & HparsedBase & H).
  apply exc_bind_Ok in H as (parsedBase & HparsedBase' & H).
  apply exc_bind_Ok in H as (baseCodeVersion & _ & H).
  apply exc_bind_Ok in H as (component & Hcomponent & H).
  apply exc_bind_Ok in H as (editedCodeVersion & _ & H).
  apply exc_bind_Ok in H as (parsedNewOpt & HparsedNew & H).
  apply exc_bind_Ok in H as (parsedNew & HparsedNew' & H).
  apply exc_bind_Ok in H as (newCodeVersion' & _ & H).
  apply exc_bind_Ok in H as (newJsx & _ & H).
  apply exc_bind_Ok in H as (fragment & Hfragment & H).
  injection H as <-.
  apply ensure_Ok in Hbase, HparsedBase', Hcomponent, HparsedNew', Hfragment.
  subst parsedBaseOpt parsedNewOpt.
  eexists baseMetadata, parsedBase, component, parsedNew, fragment, _.
  do 5 (split; [done|]). split; [reflexivity|]. split; [reflexivity|].
  intros _. apply revisionOfMarker_markerOfRevision.
Qed.
End MergeFilesResult.

Lemma mergeFiles_entries_witness :
  (is_Some (map_get "component-1" [("component-1", "merged")]) <->
   exists info parsed,
     ("component-1", info) ∈ x_components
     /\ tryParseComponentSkeletonFile x_parse (editedFile info) = Ok (Some parsed))
  /\ forall mergedText,
       map_get "component-1" [("component-1", "merged")] = Some mergedText ->
       exists info parsedEdited w0 data,
         ("component-1", info) ∈ x_components
         /\ tryParseComponentSkeletonFile x_parse (editedFile info)
            = Ok (Some parsedEdited)
         /\ reachableWorld x_provider "project-1" tt w0
         /\ (x_provider "project-1" (revision parsedEdited) w0).1 = Ok data
         /\ mergeComponent x_parse (fun _ _ _ => Ok c9_version) (fun _ => "merged")
              (fun text => text) deepEqualIgnoreComments x_region 8
              x_components "component-1" parsedEdited data = Ok mergedText.
Proof.
  apply (mergeFiles_entries unit x_parse (fun _ _ _ => Ok c9_version)
           (fun _ => "merged") (fun text => text) deepEqualIgnoreComments x_region 8
           x_components "project-1" x_provider tt tt [("component-1", "merged")]).
  vm_compute. reflexivity.
Defined.

Lemma mergeFiles_parses_every_edited_file_witness :
  exists parsed,
    tryParseComponentSkeletonFile x_parse (editedFile unmarkedComponent) = Ok parsed.
Proof.
  apply (mergeFiles_parses_every_edited_file unit x_parse
           (fun _ _ _ => Ok c9_version) (fun _ => "merged") (fun text => text)
           deepEqualIgnoreComments x_region 8 x_components "project-1" x_provider
           tt tt (Some [("component-1", "merged")]) eq_refl "component-2").
  apply list_elem_of_further, list_elem_of_here.
Defined.

Lemma mergeComponent_marks_new_revision_witness :
  exists baseMetadata parsedBase component parsedNew fragment mergedFile,
    List.find (fun c => String.eqb (csm_uuid c) "component-1")
      (components {| components :=
                       [{| csm_uuid := "component-1";
                           csm_nameInIdToUuid := [("Root", "u-root"); ("Row", "u-row")];
                           csm_fileContent := "base" |}] |}) = Some baseMetadata
    /\ tryParseComponentSkeletonFile x_parse (csm_fileContent baseMetadata)
       = Ok (Some parsedBase)
    /\ map_get "component-1" x_components = Some component
    /\ tryParseComponentSkeletonFile x_parse (newFile component) = Ok (Some parsedNew)
    /\ matchManagedRegion x_region (newFile component) = Some fragment
    /\ "merged" = replaceManagedRegion x_region "merged" fragment
    /\ merged_body mergedFile
       = mergePlasmicImports (body x_marked_file) (body (file parsedNew))
           (body x_marked_file)
    /\ ((revision parsedNew < 2 ^ 53)%N ->
        revisionOfMarker (merged_marker mergedFile) = Some (revision parsedNew)).
Proof.
  apply (mergeComponent_marks_new_revision x_parse (fun _ _ _ => Ok c9_version)
           (fun _ => "merged") (fun text => text) deepEqualIgnoreComments x_region 8
           x_components "component-1"
           {| jsx := c9_root_element; file := x_marked_file; revision := 3;
              identifyingComment := " plasmic-managed-jsx/3" |}).
  vm_compute. reflexivity.
Defined.
